(** * rgb2hsi: the numeric core of [utils.py] and the helpers of [trainer.py]

    A shallow embedding of the patch tiling planner ([PatchGenerator]), the
    spectral-angle loss ([reconstruction_SADloss]), the MATLAB-style bicubic
    resampler ([cubic], [calculate_weights_indices], [imresize]) and the focal
    frequency loss ([FocalFrequencyLoss]) of [utils.py], with the properties
    the specification states about them; further the text files
    ([text_save], [text_readlines]) and the dataset factories of [utils.py],
    and the learning-rate schedule and the checkpoints of [trainer.py].

    Conventions.  Python integers are [Z].  Real-valued tensor entries are
    exact rationals ([Q]) wherever the property is about the arithmetic that
    the code writes down, and so is the learning rate of [trainer.py]; the
    IEEE special values that the focal frequency loss handles explicitly
    (NaN, infinities) are modelled by the type [xreal]; the cosine similarity of the spectral-angle loss is instantiated
    over binary64 and over the real numbers.  Exceptions raised by the code
    are results in [option] or in a sum type carrying the kind of the
    exception.

    The first part holds the definitions, the second part the properties. *)

From Stdlib Require Import ZArith QArith Qround Qabs Lia Lqa List Bool Morphisms Finite.
From Stdlib Require Import Floats.
From Stdlib Require Reals Lra.
From Stdlib Require Qpower String Ascii DecimalString DecimalZ.
Import ListNotations.

Local Open Scope Z_scope.

(** * Part I: definitions *)

(** ** Python helpers *)

(** [range(n)]: the integers [0 .. n-1], empty when [n <= 0]. *)
Definition range (n : Z) : list Z := map Z.of_nat (seq 0 (Z.to_nat n)).

(** [int(np.ceil(a / b))] for integers [a] and [b <> 0]: the exact ceiling
    of the quotient.  The code forms the quotient in binary64; for
    [0 <= a < 2^53] and [0 < b] the ceiling of the rounded quotient is the
    exact one (a quotient that is no integer lies at least [1 / b] above the
    integer below it, which is more than half a unit in the last place),
    and from [2^53] on the two can differ. *)
Definition ceil_div (a b : Z) : Z := - ((- a) / b).

(** ** PatchGenerator *)

Module PatchGrid.

(** The fields set by [PatchGenerator.__init__]. *)
Record PatchGenerator : Type := mkPatchGenerator {
  H : Z;
  W : Z;
  padding : Z;
  patch_size : Z
}.

(** [_calc_patch_size]: the default patch size is [H // 2 + padding]. *)
Definition _calc_patch_size (H padding : Z) (patch_size : option Z) : Z :=
  match patch_size with
  | None => H / 2 + padding
  | Some p => p
  end.

(** [PatchGenerator(H, W, patch_size, padding)]. *)
Definition init (H W : Z) (patch_size : option Z) (padding : Z) : PatchGenerator :=
  mkPatchGenerator H W padding (_calc_patch_size H padding patch_size).

(** A yielded tuple
    [(h, w, top_padding, left_padding, bottom_padding, right_padding)]. *)
Record patch : Type := mkPatch {
  p_h : Z;
  p_w : Z;
  top_padding : Z;
  left_padding : Z;
  bottom_padding : Z;
  right_padding : Z
}.

(** The offset of tile [i] out of [n] along an axis of length [len]. *)
Definition offset (len patch_size padding n i : Z) : Z :=
  if i =? 0 then 0
  else if i =? n - 1 then len - patch_size
  else i * (patch_size - 2 * padding).

(** The padding at the start side of tile [i]. *)
Definition start_padding (padding i : Z) : Z :=
  if i =? 0 then 0 else padding.

(** The padding at the end side of tile [i] out of [n]; the test for the
    last tile is the [elif] of the test for the first one. *)
Definition end_padding (padding n i : Z) : Z :=
  if i =? 0 then padding
  else if i =? n - 1 then 0
  else padding.

(** [next_patch]: the sequence of tuples the generator yields, rows outer and
    columns inner.  [None] is the [ZeroDivisionError] raised by the block
    count when [patch_size = 2 * padding]. *)
Definition next_patch (g : PatchGenerator) : option (list patch) :=
  let stride := patch_size g - padding g * 2 in
  if stride =? 0 then None
  else
    let H_block_num := ceil_div (H g - padding g * 2) stride in
    let W_block_num := ceil_div (W g - padding g * 2) stride in
    Some (flat_map (fun i =>
      let h := offset (H g) (patch_size g) (padding g) H_block_num i in
      let top := start_padding (padding g) i in
      let bottom := end_padding (padding g) H_block_num i in
      map (fun j =>
        let w := offset (W g) (patch_size g) (padding g) W_block_num j in
        let left := start_padding (padding g) j in
        let right := end_padding (padding g) W_block_num j in
        mkPatch h w top left bottom right) (range W_block_num))
      (range H_block_num)).

(** What the specification says about the paddings of tile [i] out of [n]:
    nominal, except 0 on a side that touches the image edge. *)
Definition spec_start_padding (padding i : Z) : Z :=
  if i =? 0 then 0 else padding.
Definition spec_end_padding (padding n i : Z) : Z :=
  if i =? n - 1 then 0 else padding.

End PatchGrid.

(** ** MATLAB-style bicubic resize *)

Module Resample.

Local Open Scope Q_scope.

(** Exceptions are [None]; [x <- e ;; k] stops at the first one. *)
Notation "x <- e ;; k" := (match e with Some x => k | None => None end)
  (at level 61, e at next level, k at level 200, right associativity).

Definition Qltb (a b : Q) : bool := negb (Qle_bool b a).

(** [cubic(x)].  The two masks [(absx <= 1)] and [(absx > 1) * (absx <= 2)]
    are 0/1 factors. *)
Definition cubic (x : Q) : Q :=
  let absx := Qabs x in
  let absx2 := absx ^ 2 in
  let absx3 := absx ^ 3 in
  ((3#2) * absx3 - (5#2) * absx2 + 1) * (if Qle_bool absx 1 then 1 else 0) +
  (-(1#2) * absx3 + (5#2) * absx2 - 4 * absx + 2) *
    (if Qltb 1 absx && Qle_bool absx 2 then 1 else 0).

(** The only interpolation kernel the module supports. *)
Inductive kernel_name : Type := Cubic.

Definition Qsum (l : list Q) : Q := fold_right Qplus 0 l.

(** [torch.linspace(1, n, n)] and [torch.linspace(0, n - 1, n)]: the integers
    [1 .. n] and [0 .. n - 1]. *)
Definition linspace1 (n : Z) : list Z := map (fun i => (i + 1)%Z) (range n).
Definition linspace0 (n : Z) : list Z := range n.

(** The range of [t.narrow(dim, start, length)] on a dimension of [size]
    entries: the start of the range, counted from the end when negative, or
    the [RuntimeError] of an invalid range. *)
Definition narrow_range (size start length : Z) : option Z :=
  if (length <? 0)%Z || (start <? - size)%Z || (size <? start)%Z then None
  else
    let s := if (start <? 0)%Z then (start + size)%Z else start in
    if (s <=? size - length)%Z then Some s else None.

(** [t.narrow(1, start, length)] on a matrix given as a list of rows with
    [width] columns. *)
Definition narrow1 {A : Type} (width start length : Z) (m : list (list A))
  : option (list (list A)) :=
  s <- narrow_range width start length ;;
  Some (map (fun row => firstn (Z.to_nat length) (skipn (Z.to_nat s) row)) m).

(** [t.min()] and [t.max()] of an integer matrix; an empty matrix raises. *)
Definition tmin (m : list (list Z)) : option Z :=
  match concat m with
  | [] => None
  | a :: l => Some (fold_left Z.min l a)
  end.
Definition tmax (m : list (list Z)) : option Z :=
  match concat m with
  | [] => None
  | a :: l => Some (fold_left Z.max l a)
  end.

(** The number of zero entries in the first and in the last column:
    [torch.sum((weights == 0), 0)] at positions [0] and [-1]. *)
Definition zeros_first (m : list (list Q)) : nat :=
  List.length (filter (fun row => Qeq_bool (hd 0 row) 0) m).
Definition zeros_last (m : list (list Q)) : nat :=
  List.length (filter (fun row => Qeq_bool (last row 0) 0) m).

(** [calculate_weights_indices].  The result is
    [(weights, indices, sym_len_s, sym_len_e)].  [None] stands for an
    exception ([ZeroDivisionError] for [scale = 0], a negative number of
    steps in [linspace], an index into an empty tensor, an invalid [narrow],
    [min] of an empty tensor) and also for a row of weights whose sum is 0:
    the division then gives NaN or infinite weights, which have no rational
    value. *)
Definition calculate_weights_indices (in_length out_length : Z) (scale : Q)
    (kernel : kernel_name) (kernel_width : Q) (antialiasing : bool)
  : option (list (list Q) * list (list Z) * Z * Z) :=
  if Qeq_bool scale 0 then None else
  let kernel_width :=
    if Qltb scale 1 && antialiasing then kernel_width / scale else kernel_width in
  if (out_length <? 0)%Z then None else
  let x := linspace1 out_length in
  let u := map (fun x => inject_Z x / scale + (1#2) * (1 - 1 / scale)) x in
  let left := map (fun u => Qfloor (u - kernel_width / 2)) u in
  let P := (Qceiling kernel_width + 2)%Z in
  if (P <? 0)%Z then None else
  let indices := map (fun l => map (fun k => (l + k)%Z) (linspace0 P)) left in
  let distance_to_center :=
    map (fun ui => map (fun i => fst ui - inject_Z i) (snd ui)) (combine u indices) in
  let weights :=
    if Qltb scale 1 && antialiasing
    then map (map (fun d => scale * cubic (d * scale))) distance_to_center
    else map (map cubic) distance_to_center in
  let weights_sum := map Qsum weights in
  if existsb (fun s => Qeq_bool s 0) weights_sum then None else
  let weights :=
    map (fun ws => map (fun w => w / snd ws) (fst ws)) (combine weights weights_sum) in
  if (P =? 0)%Z then None else
  let weights_zero_first := zeros_first weights in
  let weights_zero_last := zeros_last weights in
  iw <- (if negb (Nat.eqb weights_zero_first 0)
         then i <- narrow1 P 1 (P - 2) indices ;;
              w <- narrow1 P 1 (P - 2) weights ;; Some (i, w, (P - 2)%Z)
         else Some (indices, weights, P)) ;;
  let '(indices, weights, width) := iw in
  iw <- (if negb (Nat.eqb weights_zero_last 0)
         then i <- narrow1 width 0 (P - 2) indices ;;
              w <- narrow1 width 0 (P - 2) weights ;; Some (i, w)
         else Some (indices, weights)) ;;
  let '(indices, weights) := iw in
  mn <- tmin indices ;;
  mx <- tmax indices ;;
  let sym_len_s := (- mn + 1)%Z in
  let sym_len_e := (mx - in_length)%Z in
  let indices := map (map (fun i => (i + sym_len_s - 1)%Z)) indices in
  Some (weights, indices, sym_len_s, sym_len_e).

End Resample.

(** *** Row-wise reading of [calculate_weights_indices]

    Row [x] (for [x] in [1 .. out_length]) of the matrices that the function
    builds column-wise. *)

Module Rows.
Import Resample.
Local Open Scope Q_scope.

Section Row.
Variables (scale kernel_width : Q) (scaled : bool) (P : Z).

Definition urow (x : Z) : Q := inject_Z x / scale + (1#2) * (1 - 1 / scale).
Definition lrow (x : Z) : Z := Qfloor (urow x - kernel_width / 2).
Definition irow (x : Z) : list Z := map (fun k => (lrow x + k)%Z) (linspace0 P).
Definition wfun (d : Q) : Q := if scaled then scale * cubic (d * scale) else cubic d.
Definition wraw (x : Z) : list Q := map (fun i => wfun (urow x - inject_Z i)) (irow x).
Definition wnorm (x : Z) : list Q := map (fun w => w / Qsum (wraw x)) (wraw x).

End Row.
End Rows.

(** The columns [start .. start + len - 1] of a row. *)
Definition cut {A : Type} (start len : nat) (row : list A) : list A :=
  firstn len (skipn start row).

(** The kernel window of an output row: it starts at the row's first index,
    extends over as many positions as the row has weights, and lies inside a
    buffer of [in_length + sym_len_s + sym_len_e] positions. *)
Definition window_inside (in_length sym_len_s sym_len_e : Z)
    (weights_row : list Q) (indices_row : list Z) : Prop :=
  exists first, hd_error indices_row = Some first /\
    (0 <= first)%Z /\
    (first + Z.of_nat (length weights_row) <= in_length + sym_len_s + sym_len_e)%Z.

(** *** [imresize] *)

Module Resize.
Import Resample.
Local Open Scope Z_scope.

(** A tensor of shape (C, H, W): channels, rows, entries. *)
Definition tensor3 : Type := list (list (list Q)).

(** [t.size(0)], [t.size(1)], [t.size(2)]. *)
Definition size0 (t : tensor3) : Z := Z.of_nat (length t).
Definition size1 (t : tensor3) : Z := Z.of_nat (length (hd [] t)).
Definition size2 (t : tensor3) : Z := Z.of_nat (length (hd [] (hd [] t))).

(** Python slices [l[:k]] and [l[k:]]; a negative bound counts from the end. *)
Definition slice_bound {A : Type} (k : Z) (l : list A) : nat :=
  Z.to_nat (if k <? 0 then Z.max 0 (k + Z.of_nat (length l)) else k).
Definition slice_to {A : Type} (k : Z) (l : list A) : list A :=
  firstn (slice_bound k l) l.
Definition slice_from {A : Type} (k : Z) (l : list A) : list A :=
  skipn (slice_bound k l) l.

(** [old] with the entries from position [s] on replaced by [new]. *)
Definition splice {A : Type} (s : nat) (new old : list A) : list A :=
  firstn s old ++ new ++ skipn (s + length new) old.

(** [l] with entry [i] replaced by [v]. *)
Definition set_nth {A : Type} (i : nat) (v : A) (l : list A) : list A :=
  firstn i l ++ v :: skipn (S i) l.

(** The source of a [copy_] expanded to [len] entries along the copied
    dimension: equal sizes, or a single entry that is broadcast. *)
Definition broadcast {A : Type} (len : Z) (src : list A) : option (list A) :=
  if Z.of_nat (length src) =? len then Some src
  else match src with
       | [a] => Some (repeat a (Z.to_nat len))
       | _ => None
       end.

(** [rows.transpose(0, 1).mv(w)] for a slice of [rows] of a buffer with
    [width] columns: entry [j] is the dot product of column [j] with [w]. *)
Definition dot (a b : list Q) : Q :=
  Qsum (map (fun p => (fst p * snd p)%Q) (combine a b)).
Definition mv_columns (width : nat) (rows : list (list Q)) (w : list Q)
  : option (list Q) :=
  if Nat.eqb (length rows) (length w)
  then Some (map (fun j => dot (map (fun r => nth j r 0%Q) rows) w) (seq 0 width))
  else None.

(** [m.mv(w)] for the columns [idx .. idx + k - 1] of the rows [m]. *)
Definition mv_rows (idx k : nat) (m : list (list Q)) (w : list Q) : option (list Q) :=
  if forallb (fun r => Nat.eqb (length (firstn k (skipn idx r))) (length w)) m
  then Some (map (fun r => dot (firstn k (skipn idx r)) w) m)
  else None.

Section Imresize.

(** The content of an entry of a fresh [torch.FloatTensor] that the code has
    not written. *)
Variable uninit : Q.

(** [torch.FloatTensor(c, h, w)]. *)
Definition FloatTensor (c h w : Z) : option tensor3 :=
  if (c <? 0) || (h <? 0) || (w <? 0) then None
  else Some (repeat (repeat (repeat uninit (Z.to_nat w)) (Z.to_nat h)) (Z.to_nat c)).

(** [dst.narrow(1, start, length).copy_(src)]: [size] is [dst.size(1)]. *)
Definition copy_rows (size : Z) (dst : tensor3) (start length : Z) (src : tensor3)
  : option tensor3 :=
  s <- narrow_range size start length ;;
  if forallb (fun c => match broadcast length c with Some _ => true | None => false end) src
  then Some (map (fun dc =>
         match broadcast length (snd dc) with
         | Some rows => splice (Z.to_nat s) rows (fst dc)
         | None => fst dc
         end) (combine dst src))
  else None.

(** [dst.narrow(2, start, length).copy_(src)]: [size] is [dst.size(2)]. *)
Definition copy_cols (size : Z) (dst : tensor3) (start length : Z) (src : tensor3)
  : option tensor3 :=
  s <- narrow_range size start length ;;
  if forallb (forallb (fun r =>
       match broadcast length r with Some _ => true | None => false end)) src
  then Some (map (fun dc => map (fun dr =>
         match broadcast length (snd dr) with
         | Some entries => splice (Z.to_nat s) entries (fst dr)
         | None => fst dr
         end) (combine (fst dc) (snd dc))) (combine dst src))
  else None.

(** [out[c, i, :] = v]; a channel or row out of range raises [IndexError]. *)
Definition set_row (out : tensor3) (c i : nat) (v : list Q) : option tensor3 :=
  ch <- nth_error out c ;;
  if (i <? length ch)%nat then Some (set_nth c (set_nth i v ch) out) else None.

(** [out[c, :, i] = v]. *)
Definition set_col (out : tensor3) (c i : nat) (v : list Q) : option tensor3 :=
  ch <- nth_error out c ;;
  if forallb (fun r => (i <? length r)%nat) ch && Nat.eqb (length v) (length ch)
  then Some (set_nth c
         (map (fun rv => set_nth i (snd rv) (fst rv)) (combine ch v)) out)
  else None.

(** One iteration of the loop over the output rows:
    [out_1[c, i, :] = img_aug[c, idx:idx + kernel_width, :].transpose(0, 1).mv(weights_H[i])]
    for the channels 0, 1 and 2. *)
Definition resize_row (img_aug : tensor3) (weights : list (list Q))
    (indices : list (list Z)) (kernel_width : nat) (in_W : nat)
    (out_1 : tensor3) (i : Z) : option tensor3 :=
  irow <- nth_error indices (Z.to_nat i) ;;
  idx <- hd_error irow ;;
  w <- nth_error weights (Z.to_nat i) ;;
  let value c :=
    ch <- nth_error img_aug c ;;
    mv_columns in_W (firstn kernel_width (skipn (Z.to_nat idx) ch)) w in
  v <- value 0%nat ;; out_1 <- set_row out_1 0 (Z.to_nat i) v ;;
  v <- value 1%nat ;; out_1 <- set_row out_1 1 (Z.to_nat i) v ;;
  v <- value 2%nat ;; set_row out_1 2 (Z.to_nat i) v.

(** One iteration of the loop over the output columns:
    [out_2[c, :, i] = out_1_aug[c, :, idx:idx + kernel_width].mv(weights_W[i])]
    for the channels 0, 1 and 2. *)
Definition resize_col (out_1_aug : tensor3) (weights : list (list Q))
    (indices : list (list Z)) (kernel_width : nat)
    (out_2 : tensor3) (i : Z) : option tensor3 :=
  irow <- nth_error indices (Z.to_nat i) ;;
  idx <- hd_error irow ;;
  w <- nth_error weights (Z.to_nat i) ;;
  let value c :=
    ch <- nth_error out_1_aug c ;;
    mv_rows (Z.to_nat idx) kernel_width ch w in
  v <- value 0%nat ;; out_2 <- set_col out_2 0 (Z.to_nat i) v ;;
  v <- value 1%nat ;; out_2 <- set_col out_2 1 (Z.to_nat i) v ;;
  v <- value 2%nat ;; set_col out_2 2 (Z.to_nat i) v.

(** A [for i in range(n)] loop whose body may raise. *)
Definition for_range (n : Z) (body : tensor3 -> Z -> option tensor3) (init : tensor3)
  : option tensor3 :=
  fold_left (fun acc i => out <- acc ;; body out i) (range n) (Some init).

(** The H pass of [imresize]: symmetric copying, then the loop over rows. *)
Definition resize_H (img : tensor3) (in_C in_H in_W out_H : Z)
    (weights_H : list (list Q)) (indices_H : list (list Z))
    (sym_len_Hs sym_len_He : Z) : option tensor3 :=
  let aug_H := in_H + sym_len_Hs + sym_len_He in
  img_aug <- FloatTensor in_C aug_H in_W ;;
  img_aug <- copy_rows aug_H img_aug sym_len_Hs in_H img ;;
  let sym_patch := map (slice_to sym_len_Hs) img in
  let sym_patch_inv := map (@rev _) sym_patch in
  img_aug <- copy_rows aug_H img_aug 0 sym_len_Hs sym_patch_inv ;;
  let sym_patch := map (slice_from (- sym_len_He)) img in
  let sym_patch_inv := map (@rev _) sym_patch in
  img_aug <- copy_rows aug_H img_aug (sym_len_Hs + in_H) sym_len_He sym_patch_inv ;;
  out_1 <- FloatTensor in_C out_H in_W ;;
  let kernel_width := length (hd [] weights_H) in
  for_range out_H
    (resize_row img_aug weights_H indices_H kernel_width (Z.to_nat in_W)) out_1.

(** The W pass of [imresize]. *)
Definition resize_W (out_1 : tensor3) (in_C in_W out_H out_W : Z)
    (weights_W : list (list Q)) (indices_W : list (list Z))
    (sym_len_Ws sym_len_We : Z) : option tensor3 :=
  let aug_W := in_W + sym_len_Ws + sym_len_We in
  out_1_aug <- FloatTensor in_C out_H aug_W ;;
  out_1_aug <- copy_cols aug_W out_1_aug sym_len_Ws in_W out_1 ;;
  let sym_patch := map (map (slice_to sym_len_Ws)) out_1 in
  let sym_patch_inv := map (map (@rev _)) sym_patch in
  out_1_aug <- copy_cols aug_W out_1_aug 0 sym_len_Ws sym_patch_inv ;;
  let sym_patch := map (map (slice_from (- sym_len_We))) out_1 in
  let sym_patch_inv := map (map (@rev _)) sym_patch in
  out_1_aug <- copy_cols aug_W out_1_aug (sym_len_Ws + in_W) sym_len_We sym_patch_inv ;;
  out_2 <- FloatTensor in_C out_H out_W ;;
  let kernel_width := length (hd [] weights_W) in
  for_range out_W (resize_col out_1_aug weights_W indices_W kernel_width) out_2.

(** [imresize(img, scale, antialiasing)]. *)
Definition imresize (img : tensor3) (scale : Q) (antialiasing : bool) : option tensor3 :=
  let in_C := size0 img in
  let in_H := size1 img in
  let in_W := size2 img in
  let out_H := Qceiling (inject_Z in_H * scale) in
  let out_W := Qceiling (inject_Z in_W * scale) in
  let kernel_width := 4%Q in
  let kernel := Cubic in
  rH <- calculate_weights_indices in_H out_H scale kernel kernel_width antialiasing ;;
  let '(weights_H, indices_H, sym_len_Hs, sym_len_He) := rH in
  rW <- calculate_weights_indices in_W out_W scale kernel kernel_width antialiasing ;;
  let '(weights_W, indices_W, sym_len_Ws, sym_len_We) := rW in
  out_1 <- resize_H img in_C in_H in_W out_H weights_H indices_H sym_len_Hs sym_len_He ;;
  resize_W out_1 in_C in_W out_H out_W weights_W indices_W sym_len_Ws sym_len_We.

End Imresize.

(** A tensor has [c] channels of [h] rows of [w] entries. *)
Definition has_shape (t : tensor3) (c h w : nat) : Prop :=
  length t = c /\
  Forall (fun ch => length ch = h /\ Forall (fun r => length r = w) ch) t.

(** Equality of tensors entry by entry, as rational numbers. *)
Definition tensor_eq (a b : tensor3) : Prop :=
  Forall2 (Forall2 (Forall2 Qeq)) a b.

End Resize.

(** Row [i] of channel [c], and entry [j] of that row. *)
Definition row_at (t : Resize.tensor3) (c i : nat) : option (list Q) :=
  match nth_error t c with Some ch => nth_error ch i | None => None end.
Definition entry_at (t : Resize.tensor3) (c i j : nat) : option Q :=
  match row_at t c i with Some r => nth_error r j | None => None end.

(** *** Notions used to state the properties of the resampler *)

Module Notions.
Import Resample Rows Resize.

(** Which columns survive the pruning of the first and last column of the
    normalized weights: the first [start] are dropped and [len] are kept. *)
Definition pruning (out_length : Z) (scale kernel_width0 : Q) (antialiasing : bool)
    (start len : nat) : Prop :=
  let scaled := Qltb scale 1 && antialiasing in
  let kernel_width := (if scaled then kernel_width0 / scale else kernel_width0)%Q in
  let P := (Qceiling kernel_width + 2)%Z in
  let xs := linspace1 out_length in
  let W := map (wnorm scale kernel_width scaled P) xs in
  (zeros_first W <> 0%nat /\ start = 1%nat /\ len = Z.to_nat (P - 2) /\ (2 <= P)%Z) \/
  (zeros_first W = 0%nat /\ zeros_last W = 0%nat /\ start = 0%nat /\ len = Z.to_nat P) \/
  (zeros_first W = 0%nat /\ zeros_last W <> 0%nat /\ start = 0%nat /\
   len = Z.to_nat (P - 2) /\ (2 <= P)%Z).

(** The points at which the antialiasing kernel is sampled, and the two
    regions of the kernel that the positivity of a row sum rests on. *)
Definition tap (s x0 : Q) (k : Z) : Q := (x0 - inject_Z k * s)%Q.
Definition in_center (g : Z -> Q) (k : Z) : bool := Qle_bool (Qabs (g k)) (1#2).
Definition in_lobe (g : Z -> Q) (k : Z) : bool :=
  Qltb 1 (Qabs (g k)) && Qltb (Qabs (g k)) 2.

(** The buffer after the three copies: the input in the middle, its
    reflections at both ends. *)
Definition padded {A : Type} (s e : Z) (fill l : list A) : option (list A) :=
  b1 <- broadcast (Z.of_nat (length l)) l ;;
  b2 <- broadcast s (rev (slice_to s l)) ;;
  b3 <- broadcast e (rev (slice_from (- e) l)) ;;
  Some (splice (Z.to_nat (s + Z.of_nat (length l))) b3
          (splice (Z.to_nat 0) b2 (splice (Z.to_nat s) b1 fill))).

(** The three [copy_] calls on a list of buffers, one per input list. *)
Definition sym_copy (A : Type) (s e : Z) (fill : list A) (ls : list (list A))
  : list (list A) :=
  map (fun l => match padded s e fill l with Some a => a | None => fill end) ls.

(** The value the first loop assigns to row [i] of channel [c]. *)
Definition row_value (uninit : Q) (img : tensor3) (H W : nat)
    (weights : list (list Q)) (indices : list (list Z)) (s e : Z) (c i : nat)
  : option (list Q) :=
  let kw := length (hd [] weights) in
  let fill := repeat (repeat uninit W) (Z.to_nat (Z.of_nat H + s + e)) in
  let aug := sym_copy (list Q) s e fill img in
  irow <- nth_error indices i ;;
  idx <- hd_error irow ;;
  w <- nth_error weights i ;;
  a <- nth_error aug c ;;
  mv_columns W (firstn kw (skipn (Z.to_nat idx) a)) w.

(** The value the second loop assigns to column [i] of channel [c]. *)
Definition col_value (uninit : Q) (out_1 : tensor3) (W : nat)
    (weights : list (list Q)) (indices : list (list Z)) (s e : Z) (c i : nat)
  : option (list Q) :=
  let kw := length (hd [] weights) in
  let fill := repeat uninit (Z.to_nat (Z.of_nat W + s + e)) in
  let aug := map (sym_copy Q s e fill) out_1 in
  irow <- nth_error indices i ;;
  idx <- hd_error irow ;;
  w <- nth_error weights i ;;
  a <- nth_error aug c ;;
  mv_rows (Z.to_nat idx) kw a w.

(** The padding lengths fit the axis: the reflected patch has as many
    entries as the padding, or a single one that is broadcast. *)
Definition pads_fit (len : nat) (s e : Z) : Prop :=
  1 <= s /\ 1 <= e /\
  (Z.to_nat s <= len \/ len = 1)%nat /\ (Z.to_nat e <= len \/ len = 1)%nat.

(** The two padding lengths that [calculate_weights_indices] returns for an
    axis of [in_length] entries, a positive [scale] and the cubic kernel of
    width 4, in closed form: the first column of the weights always holds a
    zero, so the indices of output pixel [x] are [left + 1 .. left + P - 2]
    for [left = floor(u - kernel_width / 2)], and [sym_len_s = - min + 1],
    [sym_len_e = max - in_length]. *)
Definition sym_kernel_width (scale : Q) (antialiasing : bool) : Q :=
  if Qltb scale 1 && antialiasing then (4 / scale)%Q else 4%Q.
Definition sym_len_start (scale : Q) (antialiasing : bool) : Z :=
  - lrow scale (sym_kernel_width scale antialiasing) 1.
Definition sym_len_end (in_length : Z) (scale : Q) (antialiasing : bool) : Z :=
  lrow scale (sym_kernel_width scale antialiasing) (Qceiling (inject_Z in_length * scale))
  + Qceiling (sym_kernel_width scale antialiasing) - in_length.

(** Sample images: 1, 3 and 4 channels. *)
Definition gray_1x1 : tensor3 := [[[1%Q]]].
Definition rgb_2x2 : tensor3 :=
  [[[1; 2]; [3; 4]]; [[5; 6]; [7; 8]]; [[9; 10]; [11; 12]]]%Q.
Definition rgba_1x1 : tensor3 := [[[1%Q]]; [[2%Q]]; [[3%Q]]; [[4%Q]]].
Definition rgb_4x4 : tensor3 :=
  [[[1; 2; 3; 4]; [5; 6; 7; 8]; [9; 10; 11; 12]; [13; 14; 15; 16]];
   [[1; 2; 3; 4]; [5; 6; 7; 8]; [9; 10; 11; 12]; [13; 14; 15; 16]];
   [[1; 2; 3; 4]; [5; 6; 7; 8]; [9; 10; 11; 12]; [13; 14; 15; 16]]]%Q.

End Notions.

(** ** FocalFrequencyLoss *)

Module FFL.

(** A tensor entry: a rational number or one of the IEEE special values.
    The arithmetic on rational numbers is exact: the rounding and the
    overflow of float32 are not modelled, and the special values arise only
    from special values and from divisions by zero. *)
Inductive xreal : Type :=
| Fin (q : Q)
| PInf
| NInf
| NaN.

Definition is_nan (a : xreal) : bool :=
  match a with NaN => true | _ => false end.

Definition xopp (a : xreal) : xreal :=
  match a with
  | Fin q => Fin (- q)
  | PInf => NInf
  | NInf => PInf
  | NaN => NaN
  end.

Definition xadd (a b : xreal) : xreal :=
  match a, b with
  | NaN, _ | _, NaN => NaN
  | Fin p, Fin q => Fin (p + q)
  | PInf, NInf | NInf, PInf => NaN
  | PInf, _ | _, PInf => PInf
  | NInf, _ | _, NInf => NInf
  end.

Definition xsub (a b : xreal) : xreal := xadd a (xopp b).

(** The sign of a rational: -1, 0 or 1. *)
Definition Qsign (q : Q) : Z := Z.sgn (Qnum q).

(** The infinity of the given sign; NaN for sign 0. *)
Definition inf_of_sign (s : Z) : xreal :=
  if s =? 0 then NaN else if 0 <? s then PInf else NInf.

Definition xsign (a : xreal) : Z :=
  match a with
  | Fin q => Qsign q
  | PInf => 1
  | NInf => -1
  | NaN => 0
  end.

Definition xmul (a b : xreal) : xreal :=
  match a, b with
  | NaN, _ | _, NaN => NaN
  | Fin p, Fin q => Fin (p * q)
  | _, _ => inf_of_sign (xsign a * xsign b)
  end.

(** Division; a zero divisor is the positive zero. *)
Definition xdiv (a b : xreal) : xreal :=
  match a, b with
  | NaN, _ | _, NaN => NaN
  | Fin p, Fin q => if Qeq_bool q 0 then inf_of_sign (Qsign p) else Fin (p / q)
  | Fin _, _ => Fin 0
  | _, Fin q => inf_of_sign (xsign a * (if Qeq_bool q 0 then 1 else Qsign q))
  | _, _ => NaN
  end.

(** [a <= b]; false when one side is NaN. *)
Definition xle (a b : xreal) : bool :=
  match a, b with
  | NaN, _ | _, NaN => false
  | NInf, _ | _, PInf => true
  | Fin p, Fin q => Qle_bool p q
  | _, _ => false
  end.

(** [torch.min] and [torch.max] of two entries: NaN propagates. *)
Definition xmin (a b : xreal) : xreal :=
  if is_nan a || is_nan b then NaN else if xle a b then a else b.
Definition xmax (a b : xreal) : xreal :=
  if is_nan a || is_nan b then NaN else if xle a b then b else a.

(** [torch.clamp(a, min=0.0, max=1.0)]. *)
Definition clamp01 (a : xreal) : xreal :=
  match a with
  | NaN => NaN
  | _ => if xle a (Fin 0) then Fin 0 else if xle (Fin 1) a then Fin 1 else a
  end.

(** [t[torch.isnan(t)] = 0.0] on one entry. *)
Definition nan_to_zero (a : xreal) : xreal := if is_nan a then Fin 0 else a.

(** [t.min()], [t.max()]: an empty tensor raises. *)
Definition min_list (l : list xreal) : option xreal :=
  match l with [] => None | a :: r => Some (fold_left xmin r a) end.
Definition max_list (l : list xreal) : option xreal :=
  match l with [] => None | a :: r => Some (fold_left xmax r a) end.

(** [torch.mean]: NaN on an empty tensor. *)
Definition xsum (l : list xreal) : xreal := fold_right xadd (Fin 0) l.
Definition xmean (l : list xreal) : xreal :=
  match l with
  | [] => NaN
  | _ => xdiv (xsum l) (Fin (inject_Z (Z.of_nat (length l))))
  end.

(** The exceptions of the module. *)
Inductive error : Type :=
| ZeroDivisionError
| PatchFactorError          (* 'Patch factor should be divisible by image height and width' *)
| WeightRangeError (observed_min observed_max : xreal)
                            (* 'The values of spectrum weight matrix should be in the
                               range [0, 1], but got Min: ... Max: ...' *)
| RuntimeError.

Definition result (A : Type) : Type := (error + A)%type.

Notation "x <- e ;; k" := (match e with inr x => k | inl err => inl err end)
  (at level 61, e at next level, k at level 200, right associativity).

(** Tensors: an image batch (N, C, H, W); a spectrum is the (H, W, 2) block
    of one patch of one channel; the frequency tensor is
    (N, patches, C, H, W, 2); a weight or distance tensor is
    (N, patches, C, H, W). *)
Definition tensor4 : Type := list (list (list (list xreal))).
Definition spectrum : Type := list (list (xreal * xreal)).
Definition freq_tensor : Type := list (list (list spectrum)).
Definition tensor5 : Type := list (list (list (list (list xreal)))).

Definition map5 (f : xreal -> xreal) (t : tensor5) : tensor5 :=
  map (map (map (map (map f)))) t.
Definition flatten5 (t : tensor5) : list xreal :=
  concat (concat (concat (concat t))).
Definition zip {A B C : Type} (f : A -> B -> C) (a : list A) (b : list B) : list C :=
  map (fun p => f (fst p) (snd p)) (combine a b).

(** The sizes of all dimensions of a tensor. *)
Definition shape5 (t : tensor5) : list (list (list (list nat))) :=
  map (map (map (map (@length xreal)))) t.
Definition same_shape (a b : tensor5) : bool :=
  if list_eq_dec (list_eq_dec (list_eq_dec (list_eq_dec Nat.eq_dec))) (shape5 a) (shape5 b)
  then true else false.

(** The fields set by [FocalFrequencyLoss.__init__]. *)
Record config : Type := mkConfig {
  loss_weight : Q;
  alpha : Q;
  patch_factor : Z;
  ave_spectrum : bool;
  log_matrix : bool;
  batch_matrix : bool
}.

Definition default_config : config := mkConfig 1 1 1 false false false.

Section Loss.

(** The functions of PyTorch that have no rational model: [torch.sqrt],
    [** alpha], [torch.log], and the 2-D Fourier transform of one patch
    ([torch.fft.fft2(..., norm='ortho')], real and imaginary parts). *)
Variable xsqrt : xreal -> xreal.
Variable xpow : xreal -> Q -> xreal.
Variable xlog : xreal -> xreal.
Variable fft2 : list (list xreal) -> spectrum.

Variable cfg : config.

(** [x[:, :, i * patch_h:(i + 1) * patch_h, j * patch_w:(j + 1) * patch_w]] on
    one channel of one image. *)
Definition crop (patch_h patch_w i j : Z) (m : list (list xreal)) : list (list xreal) :=
  map (fun row => firstn (Z.to_nat patch_w) (skipn (Z.to_nat (j * patch_w)) row))
    (firstn (Z.to_nat patch_h) (skipn (Z.to_nat (i * patch_h)) m)).

(** [tensor2freq]. *)
Definition tensor2freq (x : tensor4) : result freq_tensor :=
  let patch_factor := patch_factor cfg in
  let h := Z.of_nat (length (hd [] (hd [] x))) in
  let w := Z.of_nat (length (hd [] (hd [] (hd [] x)))) in
  if patch_factor =? 0 then inl ZeroDivisionError else
  if negb ((h mod patch_factor =? 0) && (w mod patch_factor =? 0))
  then inl PatchFactorError else
  let patch_h := h / patch_factor in
  let patch_w := w / patch_factor in
  let patch_list :=
    flat_map (fun i => map (fun j => (i, j)) (range patch_factor)) (range patch_factor) in
  match patch_list with
  | [] => inl RuntimeError
  | _ =>
    let y := map (fun image =>
               map (fun ij => map (crop patch_h patch_w (fst ij) (snd ij)) image) patch_list)
               x in
    inr (map (map (map fft2)) y)
  end.

(** [tmp[..., 0] + tmp[..., 1]] for [tmp = (recon_freq - real_freq) ** 2], on
    one frequency. *)
Definition distance (recon real : xreal * xreal) : xreal :=
  let d0 := xsub (fst recon) (fst real) in
  let d1 := xsub (snd recon) (snd real) in
  xadd (xmul d0 d0) (xmul d1 d1).

Definition freq_distance (recon_freq real_freq : freq_tensor) : tensor5 :=
  zip (zip (zip (zip (zip distance)))) recon_freq real_freq.

(** The spectrum weight matrix calculated online. *)
Definition online_matrix (recon_freq real_freq : freq_tensor) : result tensor5 :=
  let matrix_tmp := freq_distance recon_freq real_freq in
  let matrix_tmp := map5 (fun d => xpow (xsqrt d) (alpha cfg)) matrix_tmp in
  let matrix_tmp :=
    if log_matrix cfg then map5 (fun m => xlog (xadd m (Fin 1))) matrix_tmp
    else matrix_tmp in
  matrix_tmp <-
    (if batch_matrix cfg
     then match max_list (flatten5 matrix_tmp) with
          | None => inl RuntimeError
          | Some mx => inr (map5 (fun m => xdiv m mx) matrix_tmp)
          end
     else if forallb (forallb (forallb (fun m =>
               match max_list (concat m) with Some _ => true | None => false end)))
               matrix_tmp
          then inr (map (map (map (fun m =>
                 match max_list (concat m) with
                 | Some mx => map (map (fun v => xdiv v mx)) m
                 | None => m
                 end))) matrix_tmp)
          else inl RuntimeError) ;;
  let matrix_tmp := map5 nan_to_zero matrix_tmp in
  let matrix_tmp := map5 clamp01 matrix_tmp in
  inr matrix_tmp.

(** [loss_formulation].  A predefined [matrix] is multiplied entry by entry
    with the frequency distance.  The product of tensors of different shapes,
    which PyTorch broadcasts where it can, is not modelled: it is the
    [RuntimeError] of shapes that cannot be broadcast. *)
Definition loss_formulation (recon_freq real_freq : freq_tensor) (matrix : option tensor5)
  : result xreal :=
  weight_matrix <-
    (match matrix with
     | Some m => inr m
     | None => online_matrix recon_freq real_freq
     end) ;;
  match min_list (flatten5 weight_matrix), max_list (flatten5 weight_matrix) with
  | Some mn, Some mx =>
    if xle (Fin 0) mn && xle mx (Fin 1)
    then
      let freq_distance := freq_distance recon_freq real_freq in
      if same_shape weight_matrix freq_distance
      then
        let loss := zip (zip (zip (zip (zip xmul)))) weight_matrix freq_distance in
        inr (xmean (flatten5 loss))
      else inl RuntimeError
    else inl (WeightRangeError mn mx)
  | _, _ => inl RuntimeError
  end.

(** [torch.mean(freq, 0, keepdim=True)]. *)
Definition pair_add (a b : xreal * xreal) : xreal * xreal :=
  (xadd (fst a) (fst b), xadd (snd a) (snd b)).
Definition batch_mean (freq : freq_tensor) : freq_tensor :=
  match freq with
  | [] => []
  | f :: r =>
    let n := Fin (inject_Z (Z.of_nat (length freq))) in
    [map (map (map (map (fun p => (xdiv (fst p) n, xdiv (snd p) n)))))
       (fold_left (zip (zip (zip (zip pair_add)))) r f)]
  end.

(** [forward]. *)
Definition forward (pred target : tensor4) (matrix : option tensor5) : result xreal :=
  pred_freq <- tensor2freq pred ;;
  target_freq <- tensor2freq target ;;
  let pred_freq := if ave_spectrum cfg then batch_mean pred_freq else pred_freq in
  let target_freq := if ave_spectrum cfg then batch_mean target_freq else target_freq in
  l <- loss_formulation pred_freq target_freq matrix ;;
  inr (xmul l (Fin (loss_weight cfg))).

End Loss.

(** An image batch has the shape (N, C, H, W). *)
Definition has_shape4 (x : tensor4) (n c h w : nat) : Prop :=
  length x = n /\
  Forall (fun image => length image = c /\
    Forall (fun channel => length channel = h /\
      Forall (fun row => length row = w) channel) image) x.

(** An entry of a weight matrix lies in [0, 1]. *)
Definition in_unit (a : xreal) : Prop :=
  match a with Fin q => (0 <= q /\ q <= 1)%Q | _ => False end.

Definition finite (a : xreal) : Prop :=
  match a with Fin _ => True | _ => False end.

(** The 2-D orthonormal Fourier transform of 1x1 and 2x2 patches, which is
    rational (other sizes are left as they are): an instance of [fft2]. *)
Definition dft2_small (m : list (list xreal)) : spectrum :=
  match m with
  | [[a; b]; [c; d]] =>
    let half v := xdiv v (Fin 2) in
    [[(half (xadd (xadd a b) (xadd c d)), Fin 0);
      (half (xadd (xsub a b) (xsub c d)), Fin 0)];
     [(half (xsub (xadd a b) (xadd c d)), Fin 0);
      (half (xsub (xsub a b) (xsub c d)), Fin 0)]]
  | _ => map (map (fun v => (v, Fin 0))) m
  end.

(** Both parts of a complex entry are finite. *)
Definition fin_pair (p : xreal * xreal) : Prop := finite (fst p) /\ finite (snd p).

(** An entry is a finite number equal to zero. *)
Definition is_zero (a : xreal) : Prop :=
  match a with Fin q => (q == 0)%Q | _ => False end.

(** Sample batches: one 7 by 7 image and one 2 by 2 image, of one channel. *)
Definition image7 : tensor4 := [[repeat (repeat (Fin 1) 7) 7]].
Definition image2 : tensor4 := [[[[Fin 1; Fin 2]; [Fin 3; Fin 4]]]].

(** [FocalFrequencyLoss(patch_factor=2)]. *)
Definition config_patch_factor_2 : config := mkConfig 1 1 2 false false false.

(** A spectrum of one frequency, and two weight matrices of its shape: one
    with the entry 1.5 and one with the entry 0.5. *)
Definition spectrum1 : freq_tensor := [[[[[(Fin 1, Fin 0)]]]]].
Definition weights_15 : tensor5 := [[[[[Fin (3#2)]]]]].
Definition weights_05 : tensor5 := [[[[[Fin (1#2)]]]]].

End FFL.

(** A non-empty list all of whose entries satisfy [P]. *)
Definition ne_all {A : Type} (P : A -> Prop) (l : list A) : Prop :=
  l <> [] /\ Forall P l.

(** A five-dimensional tensor without an empty dimension, all of whose
    entries satisfy [P]. *)
Definition ne5 {A : Type} (P : A -> Prop) (t : list (list (list (list (list A))))) : Prop :=
  ne_all (ne_all (ne_all (ne_all (ne_all P)))) t.

(** ** reconstruction_SADloss *)

Module SAD.

Section Forward.
(** The entry type of the tensors and the three PyTorch operations that
    [forward] composes. *)
Variable T : Type.
Definition tensor3 : Type := list (list (list T)).
Definition tensor4 : Type := list tensor3.
Variable cosine_similarity : tensor4 -> tensor4 -> tensor3.
Variable acos : T -> T.
Variable mean : list T -> T.

Definition flatten3 (t : tensor3) : list T := concat (concat t).

(** The values [torch.acos] is applied to in [forward]: the output of
    [torch.cosine_similarity], as it is. *)
Definition acos_arguments (x y : tensor4) : list T :=
  flatten3 (cosine_similarity x y).

Definition forward (x y : tensor4) : T :=
  mean (map acos (acos_arguments x y)).
End Forward.

Section Cosine.
(** [torch.cosine_similarity(x, y, dim=1)] over the arithmetic of the entry
    type, in the order in which ATen evaluates it: the norm of each image
    along the channels is clamped from below by [eps = 1e-8], every channel
    is divided by it, and the products of the normalized channels are summed
    over the channels. *)
Variable T : Type.
Variables add mul div : T -> T -> T.
Variable sqrt : T -> T.
Variable clamp_min_eps : T -> T.

Definition mzip (f : T -> T -> T) (a b : list (list T)) : list (list T) :=
  map (fun p => map (fun q => f (fst q) (snd q)) (combine (fst p) (snd p))) (combine a b).

(** The sum over the channel dimension of one image. *)
Definition msum (l : list (list (list T))) : list (list T) :=
  match l with
  | [] => []
  | m :: r => fold_left (mzip add) r m
  end.

(** [linalg_vector_norm(a, 2, dim, keepdim=True).clamp_min_(eps)] for one
    image: the clamped norm of every pixel. *)
Definition norm (a : tensor3 T) : list (list T) :=
  map (map clamp_min_eps) (map (map sqrt) (msum (map (fun c => mzip mul c c) a))).

(** [a / norm]: every channel divided by the clamped norm. *)
Definition normalize (a : tensor3 T) : tensor3 T :=
  map (fun c => mzip div c (norm a)) a.

Definition cosine_similarity (x y : tensor4 T) : tensor3 T :=
  map (fun p =>
    msum (map (fun q => mzip mul (fst q) (snd q))
            (combine (normalize (fst p)) (normalize (snd p)))))
    (combine x y).
End Cosine.

(** The binary64 instance. *)
Definition eps64 : float := 0x1.5798ee2308c3ap-27%float.
Definition clamp_min64 (e v : float) : float := if PrimFloat.ltb v e then e else v.
Definition cosine_similarity64 : tensor4 float -> tensor4 float -> tensor3 float :=
  cosine_similarity float PrimFloat.add PrimFloat.mul PrimFloat.div PrimFloat.sqrt
    (clamp_min64 eps64).

Definition in_acos_domain64 (v : float) : bool :=
  (PrimFloat.leb (-1)%float v && PrimFloat.leb v 1%float)%bool.

(** One pixel with the two channel values 0.2 and 0.7. *)
Definition x27 : tensor4 float :=
  [[ [[0x1.999999999999ap-3%float]]; [[0x1.6666666666666p-1%float]] ]].

(** The instance over the real numbers: exact arithmetic. *)
Definition epsR : Rdefinitions.R :=
  Rdefinitions.Rinv (Rdefinitions.IZR 100000000).
Definition cosine_similarityR
  : tensor4 Rdefinitions.R -> tensor4 Rdefinitions.R -> tensor3 Rdefinitions.R :=
  cosine_similarity Rdefinitions.R Rdefinitions.Rplus Rdefinitions.Rmult
    Rdefinitions.Rdiv R_sqrt.sqrt (fun v => Rbasic_fun.Rmax v epsR).

Definition in_acos_domain (v : Rdefinitions.R) : Prop :=
  Rdefinitions.Rle (Rdefinitions.IZR (-1)) v /\ Rdefinitions.Rle v (Rdefinitions.IZR 1).

(** The entry at row [i] and column [j] of a matrix. *)
Definition entry {T : Type} (m : list (list T)) (i j : nat) : option T :=
  match nth_error m i with
  | Some row => nth_error row j
  | None => None
  end.

End SAD.

Module SADBound.
Import Reals.
Import SAD.
Local Open Scope R_scope.

(** The Cauchy-Schwarz relation between the three channel sums of
    [cosine_similarity], entry by entry: the sum of products, and the two
    sums of squares. *)
Definition bounded (w A B : list (list R)) : Prop :=
  forall i j v p q,
    entry w i j = Some v -> entry A i j = Some p -> entry B i j = Some q ->
    v * v <= p * q /\ 0 <= p /\ 0 <= q.

End SADBound.

(** *** More sample inputs *)

Module Samples.
Import Resample Resize.

(** A constant image of three channels, 2 by 2. *)
Definition gray_rgb_2x2 : tensor3 := repeat (repeat (repeat (1#2)%Q 2) 2) 3.

End Samples.

(** *** Notions used to state more properties of the focal frequency loss *)

Module Spectra.
Import FFL.

(** The entry at row [r] and column [c] of a matrix. *)
Definition pixel {T : Type} (m : list (list T)) (r c : nat) : option T :=
  match nth_error m r with
  | Some row => nth_error row c
  | None => None
  end.

(** An entry is no negative number: it is NaN, the positive infinity or a
    number that is not negative. *)
Definition not_negative (a : xreal) : Prop :=
  match a with
  | Fin q => (0 <= q)%Q
  | PInf | NaN => True
  | NInf => False
  end.

(** A matrix with at least one row and no empty row. *)
Definition nonempty2 {T : Type} (m : list (list T)) : Prop :=
  ne_all (ne_all (fun _ : T => True)) m.

(** A batch of one 2 by 2 image of one channel, other than [image2]. *)
Definition image2' : tensor4 := [[[[Fin 4; Fin 3]; [Fin 2; Fin 1]]]].

End Spectra.

(** *** Notions used to state more properties of the spectral-angle loss *)

Module SADNotions.
Import SAD.

(** The squared norm of every pixel of an image: the sum over the channels
    of the squares, as [cosine_similarity] forms it. *)
Definition squared_norms (a : list (list (list Rdefinitions.R)))
  : list (list Rdefinitions.R) :=
  msum Rdefinitions.R Rdefinitions.Rplus
    (map (fun c => mzip Rdefinitions.R Rdefinitions.Rmult c c) a).

(** Two batches of one image of two channels and one pixel. *)
Definition pixel_34 : tensor4 Rdefinitions.R :=
  [[[[Rdefinitions.IZR 3]]; [[Rdefinitions.IZR 4]]]].
Definition pixel_00 : tensor4 Rdefinitions.R :=
  [[[[Rdefinitions.IZR 0]]; [[Rdefinitions.IZR 0]]]].

End SADNotions.

(** ** The training loop of [trainer.py]: learning rate and checkpoints *)

Module Training.
Import String Ascii.

(** The fields of [opt] that the two helpers of [Trainer] read. *)
Record options : Type := mkOptions {
  lr : Q;
  lr_decrease_mode : string;
  lr_decrease_factor : Q;
  lr_decrease_epoch : Z;
  lr_decrease_iter : Z;
  save_mode : string;
  save_by_epoch : Z;
  save_by_iter : Z;
  batch_size : Z;
  save_path : string
}.

Inductive exception : Type :=
| ZeroDivisionError
| UnboundLocalError
| AttributeError.

(** [a // b] and [a % b] on integers. *)
Definition floordiv (a b : Z) : option Z := if b =? 0 then None else Some (a / b).
Definition modulo (a b : Z) : option Z := if b =? 0 then None else Some (a mod b).

(** [b ** n] for a number [b] and an integer [n]: zero cannot be raised to a
    negative power. *)
Definition power (b : Q) (n : Z) : option Q :=
  if (n <? 0) && Qeq_bool b 0 then None else Some (Qpower b n).

Section Optimizer.
(** A parameter group of the optimizer: its ['lr'] entry and its other
    entries. *)
Variable others : Type.
Record param_group : Type := mkGroup { group_lr : Q; group_others : others }.

(** [for param_group in optimizer.param_groups: param_group['lr'] = lr]. *)
Definition set_lr (lr : Q) (param_groups : list param_group) : list param_group :=
  map (fun g => mkGroup lr (group_others g)) param_groups.

(** [adjust_learning_rate(opt, epoch, iteration, optimizer)]: the parameter
    groups afterwards, or [None] for a [ZeroDivisionError]. *)
Definition adjust_learning_rate (opt : options) (epoch iteration : Z)
    (param_groups : list param_group) : option (list param_group) :=
  match
    (if String.eqb (lr_decrease_mode opt) "epoch"
     then match floordiv epoch (lr_decrease_epoch opt) with
          | None => None
          | Some n =>
            match power (lr_decrease_factor opt) n with
            | None => None
            | Some p => Some (set_lr (lr opt * p)%Q param_groups)
            end
          end
     else Some param_groups)
  with
  | None => None
  | Some param_groups =>
    if String.eqb (lr_decrease_mode opt) "iter"
    then match floordiv iteration (lr_decrease_iter opt) with
         | None => None
         | Some n =>
           match power (lr_decrease_factor opt) n with
           | None => None
           | Some p => Some (set_lr (lr opt * p)%Q param_groups)
           end
         end
    else Some param_groups
  end.
End Optimizer.

(** ['%d' % z]. *)
Definition format_d (z : Z) : string := DecimalString.NilZero.string_of_int (Z.to_int z).

(** The last character of a string is ['/']. *)
Fixpoint ends_with_sep (s : string) : bool :=
  match s with
  | EmptyString => false
  | String c EmptyString => Ascii.eqb c "/"
  | String _ r => ends_with_sep r
  end.

(** [os.path.join(a, b)] of [posixpath]. *)
Definition join (a b : string) : string :=
  if prefix "/" b then b
  else if String.eqb a "" || ends_with_sep a then (a ++ b)%string
  else (a ++ "/" ++ b)%string.

(** What a call of [save_model] does: it raises, it saves the state to a
    path, or it does nothing. *)
Inductive outcome : Type :=
| Raises (e : exception)
| Saves (path : string)
| Nothing.

(** [save_model(opt, epoch, iteration, len_dataset, generator)] of [Trainer].
    [has_module] tells whether [generator.module] exists. *)
Definition save_model (opt : options) (epoch iteration len_dataset : Z)
    (has_module : bool) : outcome :=
  let model_name : option string :=
    if String.eqb (save_mode opt) "epoch"
    then Some ("G_epoch" ++ format_d epoch ++ "_bs" ++ format_d (batch_size opt) ++ ".pth")%string
    else None in
  let model_name : option string :=
    if String.eqb (save_mode opt) "iter"
    then Some ("G_iter" ++ format_d iteration ++ "_bs" ++ format_d (batch_size opt) ++ ".pth")%string
    else model_name in
  match model_name with
  | None => Raises UnboundLocalError
  | Some model_name =>
    let save_model_path := join (save_path opt) model_name in
    let save := if has_module then Saves save_model_path else Raises AttributeError in
    let first :=
      if String.eqb (save_mode opt) "epoch"
      then match modulo epoch (save_by_epoch opt) with
           | None => Raises ZeroDivisionError
           | Some r =>
             if r =? 0
             then match modulo iteration len_dataset with
                  | None => Raises ZeroDivisionError
                  | Some r' => if r' =? 0 then save else Nothing
                  end
             else Nothing
           end
      else Nothing in
    match first with
    | Raises e => Raises e
    | _ =>
      if String.eqb (save_mode opt) "iter"
      then match modulo iteration (save_by_iter opt) with
           | None => Raises ZeroDivisionError
           | Some r => if r =? 0 then save else first
           end
      else first
    end
  end.

(** The arguments [(epoch + 1, iters_done + 1)] with which the loop of
    [Trainer] calls [save_model] and [adjust_learning_rate], in order:
    [iters_done = epoch * len(dataloader) + i]. *)
Definition calls (epochs len_dataloader : Z) : list (Z * Z) :=
  flat_map (fun epoch =>
    map (fun i => (epoch + 1, epoch * len_dataloader + i + 1)) (range len_dataloader))
    (range epochs).

(** Sample options: decay by 1/2 every 10 epochs, a checkpoint every 5
    epochs. *)
Definition sample_options : options :=
  mkOptions (1#10000) "epoch" (1#2) 10 100000 "epoch" 5 10000 8 "models".

End Training.

(** ** Text files: [text_save] and [text_readlines] *)

Module TextIO.
Import String Ascii.

Definition LF : ascii := "010"%char.
Definition CR : ascii := "013"%char.

(** The files of the file system that hold text: the characters stored under
    each name.  Every name can be opened for writing. *)
Definition files : Type := string -> option string.

Definition write_file (fs : files) (filename content : string) : files :=
  fun name => if String.eqb name filename then Some content else fs name.

(** The modes in which [text_save] is used: ['a'] (the default) and ['w'].
    On a POSIX system the text layer writes ['\n'] as it is. *)
Inductive mode : Type := Append | Truncate.

(** [open(filename, mode)] for writing: the characters that the file holds
    before the first [write]. *)
Definition open_write (fs : files) (filename : string) (m : mode) : string :=
  match m with
  | Truncate => ""
  | Append => match fs filename with Some s => s | None => "" end
  end.

(** [text_save(content, filename, mode)] for a list of strings. *)
Definition text_save (fs : files) (content : list string) (filename : string) (m : mode)
    : files :=
  write_file fs filename
    (fold_left (fun file line => (file ++ (line ++ String LF ""))%string) content
       (open_write fs filename m)).

(** Reading in text mode with universal newlines: ['\r\n'] and a lone ['\r']
    are read as ['\n']. *)
Fixpoint translate (s : string) : string :=
  match s with
  | EmptyString => EmptyString
  | String c r =>
    if Ascii.eqb c CR
    then String LF
           match r with
           | String c' r' => if Ascii.eqb c' LF then translate r' else translate r
           | EmptyString => EmptyString
           end
    else String c (translate r)
  end.

(** [file.readlines()] on the translated text: every line keeps its ['\n'];
    the last one has none when the text does not end with one. *)
Fixpoint readlines (s : string) : list string :=
  match s with
  | EmptyString => []
  | String c r =>
    if Ascii.eqb c LF then String LF "" :: readlines r
    else match readlines r with
         | [] => [String c ""]
         | l :: ls => String c l :: ls
         end
  end.

(** [s[:len(s) - 1]]. *)
Definition drop_last (s : string) : string :=
  substring 0 (String.length s - 1) s.

(** [text_readlines(filename)]; a file that cannot be opened gives [[]]. *)
Definition text_readlines (fs : files) (filename : string) : list string :=
  match fs filename with
  | None => []
  | Some s => map drop_last (readlines (translate s))
  end.

(** A string holds the character [c]. *)
Fixpoint has_char (c : ascii) (s : string) : bool :=
  match s with
  | EmptyString => false
  | String c' r => Ascii.eqb c' c || has_char c r
  end.

(** A string without a line break. *)
Definition one_line (s : string) : Prop :=
  has_char LF s = false /\ has_char CR s = false.

(** The text of a list of lines, each one followed by ['\n']. *)
Definition lines_text (content : list string) : string :=
  String.concat "" (map (fun line => (line ++ String LF "")%string) content).

(** A file system without text files. *)
Definition no_files : files := fun _ => None.

End TextIO.

(** ** The dataset factories: [create_dataset] and [create_dataset_val] *)

Module Datasets.
Import String.

(** The modules of the package [dataset] that the factories refer to. *)
Inductive dataset_module : Type :=
| arad_gen | arad_real
| cave_ori | cave_gen | cave_real
| icvl_ori | icvl_gen | icvl_real
| harvard_ori | nus_ori
| apple_set.

(** [create_dataset(opt)]: the module whose [HS_multiscale_DSet] is built from
    [opt], read from [opt.data_type] and [opt.process_type]; [None] is the
    [UnboundLocalError] of [return dset] when no branch assigned [dset]. *)
Definition create_dataset (data_type process_type : string) : option dataset_module :=
  let dset : option dataset_module := None in
  let dset :=
    if String.eqb data_type "arad" then
      let dset := if String.eqb process_type "gen" then Some arad_gen else dset in
      let dset := if String.eqb process_type "real" then Some arad_real else dset in
      dset
    else dset in
  let dset :=
    if String.eqb data_type "cave" then
      let dset := if String.eqb process_type "ori" then Some cave_ori else dset in
      let dset := if String.eqb process_type "gen" then Some cave_gen else dset in
      let dset := if String.eqb process_type "real" then Some cave_real else dset in
      dset
    else dset in
  let dset :=
    if String.eqb data_type "icvl" then
      let dset := if String.eqb process_type "ori" then Some icvl_ori else dset in
      let dset := if String.eqb process_type "gen" then Some icvl_gen else dset in
      let dset := if String.eqb process_type "real" then Some icvl_real else dset in
      dset
    else dset in
  let dset :=
    if String.eqb data_type "harvard" then
      let dset := if String.eqb process_type "ori" then Some harvard_ori else dset in
      dset
    else dset in
  let dset :=
    if String.eqb data_type "nus" then
      let dset := if String.eqb process_type "ori" then Some nus_ori else dset in
      dset
    else dset in
  let dset := if String.eqb data_type "apple" then Some apple_set else dset in
  dset.

(** [create_dataset_val(opt)]: the module whose [HS_multiscale_ValDSet] is
    built from [opt]. *)
Definition create_dataset_val (data_type process_type : string) : option dataset_module :=
  let dset : option dataset_module := None in
  let dset :=
    if String.eqb data_type "arad" then
      let dset := if String.eqb process_type "gen" then Some arad_gen else dset in
      let dset := if String.eqb process_type "real" then Some arad_real else dset in
      dset
    else dset in
  let dset :=
    if String.eqb data_type "cave" then
      let dset := if String.eqb process_type "ori" then Some cave_ori else dset in
      let dset := if String.eqb process_type "gen" then Some cave_gen else dset in
      let dset := if String.eqb process_type "real" then Some cave_real else dset in
      dset
    else dset in
  let dset :=
    if String.eqb data_type "icvl" then
      let dset := if String.eqb process_type "ori" then Some icvl_ori else dset in
      let dset := if String.eqb process_type "gen" then Some icvl_gen else dset in
      let dset := if String.eqb process_type "real" then Some icvl_real else dset in
      dset
    else dset in
  let dset :=
    if String.eqb data_type "harvard" then
      let dset := if String.eqb process_type "ori" then Some harvard_ori else dset in
      dset
    else dset in
  let dset :=
    if String.eqb data_type "nus" then
      let dset := if String.eqb process_type "ori" then Some nus_ori else dset in
      dset
    else dset in
  dset.

End Datasets.

(** * Part II: properties *)

Module Lists.
Local Open Scope Z_scope.

(** ** Lists *)

Lemma in_range (n i : Z) : In i (range n) <-> (0 <= i < n)%Z.
Proof.
  unfold range. rewrite in_map_iff. split.
  - intros [k [<- Hk]]. apply in_seq in Hk. lia.
  - intros Hi. exists (Z.to_nat i). split; [lia|]. apply in_seq. lia.
Qed.

Lemma in_firstn_inv {A : Type} (n : nat) (l : list A) (a : A) : In a (firstn n l) -> In a l.
Proof. intros H. rewrite <- (firstn_skipn n l). apply in_or_app. now left. Qed.

Lemma in_skipn_inv {A : Type} (n : nat) (l : list A) (a : A) : In a (skipn n l) -> In a l.
Proof. intros H. rewrite <- (firstn_skipn n l). apply in_or_app. now right. Qed.

Lemma nth_error_combine {A B : Type} (l : list A) (l' : list B) (i : nat) :
  nth_error (combine l l') i =
  match nth_error l i, nth_error l' i with
  | Some a, Some b => Some (a, b)
  | _, _ => None
  end.
Proof.
  revert l' i. induction l as [|a l IH]; intros [|b l'] [|i]; cbn; try reflexivity.
  - now destruct (nth_error l i).
  - apply IH.
Qed.

End Lists.

Module PatchGridFacts.
Import Lists.
Import PatchGrid.

Lemma ceil_div_lower (a b : Z) : 0 < b -> (ceil_div a b - 1) * b < a.
Proof.
  intros Hb. unfold ceil_div. pose proof (Z.mul_div_le (- a) b Hb).
  pose proof (Z.mul_succ_div_gt (- a) b Hb). nia.
Qed.

Lemma ceil_div_upper (a b : Z) : 0 < b -> a <= ceil_div a b * b.
Proof. intros Hb. unfold ceil_div. pose proof (Z.mul_div_le (- a) b Hb). nia. Qed.

Lemma ceil_div_positive (a b : Z) : 0 < b -> 0 < a -> 1 <= ceil_div a b.
Proof. intros Hb Ha. pose proof (ceil_div_upper a b Hb). nia. Qed.

Lemma offset_in_bounds (len ps p i : Z) :
  2 * p < ps -> ps <= len ->
  0 <= i < ceil_div (len - p * 2) (ps - p * 2) ->
  0 <= offset len ps p (ceil_div (len - p * 2) (ps - p * 2)) i <= len - ps.
Proof.
  intros Hp Hlen Hi. unfold offset.
  set (n := ceil_div (len - p * 2) (ps - p * 2)) in *.
  destruct (Z.eqb_spec i 0); [lia|]. destruct (Z.eqb_spec i (n - 1)); [lia|].
  assert (Hlow : (n - 1) * (ps - p * 2) < len - p * 2) by (apply ceil_div_lower; lia).
  split; [nia|]. assert (i + 1 <= n - 1) by lia. nia.
Qed.

(** With at least two tiles along an axis the paddings are those of the
    specification. *)
Lemma paddings_several_tiles (p n i : Z) :
  2 <= n -> 0 <= i < n ->
  start_padding p i = spec_start_padding p i /\ end_padding p n i = spec_end_padding p n i.
Proof.
  intros Hn Hi. split; [reflexivity|]. unfold end_padding, spec_end_padding.
  destruct (Z.eqb_spec i 0) as [->|_]; [|reflexivity].
  destruct (Z.eqb_spec 0 (n - 1)); [lia|reflexivity].
Qed.

(** C10: for a patch size above twice the padding and at most both image
    sides, [next_patch] yields at least one tile, and the patch of every
    yielded tile lies inside the image: 0 <= h <= H - patch_size and
    0 <= w <= W - patch_size. *)
Theorem next_patch_inside_image (h w ps p : Z) :
  2 * p < ps -> ps <= Z.min h w ->
  exists l, next_patch (init h w (Some ps) p) = Some l /\ l <> [] /\
    Forall (fun d => 0 <= p_h d <= h - ps /\ 0 <= p_w d <= w - ps) l.
Proof.
  intros Hp Hps. unfold next_patch, init.
  cbn [H W padding patch_size _calc_patch_size].
  destruct (Z.eqb_spec (ps - p * 2) 0) as [E|_]; [lia|].
  eexists. split; [reflexivity|].
  assert (Hh : 1 <= ceil_div (h - p * 2) (ps - p * 2)) by (apply ceil_div_positive; lia).
  assert (Hw : 1 <= ceil_div (w - p * 2) (ps - p * 2)) by (apply ceil_div_positive; lia).
  split.
  - intros E.
    assert (Hin : In (mkPatch 0 0 0 0
                        (end_padding p (ceil_div (h - p * 2) (ps - p * 2)) 0)
                        (end_padding p (ceil_div (w - p * 2) (ps - p * 2)) 0))
                    (@nil patch)).
    { rewrite <- E. apply in_flat_map. exists 0. split; [apply in_range; lia|].
      apply in_map_iff. exists 0. split; [reflexivity|apply in_range; lia]. }
    destruct Hin.
  - apply Forall_forall. intros d Hd.
    apply in_flat_map in Hd. destruct Hd as [i [Hi Hd]].
    apply in_map_iff in Hd. destruct Hd as [j [<- Hj]].
    apply in_range in Hi. apply in_range in Hj. cbn [p_h p_w].
    split; apply offset_in_bounds; lia.
Qed.

Lemma next_patch_inside_image_witness :
  exists l, next_patch (init 64 64 (Some 48) 16) = Some l /\ l <> [] /\
    Forall (fun d => 0 <= p_h d <= 64 - 48 /\ 0 <= p_w d <= 64 - 48) l.
Proof. apply (next_patch_inside_image 64 64 48 16); vm_compute; congruence. Defined.

(** C3: for H = W = 48, patch_size = 48 and padding = 16 there is one tile
    along each axis; [next_patch] yields it with bottom and right padding 16,
    where the specification has 0. *)
Theorem next_patch_single_tile_end_padding :
  next_patch (init 48 48 (Some 48) 16) = Some [mkPatch 0 0 0 0 16 16] /\
  spec_end_padding 16 1 0 = 0.
Proof. split; reflexivity. Qed.

End PatchGridFacts.

Module CubicKernel.
Import Lists.
Import Resample Notions.
Local Open Scope Q_scope.

Lemma Qltb_iff (a b : Q) : Qltb a b = true <-> a < b.
Proof.
  unfold Qltb. rewrite negb_true_iff. split.
  - intros Hf. apply Qnot_le_lt. intros Hle. apply Qle_bool_iff in Hle. congruence.
  - intros Hlt. destruct (Qle_bool b a) eqn:E; [|reflexivity].
    apply Qle_bool_iff in E. lra.
Qed.

Lemma cubic_inner (x : Q) : Qabs x <= 1 ->
  cubic x == (3#2) * Qabs x ^ 3 - (5#2) * Qabs x ^ 2 + 1.
Proof.
  intros Ha. unfold cubic.
  assert (E1 : Qle_bool (Qabs x) 1 = true) by (apply Qle_bool_iff; exact Ha).
  assert (E2 : Qltb 1 (Qabs x) = false).
  { destruct (Qltb 1 (Qabs x)) eqn:E; [|reflexivity]. apply Qltb_iff in E. lra. }
  rewrite E1, E2. cbn [andb]. ring.
Qed.

Lemma cubic_outer (x : Q) : 1 < Qabs x -> Qabs x <= 2 ->
  cubic x == -(1#2) * Qabs x ^ 3 + (5#2) * Qabs x ^ 2 - 4 * Qabs x + 2.
Proof.
  intros Ha Hb. unfold cubic.
  assert (E1 : Qle_bool (Qabs x) 1 = false).
  { destruct (Qle_bool (Qabs x) 1) eqn:E; [|reflexivity]. apply Qle_bool_iff in E. lra. }
  assert (E2 : Qltb 1 (Qabs x) = true) by (apply Qltb_iff; exact Ha).
  assert (E3 : Qle_bool (Qabs x) 2 = true) by (apply Qle_bool_iff; exact Hb).
  rewrite E1, E2, E3. cbn [andb]. ring.
Qed.

Lemma cubic_far (x : Q) : 2 <= Qabs x -> cubic x == 0.
Proof.
  intros Ha. destruct (Qlt_le_dec 2 (Qabs x)) as [Hgt|Hle].
  - unfold cubic.
    assert (E1 : Qle_bool (Qabs x) 1 = false).
    { destruct (Qle_bool (Qabs x) 1) eqn:E; [|reflexivity]. apply Qle_bool_iff in E. lra. }
    assert (E3 : Qle_bool (Qabs x) 2 = false).
    { destruct (Qle_bool (Qabs x) 2) eqn:E; [|reflexivity]. apply Qle_bool_iff in E. lra. }
    rewrite E1, E3, andb_false_r. ring.
  - rewrite cubic_outer by lra.
    assert (E : Qabs x == 2) by lra. rewrite E. reflexivity.
Qed.

Lemma cubic_inner_nonneg (x : Q) : Qabs x <= 1 -> 0 <= cubic x.
Proof.
  intros Ha. rewrite (cubic_inner x Ha).
  pose proof (Qabs_nonneg x) as Hn. set (a := Qabs x) in *.
  assert (E : (3#2) * a ^ 3 - (5#2) * a ^ 2 + 1 == (1 - a) * (1 + a - (3#2) * a * a)) by ring.
  rewrite E. apply Qmult_le_0_compat; [lra|]. nra.
Qed.

Lemma cubic_center (x : Q) : Qabs x <= 1#2 -> 9#16 <= cubic x.
Proof.
  intros Ha. rewrite (cubic_inner x) by lra.
  pose proof (Qabs_nonneg x) as Hn. set (a := Qabs x) in *.
  assert (E : (3#2) * a ^ 3 - (5#2) * a ^ 2 + 1 ==
              (9#16) + ((1#2) - a) * ((7#8) + (7#4) * a - (3#2) * a * a)) by ring.
  rewrite E.
  assert (0 <= ((1#2) - a) * ((7#8) + (7#4) * a - (3#2) * a * a)).
  { apply Qmult_le_0_compat; [lra|]. nra. }
  lra.
Qed.

Lemma cubic_lobe (x : Q) : - (2#27) <= cubic x.
Proof.
  destruct (Qlt_le_dec 1 (Qabs x)) as [H1|H1].
  - destruct (Qlt_le_dec (Qabs x) 2) as [H2|H2].
    + rewrite cubic_outer by lra.
      set (a := Qabs x) in *.
      assert (E : -(1#2) * a ^ 3 + (5#2) * a ^ 2 - 4 * a + 2 ==
                  -(2#27) + (1#2) * (((4#3) - a) * ((4#3) - a) * ((7#3) - a))) by ring.
      rewrite E.
      assert (0 <= ((4#3) - a) * ((4#3) - a) * ((7#3) - a)).
      { apply Qmult_le_0_compat; [|lra].
        destruct (Qlt_le_dec a (4#3)).
        - apply Qmult_le_0_compat; lra.
        - assert (E2 : ((4#3) - a) * ((4#3) - a) == (a - (4#3)) * (a - (4#3))) by ring.
          rewrite E2. apply Qmult_le_0_compat; lra. }
      lra.
    + rewrite cubic_far by lra. lra.
  - pose proof (cubic_inner_nonneg x H1). lra.
Qed.

End CubicKernel.

Module RowReading.
Import Lists CubicKernel.
Import Resample Rows Notions.
Local Open Scope Q_scope.

(** ** Lists *)

Lemma range_length (n : Z) : length (range n) = Z.to_nat n.
Proof. unfold range. now rewrite length_map, length_seq. Qed.

Lemma combine_map_same {A B C : Type} (f : A -> B) (g : A -> C) (l : list A) :
  combine (map f l) (map g l) = map (fun a => (f a, g a)) l.
Proof. induction l as [|a l IH]; cbn; [reflexivity|now rewrite IH]. Qed.

Lemma existsb_map {A B : Type} (f : A -> B) (p : B -> bool) (l : list A) :
  existsb p (map f l) = existsb (fun a => p (f a)) l.
Proof. induction l as [|a l IH]; cbn; [reflexivity|now rewrite IH]. Qed.

(** ** [calculate_weights_indices], row by row *)

Lemma indices_rows (scale kw : Q) (P : Z) (xs : list Z) :
  map (fun l => map (fun k => (l + k)%Z) (linspace0 P))
    (map (fun u => Qfloor (u - kw / 2))
       (map (fun x => inject_Z x / scale + (1#2) * (1 - 1 / scale)) xs)) =
  map (irow scale kw P) xs.
Proof. rewrite !map_map. reflexivity. Qed.

Lemma distance_rows (scale kw : Q) (P : Z) (xs : list Z) :
  map (fun ui => map (fun i => fst ui - inject_Z i) (snd ui))
    (combine (map (fun x => inject_Z x / scale + (1#2) * (1 - 1 / scale)) xs)
       (map (irow scale kw P) xs)) =
  map (fun x => map (fun i => urow scale x - inject_Z i) (irow scale kw P x)) xs.
Proof. rewrite combine_map_same, map_map. reflexivity. Qed.

Lemma weights_rows (scale kw : Q) (scaled : bool) (P : Z) (xs : list Z) :
  (if scaled
   then map (map (fun d => scale * cubic (d * scale)))
          (map (fun x => map (fun i => urow scale x - inject_Z i) (irow scale kw P x)) xs)
   else map (map cubic)
          (map (fun x => map (fun i => urow scale x - inject_Z i) (irow scale kw P x)) xs)) =
  map (wraw scale kw scaled P) xs.
Proof.
  unfold wraw, wfun. destruct scaled; rewrite map_map; apply map_ext; intros x;
    rewrite map_map; reflexivity.
Qed.

Lemma normalized_rows (scale kw : Q) (scaled : bool) (P : Z) (xs : list Z) :
  map (fun ws => map (fun w => w / snd ws) (fst ws))
    (combine (map (wraw scale kw scaled P) xs)
       (map Qsum (map (wraw scale kw scaled P) xs))) =
  map (wnorm scale kw scaled P) xs.
Proof. rewrite map_map, combine_map_same, map_map. reflexivity. Qed.

Section Unfold.
Variables (in_length out_length : Z) (scale kernel_width0 : Q) (antialiasing : bool).

Let scaled := Qltb scale 1 && antialiasing.
Let kernel_width := if scaled then kernel_width0 / scale else kernel_width0.
Let P := (Qceiling kernel_width + 2)%Z.
Let xs := linspace1 out_length.

Lemma cwi_rows :
  calculate_weights_indices in_length out_length scale Cubic kernel_width0 antialiasing =
  if Qeq_bool scale 0 then None else
  if (out_length <? 0)%Z then None else
  if (P <? 0)%Z then None else
  if existsb (fun x => Qeq_bool (Qsum (wraw scale kernel_width scaled P x)) 0) xs then None else
  let weights := map (wnorm scale kernel_width scaled P) xs in
  let indices := map (irow scale kernel_width P) xs in
  if (P =? 0)%Z then None else
  let weights_zero_last := zeros_last weights in
  iw <- (if negb (Nat.eqb (zeros_first weights) 0)
         then i <- narrow1 P 1 (P - 2) indices ;;
              w <- narrow1 P 1 (P - 2) weights ;; Some (i, w, (P - 2)%Z)
         else Some (indices, weights, P)) ;;
  let '(indices, weights, width) := iw in
  iw <- (if negb (Nat.eqb weights_zero_last 0)
         then i <- narrow1 width 0 (P - 2) indices ;;
              w <- narrow1 width 0 (P - 2) weights ;; Some (i, w)
         else Some (indices, weights)) ;;
  let '(indices, weights) := iw in
  mn <- tmin indices ;;
  mx <- tmax indices ;;
  let sym_len_s := (- mn + 1)%Z in
  let sym_len_e := (mx - in_length)%Z in
  Some (weights, map (map (fun i => (i + sym_len_s - 1)%Z)) indices, sym_len_s, sym_len_e).
Proof.
  unfold calculate_weights_indices.
  fold scaled. fold kernel_width. fold P. fold xs.
  destruct (Qeq_bool scale 0); [reflexivity|].
  destruct (out_length <? 0)%Z; [reflexivity|].
  destruct (P <? 0)%Z; [reflexivity|].
  cbv zeta.
  rewrite indices_rows, distance_rows, weights_rows, normalized_rows.
  rewrite map_map, existsb_map. reflexivity.
Qed.

End Unfold.

Lemma narrow1_nonneg {A : Type} (width start len : Z) (m : list (list A)) :
  (0 <= start)%Z ->
  narrow1 width start len m =
  if ((0 <=? len) && (start + len <=? width))%Z
  then Some (map (cut (Z.to_nat start) (Z.to_nat len)) m) else None.
Proof.
  intros Hs. unfold narrow1, narrow_range, cut.
  destruct (Z.ltb_spec len 0), (Z.ltb_spec start (- width)), (Z.ltb_spec width start),
    (Z.ltb_spec start 0), (Z.leb_spec 0 len), (Z.leb_spec (start + len) width),
    (Z.leb_spec start (width - len)); cbn; try reflexivity; try lia.
Qed.

Lemma cut_cut {A : Type} (start len : nat) (row : list A) :
  cut 0 len (cut start len row) = cut start len row.
Proof. unfold cut. cbn [skipn]. rewrite firstn_firstn, Nat.min_id. reflexivity. Qed.

Lemma cut_all {A : Type} (row : list A) : cut 0 (length row) row = row.
Proof. unfold cut. cbn [skipn]. apply firstn_all. Qed.

Lemma irow_length (scale kw : Q) (P x : Z) : length (irow scale kw P x) = Z.to_nat P.
Proof. unfold irow, linspace0. now rewrite length_map, range_length. Qed.

Lemma wraw_length (scale kw : Q) (scaled : bool) (P x : Z) :
  length (wraw scale kw scaled P x) = Z.to_nat P.
Proof. unfold wraw. now rewrite length_map, irow_length. Qed.

Lemma wnorm_length (scale kw : Q) (scaled : bool) (P x : Z) :
  length (wnorm scale kw scaled P x) = Z.to_nat P.
Proof. unfold wnorm. now rewrite length_map, wraw_length. Qed.

Section Inversion.
Variables (in_length out_length : Z) (scale kernel_width0 : Q) (antialiasing : bool).

Let scaled := Qltb scale 1 && antialiasing.
Let kernel_width := if scaled then kernel_width0 / scale else kernel_width0.
Let P := (Qceiling kernel_width + 2)%Z.
Let xs := linspace1 out_length.
Let W := map (wnorm scale kernel_width scaled P) xs.

Lemma pruning_iff (start len : nat) :
  pruning out_length scale kernel_width0 antialiasing start len <->
  (zeros_first W <> 0%nat /\ start = 1%nat /\ len = Z.to_nat (P - 2) /\ (2 <= P)%Z) \/
  (zeros_first W = 0%nat /\ zeros_last W = 0%nat /\ start = 0%nat /\ len = Z.to_nat P) \/
  (zeros_first W = 0%nat /\ zeros_last W <> 0%nat /\ start = 0%nat /\
   len = Z.to_nat (P - 2) /\ (2 <= P)%Z).
Proof. split; intros H; exact H. Qed.

Lemma cwi_inv (w : list (list Q)) (idx : list (list Z)) (ss se : Z) :
  calculate_weights_indices in_length out_length scale Cubic kernel_width0 antialiasing
    = Some (w, idx, ss, se) ->
  ~ scale == 0 /\ (0 <= out_length)%Z /\ (1 <= P)%Z /\
  (forall x, In x xs -> ~ Qsum (wraw scale kernel_width scaled P x) == 0) /\
  exists start len, pruning out_length scale kernel_width0 antialiasing start len /\
    w = map (fun x => cut start len (wnorm scale kernel_width scaled P x)) xs /\
    exists mn mx,
      tmin (map (fun x => cut start len (irow scale kernel_width P x)) xs) = Some mn /\
      tmax (map (fun x => cut start len (irow scale kernel_width P x)) xs) = Some mx /\
      ss = (- mn + 1)%Z /\ se = (mx - in_length)%Z /\
      idx = map (fun x => map (fun i => (i + ss - 1)%Z)
                            (cut start len (irow scale kernel_width P x))) xs.
Proof.
  rewrite cwi_rows. fold scaled. fold kernel_width. fold P. fold xs.
  destruct (Qeq_bool scale 0) eqn:Es; [discriminate|].
  destruct (Z.ltb_spec out_length 0) as [|Hout]; [discriminate|].
  destruct (Z.ltb_spec P 0) as [|HP0]; [discriminate|].
  destruct (existsb _ xs) eqn:Ex; [discriminate|].
  cbv zeta. fold W.
  destruct (Z.eqb_spec P 0) as [|HP1]; [discriminate|].
  intros Hres.
  assert (Hscale : ~ scale == 0).
  { intros E. apply Qeq_bool_iff in E. congruence. }
  assert (Hsum : forall x, In x xs -> ~ Qsum (wraw scale kernel_width scaled P x) == 0).
  { intros x Hx E. apply Qeq_bool_iff in E.
    assert (existsb (fun x => Qeq_bool (Qsum (wraw scale kernel_width scaled P x)) 0) xs = true).
    { apply existsb_exists. exists x. split; assumption. }
    congruence. }
  split; [exact Hscale|]. split; [exact Hout|]. split; [lia|]. split; [exact Hsum|].
  assert (Hfinish : forall start len (I : list (list Z)) (Wt : list (list Q)),
    I = map (fun x => cut start len (irow scale kernel_width P x)) xs ->
    Wt = map (fun x => cut start len (wnorm scale kernel_width scaled P x)) xs ->
    pruning out_length scale kernel_width0 antialiasing start len ->
    (mn <- tmin I ;; mx <- tmax I ;;
     Some (Wt, map (map (fun i => (i + (- mn + 1) - 1)%Z)) I, (- mn + 1)%Z, (mx - in_length)%Z))
      = Some (w, idx, ss, se) ->
    exists start len, pruning out_length scale kernel_width0 antialiasing start len /\
    w = map (fun x => cut start len (wnorm scale kernel_width scaled P x)) xs /\
    exists mn mx,
      tmin (map (fun x => cut start len (irow scale kernel_width P x)) xs) = Some mn /\
      tmax (map (fun x => cut start len (irow scale kernel_width P x)) xs) = Some mx /\
      ss = (- mn + 1)%Z /\ se = (mx - in_length)%Z /\
      idx = map (fun x => map (fun i => (i + ss - 1)%Z)
                            (cut start len (irow scale kernel_width P x))) xs).
  { intros start len I Wt -> -> Hp Hr.
    destruct (tmin _) as [mn|] eqn:Emn; [|discriminate].
    destruct (tmax _) as [mx|] eqn:Emx; [|discriminate].
    injection Hr as <- <- <- <-.
    exists start, len. split; [exact Hp|]. split; [reflexivity|].
    exists mn, mx. repeat split; try assumption. now rewrite map_map. }
  revert Hres.
  destruct (Nat.eqb_spec (zeros_first W) 0) as [Hzf|Hzf]; cbn [negb].
  - destruct (Nat.eqb_spec (zeros_last W) 0) as [Hzl|Hzl]; cbn [negb].
    + apply (Hfinish 0%nat (Z.to_nat P)).
      * apply map_ext. intros x. now rewrite <- (irow_length scale kernel_width P x), cut_all.
      * unfold W. apply map_ext. intros x. now rewrite <- (wnorm_length scale kernel_width scaled P x), cut_all.
      * apply pruning_iff. right; left. auto.
    + rewrite !narrow1_nonneg by lia.
      destruct (Z.leb_spec 0 (P - 2)); [|discriminate].
      destruct (Z.leb_spec (0 + (P - 2)) P); [|discriminate]. cbn [andb].
      apply (Hfinish 0%nat (Z.to_nat (P - 2))).
      * now rewrite map_map.
      * unfold W. now rewrite map_map.
      * apply pruning_iff. right; right. repeat split; auto; lia.
  - rewrite !narrow1_nonneg by lia.
    destruct (Z.leb_spec 0 (P - 2)); [|discriminate].
    destruct (Z.leb_spec (1 + (P - 2)) P); [|discriminate]. cbn [andb].
    assert (Hp : pruning out_length scale kernel_width0 antialiasing 1 (Z.to_nat (P - 2))).
    { apply pruning_iff. left. repeat split; auto; lia. }
    destruct (Nat.eqb_spec (zeros_last W) 0) as [Hzl|Hzl]; cbn [negb].
    + apply (Hfinish 1%nat (Z.to_nat (P - 2))); [| |exact Hp].
      * now rewrite map_map.
      * unfold W. now rewrite map_map.
    + rewrite !narrow1_nonneg by lia.
      assert (E1 : (0 <=? P - 2)%Z = true) by (apply Z.leb_le; lia).
      assert (E2 : (0 + (P - 2) <=? P - 2)%Z = true) by (apply Z.leb_le; lia).
      rewrite E1, E2. cbn [andb].
      apply (Hfinish 1%nat (Z.to_nat (P - 2))); [| |exact Hp].
      * rewrite !map_map. apply map_ext. intros x. apply cut_cut.
      * unfold W. rewrite !map_map. apply map_ext. intros x. apply cut_cut.
Qed.

End Inversion.

End RowReading.

Module Extrema.
Import Lists CubicKernel RowReading.
Import Resample Rows Notions.
Local Open Scope Z_scope.

(** ** Minimum and maximum of an index matrix *)

Lemma fold_min_spec (l : list Z) (a : Z) :
  (forall v, In v (a :: l) -> fold_left Z.min l a <= v) /\ In (fold_left Z.min l a) (a :: l).
Proof.
  revert a. induction l as [|b l IH]; intros a; cbn [fold_left].
  - split; [intros v [<-|[]]; lia | left; reflexivity].
  - destruct (IH (Z.min a b)) as [Hle Hin]. split.
    + intros v [<-|[<-|Hv]].
      * specialize (Hle (Z.min a b) (or_introl eq_refl)). lia.
      * specialize (Hle (Z.min a b) (or_introl eq_refl)). lia.
      * apply Hle. right. exact Hv.
    + destruct Hin as [E|Hin]; [|right; right; exact Hin].
      rewrite <- E. destruct (Z.min_spec a b) as [[_ ->]|[_ ->]]; [left|right; left]; reflexivity.
Qed.

Lemma fold_max_spec (l : list Z) (a : Z) :
  (forall v, In v (a :: l) -> v <= fold_left Z.max l a) /\ In (fold_left Z.max l a) (a :: l).
Proof.
  revert a. induction l as [|b l IH]; intros a; cbn [fold_left].
  - split; [intros v [<-|[]]; lia | left; reflexivity].
  - destruct (IH (Z.max a b)) as [Hle Hin]. split.
    + intros v [<-|[<-|Hv]].
      * specialize (Hle (Z.max a b) (or_introl eq_refl)). lia.
      * specialize (Hle (Z.max a b) (or_introl eq_refl)). lia.
      * apply Hle. right. exact Hv.
    + destruct Hin as [E|Hin]; [|right; right; exact Hin].
      rewrite <- E. destruct (Z.max_spec a b) as [[_ ->]|[_ ->]]; [right; left|left]; reflexivity.
Qed.

Lemma tmin_spec (m : list (list Z)) (mn : Z) :
  tmin m = Some mn <->
  (forall row v, In row m -> In v row -> mn <= v) /\ (exists row, In row m /\ In mn row).
Proof.
  unfold tmin. split.
  - destruct (concat m) as [|a l] eqn:E; [discriminate|]. intros [= <-].
    destruct (fold_min_spec l a) as [Hle Hin]. rewrite <- E in Hle, Hin. split.
    + intros row v Hr Hv. apply Hle. apply in_concat. exists row. auto.
    + apply in_concat in Hin. destruct Hin as [row [Hr Hv]]. exists row. auto.
  - intros [Hle [row [Hr Hv]]].
    destruct (concat m) as [|a l] eqn:E.
    + assert (Hc : In mn (concat m)) by (apply in_concat; exists row; auto).
      rewrite E in Hc. destruct Hc.
    + destruct (fold_min_spec l a) as [Hle' Hin']. rewrite <- E in Hle', Hin'.
      f_equal. apply Z.le_antisymm.
      * apply Hle'. apply in_concat. exists row. auto.
      * apply in_concat in Hin'. destruct Hin' as [r [Hr' Hv']]. exact (Hle r _ Hr' Hv').
Qed.

Lemma tmax_spec (m : list (list Z)) (mx : Z) :
  tmax m = Some mx <->
  (forall row v, In row m -> In v row -> v <= mx) /\ (exists row, In row m /\ In mx row).
Proof.
  unfold tmax. split.
  - destruct (concat m) as [|a l] eqn:E; [discriminate|]. intros [= <-].
    destruct (fold_max_spec l a) as [Hle Hin]. rewrite <- E in Hle, Hin. split.
    + intros row v Hr Hv. apply Hle. apply in_concat. exists row. auto.
    + apply in_concat in Hin. destruct Hin as [row [Hr Hv]]. exists row. auto.
  - intros [Hle [row [Hr Hv]]].
    destruct (concat m) as [|a l] eqn:E.
    + assert (Hc : In mx (concat m)) by (apply in_concat; exists row; auto).
      rewrite E in Hc. destruct Hc.
    + destruct (fold_max_spec l a) as [Hle' Hin']. rewrite <- E in Hle', Hin'.
      f_equal. apply Z.le_antisymm.
      * apply in_concat in Hin'. destruct Hin' as [r [Hr' Hv']]. exact (Hle r _ Hr' Hv').
      * apply Hle'. apply in_concat. exists row. auto.
Qed.

Lemma tmin_some (m : list (list Z)) (row : list Z) (v : Z) :
  In row m -> In v row -> exists mn, tmin m = Some mn.
Proof.
  intros Hr Hv. unfold tmin.
  destruct (concat m) as [|a l] eqn:E; [|eauto].
  assert (Hc : In v (concat m)) by (apply in_concat; exists row; auto).
  rewrite E in Hc. destruct Hc.
Qed.

Lemma tmax_some (m : list (list Z)) (row : list Z) (v : Z) :
  In row m -> In v row -> exists mx, tmax m = Some mx.
Proof.
  intros Hr Hv. unfold tmax.
  destruct (concat m) as [|a l] eqn:E; [|eauto].
  assert (Hc : In v (concat m)) by (apply in_concat; exists row; auto).
  rewrite E in Hc. destruct Hc.
Qed.

(** ** The surviving columns of a row of indices *)

Lemma cut_range (P : Z) (start len : nat) :
  Z.of_nat (start + len) <= P ->
  cut start len (range P) = map Z.of_nat (seq start len).
Proof.
  intros H. unfold cut, range.
  rewrite skipn_map, firstn_map. f_equal.
  replace (Z.to_nat P) with (start + (len + (Z.to_nat P - start - len)))%nat by lia.
  rewrite seq_app, skipn_app, length_seq, Nat.sub_diag.
  rewrite skipn_all2 by (rewrite length_seq; lia). cbn [skipn app].
  rewrite seq_app, firstn_app, length_seq, Nat.sub_diag. cbn [firstn].
  rewrite firstn_all2 by (rewrite length_seq; lia). apply app_nil_r.
Qed.

Lemma cut_map {A B : Type} (f : A -> B) (start len : nat) (l : list A) :
  cut start len (map f l) = map f (cut start len l).
Proof. unfold cut. now rewrite skipn_map, firstn_map. Qed.

Lemma cut_irow (scale kw : Q) (P : Z) (start len : nat) (x : Z) :
  Z.of_nat (start + len) <= P ->
  cut start len (irow scale kw P x) =
  map (fun j => lrow scale kw x + Z.of_nat j) (seq start len).
Proof.
  intros H. unfold irow, linspace0. rewrite cut_map, cut_range by exact H.
  now rewrite map_map.
Qed.

Lemma cut_length {A : Type} (start len : nat) (l : list A) :
  (start + len <= length l)%nat -> length (cut start len l) = len.
Proof. intros H. unfold cut. rewrite length_firstn, length_skipn. lia. Qed.

Lemma Forall2_map_same {A B C : Type} (R : B -> C -> Prop) (f : A -> B) (g : A -> C)
    (l : list A) :
  (forall a, In a l -> R (f a) (g a)) -> Forall2 R (map f l) (map g l).
Proof.
  induction l as [|a l IH]; intros H; cbn; constructor.
  - apply H. left. reflexivity.
  - apply IH. intros b Hb. apply H. right. exact Hb.
Qed.

Lemma linspace1_nonempty (n : Z) : 1 <= n -> In 1 (linspace1 n).
Proof.
  intros H. unfold linspace1. apply in_map_iff. exists 0. split; [reflexivity|].
  apply in_range. lia.
Qed.

End Extrema.

Module IndexWindows.
Import Lists CubicKernel RowReading Extrema.
Import Resample Rows Notions.
Local Open Scope Z_scope.

(** ** The index matrix *)

Section Indices.
Variables (in_length out_length : Z) (scale kernel_width0 : Q) (antialiasing : bool).

Let scaled := Qltb scale 1 && antialiasing.
Let kernel_width := if scaled then (kernel_width0 / scale)%Q else kernel_width0.
Let P := (Qceiling kernel_width + 2)%Z.
Let xs := linspace1 out_length.

Lemma pruning_fits (start len : nat) :
  1 <= P -> pruning out_length scale kernel_width0 antialiasing start len ->
  Z.of_nat (start + len) <= P.
Proof.
  intros HP [H|[H|H]]; fold scaled kernel_width P in H; lia.
Qed.

Lemma cwi_indices (w : list (list Q)) (idx : list (list Z)) (ss se : Z) :
  calculate_weights_indices in_length out_length scale Cubic kernel_width0 antialiasing
    = Some (w, idx, ss, se) ->
  tmin idx = Some 0 /\ Forall2 (window_inside in_length ss se) w idx.
Proof.
  intros Hres. apply cwi_inv in Hres.
  fold scaled kernel_width P xs in Hres.
  destruct Hres as (Hscale & Hout & HP & Hsum & start & len & Hp & -> & mn & mx &
                    Hmn & Hmx & Hss & Hse & ->).
  pose proof (pruning_fits start len HP Hp) as Hfit.
  apply tmin_spec in Hmn. destruct Hmn as [Hlow [rmin [Hrmin Hvmin]]].
  apply tmax_spec in Hmx. destruct Hmx as [Hupp _].
  assert (Hlen : (1 <= len)%nat).
  { apply in_map_iff in Hrmin. destruct Hrmin as [x [<- _]].
    rewrite cut_irow in Hvmin by exact Hfit.
    apply in_map_iff in Hvmin. destruct Hvmin as [j [_ Hj]]. apply in_seq in Hj. lia. }
  split.
  - apply tmin_spec. split.
    + intros row v Hr Hv. apply in_map_iff in Hr. destruct Hr as [x [<- Hx]].
      apply in_map_iff in Hv. destruct Hv as [i [<- Hi]].
      assert (mn <= i).
      { apply (Hlow (cut start len (irow scale kernel_width P x))); [|exact Hi].
        apply in_map_iff. exists x. auto. }
      lia.
    + apply in_map_iff in Hrmin. destruct Hrmin as [x [<- Hx]].
      exists (map (fun i => i + ss - 1) (cut start len (irow scale kernel_width P x))).
      split.
      * apply in_map_iff. exists x. auto.
      * apply in_map_iff. exists mn. split; [lia|exact Hvmin].
  - apply Forall2_map_same. intros x Hx.
    unfold window_inside.
    rewrite cut_length by (rewrite wnorm_length; lia).
    rewrite cut_irow by exact Hfit.
    destruct len as [|len']; [lia|]. cbn [seq map hd_error].
    eexists; split; [reflexivity|].
    assert (Hin : In (cut start (S len') (irow scale kernel_width P x))
                    (map (fun x => cut start (S len') (irow scale kernel_width P x)) xs)).
    { apply in_map_iff. exists x. auto. }
    assert (Hfirst : mn <= lrow scale kernel_width x + Z.of_nat start).
    { apply (Hlow _ _ Hin). rewrite cut_irow by exact Hfit. cbn [seq map]. left. reflexivity. }
    assert (Hlast : lrow scale kernel_width x + Z.of_nat (start + len') <= mx).
    { apply (Hupp _ _ Hin). rewrite cut_irow by exact Hfit.
      apply in_map_iff. exists (start + len')%nat. split; [reflexivity|].
      apply in_seq. lia. }
    lia.
Qed.

End Indices.

End IndexWindows.

Module RowSums.
Import Lists CubicKernel RowReading Extrema IndexWindows.
Import Resample Rows Notions.
Local Open Scope Q_scope.

(** ** Sums of rows *)

Lemma Qsum_cons (a : Q) (l : list Q) : Qsum (a :: l) = a + Qsum l.
Proof. reflexivity. Qed.

Lemma Qsum_app (l1 l2 : list Q) : Qsum (l1 ++ l2) == Qsum l1 + Qsum l2.
Proof.
  induction l1 as [|a l1 IH]; cbn [app].
  - change (Qsum []) with 0. ring.
  - rewrite !Qsum_cons, IH. ring.
Qed.

Lemma Qsum_scale (l : list Q) (s : Q) : Qsum (map (fun w => w / s) l) == Qsum l / s.
Proof.
  induction l as [|a l IH]; cbn [map].
  - change (Qsum []) with 0. unfold Qdiv. ring.
  - rewrite !Qsum_cons, IH. unfold Qdiv. ring.
Qed.

Lemma list_ends {A : Type} (d : A) (n : nat) (l : list A) :
  length l = S (S n) -> l = hd d l :: cut 1 n l ++ [last l d].
Proof.
  intros Hl. destruct l as [|a l]; [discriminate|]. cbn [hd]. f_equal.
  unfold cut. cbn [skipn].
  assert (Hne : l <> []) by (destruct l; [discriminate|congruence]).
  rewrite (app_removelast_last d Hne) at 1.
  assert (Hlast : last (a :: l) d = last l d) by (destruct l; [congruence|reflexivity]).
  rewrite Hlast. f_equal.
  rewrite (app_removelast_last d Hne) at 2.
  assert (Hr : length (removelast l) = n).
  { pose proof (app_removelast_last d Hne) as E. apply (f_equal (@length A)) in E.
    rewrite length_app in E. cbn in E, Hl. lia. }
  rewrite firstn_app, Hr, Nat.sub_diag. cbn [firstn].
  rewrite <- Hr, firstn_all. now rewrite app_nil_r.
Qed.

Lemma Qsum_ends (n : nat) (l : list Q) :
  length l = S (S n) -> Qsum l == hd 0 l + Qsum (cut 1 n l) + last l 0.
Proof.
  intros Hl. rewrite (list_ends 0 n l Hl) at 1.
  rewrite Qsum_cons, Qsum_app, Qsum_cons. change (Qsum []) with 0. ring.
Qed.

Lemma range_last (n : nat) : range (Z.of_nat (S n)) = range (Z.of_nat n) ++ [Z.of_nat n].
Proof. unfold range. rewrite !Nat2Z.id, seq_S, map_app. reflexivity. Qed.

Lemma range_first (n : nat) : hd 0%Z (range (Z.of_nat (S n))) = 0%Z.
Proof. unfold range. rewrite Nat2Z.id. reflexivity. Qed.

Lemma hd_map {A B : Type} (f : A -> B) (d : A) (l : list A) :
  l <> [] -> forall e, hd e (map f l) = f (hd d l).
Proof. destruct l; [congruence|reflexivity]. Qed.

Lemma last_map_range {B : Type} (f : Z -> B) (n : nat) (e : B) :
  last (map f (range (Z.of_nat (S n)))) e = f (Z.of_nat n).
Proof. rewrite range_last, map_app. cbn [map]. apply last_last. Qed.

(** ** The first and the last candidate tap carry no weight *)

Lemma cubic_far_pos (z : Q) : 2 <= z -> cubic z == 0.
Proof. intros H. apply cubic_far. rewrite Qabs_pos; lra. Qed.

Lemma cubic_far_neg (z : Q) : z <= -2 -> cubic z == 0.
Proof. intros H. apply cubic_far. rewrite Qabs_neg; lra. Qed.

Lemma floor_offset (u h : Q) :
  h <= u - inject_Z (Qfloor (u - h)) /\ u - inject_Z (Qfloor (u - h)) < h + 1.
Proof.
  pose proof (Qfloor_le (u - h)) as H1.
  pose proof (Qlt_floor (u - h)) as H2.
  rewrite inject_Z_plus in H2. change (inject_Z 1) with 1 in H2. lra.
Qed.

Lemma wraw_hd (scale kw : Q) (scaled : bool) (P x : Z) :
  (1 <= P)%Z ->
  hd 0 (wraw scale kw scaled P x) =
  wfun scale scaled (urow scale x - inject_Z (lrow scale kw x + 0)).
Proof.
  intros HP. unfold wraw, irow, linspace0.
  replace P with (Z.of_nat (S (Z.to_nat P - 1))) by lia.
  unfold range. rewrite Nat2Z.id. reflexivity.
Qed.

Lemma wraw_last (scale kw : Q) (scaled : bool) (P x : Z) :
  (1 <= P)%Z ->
  last (wraw scale kw scaled P x) 0 =
  wfun scale scaled (urow scale x - inject_Z (lrow scale kw x + (P - 1))).
Proof.
  intros HP. unfold wraw, irow, linspace0.
  replace P with (Z.of_nat (S (Z.to_nat P - 1))) at 1 by lia.
  rewrite map_map, last_map_range. do 3 f_equal. lia.
Qed.

Lemma Qdiv_pos_inv (a s : Q) : 0 < a -> 0 < a / s -> 0 < s.
Proof.
  intros Ha H. destruct (Qlt_le_dec 0 s) as [Hs|Hs]; [exact Hs|exfalso].
  destruct (Qeq_dec s 0) as [E|E].
  - rewrite E in H. unfold Qdiv in H. assert (E0 : / 0 == 0) by reflexivity.
    rewrite E0 in H. lra.
  - assert (Hneg : 0 < - s) by lra.
    pose proof (Qinv_lt_0_compat _ Hneg) as Hi.
    assert (E2 : a / s == - (a * / (- s))) by (field; exact E).
    rewrite E2 in H.
    pose proof (Qmult_lt_0_compat _ _ Ha Hi). lra.
Qed.

Section Ends.
Variables (scale : Q) (antialiasing : bool).

Let scaled := Qltb scale 1 && antialiasing.
Let kernel_width := if scaled then 4 / scale else 4.
Let P := (Qceiling kernel_width + 2)%Z.

Lemma scaled_positive : (3 <= P)%Z -> scaled = true -> 0 < scale.
Proof.
  intros HP Hs. unfold P, kernel_width in HP. rewrite Hs in HP.
  apply (Qdiv_pos_inv 4); [lra|].
  pose proof (Qceiling_lt (4 / scale)) as Hc.
  assert (0 <= inject_Z (Qceiling (4 / scale) - 1)).
  { change 0 with (inject_Z 0). rewrite <- Zle_Qle. lia. }
  lra.
Qed.

Lemma first_tap_zero (x : Z) :
  (3 <= P)%Z -> hd 0 (wraw scale kernel_width scaled P x) == 0.
Proof.
  intros HP. rewrite wraw_hd by lia.
  rewrite Z.add_0_r. unfold lrow.
  destruct (floor_offset (urow scale x) (kernel_width / 2)) as [Hlo _].
  set (D := urow scale x - inject_Z (Qfloor (urow scale x - kernel_width / 2))) in *.
  unfold wfun. destruct (Sumbool.sumbool_of_bool scaled) as [Es|Es]; rewrite Es.
  - pose proof (scaled_positive HP Es) as Hpos.
    assert (E : cubic (D * scale) == 0).
    { apply cubic_far_pos. unfold kernel_width in Hlo. rewrite Es in Hlo.
      assert (E2 : 2 == 4 / scale / 2 * scale) by (field; lra).
      rewrite E2. apply Qmult_le_compat_r; [exact Hlo|lra]. }
    rewrite E. ring.
  - apply cubic_far_pos. unfold kernel_width in Hlo. rewrite Es in Hlo.
    assert (E4 : 4 / 2 == 2) by reflexivity. rewrite E4 in Hlo. exact Hlo.
Qed.

Lemma last_tap_zero (x : Z) :
  (3 <= P)%Z -> last (wraw scale kernel_width scaled P x) 0 == 0.
Proof.
  intros HP. rewrite wraw_last by lia.
  unfold lrow. rewrite inject_Z_plus.
  destruct (floor_offset (urow scale x) (kernel_width / 2)) as [_ Hhi].
  set (D := urow scale x - inject_Z (Qfloor (urow scale x - kernel_width / 2))) in *.
  assert (HPq : inject_Z (P - 1) == inject_Z (Qceiling kernel_width) + 1).
  { replace (P - 1)%Z with (Qceiling kernel_width + 1)%Z by (unfold P; lia).
    rewrite inject_Z_plus. reflexivity. }
  pose proof (Qle_ceiling kernel_width) as Hc.
  assert (Hd : urow scale x - (inject_Z (Qfloor (urow scale x - kernel_width / 2)) + inject_Z (P - 1))
               <= - (kernel_width / 2)).
  { rewrite HPq. fold D.
    set (h := kernel_width / 2) in *.
    assert (Eh : kernel_width == h + h) by (unfold h; field).
    unfold D in Hhi. lra. }
  set (d := urow scale x - (inject_Z (Qfloor (urow scale x - kernel_width / 2)) + inject_Z (P - 1))) in *.
  unfold wfun. destruct (Sumbool.sumbool_of_bool scaled) as [Es|Es]; rewrite Es.
  - pose proof (scaled_positive HP Es) as Hpos.
    assert (E : cubic (d * scale) == 0).
    { apply cubic_far_neg. unfold kernel_width in Hd. rewrite Es in Hd.
      assert (E2 : -2 == - (4 / scale / 2) * scale) by (field; lra).
      rewrite E2. apply Qmult_le_compat_r; [exact Hd|lra]. }
    rewrite E. ring.
  - apply cubic_far_neg. unfold kernel_width in Hd. rewrite Es in Hd.
    assert (E4 : 4 / 2 == 2) by reflexivity. rewrite E4 in Hd. exact Hd.
Qed.

End Ends.

(** ** Every returned row of weights sums to 1 *)

Lemma wnorm_sum (scale kw : Q) (scaled : bool) (P x : Z) :
  ~ Qsum (wraw scale kw scaled P x) == 0 ->
  Qsum (wnorm scale kw scaled P x) == 1.
Proof.
  intros Hs. unfold wnorm. rewrite Qsum_scale. field. exact Hs.
Qed.

Lemma wnorm_hd (scale kw : Q) (scaled : bool) (P x : Z) :
  (1 <= P)%Z ->
  hd 0 (wnorm scale kw scaled P x) =
  hd 0 (wraw scale kw scaled P x) / Qsum (wraw scale kw scaled P x).
Proof.
  intros HP. unfold wnorm.
  pose proof (wraw_length scale kw scaled P x) as Hl.
  destruct (wraw scale kw scaled P x) as [|a l]; [cbn in Hl; lia|reflexivity].
Qed.

Section RowSums.
Variables (in_length out_length : Z) (scale : Q) (antialiasing : bool).

Let scaled := Qltb scale 1 && antialiasing.
Let kernel_width := if scaled then 4 / scale else 4.
Let P := (Qceiling kernel_width + 2)%Z.
Let xs := linspace1 out_length.

Lemma pruned_row_sum (x : Z) (len : nat) :
  (3 <= P)%Z -> len = Z.to_nat (P - 2) ->
  ~ Qsum (wraw scale kernel_width scaled P x) == 0 ->
  Qsum (cut 1 len (wnorm scale kernel_width scaled P x)) == 1.
Proof.
  intros HP Hlen Hs. unfold wnorm. rewrite cut_map, Qsum_scale.
  assert (Hl : length (wraw scale kernel_width scaled P x) = S (S len))
    by (rewrite wraw_length; lia).
  pose proof (Qsum_ends len _ Hl) as E.
  pose proof (first_tap_zero scale antialiasing x HP) as Hf.
  pose proof (last_tap_zero scale antialiasing x HP) as Hla.
  fold scaled kernel_width P in Hf, Hla. rewrite Hf, Hla in E.
  assert (E2 : Qsum (cut 1 len (wraw scale kernel_width scaled P x)) ==
               Qsum (wraw scale kernel_width scaled P x)) by (rewrite E; ring).
  rewrite E2. field. exact Hs.
Qed.

Lemma first_column_has_zero (x : Z) :
  (3 <= P)%Z -> In x xs ->
  ~ Qsum (wraw scale kernel_width scaled P x) == 0 ->
  zeros_first (map (wnorm scale kernel_width scaled P) xs) <> 0%nat.
Proof.
  intros HP Hx Hs. unfold zeros_first.
  assert (Hin : In (wnorm scale kernel_width scaled P x)
                  (filter (fun row => Qeq_bool (hd 0 row) 0)
                     (map (wnorm scale kernel_width scaled P) xs))).
  { apply filter_In. split; [apply in_map; exact Hx|].
    apply Qeq_bool_iff. rewrite wnorm_hd by lia.
    pose proof (first_tap_zero scale antialiasing x HP) as Hf.
    fold scaled kernel_width P in Hf. rewrite Hf. unfold Qdiv. ring. }
  destruct (filter _ _); [destruct Hin|discriminate].
Qed.

Lemma cwi_row_sums (w : list (list Q)) (idx : list (list Z)) (ss se : Z) :
  calculate_weights_indices in_length out_length scale Cubic 4 antialiasing
    = Some (w, idx, ss, se) ->
  Forall (fun row => Qsum row == 1) w.
Proof.
  intros Hres. apply cwi_inv in Hres.
  fold scaled kernel_width P xs in Hres.
  destruct Hres as (Hscale & Hout & HP & Hsum & start & len & Hp & -> & mn & mx &
                    Hmn & _).
  apply tmin_spec in Hmn. destruct Hmn as [_ [rmin [Hrmin Hvmin]]].
  apply in_map_iff in Hrmin. destruct Hrmin as [x0 [<- Hx0]].
  pose proof (pruning_fits out_length scale 4 antialiasing start len HP Hp) as Hfit.
  fold scaled kernel_width P in Hfit.
  assert (Hlen : (1 <= len)%nat).
  { rewrite cut_irow in Hvmin by exact Hfit.
    apply in_map_iff in Hvmin. destruct Hvmin as [j [_ Hj]]. apply in_seq in Hj. lia. }
  apply Forall_forall. intros row Hrow.
  apply in_map_iff in Hrow. destruct Hrow as [x [<- Hx]].
  destruct Hp as [H|[H|H]]; fold scaled kernel_width P xs in H.
  - destruct H as (_ & -> & Hl & _). apply pruned_row_sum; [lia|exact Hl|auto].
  - destruct H as (_ & _ & -> & ->).
    rewrite <- (wnorm_length scale kernel_width scaled P x), cut_all.
    apply wnorm_sum. auto.
  - destruct H as (Hzf & _ & -> & Hl & _). exfalso.
    apply (first_column_has_zero x0); [lia|exact Hx0|auto|exact Hzf].
Qed.

End RowSums.

End RowSums.

Module KernelPartition.
Import Lists CubicKernel RowReading Extrema IndexWindows RowSums.
Import Resample Rows Notions.
Local Open Scope Q_scope.

(** ** The cubic kernel is a partition of unity *)

#[global] Instance cubic_wd : Proper (Qeq ==> Qeq) cubic.
Proof.
  intros x y E. unfold cubic, Qltb.
  assert (Ea : Qabs x == Qabs y) by (rewrite E; reflexivity).
  assert (E1 : Qle_bool (Qabs x) 1 = Qle_bool (Qabs y) 1) by (rewrite Ea; reflexivity).
  assert (E3 : Qle_bool (Qabs x) 2 = Qle_bool (Qabs y) 2) by (rewrite Ea; reflexivity).
  rewrite E1, E3, Ea. reflexivity.
Qed.

Lemma cubic_mid (x : Q) : 1 <= Qabs x -> Qabs x <= 2 ->
  cubic x == -(1#2) * Qabs x ^ 3 + (5#2) * Qabs x ^ 2 - 4 * Qabs x + 2.
Proof.
  intros H1 H2. destruct (Qlt_le_dec 1 (Qabs x)) as [Hlt|Hle].
  - apply cubic_outer; assumption.
  - rewrite cubic_inner by exact Hle.
    assert (E : Qabs x == 1) by lra. rewrite E. reflexivity.
Qed.

Lemma cubic_partition (D : Q) : 2 <= D -> D < 3 ->
  cubic (D - 0) + (cubic (D - 1) + (cubic (D - 2) + (cubic (D - 3) +
    (cubic (D - 4) + (cubic (D - 5) + 0))))) == 1.
Proof.
  intros H2 H3.
  rewrite (cubic_far_pos (D - 0)) by lra.
  rewrite (cubic_mid (D - 1)) by (rewrite Qabs_pos; lra).
  rewrite (cubic_inner (D - 2)) by (rewrite Qabs_pos; lra).
  rewrite (cubic_inner (D - 3)) by (rewrite Qabs_neg; lra).
  rewrite (cubic_mid (D - 4)) by (rewrite Qabs_neg; lra).
  rewrite (cubic_far_neg (D - 5)) by lra.
  rewrite (Qabs_pos (D - 1)) by lra.
  rewrite (Qabs_pos (D - 2)) by lra.
  rewrite (Qabs_neg (D - 3)) by lra.
  rewrite (Qabs_neg (D - 4)) by lra.
  ring.
Qed.

Lemma wraw_unscaled_sum (scale : Q) (x : Z) :
  Qsum (wraw scale 4 false 6 x) == 1.
Proof.
  unfold wraw, irow, linspace0, wfun, lrow.
  assert (El : Qfloor (urow scale x - 4 / 2) = Qfloor (urow scale x - 2)).
  { apply Qfloor_comp. assert (E4 : 4 / 2 == 2) by reflexivity. rewrite E4. reflexivity. }
  rewrite El.
  destruct (floor_offset (urow scale x) 2) as [Hlo Hhi].
  set (l := Qfloor (urow scale x - 2)) in *.
  set (u := urow scale x) in *.
  change (range 6) with [0; 1; 2; 3; 4; 5]%Z.
  cbn [map Qsum fold_right].
  rewrite !inject_Z_plus.
  change (inject_Z 0) with 0. change (inject_Z 1) with 1. change (inject_Z 2) with 2.
  change (inject_Z 3) with 3. change (inject_Z 4) with 4. change (inject_Z 5) with 5.
  assert (E : forall k, u - (inject_Z l + k) == (u - inject_Z l) - k) by (intros; ring).
  rewrite !E. apply cubic_partition; lra.
Qed.

End KernelPartition.

Module TapCounting.
Import Lists CubicKernel RowReading Extrema IndexWindows RowSums KernelPartition.
Import Resample Rows Notions.
Local Open Scope Q_scope.

(** ** The antialiasing kernel: the sum of a row of raw weights is positive

    With [0 < scale < 1] the taps sample the cubic kernel at the points
    [x0 - k * scale].  At least [floor (1 / scale)] of them fall in
    [[-1/2, 1/2]], where the kernel is at least 9/16, and at most
    [2 * (floor (1 / scale) + 1)] of them fall in the two negative lobes,
    where it is at least -2/27. *)

Lemma inject_nat_S (n : nat) : inject_Z (Z.of_nat (S n)) == inject_Z (Z.of_nat n) + 1.
Proof. rewrite Nat2Z.inj_succ. unfold Z.succ. rewrite inject_Z_plus. reflexivity. Qed.

Lemma cubic_sum_lower (g : Z -> Q) (L : list Z) :
  (9#16) * inject_Z (Z.of_nat (length (filter (in_center g) L)))
  - (2#27) * inject_Z (Z.of_nat (length (filter (in_lobe g) L)))
  <= Qsum (map (fun k => cubic (g k)) L).
Proof.
  induction L as [|k L IH].
  - cbn [filter length map]. change (inject_Z (Z.of_nat 0)) with 0.
    change (Qsum []) with 0. lra.
  - cbn [map filter]. rewrite Qsum_cons.
    destruct (in_center g k) eqn:Ec; destruct (in_lobe g k) eqn:El; cbn [length];
      rewrite ?inject_nat_S.
    + unfold in_center in Ec. apply Qle_bool_iff in Ec.
      unfold in_lobe in El. apply andb_true_iff in El. destruct El as [El _].
      apply Qltb_iff in El. lra.
    + unfold in_center in Ec. apply Qle_bool_iff in Ec.
      pose proof (cubic_center (g k) Ec). lra.
    + pose proof (cubic_lobe (g k)). lra.
    + assert (0 <= cubic (g k)).
      { destruct (Qlt_le_dec 1 (Qabs (g k))) as [H1|H1].
        - destruct (Qlt_le_dec (Qabs (g k)) 2) as [H2|H2].
          + unfold in_lobe in El. apply andb_false_iff in El.
            destruct El as [El|El].
            * apply Qltb_iff in H1. congruence.
            * apply Qltb_iff in H2. congruence.
          + rewrite cubic_far by exact H2. lra.
        - apply cubic_inner_nonneg. exact H1. }
      lra.
Qed.

(** ** Scaling integers by the step *)

Lemma scaled_le (a b : Z) (s : Q) : 0 <= s -> (a <= b)%Z -> inject_Z a * s <= inject_Z b * s.
Proof. intros Hs H. apply Qmult_le_compat_r; [|exact Hs]. now rewrite <- Zle_Qle. Qed.

Lemma scaled_lt_inv (a b : Z) (s : Q) :
  0 <= s -> inject_Z a * s < inject_Z b * s -> (a < b)%Z.
Proof.
  intros Hs H. destruct (Z_lt_le_dec a b) as [Hlt|Hle]; [exact Hlt|exfalso].
  pose proof (scaled_le b a s Hs Hle). lra.
Qed.

Lemma floor_scaled (A s : Q) : 0 < s ->
  inject_Z (Qfloor (A / s)) * s <= A /\ A < (inject_Z (Qfloor (A / s)) + 1) * s.
Proof.
  intros Hs.
  assert (E : A == A / s * s) by (field; lra).
  pose proof (Qfloor_le (A / s)) as H1.
  pose proof (Qlt_floor (A / s)) as H2.
  rewrite inject_Z_plus in H2. change (inject_Z 1) with 1 in H2.
  remember (A / s) as c eqn:Ec. clear Ec. rewrite E. split.
  - apply Qmult_le_compat_r; [exact H1|lra].
  - apply Qmult_lt_compat_r; [exact Hs|exact H2].
Qed.

Lemma ceil_scaled (A s : Q) : 0 < s ->
  A <= inject_Z (Qceiling (A / s)) * s /\ (inject_Z (Qceiling (A / s)) - 1) * s < A.
Proof.
  intros Hs.
  assert (E : A == A / s * s) by (field; lra).
  pose proof (Qle_ceiling (A / s)) as H1.
  pose proof (Qceiling_lt (A / s)) as H2.
  unfold Z.sub in H2. rewrite inject_Z_plus in H2.
  change (inject_Z (- (1))) with (- (1)) in H2.
  remember (A / s) as c eqn:Ec. clear Ec. rewrite E. split.
  - apply Qmult_le_compat_r; [exact H1|lra].
  - apply Qmult_lt_compat_r; [exact Hs|]. lra.
Qed.

Lemma NoDup_range (n : Z) : NoDup (range n).
Proof.
  unfold range. apply Injective_map_NoDup; [|apply seq_NoDup].
  intros a b H. lia.
Qed.

Lemma NoDup_shift_range (a n : Z) : NoDup (map (fun j => (a + j)%Z) (range n)).
Proof.
  apply Injective_map_NoDup; [|apply NoDup_range].
  intros x y H. lia.
Qed.

Section Counting.
Variables (s x0 : Q) (P : Z).
Hypothesis Hs0 : 0 < s.
Hypothesis Hs1 : s < 1.
Hypothesis Hx0 : 2 <= x0.
Hypothesis Hend : x0 - inject_Z (P - 1) * s <= -2.

Let m : Z := Qfloor (1 / s).

Lemma steps_fit : inject_Z m * s <= 1 /\ 1 < (inject_Z m + 1) * s.
Proof. exact (floor_scaled 1 s Hs0). Qed.

Lemma steps_positive : (1 <= m)%Z.
Proof.
  destruct steps_fit as [_ H].
  destruct (Z_lt_le_dec m 1) as [Hlt|Hle]; [exfalso|exact Hle].
  assert (Hm : inject_Z m <= 0) by (change 0 with (inject_Z 0); rewrite <- Zle_Qle; lia).
  assert ((inject_Z m + 1) * s <= 1 * s) by (apply Qmult_le_compat_r; lra).
  lra.
Qed.

Lemma tap_plus (a j : Z) : tap s x0 (a + j) == x0 - inject_Z a * s - inject_Z j * s.
Proof. unfold tap. rewrite inject_Z_plus. ring. Qed.

Lemma center_count :
  (Z.to_nat m <= length (filter (in_center (tap s x0)) (range P)))%nat.
Proof.
  set (lo := Qceiling ((x0 - (1#2)) / s)).
  destruct (ceil_scaled (x0 - (1#2)) s Hs0) as [Hlo1 Hlo2]. fold lo in Hlo1, Hlo2.
  destruct steps_fit as [Hm1 Hm2].
  rewrite <- (range_length m), <- (length_map (fun j => (lo + j)%Z)).
  apply NoDup_incl_length; [apply NoDup_shift_range|].
  intros k Hk. apply in_map_iff in Hk. destruct Hk as [j [<- Hj]].
  apply in_range in Hj.
  assert (Hj0 : 0 <= inject_Z j * s).
  { apply Qmult_le_0_compat; [|lra]. change 0 with (inject_Z 0). rewrite <- Zle_Qle. lia. }
  assert (Hj1 : inject_Z j * s <= inject_Z (m - 1) * s) by (apply scaled_le; [lra|lia]).
  unfold Z.sub in Hj1. rewrite inject_Z_plus in Hj1.
  change (inject_Z (- (1))) with (- (1)) in Hj1.
  assert (Hc : - (1#2) <= tap s x0 (lo + j) /\ tap s x0 (lo + j) <= 1#2).
  { rewrite tap_plus. split; lra. }
  apply filter_In. split.
  - apply in_range. split.
    + assert (Hlt : inject_Z (-1) * s < inject_Z (lo + j) * s).
      { change (inject_Z (-1)) with (- (1)). rewrite inject_Z_plus. lra. }
      apply scaled_lt_inv in Hlt; [lia|lra].
    + assert (Hlt : inject_Z (lo + j) * s < inject_Z (P - 1) * s).
      { destruct Hc as [Hc _]. unfold tap in Hc. lra. }
      apply scaled_lt_inv in Hlt; [lia|lra].
  - unfold in_center. apply Qle_bool_iff. apply Qabs_Qle_condition. exact Hc.
Qed.

Lemma lobe_window (A : Q) (k : Z) :
  A < inject_Z k * s -> inject_Z k * s < A + 1 ->
  In k (map (fun j => (Qfloor (A / s) + 1 + j)%Z) (range (m + 1))).
Proof.
  intros H1 H2.
  destruct (floor_scaled A s Hs0) as [Ha1 Ha2].
  destruct steps_fit as [Hm1 Hm2].
  set (a := Qfloor (A / s)) in *.
  apply in_map_iff. exists (k - a - 1)%Z. split; [lia|].
  apply in_range. split.
  - assert (Hlt : inject_Z a * s < inject_Z k * s) by lra.
    apply scaled_lt_inv in Hlt; [lia|lra].
  - assert (Hlt : inject_Z k * s < inject_Z (a + 1 + (m + 1)) * s).
    { rewrite !inject_Z_plus. change (inject_Z 1) with 1. lra. }
    apply scaled_lt_inv in Hlt; [lia|lra].
Qed.

Lemma lobe_count :
  (length (filter (in_lobe (tap s x0)) (range P)) <= 2 * Z.to_nat (m + 1))%nat.
Proof.
  set (J1 := map (fun j => (Qfloor ((x0 - 2) / s) + 1 + j)%Z) (range (m + 1))).
  set (J2 := map (fun j => (Qfloor ((x0 + 1) / s) + 1 + j)%Z) (range (m + 1))).
  assert (Hlen : length (J1 ++ J2) = (2 * Z.to_nat (m + 1))%nat).
  { unfold J1, J2. rewrite length_app, !length_map, range_length. lia. }
  rewrite <- Hlen.
  apply NoDup_incl_length; [apply NoDup_filter, NoDup_range|].
  intros k Hk. apply filter_In in Hk. destruct Hk as [_ Hk].
  unfold in_lobe in Hk. apply andb_true_iff in Hk. destruct Hk as [Hk1 Hk2].
  apply Qltb_iff in Hk1. apply Qltb_iff in Hk2.
  apply in_or_app.
  destruct (Qlt_le_dec (tap s x0 k) 0) as [Hneg|Hpos].
  - right. rewrite Qabs_neg in Hk1, Hk2 by lra. unfold tap in Hk1, Hk2.
    apply lobe_window; lra.
  - left. rewrite Qabs_pos in Hk1, Hk2 by lra. unfold tap in Hk1, Hk2.
    apply lobe_window; lra.
Qed.

Lemma taps_sum_positive : 0 < Qsum (map (fun k => cubic (tap s x0 k)) (range P)).
Proof.
  pose proof (cubic_sum_lower (tap s x0) (range P)) as Hlow.
  pose proof center_count as Hc. pose proof lobe_count as Hl.
  pose proof steps_positive as Hm.
  set (c := length (filter (in_center (tap s x0)) (range P))) in *.
  set (n := length (filter (in_lobe (tap s x0)) (range P))) in *.
  assert (Hcq : inject_Z m <= inject_Z (Z.of_nat c)) by (rewrite <- Zle_Qle; lia).
  assert (Hnq : inject_Z (Z.of_nat n) <= 2 * inject_Z m + 2).
  { assert (E : 2 * inject_Z m + 2 == inject_Z (2 * m + 2)).
    { rewrite inject_Z_plus, inject_Z_mult. reflexivity. }
    rewrite E, <- Zle_Qle. lia. }
  assert (Hmq : 1 <= inject_Z m) by (change 1 with (inject_Z 1); rewrite <- Zle_Qle; lia).
  lra.
Qed.

End Counting.

End TapCounting.

Module Totality.
Import Lists CubicKernel RowReading Extrema IndexWindows RowSums KernelPartition TapCounting.
Import Resample Rows Notions.
Local Open Scope Q_scope.

(** ** The row sums are not zero for a positive scale *)

Lemma Qsum_map_ext {A : Type} (f g : A -> Q) (L : list A) :
  (forall k, f k == g k) -> Qsum (map f L) == Qsum (map g L).
Proof.
  intros H. induction L as [|k L IH]; cbn [map]; [reflexivity|].
  rewrite !Qsum_cons, IH, H. reflexivity.
Qed.

Lemma Qsum_map_mul {A : Type} (c : Q) (f : A -> Q) (L : list A) :
  Qsum (map (fun k => c * f k) L) == c * Qsum (map f L).
Proof.
  induction L as [|k L IH]; cbn [map].
  - change (Qsum []) with 0. ring.
  - rewrite !Qsum_cons, IH. ring.
Qed.

Lemma wraw_scaled_sum (scale : Q) (x : Z) :
  0 < scale -> scale < 1 ->
  0 < Qsum (wraw scale (4 / scale) true (Qceiling (4 / scale) + 2) x).
Proof.
  intros Hs0 Hs1.
  set (P := (Qceiling (4 / scale) + 2)%Z).
  set (u := urow scale x).
  set (l := lrow scale (4 / scale) x).
  set (x0 := (u - inject_Z l) * scale).
  assert (E : Qsum (wraw scale (4 / scale) true P x) ==
              scale * Qsum (map (fun k => cubic (tap scale x0 k)) (range P))).
  { unfold wraw, irow, linspace0, wfun. rewrite map_map.
    rewrite <- Qsum_map_mul. apply Qsum_map_ext. intros k.
    fold u l. apply Qmult_comp; [reflexivity|]. apply cubic_wd.
    unfold tap, x0. rewrite inject_Z_plus. ring. }
  rewrite E. apply Qmult_lt_0_compat; [exact Hs0|].
  destruct (floor_offset u (4 / scale / 2)) as [Hlo Hhi].
  change (Qfloor (u - 4 / scale / 2)) with l in Hlo, Hhi.
  apply taps_sum_positive; try assumption.
  - unfold x0. assert (E2 : 2 == 4 / scale / 2 * scale) by (field; lra).
    rewrite E2. apply Qmult_le_compat_r; [exact Hlo|lra].
  - pose proof (Qle_ceiling (4 / scale)) as Hc.
    assert (HPq : inject_Z (P - 1) == inject_Z (Qceiling (4 / scale)) + 1).
    { replace (P - 1)%Z with (Qceiling (4 / scale) + 1)%Z by (unfold P; lia).
      rewrite inject_Z_plus. reflexivity. }
    assert (Hd : u - inject_Z l - inject_Z (P - 1) <= - (4 / scale / 2)).
    { rewrite HPq. clear - Hhi Hc. revert Hhi Hc.
      generalize (inject_Z (Qceiling (4 / scale))). generalize (4 / scale).
      intros kw c Hhi Hc.
      assert (Eh : kw == kw / 2 + kw / 2) by field.
      revert Hhi Hc Eh. generalize (kw / 2). intros h Hhi Hc Eh. lra. }
    assert (E3 : x0 - inject_Z (P - 1) * scale == (u - inject_Z l - inject_Z (P - 1)) * scale)
      by (unfold x0; ring).
    assert (E4 : -2 == - (4 / scale / 2) * scale) by (field; lra).
    rewrite E3, E4. apply Qmult_le_compat_r; [exact Hd|lra].
Qed.

Section Total.
Variables (in_length out_length : Z) (scale : Q) (antialiasing : bool).

Let scaled := Qltb scale 1 && antialiasing.
Let kernel_width := if scaled then 4 / scale else 4.
Let P := (Qceiling kernel_width + 2)%Z.
Let xs := linspace1 out_length.

Hypothesis Hscale : 0 < scale.

Lemma taps_at_least_six : (6 <= P)%Z.
Proof.
  unfold P, kernel_width.
  destruct (Sumbool.sumbool_of_bool scaled) as [Es|Es]; rewrite Es.
  - assert (Hlt : scale < 1).
    { unfold scaled in Es. apply andb_true_iff in Es. apply Qltb_iff. tauto. }
    assert (H4 : 4 <= 4 / scale) by (apply Qle_shift_div_l; lra).
    apply Qceiling_resp_le in H4. change (Qceiling 4) with 4%Z in H4. lia.
  - change (Qceiling 4) with 4%Z. lia.
Qed.

Lemma row_sum_nonzero (x : Z) : ~ Qsum (wraw scale kernel_width scaled P x) == 0.
Proof.
  unfold P, kernel_width.
  destruct (Sumbool.sumbool_of_bool scaled) as [Es|Es]; rewrite Es.
  - assert (Hlt : scale < 1).
    { unfold scaled in Es. apply andb_true_iff in Es. apply Qltb_iff. tauto. }
    pose proof (wraw_scaled_sum scale x Hscale Hlt). lra.
  - change (Qceiling 4 + 2)%Z with 6%Z. rewrite wraw_unscaled_sum. lra.
Qed.

Lemma cwi_total :
  (1 <= out_length)%Z ->
  exists r, calculate_weights_indices in_length out_length scale Cubic 4 antialiasing = Some r.
Proof.
  intros Hout. rewrite cwi_rows. fold scaled kernel_width P xs.
  pose proof taps_at_least_six as HP.
  assert (E0 : Qeq_bool scale 0 = false).
  { destruct (Qeq_bool scale 0) eqn:E; [|reflexivity]. apply Qeq_bool_iff in E. lra. }
  rewrite E0.
  destruct (Z.ltb_spec out_length 0); [lia|].
  destruct (Z.ltb_spec P 0); [lia|].
  assert (Ex : existsb (fun x => Qeq_bool (Qsum (wraw scale kernel_width scaled P x)) 0) xs = false).
  { destruct (existsb _ xs) eqn:E; [|reflexivity].
    apply existsb_exists in E. destruct E as [x [_ Hx]].
    apply Qeq_bool_iff in Hx. exfalso. exact (row_sum_nonzero x Hx). }
  rewrite Ex. cbv zeta.
  destruct (Z.eqb_spec P 0); [lia|].
  assert (Hx1 : In 1%Z xs) by (apply linspace1_nonempty; exact Hout).
  assert (Hzf : zeros_first (map (wnorm scale kernel_width scaled P) xs) <> 0%nat).
  { apply (first_column_has_zero out_length scale antialiasing 1%Z); fold scaled kernel_width P.
    - lia.
    - exact Hx1.
    - apply row_sum_nonzero. }
  destruct (Nat.eqb_spec (zeros_first (map (wnorm scale kernel_width scaled P) xs)) 0)
    as [Hz|_]; [contradiction|]. cbn [negb].
  rewrite !narrow1_nonneg by lia.
  assert (E1 : (0 <=? P - 2)%Z = true) by (apply Z.leb_le; lia).
  assert (E2 : (1 + (P - 2) <=? P)%Z = true) by (apply Z.leb_le; lia).
  assert (E3 : (0 + (P - 2) <=? P - 2)%Z = true) by (apply Z.leb_le; lia).
  rewrite E1, E2. cbn [andb].
  assert (Hsome : forall I : list (list Z), (exists row v, In row I /\ In v row) ->
    forall Wt : list (list Q),
    exists r, (mn <- tmin I ;; mx <- tmax I ;;
       Some (Wt, map (map (fun i => (i + (- mn + 1) - 1)%Z)) I, (- mn + 1)%Z,
             (mx - in_length)%Z)) = Some r).
  { intros I [row [v [Hr Hv]]] Wt.
    destruct (tmin_some I row v Hr Hv) as [mn ->].
    destruct (tmax_some I row v Hr Hv) as [mx ->]. eauto. }
  assert (Hrow : forall f : list Z -> list Z,
    (forall x, exists v, In v (f (cut (Z.to_nat 1) (Z.to_nat (P - 2)) (irow scale kernel_width P x)))) ->
    exists row v, In row (map f (map (cut (Z.to_nat 1) (Z.to_nat (P - 2)))
                      (map (irow scale kernel_width P) xs))) /\ In v row).
  { intros f Hf. destruct (Hf 1%Z) as [v Hv].
    eexists; exists v; split; [|exact Hv].
    apply in_map, in_map, in_map. exact Hx1. }
  assert (Hcut : forall x, exists v,
    In v (cut (Z.to_nat 1) (Z.to_nat (P - 2)) (irow scale kernel_width P x))).
  { intros x. rewrite cut_irow by lia.
    exists (lrow scale kernel_width x + Z.of_nat (Z.to_nat 1))%Z.
    apply in_map_iff. exists (Z.to_nat 1). split; [reflexivity|]. apply in_seq. lia. }
  destruct (Nat.eqb (zeros_last (map (wnorm scale kernel_width scaled P) xs)) 0); cbn [negb].
  - apply Hsome. destruct (Hrow (fun r => r)) as [row [v [Hr Hv]]]; [exact Hcut|].
    rewrite map_id in Hr. eauto.
  - rewrite !narrow1_nonneg by lia. rewrite E1, E3. cbn [andb].
    apply Hsome. apply Hrow. intros x. destruct (Hcut x) as [v Hv].
    exists v. change (Z.to_nat 0) with 0%nat.
    change (Z.to_nat 1) with 1%nat in *. rewrite cut_cut. exact Hv.
Qed.

End Total.

End Totality.

Module WeightsAndIndices.
Import Lists CubicKernel RowReading Extrema IndexWindows RowSums KernelPartition TapCounting Totality.
Import Resample Rows Notions.
Local Open Scope Q_scope.

(** C4: every row of the weights matrix returned by
    [calculate_weights_indices] sums to 1 (exactly, in rational arithmetic),
    whatever the scale and the antialiasing flag; and the function does
    return its matrices for every positive scale.  (A row of weights whose
    sum is 0, which no positive scale produces, has no rational quotient and
    counts as not returned.) *)
Theorem weights_rows_sum_to_one (in_length out_length : Z) (scale : Q) (antialiasing : bool) :
  (1 <= in_length)%Z -> (1 <= out_length)%Z ->
  (0 < scale -> exists r,
     calculate_weights_indices in_length out_length scale Cubic 4 antialiasing = Some r) /\
  (forall w idx ss se,
     calculate_weights_indices in_length out_length scale Cubic 4 antialiasing
       = Some (w, idx, ss, se) ->
     Forall (fun row => Qsum row == 1) w).
Proof.
  intros _ Hout. split.
  - intros Hs. apply cwi_total; assumption.
  - intros w idx ss se Hres. exact (cwi_row_sums _ _ _ _ w idx ss se Hres).
Qed.

Lemma weights_rows_sum_to_one_witness :
  exists w idx ss se,
    calculate_weights_indices 4 2 (1#2) Cubic 4 true = Some (w, idx, ss, se) /\
    Forall (fun row => Qsum row == 1) w.
Proof.
  destruct (weights_rows_sum_to_one 4 2 (1#2) true) as [Htotal Hsum]; [lia|lia|].
  destruct Htotal as [[[[w idx] ss] se] E]; [reflexivity|].
  exists w, idx, ss, se. split; [exact E|exact (Hsum w idx ss se E)].
Defined.

(** C9: the index matrix returned by [calculate_weights_indices] has
    smallest entry 0, and the kernel window of every output row (from the
    row's first index, over as many positions as the row has weights) lies
    inside the padded input of length [in_length + sym_len_s + sym_len_e];
    the function returns these matrices for every positive scale. *)
Theorem indices_address_padded_input (in_length out_length : Z) (scale : Q)
    (antialiasing : bool) :
  (1 <= in_length)%Z -> (1 <= out_length)%Z ->
  (0 < scale -> exists r,
     calculate_weights_indices in_length out_length scale Cubic 4 antialiasing = Some r) /\
  (forall w idx ss se,
     calculate_weights_indices in_length out_length scale Cubic 4 antialiasing
       = Some (w, idx, ss, se) ->
     tmin idx = Some 0%Z /\ Forall2 (window_inside in_length ss se) w idx).
Proof.
  intros _ Hout. split.
  - intros Hs. apply cwi_total; assumption.
  - intros w idx ss se Hres. exact (cwi_indices _ _ _ _ _ w idx ss se Hres).
Qed.

Lemma indices_address_padded_input_witness :
  exists w idx ss se,
    calculate_weights_indices 4 2 (1#2) Cubic 4 true = Some (w, idx, ss, se) /\
    tmin idx = Some 0%Z /\ Forall2 (window_inside 4 ss se) w idx.
Proof.
  destruct (indices_address_padded_input 4 2 (1#2) true) as [Htotal Hidx]; [lia|lia|].
  destruct Htotal as [[[[w idx] ss] se] E]; [reflexivity|].
  exists w, idx, ss, se. split; [exact E|exact (Hidx w idx ss se E)].
Defined.

End WeightsAndIndices.

Module Buffers.
Import Lists CubicKernel RowReading Extrema IndexWindows RowSums KernelPartition TapCounting Totality.
Import Resample Rows Resize Notions.
Local Open Scope Z_scope.

(** ** Buffers: replacing entries *)

Lemma set_nth_length {A : Type} (i : nat) (v : A) (l : list A) :
  (i < length l)%nat -> length (set_nth i v l) = length l.
Proof.
  intros H. unfold set_nth. rewrite length_app, length_firstn. cbn [length].
  rewrite length_skipn. lia.
Qed.

Lemma set_nth_same {A : Type} (i : nat) (v : A) (l : list A) :
  (i < length l)%nat -> nth_error (set_nth i v l) i = Some v.
Proof.
  intros H. unfold set_nth. rewrite nth_error_app2 by (rewrite length_firstn; lia).
  rewrite length_firstn. replace (i - Nat.min i (length l))%nat with 0%nat by lia.
  reflexivity.
Qed.

Lemma set_nth_other {A : Type} (i j : nat) (v : A) (l : list A) :
  (i < length l)%nat -> j <> i -> nth_error (set_nth i v l) j = nth_error l j.
Proof.
  intros H Hne. unfold set_nth.
  destruct (Nat.lt_ge_cases j i) as [Hlt|Hge].
  - rewrite nth_error_app1 by (rewrite length_firstn; lia).
    rewrite nth_error_firstn. destruct (Nat.ltb_spec j i); [reflexivity|lia].
  - rewrite nth_error_app2 by (rewrite length_firstn; lia).
    rewrite length_firstn. replace (j - Nat.min i (length l))%nat with (S (j - S i)) by lia.
    cbn [nth_error]. rewrite nth_error_skipn. f_equal. lia.
Qed.

Lemma set_nth_In {A : Type} (i : nat) (v : A) (l : list A) (a : A) :
  In a (set_nth i v l) -> a = v \/ In a l.
Proof.
  unfold set_nth. intros H. apply in_app_or in H. destruct H as [H|[H|H]].
  - right. exact (in_firstn_inv _ _ _ H).
  - left. congruence.
  - right. exact (in_skipn_inv _ _ _ H).
Qed.

(** ** Shapes *)

Lemma repeat_Forall {A : Type} (P : A -> Prop) (a : A) (n : nat) :
  P a -> Forall P (repeat a n).
Proof. intros H. apply Forall_forall. intros x Hx. apply repeat_spec in Hx. now subst. Qed.

Lemma FloatTensor_shape (uninit : Q) (c h w : Z) (t : tensor3) :
  FloatTensor uninit c h w = Some t ->
  has_shape t (Z.to_nat c) (Z.to_nat h) (Z.to_nat w).
Proof.
  unfold FloatTensor. destruct (_ || _); [discriminate|]. intros [= <-].
  split; [apply repeat_length|].
  apply repeat_Forall. split; [apply repeat_length|].
  apply repeat_Forall. apply repeat_length.
Qed.

Lemma FloatTensor_some (uninit : Q) (c h w : Z) :
  0 <= c -> 0 <= h -> 0 <= w -> exists t, FloatTensor uninit c h w = Some t.
Proof.
  intros Hc Hh Hw. unfold FloatTensor.
  destruct (Z.ltb_spec c 0), (Z.ltb_spec h 0), (Z.ltb_spec w 0); try lia.
  cbn. eauto.
Qed.

Lemma has_shape_channel (t : tensor3) (c h w : nat) (k : nat) (ch : list (list Q)) :
  has_shape t c h w -> nth_error t k = Some ch ->
  length ch = h /\ Forall (fun r => length r = w) ch.
Proof.
  intros [_ Hf] Hk. apply nth_error_In in Hk.
  rewrite Forall_forall in Hf. exact (Hf ch Hk).
Qed.

Lemma has_shape_set_channel (t : tensor3) (c h w : nat) (k : nat) (ch : list (list Q)) :
  has_shape t c h w -> (k < c)%nat ->
  length ch = h -> Forall (fun r => length r = w) ch ->
  has_shape (set_nth k ch t) c h w.
Proof.
  intros [Hl Hf] Hk Hh Hw. split.
  - rewrite set_nth_length; lia.
  - apply Forall_forall. intros x Hx. apply set_nth_In in Hx. destruct Hx as [->|Hx].
    + auto.
    + rewrite Forall_forall in Hf. auto.
Qed.

Lemma fold_option_none {A B : Type} (body : A -> B -> option A) (l : list B) :
  fold_left (fun acc i => match acc with Some out => body out i | None => None end) l None = None.
Proof. induction l as [|i l IH]; cbn; [reflexivity|exact IH]. Qed.

Lemma for_range_invariant (Inv : tensor3 -> Prop) (n : Z)
    (body : tensor3 -> Z -> option tensor3) (init out : tensor3) :
  (forall t i t', Inv t -> body t i = Some t' -> Inv t') ->
  Inv init -> for_range n body init = Some out -> Inv out.
Proof.
  intros Hstep. unfold for_range. generalize (range n) as l. intros l. revert init.
  induction l as [|i l IH]; intros init Hinit; cbn [fold_left].
  - intros [= <-]. exact Hinit.
  - destruct (body init i) as [t'|] eqn:E.
    + apply IH. exact (Hstep _ _ _ Hinit E).
    + rewrite fold_option_none. discriminate.
Qed.

Lemma set_col_shape (out out' : tensor3) (C H W c i : nat) (v : list Q) :
  has_shape out C H W -> set_col out c i v = Some out' -> has_shape out' C H W.
Proof.
  intros Hs. unfold set_col.
  destruct (nth_error out c) as [ch|] eqn:Ec; [|discriminate].
  destruct (forallb _ ch && _) eqn:Eb; [|discriminate]. intros [= <-].
  apply andb_true_iff in Eb. destruct Eb as [Eb1 Eb2].
  apply Nat.eqb_eq in Eb2. rewrite forallb_forall in Eb1.
  destruct (has_shape_channel _ _ _ _ _ _ Hs Ec) as [Hh Hw].
  assert (Hc : (c < C)%nat).
  { destruct Hs as [<- _]. apply nth_error_Some. congruence. }
  apply has_shape_set_channel; [exact Hs|exact Hc| |].
  - rewrite length_map, length_combine. lia.
  - apply Forall_forall. intros r Hr. apply in_map_iff in Hr.
    destruct Hr as [[r0 v0] [<- Hin]]. cbn [fst snd].
    apply in_combine_l in Hin.
    rewrite set_nth_length.
    + rewrite Forall_forall in Hw. auto.
    + specialize (Eb1 r0 Hin). apply Nat.ltb_lt in Eb1. exact Eb1.
Qed.

Lemma resize_col_shape (aug : tensor3) (weights : list (list Q)) (indices : list (list Z))
    (kw : nat) (out out' : tensor3) (i : Z) (C H W : nat) :
  has_shape out C H W -> resize_col aug weights indices kw out i = Some out' ->
  has_shape out' C H W.
Proof.
  intros Hs. unfold resize_col.
  destruct (nth_error indices _) as [irow|]; [|discriminate].
  destruct (hd_error irow) as [idx|]; [|discriminate].
  destruct (nth_error weights _) as [w|]; [|discriminate].
  destruct (ch <- nth_error aug 0 ;; mv_rows (Z.to_nat idx) kw ch w) as [v0|]; [|discriminate].
  destruct (set_col out 0 _ v0) as [o1|] eqn:E1; [|discriminate].
  destruct (ch <- nth_error aug 1 ;; mv_rows (Z.to_nat idx) kw ch w) as [v1|]; [|discriminate].
  destruct (set_col o1 1 _ v1) as [o2|] eqn:E2; [|discriminate].
  destruct (ch <- nth_error aug 2 ;; mv_rows (Z.to_nat idx) kw ch w) as [v2|]; [|discriminate].
  intros E3.
  eapply set_col_shape; [|exact E3].
  eapply set_col_shape; [|exact E2].
  eapply set_col_shape; [|exact E1]. exact Hs.
Qed.

Lemma resize_W_shape (uninit : Q) (out_1 out_2 : tensor3) (in_C in_W out_H out_W : Z)
    (weights : list (list Q)) (indices : list (list Z)) (s e : Z) :
  resize_W uninit out_1 in_C in_W out_H out_W weights indices s e = Some out_2 ->
  has_shape out_2 (Z.to_nat in_C) (Z.to_nat out_H) (Z.to_nat out_W).
Proof.
  unfold resize_W.
  destruct (FloatTensor uninit in_C out_H _) as [a0|]; [|discriminate].
  destruct (copy_cols _ a0 s in_W out_1) as [a1|]; [|discriminate].
  destruct (copy_cols _ a1 0 s _) as [a2|]; [|discriminate].
  destruct (copy_cols _ a2 _ e _) as [a3|]; [|discriminate].
  destruct (FloatTensor uninit in_C out_H out_W) as [o|] eqn:Eo; [|discriminate].
  apply (for_range_invariant
    (fun t => has_shape t (Z.to_nat in_C) (Z.to_nat out_H) (Z.to_nat out_W))).
  - intros t i t' Ht Hb. exact (resize_col_shape _ _ _ _ _ _ _ _ _ _ Ht Hb).
  - exact (FloatTensor_shape _ _ _ _ _ Eo).
Qed.

Lemma imresize_shape (uninit : Q) (img out : tensor3) (scale : Q) (antialiasing : bool) :
  imresize uninit img scale antialiasing = Some out ->
  has_shape out (length img)
    (Z.to_nat (Qceiling (inject_Z (size1 img) * scale)))
    (Z.to_nat (Qceiling (inject_Z (size2 img) * scale))).
Proof.
  unfold imresize.
  destruct (calculate_weights_indices (size1 img) _ _ _ _ _) as [[[[wH iH] sHs] sHe]|];
    [|discriminate].
  destruct (calculate_weights_indices (size2 img) _ _ _ _ _) as [[[[wW iW] sWs] sWe]|];
    [|discriminate].
  destruct (resize_H _ _ _ _ _ _ _ _ _ _) as [out_1|]; [|discriminate].
  intros Hr. apply resize_W_shape in Hr. unfold size0 in Hr.
  rewrite Nat2Z.id in Hr. exact Hr.
Qed.

End Buffers.

Module SymmetricPadding.
Import Lists CubicKernel RowReading Extrema IndexWindows RowSums KernelPartition TapCounting Totality Buffers.
Import Resample Rows Resize Notions.
Local Open Scope Z_scope.

(** ** Symmetric copying along one dimension *)

Lemma splice_length {A : Type} (s : nat) (new old : list A) :
  (s + length new <= length old)%nat -> length (splice s new old) = length old.
Proof.
  intros H. unfold splice. rewrite !length_app, length_firstn, length_skipn. lia.
Qed.

Lemma splice_inside {A : Type} (s : nat) (new old : list A) (k : nat) :
  (s + length new <= length old)%nat -> (k < length new)%nat ->
  nth_error (splice s new old) (s + k) = nth_error new k.
Proof.
  intros H Hk. unfold splice.
  rewrite nth_error_app2 by (rewrite length_firstn; lia).
  rewrite length_firstn. replace (s + k - Nat.min s (length old))%nat with k by lia.
  apply nth_error_app1. exact Hk.
Qed.

Lemma splice_outside {A : Type} (s : nat) (new old : list A) (k : nat) :
  (s + length new <= length old)%nat -> (k < s \/ s + length new <= k)%nat ->
  nth_error (splice s new old) k = nth_error old k.
Proof.
  intros H Hk. unfold splice. destruct Hk as [Hk|Hk].
  - rewrite nth_error_app1 by (rewrite length_firstn; lia).
    rewrite nth_error_firstn. destruct (Nat.ltb_spec k s); [reflexivity|lia].
  - rewrite nth_error_app2 by (rewrite length_firstn; lia).
    rewrite length_firstn.
    rewrite nth_error_app2 by lia.
    rewrite nth_error_skipn. f_equal. lia.
Qed.

Lemma splice_In {A : Type} (s : nat) (new old : list A) (a : A) :
  In a (splice s new old) -> In a new \/ In a old.
Proof.
  unfold splice. intros H. apply in_app_or in H. destruct H as [H|H].
  - right. exact (in_firstn_inv _ _ _ H).
  - apply in_app_or in H. destruct H as [H|H]; [left; exact H|].
    right. exact (in_skipn_inv _ _ _ H).
Qed.

Lemma broadcast_length {A : Type} (len : Z) (src r : list A) :
  0 <= len -> broadcast len src = Some r -> length r = Z.to_nat len.
Proof.
  intros Hl. unfold broadcast. destruct (Z.eqb_spec (Z.of_nat (length src)) len) as [E|E].
  - intros [= <-]. lia.
  - destruct src as [|a [|b src]]; try discriminate. intros [= <-]. apply repeat_length.
Qed.

Lemma broadcast_In {A : Type} (len : Z) (src r : list A) (a : A) :
  broadcast len src = Some r -> In a r -> In a src.
Proof.
  unfold broadcast. destruct (Z.eqb_spec (Z.of_nat (length src)) len) as [E|E].
  - intros [= <-]. auto.
  - destruct src as [|b [|c src]]; try discriminate. intros [= <-] Hin.
    apply repeat_spec in Hin. subst. now left.
Qed.

Lemma broadcast_some {A : Type} (len : Z) (src : list A) :
  Z.of_nat (length src) = len \/ length src = 1%nat ->
  exists r, broadcast len src = Some r.
Proof.
  intros H. unfold broadcast. destruct (Z.eqb_spec (Z.of_nat (length src)) len) as [E|E].
  - eauto.
  - destruct H as [H|H]; [contradiction|].
    destruct src as [|a [|b src]]; try discriminate. eauto.
Qed.

Lemma slice_to_length {A : Type} (k : Z) (l : list A) :
  0 <= k -> length (slice_to k l) = Nat.min (Z.to_nat k) (length l).
Proof.
  intros Hk. unfold slice_to, slice_bound.
  destruct (Z.ltb_spec k 0); [lia|]. apply length_firstn.
Qed.

Lemma slice_from_length {A : Type} (k : Z) (l : list A) :
  0 < k -> length (slice_from (- k) l) = Nat.min (Z.to_nat k) (length l).
Proof.
  intros Hk. unfold slice_from, slice_bound.
  destruct (Z.ltb_spec (- k) 0); [|lia]. rewrite length_skipn. lia.
Qed.

Lemma slice_to_In {A : Type} (k : Z) (l : list A) (a : A) : In a (slice_to k l) -> In a l.
Proof. apply in_firstn_inv. Qed.

Lemma slice_from_In {A : Type} (k : Z) (l : list A) (a : A) : In a (slice_from k l) -> In a l.
Proof. apply in_skipn_inv. Qed.

Lemma padded_spec {A : Type} (s e : Z) (fill l : list A) :
  1 <= s -> 1 <= e ->
  (Z.to_nat s <= length l \/ length l = 1)%nat ->
  (Z.to_nat e <= length l \/ length l = 1)%nat ->
  length fill = Z.to_nat (Z.of_nat (length l) + s + e) ->
  exists a, padded s e fill l = Some a /\
    length a = Z.to_nat (Z.of_nat (length l) + s + e) /\
    (forall k, (k < length l)%nat -> nth_error a (Z.to_nat s + k) = nth_error l k) /\
    (forall x, In x a -> In x l \/ In x fill).
Proof.
  intros Hs He Hsl Hel Hfill. unfold padded.
  assert (E1 : broadcast (Z.of_nat (length l)) l = Some l).
  { unfold broadcast. now rewrite Z.eqb_refl. }
  rewrite E1.
  destruct (broadcast_some s (rev (slice_to s l))) as [b2 E2].
  { rewrite length_rev, slice_to_length by lia. lia. }
  destruct (broadcast_some e (rev (slice_from (- e) l))) as [b3 E3].
  { rewrite length_rev, slice_from_length by lia. lia. }
  rewrite E2, E3.
  assert (L2 : length b2 = Z.to_nat s) by (eapply (broadcast_length s); [lia|exact E2]).
  assert (L3 : length b3 = Z.to_nat e) by (eapply (broadcast_length e); [lia|exact E3]).
  set (a1 := splice (Z.to_nat s) l fill).
  set (a2 := splice (Z.to_nat 0) b2 a1).
  assert (La1 : length a1 = length fill) by (apply splice_length; lia).
  assert (La2 : length a2 = length fill)
    by (unfold a2; rewrite splice_length; [exact La1|change (Z.to_nat 0) with 0%nat; lia]).
  eexists; split; [reflexivity|]. split; [|split].
  - rewrite splice_length; lia.
  - intros k Hk.
    rewrite splice_outside by lia.
    unfold a2. rewrite splice_outside by (change (Z.to_nat 0) with 0%nat; lia).
    unfold a1. apply splice_inside; lia.
  - intros x Hx. apply splice_In in Hx. destruct Hx as [Hx|Hx].
    + left. apply (broadcast_In _ _ _ _ E3) in Hx. apply in_rev in Hx.
      exact (slice_from_In _ _ _ Hx).
    + apply splice_In in Hx. destruct Hx as [Hx|Hx].
      * left. apply (broadcast_In _ _ _ _ E2) in Hx. apply in_rev in Hx.
        exact (slice_to_In _ _ _ Hx).
      * apply splice_In in Hx. tauto.
Qed.

Lemma narrow_range_some (size start len : Z) :
  0 <= start -> 0 <= len -> start + len <= size ->
  narrow_range size start len = Some start.
Proof.
  intros H1 H2 H3. unfold narrow_range.
  destruct (Z.ltb_spec len 0), (Z.ltb_spec start (- size)), (Z.ltb_spec size start),
    (Z.ltb_spec start 0), (Z.leb_spec start (size - len)); cbn; try reflexivity; lia.
Qed.

Lemma combine_repeat {A B : Type} (a : A) (l : list B) :
  combine (repeat a (length l)) l = map (fun x => (a, x)) l.
Proof. induction l as [|b l IH]; cbn; [reflexivity|now rewrite IH]. Qed.

Lemma forallb_map {A B : Type} (f : A -> B) (p : B -> bool) (l : list A) :
  forallb p (map f l) = forallb (fun a => p (f a)) l.
Proof. induction l as [|a l IH]; cbn; [reflexivity|now rewrite IH]. Qed.

Lemma map_ext_Forall2 {A B : Type} (R : B -> A -> Prop) (f : A -> B) (l : list A) :
  (forall a, In a l -> R (f a) a) -> Forall2 R (map f l) l.
Proof.
  induction l as [|a l IH]; intros H; cbn; constructor.
  - apply H. now left.
  - apply IH. intros b Hb. apply H. now right.
Qed.

Section SymRows.
Variable A : Type.
Variables (s e : Z) (fill : list A) (n : nat).

Hypothesis Hs : 1 <= s.
Hypothesis He : 1 <= e.
Hypothesis Hns : (Z.to_nat s <= n \/ n = 1)%nat.
Hypothesis Hne : (Z.to_nat e <= n \/ n = 1)%nat.
Hypothesis Hfill : length fill = Z.to_nat (Z.of_nat n + s + e).

Lemma padded_ok (l : list A) :
  length l = n ->
  exists a, padded s e fill l = Some a /\
    length a = Z.to_nat (Z.of_nat n + s + e) /\
    (forall k, (k < n)%nat -> nth_error a (Z.to_nat s + k) = nth_error l k) /\
    (forall x, In x a -> In x l \/ In x fill).
Proof.
  intros Hl. subst n. apply padded_spec; assumption.
Qed.

Lemma sym_copy_steps (ls : list (list A)) :
  Forall (fun l => length l = n) ls ->
  forallb (fun c => match broadcast (Z.of_nat n) c with Some _ => true | None => false end) ls
    = true /\
  forallb (fun c => match broadcast s c with Some _ => true | None => false end)
    (map (@rev _) (map (slice_to s) ls)) = true /\
  forallb (fun c => match broadcast e c with Some _ => true | None => false end)
    (map (@rev _) (map (slice_from (- e)) ls)) = true /\
  map (fun dc => match broadcast e (snd dc) with
                 | Some rows => splice (Z.to_nat (s + Z.of_nat n)) rows (fst dc)
                 | None => fst dc end)
    (combine
       (map (fun dc => match broadcast s (snd dc) with
                       | Some rows => splice (Z.to_nat 0) rows (fst dc)
                       | None => fst dc end)
          (combine
             (map (fun dc => match broadcast (Z.of_nat n) (snd dc) with
                             | Some rows => splice (Z.to_nat s) rows (fst dc)
                             | None => fst dc end)
                (combine (repeat fill (length ls)) ls))
             (map (@rev _) (map (slice_to s) ls))))
       (map (@rev _) (map (slice_from (- e)) ls)))
  = sym_copy A s e fill ls.
Proof.
  intros Hls. rewrite Forall_forall in Hls.
  assert (Hb : forall l, In l ls ->
    broadcast (Z.of_nat n) l = Some l /\
    (exists b2, broadcast s (rev (slice_to s l)) = Some b2) /\
    (exists b3, broadcast e (rev (slice_from (- e) l)) = Some b3)).
  { intros l Hl. specialize (Hls l Hl).
    destruct (padded_ok l Hls) as [a [Ha _]]. unfold padded in Ha.
    destruct (broadcast (Z.of_nat (length l)) l) as [b1|] eqn:E1; [|discriminate].
    destruct (broadcast s _) as [b2|] eqn:E2; [|discriminate].
    destruct (broadcast e _) as [b3|] eqn:E3; [|discriminate].
    split; [|split; eauto].
    unfold broadcast. rewrite Hls, Z.eqb_refl. reflexivity. }
  split; [|split; [|split]].
  - apply forallb_forall. intros l Hl. destruct (Hb l Hl) as [-> _]. reflexivity.
  - rewrite !forallb_map. apply forallb_forall. intros l Hl.
    destruct (Hb l Hl) as (_ & [b2 ->] & _). reflexivity.
  - rewrite !forallb_map. apply forallb_forall. intros l Hl.
    destruct (Hb l Hl) as (_ & _ & [b3 ->]). reflexivity.
  - rewrite combine_repeat, !map_map.
    rewrite (combine_map_same _ (fun l => rev (slice_to s l))).
    rewrite map_map.
    rewrite (combine_map_same _ (fun l => rev (slice_from (- e) l))).
    rewrite map_map. unfold sym_copy. apply map_ext_in. intros l Hl. cbn [fst snd].
    destruct (Hb l Hl) as (E1 & [b2 E2] & [b3 E3]).
    unfold padded. rewrite (Hls l Hl), E1, E2, E3. reflexivity.
Qed.

End SymRows.

End SymmetricPadding.

Module HeightPass.
Import Lists CubicKernel RowReading Extrema IndexWindows RowSums KernelPartition TapCounting Totality Buffers SymmetricPadding.
Import Resample Rows Resize Notions.
Local Open Scope Z_scope.

(** ** Loops that fill the output *)

Lemma range_snoc (k : nat) : range (Z.of_nat (S k)) = range (Z.of_nat k) ++ [Z.of_nat k].
Proof. unfold range. rewrite !Nat2Z.id, seq_S, map_app. reflexivity. Qed.

Lemma for_range_fills (body : tensor3 -> Z -> option tensor3) (n : Z)
    (Inv : tensor3 -> Prop) (Done : Z -> tensor3 -> Prop) (init : tensor3) :
  (forall t i, 0 <= i < n -> Inv t ->
     exists t', body t i = Some t' /\ Inv t' /\ Done i t' /\
       forall j, 0 <= j < n -> j <> i -> Done j t -> Done j t') ->
  Inv init ->
  exists out, for_range n body init = Some out /\ Inv out /\
    forall i, 0 <= i < n -> Done i out.
Proof.
  intros Hstep Hinit. unfold for_range.
  assert (Hk : forall k : nat, Z.of_nat k <= Z.max 0 n ->
    exists out,
      fold_left (fun acc i => out <- acc ;; body out i) (range (Z.of_nat k)) (Some init)
        = Some out /\ Inv out /\ forall i, 0 <= i < Z.of_nat k -> Done i out).
  { induction k as [|k IH]; intros Hle.
    - exists init. split; [reflexivity|]. split; [exact Hinit|]. intros i Hi. lia.
    - destruct IH as [t [Et [It Dt]]]; [lia|].
      destruct (Hstep t (Z.of_nat k)) as [t' [Eb [It' [Dk Dpres]]]]; [lia|exact It|].
      exists t'. rewrite range_snoc, fold_left_app, Et. cbn [fold_left].
      split; [exact Eb|]. split; [exact It'|].
      intros i Hi. destruct (Z.eq_dec i (Z.of_nat k)) as [->|Hne]; [exact Dk|].
      apply Dpres; [lia|exact Hne|]. apply Dt. lia. }
  destruct (Hk (Z.to_nat n)) as [out [E [I D]]]; [lia|].
  exists out. replace (range n) with (range (Z.of_nat (Z.to_nat n))).
  - split; [exact E|]. split; [exact I|]. intros i Hi. apply D. lia.
  - unfold range. now rewrite Nat2Z.id.
Qed.

Lemma row_at_set_channel (t : tensor3) (c : nat) (ch : list (list Q)) (c' i : nat) :
  (c < length t)%nat ->
  row_at (set_nth c ch t) c' i =
  if Nat.eqb c' c then nth_error ch i else row_at t c' i.
Proof.
  intros Hc. unfold row_at. destruct (Nat.eqb_spec c' c) as [->|Hne].
  - now rewrite set_nth_same.
  - now rewrite set_nth_other.
Qed.

Lemma set_row_spec (out : tensor3) (C H W c i : nat) (v : list Q) :
  has_shape out C H W -> (c < C)%nat -> (i < H)%nat -> length v = W ->
  exists out', set_row out c i v = Some out' /\ has_shape out' C H W /\
    row_at out' c i = Some v /\
    forall c' i', (c' <> c \/ i' <> i) -> row_at out' c' i' = row_at out c' i'.
Proof.
  intros Hs Hc Hi Hv. unfold set_row.
  destruct (nth_error out c) as [ch|] eqn:Ec.
  2:{ apply nth_error_None in Ec. destruct Hs as [Hl _]. lia. }
  destruct (has_shape_channel _ _ _ _ _ _ Hs Ec) as [Hh Hw].
  destruct (Nat.ltb_spec i (length ch)); [|lia].
  assert (Hcl : (c < length out)%nat) by (destruct Hs as [-> _]; exact Hc).
  eexists; split; [reflexivity|]. split; [|split].
  - apply has_shape_set_channel; [exact Hs|exact Hc| |].
    + rewrite set_nth_length; lia.
    + apply Forall_forall. intros r Hr. apply set_nth_In in Hr.
      destruct Hr as [->|Hr]; [exact Hv|]. rewrite Forall_forall in Hw. auto.
  - rewrite row_at_set_channel by exact Hcl. rewrite Nat.eqb_refl.
    apply set_nth_same. lia.
  - intros c' i' Hne. rewrite row_at_set_channel by exact Hcl.
    destruct (Nat.eqb_spec c' c) as [->|Hc']; [|reflexivity].
    destruct Hne as [Hne|Hne]; [contradiction|].
    unfold row_at. rewrite Ec. apply set_nth_other; lia.
Qed.

Lemma Forall2_nth_error_l {A B : Type} (R : A -> B -> Prop) (l1 : list A) (l2 : list B)
    (i : nat) (a : A) :
  Forall2 R l1 l2 -> nth_error l1 i = Some a ->
  exists b, nth_error l2 i = Some b /\ R a b.
Proof.
  intros HF. revert i. induction HF as [|x y l1 l2 Hxy HF IH]; intros i Hi.
  - destruct i; discriminate.
  - destruct i as [|i]; cbn in *.
    + injection Hi as <-. eauto.
    + apply IH. exact Hi.
Qed.

Lemma nth_error_some_lt {A : Type} (l : list A) (i : nat) :
  (i < length l)%nat -> exists a, nth_error l i = Some a.
Proof.
  intros H. destruct (nth_error l i) eqn:E; [eauto|].
  apply nth_error_None in E. lia.
Qed.

Lemma mv_columns_some (width : nat) (rows : list (list Q)) (w : list Q) :
  length rows = length w ->
  mv_columns width rows w =
  Some (map (fun j => dot (map (fun r => nth j r 0%Q) rows) w) (seq 0 width)).
Proof. intros H. unfold mv_columns. rewrite H, Nat.eqb_refl. reflexivity. Qed.

(** ** The H pass *)

Section HPass.
Variables (uninit : Q) (img : tensor3) (C H W : nat) (out_H : Z).
Variables (weights : list (list Q)) (indices : list (list Z)) (s e : Z).

Hypothesis Hshape : has_shape img C H W.
Hypothesis HC : (3 <= C)%nat.
Hypothesis Hs : 1 <= s.
Hypothesis He : 1 <= e.
Hypothesis Hns : (Z.to_nat s <= H \/ H = 1)%nat.
Hypothesis Hne : (Z.to_nat e <= H \/ H = 1)%nat.
Hypothesis Hout : 0 <= out_H.
Hypothesis Hlenw : length weights = Z.to_nat out_H.
Hypothesis Hwin : Forall2 (window_inside (Z.of_nat H) s e) weights indices.
Hypothesis Hkw : Forall (fun w => length w = length (hd [] weights)) weights.

Let kw := length (hd [] weights).
Let fill := repeat (repeat uninit W) (Z.to_nat (Z.of_nat H + s + e)).
Let aug := sym_copy (list Q) s e fill img.

Lemma row_value_eq (c i : nat) :
  row_value uninit img H W weights indices s e c i =
  (irow <- nth_error indices i ;;
   idx <- hd_error irow ;;
   w <- nth_error weights i ;;
   a <- nth_error aug c ;;
   mv_columns W (firstn kw (skipn (Z.to_nat idx) a)) w).
Proof. reflexivity. Qed.

Lemma fill_length : length fill = Z.to_nat (Z.of_nat H + s + e).
Proof. apply repeat_length. Qed.

Lemma img_rows : Forall (fun ch => length ch = H) img.
Proof.
  destruct Hshape as [_ Hf]. eapply Forall_impl; [|exact Hf]. cbn. tauto.
Qed.

Lemma aug_channel (c : nat) :
  (c < C)%nat ->
  exists ch a, nth_error img c = Some ch /\ nth_error aug c = Some a /\
    padded s e fill ch = Some a /\
    length a = Z.to_nat (Z.of_nat H + s + e) /\
    (forall k, (k < H)%nat -> nth_error a (Z.to_nat s + k) = nth_error ch k).
Proof.
  intros Hc. destruct Hshape as [Hl Hf].
  destruct (nth_error_some_lt img c) as [ch Ech]; [lia|].
  pose proof (nth_error_In _ _ Ech) as Hin.
  rewrite Forall_forall in Hf. destruct (Hf ch Hin) as [Hh _].
  destruct (padded_ok (list Q) s e fill H Hs He Hns Hne fill_length ch Hh)
    as [a [Ea [La [Na _]]]].
  exists ch, a. split; [exact Ech|]. split; [|auto].
  unfold aug, sym_copy. rewrite nth_error_map, Ech. cbn. now rewrite Ea.
Qed.

Lemma row_value_some (c i : nat) :
  (c < C)%nat -> (i < Z.to_nat out_H)%nat ->
  exists v, row_value uninit img H W weights indices s e c i = Some v /\ length v = W.
Proof.
  intros Hc Hi. rewrite row_value_eq.
  destruct (nth_error_some_lt weights i) as [w Ew]; [lia|].
  destruct (Forall2_nth_error_l _ _ _ _ _ Hwin Ew) as [irow [Ei [idx [Eh [Hidx0 Hidx1]]]]].
  rewrite Ei, Eh, Ew.
  destruct (aug_channel c Hc) as [ch [a [_ [Ea [_ [La _]]]]]]. rewrite Ea.
  rewrite mv_columns_some.
  - eexists; split; [reflexivity|]. now rewrite length_map, length_seq.
  - rewrite length_firstn, length_skipn, La.
    pose proof (nth_error_In _ _ Ew) as Hin.
    rewrite Forall_forall in Hkw. specialize (Hkw w Hin). fold kw in Hkw. lia.
Qed.

Lemma resize_row_step (t : tensor3) (i : Z) :
  0 <= i < out_H -> has_shape t C (Z.to_nat out_H) W ->
  exists t', resize_row aug weights indices kw W t i = Some t' /\
    has_shape t' C (Z.to_nat out_H) W /\
    (forall c, (c < 3)%nat -> row_at t' c (Z.to_nat i) = row_value uninit img H W weights indices s e c (Z.to_nat i)) /\
    (forall c i', i' <> Z.to_nat i -> row_at t' c i' = row_at t c i').
Proof.
  intros Hi Ht. unfold resize_row.
  destruct (row_value_some 0 (Z.to_nat i)) as [v0 [E0 L0]]; [lia|lia|].
  destruct (row_value_some 1 (Z.to_nat i)) as [v1 [E1 L1]]; [lia|lia|].
  destruct (row_value_some 2 (Z.to_nat i)) as [v2 [E2 L2]]; [lia|lia|].
  change (row_value uninit img H W weights indices s e) with
    (fun c i => irow <- nth_error indices i ;;
                idx <- hd_error irow ;;
                w <- nth_error weights i ;;
                a <- nth_error aug c ;;
                mv_columns W (firstn kw (skipn (Z.to_nat idx) a)) w) in E0, E1, E2 |- *.
  cbv beta in E0, E1, E2 |- *.
  destruct (nth_error indices (Z.to_nat i)) as [irow|]; [|discriminate].
  destruct (hd_error irow) as [idx|]; [|discriminate].
  destruct (nth_error weights (Z.to_nat i)) as [w|]; [|discriminate].
  rewrite E0.
  destruct (set_row_spec t C (Z.to_nat out_H) W 0 (Z.to_nat i) v0 Ht)
    as [t0 [S0 [Ht0 [R0 O0]]]]; [lia|lia|exact L0|]. rewrite S0, E1.
  destruct (set_row_spec t0 C (Z.to_nat out_H) W 1 (Z.to_nat i) v1 Ht0)
    as [t1 [S1 [Ht1 [R1 O1]]]]; [lia|lia|exact L1|]. rewrite S1, E2.
  destruct (set_row_spec t1 C (Z.to_nat out_H) W 2 (Z.to_nat i) v2 Ht1)
    as [t2 [S2 [Ht2 [R2 O2]]]]; [lia|lia|exact L2|]. rewrite S2.
  eexists; split; [reflexivity|]. split; [exact Ht2|]. split.
  - intros c Hc. destruct c as [|[|[|c]]]; [| | |lia].
    + rewrite O2 by (left; lia). rewrite O1 by (left; lia). rewrite E0. exact R0.
    + rewrite O2 by (left; lia). rewrite E1. exact R1.
    + rewrite E2. exact R2.
  - intros c i' Hi'. rewrite O2, O1, O0 by (right; exact Hi'). reflexivity.
Qed.

Lemma resize_H_spec :
  exists out_1,
    resize_H uninit img (Z.of_nat C) (Z.of_nat H) (Z.of_nat W) out_H weights indices s e
      = Some out_1 /\
    has_shape out_1 C (Z.to_nat out_H) W /\
    forall c i, (c < 3)%nat -> (i < Z.to_nat out_H)%nat ->
      row_at out_1 c i = row_value uninit img H W weights indices s e c i.
Proof.
  unfold resize_H.
  destruct (FloatTensor_some uninit (Z.of_nat C) (Z.of_nat H + s + e) (Z.of_nat W))
    as [a0 Ea0]; [lia|lia|lia|].
  rewrite Ea0.
  assert (Ha0 : a0 = repeat fill (length img)).
  { unfold FloatTensor in Ea0. destruct (_ || _); [discriminate|].
    injection Ea0 as <-. unfold fill. destruct Hshape as [-> _].
    now rewrite !Nat2Z.id. }
  subst a0.
  destruct (sym_copy_steps (list Q) s e fill H Hs He Hns Hne fill_length img img_rows)
    as (F1 & F2 & F3 & Esym).
  unfold copy_rows.
  rewrite (narrow_range_some _ s (Z.of_nat H)) by lia. rewrite F1.
  rewrite (narrow_range_some _ 0 s) by lia. rewrite F2.
  rewrite (narrow_range_some _ (s + Z.of_nat H) e) by lia. rewrite F3.
  rewrite Esym. fold aug.
  destruct (FloatTensor_some uninit (Z.of_nat C) out_H (Z.of_nat W)) as [o Eo]; [lia|lia|lia|].
  rewrite Eo. apply FloatTensor_shape in Eo. rewrite !Nat2Z.id in Eo.
  fold kw. rewrite Nat2Z.id.
  destruct (for_range_fills (resize_row aug weights indices kw W) out_H
              (fun t => has_shape t C (Z.to_nat out_H) W)
              (fun i t => forall c, (c < 3)%nat ->
                 row_at t c (Z.to_nat i) = row_value uninit img H W weights indices s e c (Z.to_nat i)) o)
    as [out [E [I D]]].
  - intros t i Hi Ht. destruct (resize_row_step t i Hi Ht) as [t' [Et [Ht' [Hv Ho]]]].
    exists t'. split; [exact Et|]. split; [exact Ht'|]. split; [exact Hv|].
    intros j Hj0 Hj Dj c Hc. rewrite Ho by lia. apply Dj. exact Hc.
  - exact Eo.
  - exists out. split; [exact E|]. split; [exact I|].
    intros c i Hc Hi.
    assert (Hi' : 0 <= Z.of_nat i < out_H) by lia.
    specialize (D (Z.of_nat i) Hi' c Hc). now rewrite Nat2Z.id in D.
Qed.

End HPass.

End HeightPass.

Module WidthPass.
Import Lists CubicKernel RowReading Extrema IndexWindows RowSums KernelPartition TapCounting Totality Buffers SymmetricPadding HeightPass.
Import Resample Rows Resize Notions.
Local Open Scope Z_scope.

(** ** The W pass *)

Lemma entry_at_set_channel (t : tensor3) (c : nat) (ch : list (list Q)) (c' i j : nat) :
  (c < length t)%nat ->
  entry_at (set_nth c ch t) c' i j =
  if Nat.eqb c' c then match nth_error ch i with Some r => nth_error r j | None => None end
  else entry_at t c' i j.
Proof.
  intros Hc. unfold entry_at. rewrite row_at_set_channel by exact Hc.
  destruct (Nat.eqb c' c); reflexivity.
Qed.

Lemma set_col_spec (out : tensor3) (C H W c i : nat) (v : list Q) :
  has_shape out C H W -> (c < C)%nat -> (i < W)%nat -> length v = H ->
  exists out', set_col out c i v = Some out' /\ has_shape out' C H W /\
    (forall j, (j < H)%nat -> entry_at out' c j i = nth_error v j) /\
    forall c' j i', (c' <> c \/ i' <> i) -> entry_at out' c' j i' = entry_at out c' j i'.
Proof.
  intros Hs Hc Hi Hv. unfold set_col.
  destruct (nth_error out c) as [ch|] eqn:Ec.
  2:{ apply nth_error_None in Ec. destruct Hs as [Hl _]. lia. }
  destruct (has_shape_channel _ _ _ _ _ _ Hs Ec) as [Hh Hw].
  assert (Eb : forallb (fun r => (i <? length r)%nat) ch && Nat.eqb (length v) (length ch) = true).
  { apply andb_true_iff. split.
    - apply forallb_forall. intros r Hr. rewrite Forall_forall in Hw.
      rewrite (Hw r Hr). apply Nat.ltb_lt. exact Hi.
    - apply Nat.eqb_eq. lia. }
  rewrite Eb.
  assert (Hcl : (c < length out)%nat) by (destruct Hs as [-> _]; exact Hc).
  eexists; split; [reflexivity|]. split; [|split].
  - eapply set_col_shape; [exact Hs|]. unfold set_col. rewrite Ec, Eb. reflexivity.
  - intros j Hj. rewrite entry_at_set_channel by exact Hcl. rewrite Nat.eqb_refl.
    rewrite nth_error_map, nth_error_combine.
    destruct (nth_error_some_lt ch j) as [r Er]; [lia|].
    destruct (nth_error_some_lt v j) as [x Ex]; [lia|].
    rewrite Er, Ex. cbn [option_map fst snd].
    apply set_nth_same. rewrite Forall_forall in Hw.
    rewrite (Hw r (nth_error_In _ _ Er)). exact Hi.
  - intros c' j i' Hne. rewrite entry_at_set_channel by exact Hcl.
    destruct (Nat.eqb_spec c' c) as [->|Hc']; [|reflexivity].
    destruct Hne as [Hne|Hne]; [contradiction|].
    unfold entry_at, row_at. rewrite Ec.
    rewrite nth_error_map, nth_error_combine.
    destruct (nth_error ch j) as [r|] eqn:Er; [|reflexivity].
    destruct (nth_error_some_lt v j) as [x Ex].
    { rewrite Hv, <- Hh. apply nth_error_Some. congruence. }
    rewrite Ex. cbn [option_map fst snd].
    apply set_nth_other; [|exact Hne].
    rewrite Forall_forall in Hw. rewrite (Hw r (nth_error_In _ _ Er)). exact Hi.
Qed.

Lemma mv_rows_some (idx k : nat) (m : list (list Q)) (w : list Q) :
  Forall (fun r => length (firstn k (skipn idx r)) = length w) m ->
  mv_rows idx k m w = Some (map (fun r => dot (firstn k (skipn idx r)) w) m).
Proof.
  intros H. unfold mv_rows.
  assert (E : forallb (fun r => Nat.eqb (length (firstn k (skipn idx r))) (length w)) m = true).
  { apply forallb_forall. intros r Hr. rewrite Forall_forall in H.
    apply Nat.eqb_eq. exact (H r Hr). }
  rewrite E. reflexivity.
Qed.

Section WPass.
Variables (uninit : Q) (out_1 : tensor3) (C H W : nat) (out_W : Z).
Variables (weights : list (list Q)) (indices : list (list Z)) (s e : Z).

Hypothesis Hshape : has_shape out_1 C H W.
Hypothesis HC : (3 <= C)%nat.
Hypothesis Hs : 1 <= s.
Hypothesis He : 1 <= e.
Hypothesis Hns : (Z.to_nat s <= W \/ W = 1)%nat.
Hypothesis Hne : (Z.to_nat e <= W \/ W = 1)%nat.
Hypothesis Hout : 0 <= out_W.
Hypothesis Hlenw : length weights = Z.to_nat out_W.
Hypothesis Hwin : Forall2 (window_inside (Z.of_nat W) s e) weights indices.
Hypothesis Hkw : Forall (fun w => length w = length (hd [] weights)) weights.

Let kw := length (hd [] weights).
Let fill := repeat uninit (Z.to_nat (Z.of_nat W + s + e)).
Let aug := map (sym_copy Q s e fill) out_1.

Lemma col_value_eq (c i : nat) :
  col_value uninit out_1 W weights indices s e c i =
  (irow <- nth_error indices i ;;
   idx <- hd_error irow ;;
   w <- nth_error weights i ;;
   a <- nth_error aug c ;;
   mv_rows (Z.to_nat idx) kw a w).
Proof. reflexivity. Qed.

Lemma fill_row_length : length fill = Z.to_nat (Z.of_nat W + s + e).
Proof. apply repeat_length. Qed.

Lemma aug_cols_channel (c : nat) :
  (c < C)%nat ->
  exists ch, nth_error out_1 c = Some ch /\
    nth_error aug c = Some (sym_copy Q s e fill ch) /\
    length ch = H /\
    Forall (fun r => length r = Z.to_nat (Z.of_nat W + s + e)) (sym_copy Q s e fill ch).
Proof.
  intros Hc.
  destruct (nth_error_some_lt out_1 c) as [ch Ech]; [destruct Hshape as [-> _]; lia|].
  destruct (has_shape_channel _ _ _ _ _ _ Hshape Ech) as [Hh Hw].
  exists ch. split; [exact Ech|]. split; [|split; [exact Hh|]].
  - unfold aug. rewrite nth_error_map, Ech. reflexivity.
  - apply Forall_forall. intros a Ha. unfold sym_copy in Ha.
    apply in_map_iff in Ha. destruct Ha as [r [<- Hr]].
    rewrite Forall_forall in Hw.
    destruct (padded_ok Q s e fill W Hs He Hns Hne fill_row_length r (Hw r Hr))
      as [a [Ea [La _]]].
    rewrite Ea. exact La.
Qed.

Lemma col_value_some (c i : nat) :
  (c < C)%nat -> (i < Z.to_nat out_W)%nat ->
  exists v, col_value uninit out_1 W weights indices s e c i = Some v /\ length v = H.
Proof.
  intros Hc Hi. rewrite col_value_eq.
  destruct (nth_error_some_lt weights i) as [w Ew]; [lia|].
  destruct (Forall2_nth_error_l _ _ _ _ _ Hwin Ew) as [irow [Ei [idx [Eh [Hidx0 Hidx1]]]]].
  rewrite Ei, Eh, Ew.
  destruct (aug_cols_channel c Hc) as [ch [_ [Ea [Hh Hw]]]]. rewrite Ea.
  rewrite mv_rows_some.
  - eexists; split; [reflexivity|]. unfold sym_copy. now rewrite !length_map.
  - eapply Forall_impl; [|exact Hw]. cbn. intros a La.
    rewrite length_firstn, length_skipn, La.
    pose proof (nth_error_In _ _ Ew) as Hin.
    rewrite Forall_forall in Hkw. specialize (Hkw w Hin). fold kw in Hkw. lia.
Qed.

Lemma resize_col_step (t : tensor3) (i : Z) :
  0 <= i < out_W -> has_shape t C H (Z.to_nat out_W) ->
  exists t', resize_col aug weights indices kw t i = Some t' /\
    has_shape t' C H (Z.to_nat out_W) /\
    (forall c j, (c < 3)%nat -> (j < H)%nat ->
       entry_at t' c j (Z.to_nat i) = (v <- col_value uninit out_1 W weights indices s e c (Z.to_nat i) ;; nth_error v j)) /\
    (forall c j i', i' <> Z.to_nat i -> entry_at t' c j i' = entry_at t c j i').
Proof.
  intros Hi Ht. unfold resize_col.
  destruct (col_value_some 0 (Z.to_nat i)) as [v0 [E0 L0]]; [lia|lia|].
  destruct (col_value_some 1 (Z.to_nat i)) as [v1 [E1 L1]]; [lia|lia|].
  destruct (col_value_some 2 (Z.to_nat i)) as [v2 [E2 L2]]; [lia|lia|].
  change (col_value uninit out_1 W weights indices s e) with
    (fun c i => irow <- nth_error indices i ;;
                idx <- hd_error irow ;;
                w <- nth_error weights i ;;
                a <- nth_error aug c ;;
                mv_rows (Z.to_nat idx) kw a w) in E0, E1, E2 |- *.
  cbv beta in E0, E1, E2 |- *.
  destruct (nth_error indices (Z.to_nat i)) as [irow|]; [|discriminate].
  destruct (hd_error irow) as [idx|]; [|discriminate].
  destruct (nth_error weights (Z.to_nat i)) as [w|]; [|discriminate].
  rewrite E0.
  destruct (set_col_spec t C H (Z.to_nat out_W) 0 (Z.to_nat i) v0 Ht)
    as [t0 [S0 [Ht0 [R0 O0]]]]; [lia|lia|exact L0|]. rewrite S0, E1.
  destruct (set_col_spec t0 C H (Z.to_nat out_W) 1 (Z.to_nat i) v1 Ht0)
    as [t1 [S1 [Ht1 [R1 O1]]]]; [lia|lia|exact L1|]. rewrite S1, E2.
  destruct (set_col_spec t1 C H (Z.to_nat out_W) 2 (Z.to_nat i) v2 Ht1)
    as [t2 [S2 [Ht2 [R2 O2]]]]; [lia|lia|exact L2|]. rewrite S2.
  eexists; split; [reflexivity|]. split; [exact Ht2|]. split.
  - intros c j Hc Hj. destruct c as [|[|[|c]]]; [| | |lia].
    + rewrite O2 by (left; lia). rewrite O1 by (left; lia). rewrite E0. apply R0. exact Hj.
    + rewrite O2 by (left; lia). rewrite E1. apply R1. exact Hj.
    + rewrite E2. apply R2. exact Hj.
  - intros c j i' Hi'. rewrite O2, O1, O0 by (right; exact Hi'). reflexivity.
Qed.

Lemma out_1_cols : Forall (Forall (fun r => length r = W)) out_1.
Proof.
  destruct Hshape as [_ Hf]. eapply Forall_impl; [|exact Hf]. cbn. tauto.
Qed.

Lemma resize_W_spec :
  exists out_2,
    resize_W uninit out_1 (Z.of_nat C) (Z.of_nat W) (Z.of_nat H) out_W weights indices s e
      = Some out_2 /\
    has_shape out_2 C H (Z.to_nat out_W) /\
    forall c j i, (c < 3)%nat -> (j < H)%nat -> (i < Z.to_nat out_W)%nat ->
      entry_at out_2 c j i = (v <- col_value uninit out_1 W weights indices s e c i ;; nth_error v j).
Proof.
  unfold resize_W.
  destruct (FloatTensor_some uninit (Z.of_nat C) (Z.of_nat H) (Z.of_nat W + s + e))
    as [a0 Ea0]; [lia|lia|lia|].
  rewrite Ea0.
  assert (Ha0 : a0 = repeat (repeat fill H) (length out_1)).
  { unfold FloatTensor in Ea0. destruct (_ || _); [discriminate|].
    injection Ea0 as <-. unfold fill. destruct Hshape as [-> _].
    now rewrite !Nat2Z.id. }
  subst a0.
  pose proof out_1_cols as Hcols. rewrite Forall_forall in Hcols.
  assert (Hrows : forall ch, In ch out_1 -> length ch = H).
  { intros ch Hch. destruct Hshape as [_ Hf]. rewrite Forall_forall in Hf. apply (Hf ch Hch). }
  pose proof (fun ch Hch =>
    sym_copy_steps Q s e fill W Hs He Hns Hne fill_row_length ch (Hcols ch Hch)) as Hsteps.
  unfold copy_cols.
  rewrite (narrow_range_some _ s (Z.of_nat W)) by lia.
  assert (F1 : forallb (forallb (fun r =>
            match broadcast (Z.of_nat W) r with Some _ => true | None => false end)) out_1
          = true).
  { apply forallb_forall. intros ch Hch. apply (Hsteps ch Hch). }
  rewrite F1.
  rewrite (narrow_range_some _ 0 s) by lia.
  assert (F2 : forallb (forallb (fun r =>
            match broadcast s r with Some _ => true | None => false end))
            (map (map (@rev _)) (map (map (slice_to s)) out_1)) = true).
  { rewrite !forallb_map. apply forallb_forall. intros ch Hch. apply (Hsteps ch Hch). }
  rewrite F2.
  rewrite (narrow_range_some _ (s + Z.of_nat W) e) by lia.
  assert (F3 : forallb (forallb (fun r =>
            match broadcast e r with Some _ => true | None => false end))
            (map (map (@rev _)) (map (map (slice_from (- e))) out_1)) = true).
  { rewrite !forallb_map. apply forallb_forall. intros ch Hch. apply (Hsteps ch Hch). }
  rewrite F3.
  rewrite combine_repeat, !map_map.
  rewrite (combine_map_same _ (fun ch => map (@rev _) (map (slice_to s) ch))).
  rewrite map_map.
  rewrite (combine_map_same _ (fun ch => map (@rev _) (map (slice_from (- e)) ch))).
  rewrite map_map. cbn [fst snd].
  assert (Eaug : map (fun ch =>
      map (fun dr => match broadcast e (snd dr) with
                     | Some entries => splice (Z.to_nat (s + Z.of_nat W)) entries (fst dr)
                     | None => fst dr end)
        (combine
           (map (fun dr => match broadcast s (snd dr) with
                           | Some entries => splice (Z.to_nat 0) entries (fst dr)
                           | None => fst dr end)
              (combine
                 (map (fun dr => match broadcast (Z.of_nat W) (snd dr) with
                                 | Some entries => splice (Z.to_nat s) entries (fst dr)
                                 | None => fst dr end)
                    (combine (repeat fill H) ch))
                 (map (@rev _) (map (slice_to s) ch))))
           (map (@rev _) (map (slice_from (- e)) ch)))) out_1 = aug).
  { unfold aug. apply map_ext_in. intros ch Hch.
    destruct (Hsteps ch Hch) as (_ & _ & _ & Esym).
    rewrite <- (Hrows ch Hch). exact Esym. }
  rewrite Eaug.
  destruct (FloatTensor_some uninit (Z.of_nat C) (Z.of_nat H) out_W) as [o Eo]; [lia|lia|lia|].
  rewrite Eo. apply FloatTensor_shape in Eo. rewrite !Nat2Z.id in Eo.
  fold kw.
  destruct (for_range_fills (resize_col aug weights indices kw) out_W
              (fun t => has_shape t C H (Z.to_nat out_W))
              (fun i t => forall c j, (c < 3)%nat -> (j < H)%nat ->
                 entry_at t c j (Z.to_nat i) = (v <- col_value uninit out_1 W weights indices s e c (Z.to_nat i) ;; nth_error v j)) o)
    as [out [E [I D]]].
  - intros t i Hi Ht. destruct (resize_col_step t i Hi Ht) as [t' [Et [Ht' [Hv Ho]]]].
    exists t'. split; [exact Et|]. split; [exact Ht'|]. split; [exact Hv|].
    intros j Hj0 Hj Dj c r Hc Hr. rewrite Ho by lia. apply Dj; assumption.
  - exact Eo.
  - exists out. split; [exact E|]. split; [exact I|].
    intros c j i Hc Hj Hi.
    assert (Hi' : 0 <= Z.of_nat i < out_W) by lia.
    specialize (D (Z.of_nat i) Hi' c j Hc Hj). now rewrite Nat2Z.id in D.
Qed.

End WPass.

End WidthPass.

Module UpscalePadding.
Import Lists CubicKernel RowReading Extrema IndexWindows RowSums KernelPartition TapCounting Totality Buffers SymmetricPadding HeightPass WidthPass.
Import Resample Rows Resize Notions.
Local Open Scope Z_scope.

(** ** The matrices for a scale of at least 1 *)

Lemma linspace1_length (n : Z) : length (linspace1 n) = Z.to_nat n.
Proof. unfold linspace1. now rewrite length_map, range_length. Qed.

Lemma in_linspace1 (n x : Z) : In x (linspace1 n) <-> 1 <= x <= n.
Proof.
  unfold linspace1. rewrite in_map_iff. split.
  - intros [k [<- Hk]]. apply in_range in Hk. lia.
  - intros Hx. exists (x - 1). split; [lia|]. apply in_range. lia.
Qed.

Lemma cwi_weights_shape (in_length out_length : Z) (scale kw0 : Q) (aa : bool)
    (w : list (list Q)) (idx : list (list Z)) (ss se : Z) :
  calculate_weights_indices in_length out_length scale Cubic kw0 aa = Some (w, idx, ss, se) ->
  length w = Z.to_nat out_length /\
  Forall (fun r => length r = length (hd [] w)) w.
Proof.
  intros Hres. apply cwi_inv in Hres.
  destruct Hres as (_ & _ & HP & _ & start & len & Hp & -> & _).
  pose proof (pruning_fits _ _ _ _ start len HP Hp) as Hfit.
  rewrite length_map, linspace1_length. split; [reflexivity|].
  assert (Hall : forall x, length (cut start len (wnorm scale
             (if Qltb scale 1 && aa then (kw0 / scale)%Q else kw0) (Qltb scale 1 && aa)
             (Qceiling (if Qltb scale 1 && aa then (kw0 / scale)%Q else kw0) + 2) x)) = len).
  { intros x. apply cut_length. rewrite wnorm_length. lia. }
  apply Forall_forall. intros r Hr. apply in_map_iff in Hr. destruct Hr as [x [<- Hx]].
  rewrite Hall. destruct (linspace1 out_length) as [|x0 xs]; cbn [map hd].
  - destruct Hx.
  - now rewrite Hall.
Qed.

Section Upscale.
Variables (in_length out_length : Z) (scale : Q) (antialiasing : bool).
Hypothesis Hscale : (1 <= scale)%Q.

Let xs := linspace1 out_length.

Lemma unscaled : Qltb scale 1 && antialiasing = false.
Proof.
  destruct (Qltb scale 1) eqn:E; [|reflexivity].
  apply Qltb_iff in E. lra.
Qed.

Lemma cwi_inv_upscale (w : list (list Q)) (idx : list (list Z)) (ss se : Z) :
  calculate_weights_indices in_length out_length scale Cubic 4 antialiasing
    = Some (w, idx, ss, se) ->
  w = map (fun x => cut 1 4 (wnorm scale 4 false 6 x)) xs /\
  exists mn mx,
    tmin (map (fun x => cut 1 4 (irow scale 4 6 x)) xs) = Some mn /\
    tmax (map (fun x => cut 1 4 (irow scale 4 6 x)) xs) = Some mx /\
    ss = - mn + 1 /\ se = mx - in_length /\
    idx = map (fun x => map (fun i => i + ss - 1) (cut 1 4 (irow scale 4 6 x))) xs.
Proof.
  intros Hres. pose proof Hres as Hinv. apply cwi_inv in Hinv.
  rewrite unscaled in Hinv.
  change (Qceiling 4 + 2) with 6 in Hinv.
  destruct Hinv as (Hs0 & Hout & _ & Hsum & start & len & Hp & Hw & mn & mx &
                    Hmn & Hmx & Hss & Hse & Hidx).
  assert (Hx : forall x, In x xs ->
    zeros_first (map (wnorm scale 4 false 6) xs) <> 0%nat).
  { intros x Hx.
    pose proof (first_column_has_zero out_length scale antialiasing x) as Hz.
    rewrite unscaled in Hz. change (Qceiling 4 + 2) with 6 in Hz.
    apply Hz; [lia|exact Hx|]. apply Hsum. exact Hx. }
  assert (Hne : exists x, In x xs).
  { apply tmin_spec in Hmn. destruct Hmn as [_ [row [Hrow _]]].
    apply in_map_iff in Hrow. destruct Hrow as [x [_ Hx0]]. eauto. }
  destruct Hne as [x0 Hx0]. specialize (Hx x0 Hx0).
  unfold pruning in Hp. rewrite unscaled in Hp. change (Qceiling 4 + 2) with 6 in Hp.
  destruct Hp as [Hp|[Hp|Hp]].
  - destruct Hp as (_ & -> & -> & _). change (Z.to_nat (6 - 2)) with 4%nat in *.
    split; [exact Hw|]. exists mn, mx. auto.
  - destruct Hp as [Hz _]. contradiction.
  - destruct Hp as [Hz _]. contradiction.
Qed.

Lemma cut_irow_four (x : Z) :
  cut 1 4 (irow scale 4 6 x) =
  [lrow scale 4 x + 1; lrow scale 4 x + 2; lrow scale 4 x + 3; lrow scale 4 x + 4].
Proof. rewrite cut_irow by lia. reflexivity. Qed.

End Upscale.

Lemma floor_ge (z : Z) (y : Q) : (inject_Z z <= y)%Q -> z <= Qfloor y.
Proof. intros H. apply Qfloor_resp_le in H. now rewrite Qfloor_Z in H. Qed.

Lemma floor_lt (z : Z) (y : Q) : (y < inject_Z z)%Q -> Qfloor y < z.
Proof.
  intros H. pose proof (Qfloor_le y) as Hf. rewrite Zlt_Qlt. lra.
Qed.

Lemma lrow_four (scale : Q) (x : Z) : lrow scale 4 x = Qfloor (urow scale x - 2).
Proof.
  unfold lrow. apply Qfloor_comp.
  assert (E4 : (4 / 2 == 2)%Q) by reflexivity. rewrite E4. reflexivity.
Qed.

Section UpscalePads.
Variables (in_length : Z) (scale : Q) (antialiasing : bool).
Hypothesis Hscale : (1 <= scale)%Q.
Hypothesis Hin : 1 <= in_length.

Let out_length := Qceiling (inject_Z in_length * scale).
Let t := (1 / scale)%Q.

Lemma step_bounds : (0 < t /\ t <= 1)%Q.
Proof.
  unfold t. split.
  - apply Qlt_shift_div_l; lra.
  - apply Qle_shift_div_r; lra.
Qed.

Lemma urow_step (x : Z) : (urow scale x == inject_Z x * t + (1#2) * (1 - t))%Q.
Proof. unfold urow, t. field. lra. Qed.

Lemma out_bounds :
  (inject_Z in_length <= inject_Z out_length * t /\
   inject_Z out_length * t < inject_Z in_length + t)%Q.
Proof.
  destruct step_bounds as [Ht0 Ht1].
  pose proof (Qle_ceiling (inject_Z in_length * scale)) as H1.
  pose proof (Qceiling_lt (inject_Z in_length * scale)) as H2.
  fold out_length in H1, H2.
  unfold Z.sub in H2. rewrite inject_Z_plus in H2.
  change (inject_Z (- (1))) with (- (1))%Q in H2.
  assert (E : (inject_Z in_length == inject_Z in_length * scale * t)%Q)
    by (unfold t; field; lra).
  split.
  - rewrite E at 1. apply Qmult_le_compat_r; [exact H1|lra].
  - assert (H3 : ((inject_Z out_length + - (1)) * t < inject_Z in_length * scale * t)%Q)
      by (apply Qmult_lt_compat_r; [exact Ht0|exact H2]).
    rewrite <- E in H3. lra.
Qed.

Lemma out_positive : 1 <= out_length.
Proof.
  destruct step_bounds as [Ht0 Ht1]. destruct out_bounds as [H1 _].
  assert (H0 : (inject_Z 0 * t < inject_Z out_length * t)%Q).
  { assert (1 <= inject_Z in_length)%Q
      by (change 1%Q with (inject_Z 1); rewrite <- Zle_Qle; exact Hin).
    change (inject_Z 0) with 0%Q. lra. }
  apply scaled_lt_inv in H0; [lia|lra].
Qed.

Lemma lrow_lower (x : Z) : 1 <= x -> -2 <= lrow scale 4 x.
Proof.
  intros Hx. rewrite lrow_four. apply floor_ge. rewrite urow_step.
  destruct step_bounds as [Ht0 Ht1].
  pose proof (scaled_le 1 x t ltac:(lra) Hx) as H.
  change (inject_Z 1) with 1%Q in H. change (inject_Z (-2)) with (- (2))%Q. lra.
Qed.

Lemma lrow_first : lrow scale 4 1 <= -1.
Proof.
  rewrite lrow_four. destruct step_bounds as [Ht0 Ht1].
  assert (H : Qfloor (urow scale 1 - 2) < 0).
  { apply floor_lt. rewrite urow_step. change (inject_Z 1) with 1%Q.
    change (inject_Z 0) with 0%Q. lra. }
  lia.
Qed.

Lemma lrow_upper (x : Z) : x <= out_length -> lrow scale 4 x <= in_length - 2.
Proof.
  intros Hx. rewrite lrow_four. destruct step_bounds as [Ht0 Ht1].
  destruct out_bounds as [_ H2].
  pose proof (scaled_le x out_length t ltac:(lra) Hx) as H.
  assert (Hl : Qfloor (urow scale x - 2) < in_length - 1).
  { apply floor_lt. rewrite urow_step. unfold Z.sub. rewrite inject_Z_plus.
    change (inject_Z (- (1))) with (- (1))%Q. lra. }
  lia.
Qed.

Lemma lrow_last : in_length - 2 <= lrow scale 4 out_length.
Proof.
  rewrite lrow_four. apply floor_ge. rewrite urow_step.
  destruct step_bounds as [Ht0 Ht1]. destruct out_bounds as [H1 _].
  unfold Z.sub. rewrite inject_Z_plus. change (inject_Z (- (2))) with (- (2))%Q. lra.
Qed.

Lemma upscale_pads (w : list (list Q)) (idx : list (list Z)) (ss se : Z) :
  calculate_weights_indices in_length out_length scale Cubic 4 antialiasing
    = Some (w, idx, ss, se) ->
  1 <= ss <= 2 /\ se = 2.
Proof.
  intros Hres. apply (cwi_inv_upscale _ _ _ _ Hscale) in Hres.
  destruct Hres as (_ & mn & mx & Hmn & Hmx & -> & -> & _).
  apply tmin_spec in Hmn. destruct Hmn as [Hlow [rmin [Hrmin Hvmin]]].
  apply tmax_spec in Hmx. destruct Hmx as [Hupp [rmax [Hrmax Hvmax]]].
  pose proof out_positive as Hop.
  assert (Hrow : forall x, 1 <= x <= out_length ->
    In (cut 1 4 (irow scale 4 6 x))
       (map (fun x => cut 1 4 (irow scale 4 6 x)) (linspace1 out_length))).
  { intros x Hx. apply in_map_iff. exists x. split; [reflexivity|].
    apply in_linspace1. exact Hx. }
  assert (Hmn1 : mn <= lrow scale 4 1 + 1).
  { apply (Hlow _ _ (Hrow 1 ltac:(lia))). rewrite cut_irow_four. left. reflexivity. }
  assert (Hmx1 : lrow scale 4 out_length + 4 <= mx).
  { apply (Hupp _ _ (Hrow out_length ltac:(lia))). rewrite cut_irow_four.
    right; right; right; left. reflexivity. }
  pose proof lrow_first. pose proof lrow_last.
  apply in_map_iff in Hrmin. destruct Hrmin as [x1 [<- Hx1]].
  apply in_map_iff in Hrmax. destruct Hrmax as [x2 [<- Hx2]].
  apply in_linspace1 in Hx1. apply in_linspace1 in Hx2.
  rewrite cut_irow_four in Hvmin, Hvmax.
  pose proof (lrow_lower x1 ltac:(lia)). pose proof (lrow_upper x2 ltac:(lia)).
  cbn [In] in Hvmin, Hvmax. lia.
Qed.

End UpscalePads.

End UpscalePadding.

Module TwoPasses.
Import Lists CubicKernel RowReading Extrema IndexWindows RowSums KernelPartition TapCounting Totality Buffers SymmetricPadding HeightPass WidthPass UpscalePadding.
Import Resample Rows Resize Notions.
Local Open Scope Z_scope.

(** ** [imresize] as its two passes *)

Lemma sizes_of_shape (img : tensor3) (C H W : nat) :
  has_shape img C H W -> (1 <= C)%nat -> (1 <= H)%nat ->
  size0 img = Z.of_nat C /\ size1 img = Z.of_nat H /\ size2 img = Z.of_nat W.
Proof.
  intros [Hl Hf] HC HH. unfold size0, size1, size2.
  destruct img as [|ch img]; [cbn in Hl; lia|].
  apply Forall_inv in Hf. destruct Hf as [Hh Hw]. cbn [hd].
  destruct ch as [|r ch]; [cbn in Hh; lia|].
  apply Forall_inv in Hw. cbn [hd]. now rewrite Hl, Hh, Hw.
Qed.

Section Passes.
Variables (uninit : Q) (img : tensor3) (C H W : nat) (scale : Q) (antialiasing : bool).
Variables (wH wW : list (list Q)) (iH iW : list (list Z)) (sHs sHe sWs sWe : Z).

Hypothesis Hshape : has_shape img C H W.
Hypothesis HC : (3 <= C)%nat.
Hypothesis HH : (1 <= H)%nat.
Hypothesis HW : (1 <= W)%nat.

Let out_H := Qceiling (inject_Z (Z.of_nat H) * scale).
Let out_W := Qceiling (inject_Z (Z.of_nat W) * scale).

Hypothesis HcwiH :
  calculate_weights_indices (Z.of_nat H) out_H scale Cubic 4 antialiasing
    = Some (wH, iH, sHs, sHe).
Hypothesis HcwiW :
  calculate_weights_indices (Z.of_nat W) out_W scale Cubic 4 antialiasing
    = Some (wW, iW, sWs, sWe).
Hypothesis HfitH : pads_fit H sHs sHe.
Hypothesis HfitW : pads_fit W sWs sWe.

Lemma out_nonneg (in_length out_length : Z) (w : list (list Q)) (idx : list (list Z))
    (ss se : Z) :
  calculate_weights_indices in_length out_length scale Cubic 4 antialiasing
    = Some (w, idx, ss, se) -> 0 <= out_length.
Proof. intros Hres. apply cwi_inv in Hres. tauto. Qed.

Lemma imresize_passes :
  exists out_1 out_2,
    imresize uninit img scale antialiasing = Some out_2 /\
    has_shape out_1 C (Z.to_nat out_H) W /\
    (forall c i, (c < 3)%nat -> (i < Z.to_nat out_H)%nat ->
       row_at out_1 c i = row_value uninit img H W wH iH sHs sHe c i) /\
    has_shape out_2 C (Z.to_nat out_H) (Z.to_nat out_W) /\
    (forall c j i, (c < 3)%nat -> (j < Z.to_nat out_H)%nat -> (i < Z.to_nat out_W)%nat ->
       entry_at out_2 c j i =
       (v <- col_value uninit out_1 W wW iW sWs sWe c i ;; nth_error v j)).
Proof.
  destruct (sizes_of_shape img C H W Hshape ltac:(lia) HH) as (E0 & E1 & E2).
  destruct HfitH as (Hs1 & He1 & Hns1 & Hne1).
  destruct HfitW as (Hs2 & He2 & Hns2 & Hne2).
  pose proof (out_nonneg _ _ _ _ _ _ HcwiH) as HoH.
  pose proof (out_nonneg _ _ _ _ _ _ HcwiW) as HoW.
  destruct (cwi_weights_shape _ _ _ _ _ _ _ _ _ HcwiH) as [LwH KwH].
  destruct (cwi_weights_shape _ _ _ _ _ _ _ _ _ HcwiW) as [LwW KwW].
  destruct (cwi_indices _ _ _ _ _ _ _ _ _ HcwiH) as [_ WinH].
  destruct (cwi_indices _ _ _ _ _ _ _ _ _ HcwiW) as [_ WinW].
  destruct (resize_H_spec uninit img C H W out_H wH iH sHs sHe
              Hshape HC Hs1 He1 Hns1 Hne1 HoH LwH WinH KwH) as [out_1 [R1 [S1 V1]]].
  destruct (resize_W_spec uninit out_1 C (Z.to_nat out_H) W out_W wW iW sWs sWe
              S1 HC Hs2 He2 Hns2 Hne2 HoW LwW WinW KwW) as [out_2 [R2 [S2 V2]]].
  exists out_1, out_2. split; [|auto].
  unfold imresize. rewrite E0, E1, E2. fold out_H out_W.
  rewrite HcwiH, HcwiW, R1.
  rewrite Z2Nat.id in R2 by exact HoH. exact R2.
Qed.

End Passes.

(** ** Scale at least 1: [imresize] returns *)

Lemma imresize_upscale_total (uninit : Q) (img : tensor3) (C H W : nat) (scale : Q)
    (antialiasing : bool) :
  has_shape img C H W -> (3 <= C)%nat -> (1 <= H)%nat -> (1 <= W)%nat ->
  (1 <= scale)%Q ->
  exists out, imresize uninit img scale antialiasing = Some out.
Proof.
  intros Hshape HC HH HW Hscale.
  assert (Hfit : forall n : nat, (1 <= n)%nat ->
    exists w idx ss se,
      calculate_weights_indices (Z.of_nat n) (Qceiling (inject_Z (Z.of_nat n) * scale))
        scale Cubic 4 antialiasing = Some (w, idx, ss, se) /\
      pads_fit n ss se).
  { intros n Hn.
    destruct (cwi_total (Z.of_nat n) (Qceiling (inject_Z (Z.of_nat n) * scale)) scale
                antialiasing) as [[[[w idx] ss] se] Hr].
    - lra.
    - apply out_positive; [exact Hscale|lia].
    - exists w, idx, ss, se. split; [exact Hr|].
      destruct (upscale_pads (Z.of_nat n) scale antialiasing Hscale ltac:(lia) _ _ _ _ Hr)
        as [Hss ->].
      unfold pads_fit. lia. }
  destruct (Hfit H HH) as (wH & iH & sHs & sHe & EH & FH).
  destruct (Hfit W HW) as (wW & iW & sWs & sWe & EW & FW).
  destruct (imresize_passes uninit img C H W scale antialiasing wH wW iH iW
              sHs sHe sWs sWe Hshape HC HH HW EH EW FH FW) as (out_1 & out_2 & E & _).
  eauto.
Qed.

End TwoPasses.

Module IdentityScale.
Import Lists CubicKernel RowReading Extrema IndexWindows RowSums KernelPartition TapCounting Totality Buffers SymmetricPadding HeightPass WidthPass UpscalePadding TwoPasses.
Import Resample Rows Resize Notions.
Local Open Scope Z_scope.

(** ** Scale 1: the weights select the input pixel *)

Lemma Qceiling_scale_one (z : Z) : Qceiling (inject_Z z * 1) = z.
Proof.
  rewrite <- (Qceiling_Z z) at 2. apply Qceiling_comp. ring.
Qed.

Lemma urow_one (x : Z) : (urow 1 x == inject_Z x)%Q.
Proof. unfold urow. field. Qed.

Lemma lrow_one (x : Z) : lrow 1 4 x = x - 2.
Proof.
  rewrite lrow_four. rewrite <- (Qfloor_Z (x - 2)). apply Qfloor_comp.
  rewrite urow_one. unfold Z.sub. rewrite inject_Z_plus. reflexivity.
Qed.

Lemma nth_error_linspace1 (n : Z) (i : nat) :
  (i < Z.to_nat n)%nat -> nth_error (linspace1 n) i = Some (Z.of_nat i + 1).
Proof.
  intros Hi. unfold linspace1, range.
  rewrite !nth_error_map, nth_error_seq.
  destruct (Nat.ltb_spec i (Z.to_nat n)); [reflexivity|lia].
Qed.

Lemma weights_row_one (x : Z) :
  Forall2 Qeq (cut 1 4 (wnorm 1 4 false 6 x)) [0; 1; 0; 0]%Q.
Proof.
  assert (ES : (Qsum (wraw 1 4 false 6 x) == 1)%Q) by apply wraw_unscaled_sum.
  unfold wnorm. revert ES. generalize (Qsum (wraw 1 4 false 6 x)). intros S ES.
  unfold wraw. rewrite !cut_map, cut_irow_four, lrow_one.
  cbn [map]. unfold wfun.
  assert (Etap : forall k, (urow 1 x - inject_Z (x - 2 + k) == 2 - inject_Z k)%Q).
  { intros k. rewrite urow_one. unfold Z.sub. rewrite !inject_Z_plus.
    change (inject_Z (- (2))) with (- (2))%Q. ring. }
  do 4 (constructor; [rewrite Etap, ES; vm_compute; reflexivity|]). constructor.
Qed.

Lemma cwi_scale_one (n : Z) (aa : bool) (w : list (list Q)) (idx : list (list Z))
    (ss se : Z) :
  1 <= n ->
  calculate_weights_indices n n 1 Cubic 4 aa = Some (w, idx, ss, se) ->
  ss = 1 /\ se = 2 /\
  forall i, (i < Z.to_nat n)%nat ->
    (exists wr, nth_error w i = Some wr /\ Forall2 Qeq wr [0; 1; 0; 0]%Q) /\
    (exists irow, nth_error idx i = Some irow /\ hd_error irow = Some (Z.of_nat i)).
Proof.
  intros Hn Hres.
  assert (H1 : (1 <= 1)%Q) by lra.
  pose proof Hres as Hpads.
  rewrite <- (Qceiling_scale_one n) in Hpads at 2.
  apply (upscale_pads n 1 aa H1 Hn) in Hpads. destruct Hpads as [Hss Hse].
  apply (cwi_inv_upscale _ _ _ _ H1) in Hres.
  destruct Hres as (Hw & mn & mx & Hmn & Hmx & Ess & Ese & Hidx).
  apply tmin_spec in Hmn. destruct Hmn as [Hlow [rmin [Hrmin Hvmin]]].
  apply in_map_iff in Hrmin. destruct Hrmin as [x1 [<- Hx1]].
  apply in_linspace1 in Hx1. rewrite cut_irow_four, lrow_one in Hvmin.
  cbn [In] in Hvmin.
  assert (Hmn0 : mn <= 0).
  { apply (Hlow (cut 1 4 (irow 1 4 6 1))).
    - apply in_map_iff. exists 1. split; [reflexivity|]. apply in_linspace1. lia.
    - rewrite cut_irow_four, lrow_one. left. reflexivity. }
  assert (Hss1 : ss = 1) by lia.
  split; [exact Hss1|]. split; [exact Hse|].
  intros i Hi. subst w idx. rewrite !nth_error_map, nth_error_linspace1 by exact Hi.
  cbn [option_map]. split.
  - eexists; split; [reflexivity|]. apply weights_row_one.
  - eexists; split; [reflexivity|]. rewrite cut_irow_four, lrow_one.
    cbn [map hd_error]. f_equal. lia.
Qed.

Lemma dot_cons (x w : Q) (xs ws : list Q) : dot (x :: xs) (w :: ws) = (x * w + dot xs ws)%Q.
Proof. reflexivity. Qed.

Lemma dot_identity (xs w : list Q) (x : Q) :
  Forall2 Qeq w [0; 1; 0; 0]%Q -> length xs = 4%nat -> nth_error xs 1 = Some x ->
  (dot xs w == x)%Q.
Proof.
  intros Hw Hl Hx.
  destruct xs as [|x0 [|x1 [|x2 [|x3 [|x4 xs]]]]]; try discriminate.
  cbn in Hx. injection Hx as ->.
  inversion Hw as [|w0 ? ws0 ? E0 Hw1]; subst.
  inversion Hw1 as [|w1 ? ws1 ? E1 Hw2]; subst.
  inversion Hw2 as [|w2 ? ws2 ? E2 Hw3]; subst.
  inversion Hw3 as [|w3 ? ws3 ? E3 Hw4]; subst.
  inversion Hw4; subst.
  rewrite !dot_cons. change (dot [] []) with 0%Q.
  rewrite E0, E1, E2, E3. ring.
Qed.

Lemma window_four {A : Type} (a : list A) (i : nat) :
  (i + 4 <= length a)%nat ->
  length (firstn 4 (skipn i a)) = 4%nat /\
  nth_error (firstn 4 (skipn i a)) 1 = nth_error a (i + 1).
Proof.
  intros H. split.
  - rewrite length_firstn, length_skipn. lia.
  - rewrite nth_error_firstn. change (1 <? 4)%nat with true. cbv iota.
    apply nth_error_skipn.
Qed.

Lemma Forall2_of_nth_error {A B : Type} (R : A -> B -> Prop) (l1 : list A) (l2 : list B) :
  length l1 = length l2 ->
  (forall i a b, nth_error l1 i = Some a -> nth_error l2 i = Some b -> R a b) ->
  Forall2 R l1 l2.
Proof.
  revert l2. induction l1 as [|a l1 IH]; intros [|b l2] Hl H; try discriminate.
  - constructor.
  - constructor.
    + apply (H 0%nat); reflexivity.
    + apply IH; [cbn in Hl; lia|]. intros i x y Hx Hy. apply (H (S i)); assumption.
Qed.

Lemma tensor_eq_of_entries (a b : tensor3) (C H W : nat) :
  has_shape a C H W -> has_shape b C H W ->
  (forall c i j qa qb, entry_at a c i j = Some qa -> entry_at b c i j = Some qb ->
     (qa == qb)%Q) ->
  tensor_eq a b.
Proof.
  intros [La Fa] [Lb Fb] He. unfold tensor_eq.
  rewrite Forall_forall in Fa, Fb.
  apply Forall2_of_nth_error; [lia|]. intros c cha chb Eca Ecb.
  destruct (Fa cha (nth_error_In _ _ Eca)) as [Lha Fwa].
  destruct (Fb chb (nth_error_In _ _ Ecb)) as [Lhb Fwb].
  rewrite Forall_forall in Fwa, Fwb.
  apply Forall2_of_nth_error; [lia|]. intros i ra rb Eia Eib.
  apply Forall2_of_nth_error.
  - rewrite (Fwa ra (nth_error_In _ _ Eia)), (Fwb rb (nth_error_In _ _ Eib)). reflexivity.
  - intros j qa qb Eja Ejb. apply (He c i j).
    + unfold entry_at, row_at. now rewrite Eca, Eia.
    + unfold entry_at, row_at. now rewrite Ecb, Eib.
Qed.

Section ScaleOne.
Variables (uninit : Q) (img : tensor3) (H W : nat) (antialiasing : bool).
Hypothesis Hshape : has_shape img 3 H W.
Hypothesis HH : (1 <= H)%nat.
Hypothesis HW : (1 <= W)%nat.

(** The H pass with the weights of scale 1 copies every entry. *)
Lemma row_value_one (w : list (list Q)) (idx : list (list Z)) (c i j : nat) (q : Q) :
  calculate_weights_indices (Z.of_nat H) (Z.of_nat H) 1 Cubic 4 antialiasing
    = Some (w, idx, 1, 2) ->
  (c < 3)%nat -> (i < H)%nat ->
  entry_at img c i j = Some q ->
  exists v q', row_value uninit img H W w idx 1 2 c i = Some v /\
    nth_error v j = Some q' /\ (q' == q)%Q.
Proof.
  intros Hcwi Hc Hi Hq.
  assert (Hn1 : 1 <= Z.of_nat H) by lia.
  destruct (cwi_scale_one _ _ _ _ _ _ Hn1 Hcwi) as (_ & _ & Hrows).
  assert (Hi' : (i < Z.to_nat (Z.of_nat H))%nat) by lia.
  destruct (Hrows i Hi') as [[wr [Ew Hwr]] [irow [Ei Ehd]]].
  destruct (cwi_weights_shape _ _ _ _ _ _ _ _ _ Hcwi) as [Lw Kw].
  assert (Lwr : length wr = 4%nat) by (apply Forall2_length in Hwr; exact Hwr).
  assert (Hkw : length (hd [] w) = 4%nat).
  { rewrite Forall_forall in Kw. rewrite <- (Kw wr (nth_error_In _ _ Ew)). exact Lwr. }
  destruct (aug_channel uninit img 3 H W (Z.of_nat H) w 1 2 Hshape ltac:(lia)
              ltac:(lia) ltac:(lia) ltac:(lia) ltac:(lia) ltac:(lia) c Hc)
    as (ch & a & Ech & Ea & _ & La & Na).
  unfold entry_at, row_at in Hq. rewrite Ech in Hq.
  destruct (nth_error ch i) as [r|] eqn:Er; [|discriminate].
  destruct (window_four a i ltac:(lia)) as [L4 N1].
  specialize (Na i Hi). change (Z.to_nat 1) with 1%nat in Na.
  rewrite Nat.add_comm in Na. rewrite Na, Er in N1.
  unfold row_value. rewrite Ei, Ehd, Ew, Ea, Hkw, Nat2Z.id.
  rewrite mv_columns_some by (rewrite L4, Lwr; reflexivity).
  assert (Hj : (j < W)%nat).
  { destruct (has_shape_channel _ _ _ _ _ _ Hshape Ech) as [_ Hw].
    rewrite Forall_forall in Hw. rewrite <- (Hw r (nth_error_In _ _ Er)).
    apply nth_error_Some. congruence. }
  eexists; eexists. split; [reflexivity|]. split.
  - rewrite nth_error_map, nth_error_seq.
    destruct (Nat.ltb_spec j W); [|lia]. reflexivity.
  - cbn [Nat.add]. apply dot_identity; [exact Hwr|now rewrite length_map|].
    rewrite nth_error_map, N1. cbn [option_map]. f_equal.
    apply nth_error_nth. exact Hq.
Qed.

(** The W pass with the weights of scale 1 copies every entry. *)
Lemma col_value_one (out_1 : tensor3) (w : list (list Q)) (idx : list (list Z))
    (c i j : nat) (q : Q) :
  calculate_weights_indices (Z.of_nat W) (Z.of_nat W) 1 Cubic 4 antialiasing
    = Some (w, idx, 1, 2) ->
  has_shape out_1 3 H W ->
  (c < 3)%nat -> (i < W)%nat ->
  entry_at out_1 c j i = Some q ->
  exists v q', col_value uninit out_1 W w idx 1 2 c i = Some v /\
    nth_error v j = Some q' /\ (q' == q)%Q.
Proof.
  intros Hcwi Hs1 Hc Hi Hq.
  assert (Hn1 : 1 <= Z.of_nat W) by lia.
  destruct (cwi_scale_one _ _ _ _ _ _ Hn1 Hcwi) as (_ & _ & Hrows).
  assert (Hi' : (i < Z.to_nat (Z.of_nat W))%nat) by lia.
  destruct (Hrows i Hi') as [[wr [Ew Hwr]] [irow [Ei Ehd]]].
  destruct (cwi_weights_shape _ _ _ _ _ _ _ _ _ Hcwi) as [Lw Kw].
  assert (Lwr : length wr = 4%nat) by (apply Forall2_length in Hwr; exact Hwr).
  assert (Hkw : length (hd [] w) = 4%nat).
  { rewrite Forall_forall in Kw. rewrite <- (Kw wr (nth_error_In _ _ Ew)). exact Lwr. }
  destruct (aug_cols_channel uninit out_1 3 H W (Z.of_nat W) w 1 2 Hs1 ltac:(lia)
              ltac:(lia) ltac:(lia) ltac:(lia) ltac:(lia) ltac:(lia) c Hc)
    as (ch & Ech & Ea & Lh & Fa).
  unfold entry_at, row_at in Hq. rewrite Ech in Hq.
  destruct (nth_error ch j) as [r|] eqn:Er; [|discriminate].
  destruct (has_shape_channel _ _ _ _ _ _ Hs1 Ech) as [_ Hw].
  rewrite Forall_forall in Hw. pose proof (Hw r (nth_error_In _ _ Er)) as Lr.
  destruct (padded_ok Q 1 2 (repeat uninit (Z.to_nat (Z.of_nat W + 1 + 2))) W
              ltac:(lia) ltac:(lia) ltac:(lia) ltac:(lia) (repeat_length _ _) r Lr)
    as (a & Epad & La & Na & _).
  destruct (window_four a i ltac:(lia)) as [L4 N1].
  specialize (Na i Hi). change (Z.to_nat 1) with 1%nat in Na.
  rewrite Nat.add_comm in Na. rewrite Na, Hq in N1.
  unfold col_value. rewrite Ei, Ehd, Ew, Ea, Hkw, Nat2Z.id.
  rewrite mv_rows_some.
  - eexists; eexists. split; [reflexivity|]. split.
    + rewrite nth_error_map. unfold sym_copy. rewrite nth_error_map, Er.
      cbn [option_map]. rewrite Epad. reflexivity.
    + apply dot_identity; [exact Hwr|exact L4|exact N1].
  - eapply Forall_impl; [|exact Fa]. intros b Lb. cbv beta in Lb |- *.
    rewrite length_firstn, length_skipn, Lb, Lwr. lia.
Qed.

(** C5: for an image of three channels, H by W with H, W >= 1, [imresize] at
    scale 1 returns, and the result is the image itself, entry by entry. *)
Theorem imresize_scale_one :
  exists out, imresize uninit img 1 antialiasing = Some out /\ tensor_eq out img.
Proof.
  assert (Hcwi : forall n : nat, (1 <= n)%nat ->
    exists w idx,
      calculate_weights_indices (Z.of_nat n) (Qceiling (inject_Z (Z.of_nat n) * 1)) 1 Cubic 4
        antialiasing = Some (w, idx, 1, 2)).
  { intros n Hn. rewrite Qceiling_scale_one.
    destruct (cwi_total (Z.of_nat n) (Z.of_nat n) 1 antialiasing) as [[[[w idx] ss] se] Hr];
      [lra|lia|].
    assert (Hn1 : 1 <= Z.of_nat n) by lia.
    destruct (cwi_scale_one _ _ _ _ _ _ Hn1 Hr) as (-> & -> & _). eauto. }
  destruct (Hcwi H HH) as (wH & iH & EH).
  destruct (Hcwi W HW) as (wW & iW & EW).
  assert (FH : pads_fit H 1 2) by (unfold pads_fit; lia).
  assert (FW : pads_fit W 1 2) by (unfold pads_fit; lia).
  destruct (imresize_passes uninit img 3 H W 1 antialiasing wH wW iH iW 1 2 1 2
              Hshape ltac:(lia) HH HW EH EW FH FW)
    as (out_1 & out_2 & E & S1 & V1 & S2 & V2).
  rewrite (Qceiling_scale_one (Z.of_nat H)) in EH, S1, V1, S2, V2.
  rewrite (Qceiling_scale_one (Z.of_nat W)) in EW, S2, V2.
  rewrite (Nat2Z.id H) in S1, V1, S2, V2. rewrite (Nat2Z.id W) in S2, V2.
  exists out_2. split; [exact E|].
  apply (tensor_eq_of_entries out_2 img 3 H W S2 Hshape).
  intros c j i qa qb Ea Eb.
  assert (Hc : (c < 3)%nat).
  { unfold entry_at, row_at in Eb. destruct (nth_error img c) eqn:Ec; [|discriminate].
    destruct Hshape as [<- _]. apply nth_error_Some. congruence. }
  assert (Hj : (j < H)%nat /\ (i < W)%nat).
  { unfold entry_at, row_at in Eb. destruct (nth_error img c) as [ch|] eqn:Ec; [|discriminate].
    destruct (nth_error ch j) as [r|] eqn:Er; [|discriminate].
    destruct (has_shape_channel _ _ _ _ _ _ Hshape Ec) as [Lh Lw].
    rewrite Forall_forall in Lw. rewrite <- Lh, <- (Lw r (nth_error_In _ _ Er)).
    split; apply nth_error_Some; congruence. }
  destruct Hj as [Hj Hi].
  destruct (row_value_one wH iH c j i qb EH Hc Hj Eb) as (v & q1 & Ev & Eq1 & Hq1).
  assert (E1 : entry_at out_1 c j i = Some q1).
  { unfold entry_at. rewrite (V1 c j Hc Hj), Ev. exact Eq1. }
  destruct (col_value_one out_1 wW iW c i j q1 EW S1 Hc Hi E1) as (v2 & q2 & Ev2 & Eq2 & Hq2).
  rewrite (V2 c j i Hc Hj Hi), Ev2, Eq2 in Ea. injection Ea as <-.
  rewrite Hq2. exact Hq1.
Qed.

End ScaleOne.

End IdentityScale.

Module PaddingLengths.
Import Lists CubicKernel RowReading Extrema IndexWindows RowSums KernelPartition TapCounting Totality Buffers SymmetricPadding HeightPass WidthPass UpscalePadding TwoPasses.
Import Resample Rows Resize Notions.
Local Open Scope Z_scope.

(** ** The padding lengths in closed form *)

Section PadLengths.
Variables (in_length : Z) (scale : Q) (antialiasing : bool).
Hypothesis Hscale : (0 < scale)%Q.
Hypothesis Hin : 1 <= in_length.

Let out_length := Qceiling (inject_Z in_length * scale).
Let kw := sym_kernel_width scale antialiasing.
Let P := Qceiling kw + 2.

Lemma out_length_positive : 1 <= out_length.
Proof.
  pose proof (Qle_ceiling (inject_Z in_length * scale)) as H. fold out_length in H.
  assert (H1 : (1 <= inject_Z in_length)%Q)
    by (change 1%Q with (inject_Z 1); rewrite <- Zle_Qle; exact Hin).
  assert (H0 : (0 < inject_Z in_length * scale)%Q)
    by (apply Qmult_lt_0_compat; lra).
  assert (H2 : (inject_Z 0 < inject_Z out_length)%Q) by (change (inject_Z 0) with 0%Q; lra).
  rewrite <- Zlt_Qlt in H2. lia.
Qed.

Lemma lrow_mono (x y : Z) : x <= y -> lrow scale kw x <= lrow scale kw y.
Proof.
  intros Hxy. unfold lrow. apply Qfloor_resp_le. unfold urow.
  assert (H : (inject_Z x / scale <= inject_Z y / scale)%Q).
  { unfold Qdiv. apply Qmult_le_compat_r; [now rewrite <- Zle_Qle|].
    apply Qlt_le_weak, Qinv_lt_0_compat, Hscale. }
  lra.
Qed.

Lemma pad_taps : 6 <= P.
Proof. exact (taps_at_least_six scale antialiasing Hscale). Qed.

Lemma cwi_paddings (w : list (list Q)) (idx : list (list Z)) (ss se : Z) :
  calculate_weights_indices in_length out_length scale Cubic 4 antialiasing
    = Some (w, idx, ss, se) ->
  ss = sym_len_start scale antialiasing /\ se = sym_len_end in_length scale antialiasing.
Proof.
  intros Hres. pose proof pad_taps as HP. pose proof out_length_positive as Hout.
  apply cwi_inv in Hres.
  destruct Hres as (_ & _ & _ & Hsum & start & len & Hp & _ & mn & mx &
                    Hmn & Hmx & -> & -> & _).
  change (if Qltb scale 1 && antialiasing then (4 / scale)%Q else 4%Q) with kw
    in Hsum, Hmn, Hmx, Hp.
  change (Qceiling kw + 2) with P in Hsum, Hmn, Hmx, Hp.
  assert (Hx1 : In 1 (linspace1 out_length)) by (apply linspace1_nonempty; exact Hout).
  assert (Hzf : zeros_first (map (wnorm scale kw (Qltb scale 1 && antialiasing) P)
                               (linspace1 out_length)) <> 0%nat).
  { apply (first_column_has_zero out_length scale antialiasing 1);
      [change (3 <= P); lia|exact Hx1|].
    apply Hsum. exact Hx1. }
  apply pruning_iff in Hp.
  change (if Qltb scale 1 && antialiasing then (4 / scale)%Q else 4%Q) with kw in Hp.
  change (Qceiling kw + 2) with P in Hp.
  destruct Hp as [(_ & -> & -> & _)|[(Hz & _)|(Hz & _)]]; [|contradiction|contradiction].
  assert (Hcut : forall x, cut 1 (Z.to_nat (P - 2)) (irow scale kw P x)
                 = map (fun j => lrow scale kw x + Z.of_nat j) (seq 1 (Z.to_nat (P - 2)))).
  { intros x. apply cut_irow. lia. }
  apply tmin_spec in Hmn. destruct Hmn as [Hlow [rmin [Hrmin Hvmin]]].
  apply tmax_spec in Hmx. destruct Hmx as [Hupp [rmax [Hrmax Hvmax]]].
  assert (Hrow : forall x, 1 <= x <= out_length ->
    In (cut 1 (Z.to_nat (P - 2)) (irow scale kw P x))
       (map (fun x => cut 1 (Z.to_nat (P - 2)) (irow scale kw P x)) (linspace1 out_length))).
  { intros x Hx. apply in_map_iff. exists x. split; [reflexivity|].
    apply in_linspace1. exact Hx. }
  assert (Hmn1 : mn <= lrow scale kw 1 + 1).
  { apply (Hlow _ _ (Hrow 1 ltac:(lia))). rewrite Hcut. apply in_map_iff.
    exists 1%nat. split; [reflexivity|]. apply in_seq. lia. }
  assert (Hmx1 : lrow scale kw out_length + (P - 2) <= mx).
  { apply (Hupp _ _ (Hrow out_length ltac:(lia))). rewrite Hcut. apply in_map_iff.
    exists (Z.to_nat (P - 2)). split; [lia|]. apply in_seq. lia. }
  apply in_map_iff in Hrmin. destruct Hrmin as [x1 [<- Hx1']].
  apply in_map_iff in Hrmax. destruct Hrmax as [x2 [<- Hx2']].
  apply in_linspace1 in Hx1'. apply in_linspace1 in Hx2'.
  rewrite Hcut in Hvmin, Hvmax.
  apply in_map_iff in Hvmin. destruct Hvmin as [j1 [E1 Hj1]]. apply in_seq in Hj1.
  apply in_map_iff in Hvmax. destruct Hvmax as [j2 [E2 Hj2]]. apply in_seq in Hj2.
  pose proof (lrow_mono 1 x1 ltac:(lia)). pose proof (lrow_mono x2 out_length ltac:(lia)).
  unfold sym_len_start, sym_len_end.
  change (sym_kernel_width scale antialiasing) with kw.
  change (Qceiling (inject_Z in_length * scale)) with out_length.
  unfold P in *. lia.
Qed.

(** [calculate_weights_indices] returns, with these paddings. *)
Lemma cwi_closed_form :
  exists w idx,
    calculate_weights_indices in_length out_length scale Cubic 4 antialiasing
      = Some (w, idx, sym_len_start scale antialiasing,
              sym_len_end in_length scale antialiasing).
Proof.
  destruct (cwi_total in_length out_length scale antialiasing Hscale out_length_positive)
    as [[[[w idx] ss] se] Hr].
  destruct (cwi_paddings w idx ss se Hr) as [-> ->]. eauto.
Qed.

End PadLengths.

(** For a scale of at least 1 the paddings are 1 or 2 at the start and 2 at
    the end. *)
Lemma upscale_closed_form (in_length : Z) (scale : Q) (antialiasing : bool) :
  (1 <= scale)%Q -> 1 <= in_length ->
  1 <= sym_len_start scale antialiasing <= 2 /\
  sym_len_end in_length scale antialiasing = 2.
Proof.
  intros Hscale Hin.
  destruct (cwi_closed_form in_length scale antialiasing ltac:(lra) Hin) as (w & idx & Hr).
  exact (upscale_pads in_length scale antialiasing Hscale Hin _ _ _ _ Hr).
Qed.

(** With antialiasing, or for a scale of at least 1, both paddings are
    positive. *)
Lemma paddings_positive (in_length : Z) (scale : Q) (antialiasing : bool) :
  (0 < scale)%Q -> 1 <= in_length -> antialiasing = true \/ (1 <= scale)%Q ->
  1 <= sym_len_start scale antialiasing /\ 1 <= sym_len_end in_length scale antialiasing.
Proof.
  intros Hscale Hin Hcase.
  destruct (Qlt_le_dec scale 1) as [Hlt|Hge].
  2: { destruct (upscale_closed_form in_length scale antialiasing Hge Hin). lia. }
  destruct Hcase as [->|Hge]; [|lra].
  unfold sym_len_start, sym_len_end, sym_kernel_width.
  assert (Eb : Qltb scale 1 && true = true).
  { rewrite andb_true_r. apply Qltb_iff. exact Hlt. }
  rewrite Eb.
  set (t := (1 / scale)%Q).
  assert (Ht : (1 < t)%Q) by (unfold t; apply Qlt_shift_div_l; lra).
  assert (Ek : (4 / scale / 2 == 2 * t)%Q) by (unfold t; field; lra).
  assert (Ek4 : (4 / scale == 4 * t)%Q) by (unfold t; field; lra).
  assert (Eu : forall x, (urow scale x == inject_Z x * t + (1#2) * (1 - t))%Q).
  { intros x. unfold urow, t. field. lra. }
  assert (Et : forall q : Q, (q == q * scale * t)%Q) by (intros q; unfold t; field; lra).
  clearbody t. split.
  - assert (H : lrow scale (4 / scale) 1 < -1).
    { unfold lrow. apply floor_lt. rewrite Eu, Ek.
      change (inject_Z 1) with 1%Q. change (inject_Z (-1)) with (- (1))%Q. lra. }
    lia.
  - set (out := Qceiling (inject_Z in_length * scale)).
    pose proof (Qle_ceiling (inject_Z in_length * scale)) as Ho. fold out in Ho.
    assert (Hot : (inject_Z in_length <= inject_Z out * t)%Q).
    { rewrite (Et (inject_Z in_length)). apply Qmult_le_compat_r; [exact Ho|lra]. }
    assert (Hc : (4 * t <= inject_Z (Qceiling (4 / scale)))%Q).
    { rewrite <- Ek4. apply Qle_ceiling. }
    set (c := Qceiling (4 / scale)) in *.
    assert (H : in_length + 2 - c <= lrow scale (4 / scale) out).
    { unfold lrow. apply floor_ge. rewrite Eu, Ek.
      unfold Z.sub. rewrite !inject_Z_plus, inject_Z_opp.
      change (inject_Z 2) with 2%Q. lra. }
    lia.
Qed.

(** ** A padding longer than the axis *)

Lemma broadcast_none {A : Type} (len : Z) (l : list A) :
  (2 <= length l)%nat -> Z.of_nat (length l) <> len -> broadcast len l = None.
Proof.
  intros H2 Hne. unfold broadcast.
  destruct (Z.eqb_spec (Z.of_nat (length l)) len) as [E|_]; [contradiction|].
  destruct l as [|a [|b l]]; cbn in H2; try lia. reflexivity.
Qed.

Lemma copy_rows_none (size : Z) (dst : tensor3) (start length : Z) (src : tensor3)
    (c : list (list Q)) :
  In c src -> broadcast length c = None -> copy_rows size dst start length src = None.
Proof.
  intros Hc Hb. unfold copy_rows.
  destruct (narrow_range size start length); [|reflexivity].
  destruct (forallb _ src) eqn:E; [|reflexivity].
  rewrite forallb_forall in E. specialize (E c Hc). rewrite Hb in E. discriminate.
Qed.

Lemma copy_cols_none (size : Z) (dst : tensor3) (start length : Z) (src : tensor3)
    (c : list (list Q)) (r : list Q) :
  In c src -> In r c -> broadcast length r = None ->
  copy_cols size dst start length src = None.
Proof.
  intros Hc Hr Hb. unfold copy_cols.
  destruct (narrow_range size start length); [|reflexivity].
  destruct (forallb _ src) eqn:E; [|reflexivity].
  rewrite forallb_forall in E. specialize (E c Hc).
  rewrite forallb_forall in E. specialize (E r Hr). rewrite Hb in E. discriminate.
Qed.

Lemma slice_to_all {A : Type} (s : Z) (l : list A) :
  Z.of_nat (length l) < s -> slice_to s l = l.
Proof.
  intros H. unfold slice_to, slice_bound.
  destruct (Z.ltb_spec s 0); [lia|]. apply firstn_all2. lia.
Qed.

Lemma slice_from_all {A : Type} (e : Z) (l : list A) :
  Z.of_nat (length l) < e -> slice_from (- e) l = l.
Proof.
  intros H. unfold slice_from, slice_bound.
  destruct (Z.ltb_spec (- e) 0); [|lia].
  replace (Z.max 0 (- e + Z.of_nat (length l))) with 0 by lia. reflexivity.
Qed.

(** The H pass raises when a padding is longer than an axis of two or more
    entries: the reflected patch has fewer entries than the padding and
    cannot be broadcast. *)
Lemma resize_H_none (uninit : Q) (img : tensor3) (C H W : nat) (out_H : Z)
    (weights : list (list Q)) (indices : list (list Z)) (s e : Z) :
  has_shape img C H W -> (1 <= C)%nat -> (2 <= H)%nat ->
  Z.of_nat H < s \/ Z.of_nat H < e ->
  resize_H uninit img (Z.of_nat C) (Z.of_nat H) (Z.of_nat W) out_H weights indices s e
    = None.
Proof.
  intros [Hl Hf] HC HH Hlong. unfold resize_H.
  destruct img as [|ch img]; [cbn in Hl; lia|].
  apply Forall_inv in Hf. destruct Hf as [Hh _].
  destruct (FloatTensor uninit _ _ _) as [a0|]; [|reflexivity].
  destruct (copy_rows _ a0 s (Z.of_nat H) (ch :: img)) as [a1|]; [|reflexivity].
  destruct (Z_lt_dec (Z.of_nat H) s) as [Hs|Hs].
  - rewrite (copy_rows_none _ a1 0 s _ (rev (slice_to s ch))); [reflexivity| |].
    + cbn [map]. left. reflexivity.
    + apply broadcast_none; rewrite length_rev, slice_to_all by lia; lia.
  - assert (He : Z.of_nat H < e) by lia.
    destruct (copy_rows _ a1 0 s _) as [a2|]; [|reflexivity].
    rewrite (copy_rows_none _ a2 (s + Z.of_nat H) e _ (rev (slice_from (- e) ch)));
      [reflexivity| |].
    + cbn [map]. left. reflexivity.
    + apply broadcast_none; rewrite length_rev, slice_from_all by lia; lia.
Qed.

(** The same for the W pass. *)
Lemma resize_W_none (uninit : Q) (out_1 : tensor3) (C H W : nat) (out_W : Z)
    (weights : list (list Q)) (indices : list (list Z)) (s e : Z) :
  has_shape out_1 C H W -> (1 <= C)%nat -> (1 <= H)%nat -> (2 <= W)%nat ->
  Z.of_nat W < s \/ Z.of_nat W < e ->
  resize_W uninit out_1 (Z.of_nat C) (Z.of_nat W) (Z.of_nat H) out_W weights indices s e
    = None.
Proof.
  intros [Hl Hf] HC HH HW Hlong. unfold resize_W.
  destruct out_1 as [|ch out_1]; [cbn in Hl; lia|].
  apply Forall_inv in Hf. destruct Hf as [Hh Hrows].
  destruct ch as [|r ch]; [cbn in Hh; lia|].
  apply Forall_inv in Hrows.
  destruct (FloatTensor uninit _ _ _) as [a0|]; [|reflexivity].
  destruct (copy_cols _ a0 s (Z.of_nat W) ((r :: ch) :: out_1)) as [a1|]; [|reflexivity].
  destruct (Z_lt_dec (Z.of_nat W) s) as [Hs|Hs].
  - rewrite (copy_cols_none _ a1 0 s _ (map (@rev _) (map (slice_to s) (r :: ch)))
               (rev (slice_to s r))); [reflexivity| | |].
    + cbn [map]. left. reflexivity.
    + cbn [map]. left. reflexivity.
    + apply broadcast_none; rewrite length_rev, slice_to_all by lia; lia.
  - assert (He : Z.of_nat W < e) by lia.
    destruct (copy_cols _ a1 0 s _) as [a2|]; [|reflexivity].
    rewrite (copy_cols_none _ a2 (s + Z.of_nat W) e _
               (map (@rev _) (map (slice_from (- e)) (r :: ch)))
               (rev (slice_from (- e) r))); [reflexivity| | |].
    + cbn [map]. left. reflexivity.
    + cbn [map]. left. reflexivity.
    + apply broadcast_none; rewrite length_rev, slice_from_all by lia; lia.
Qed.

(** ** When [imresize] returns *)

Section Returns.
Variables (uninit : Q) (img : tensor3) (C H W : nat) (scale : Q) (antialiasing : bool).
Hypothesis Hshape : has_shape img C H W.
Hypothesis HC : (3 <= C)%nat.
Hypothesis HH : (1 <= H)%nat.
Hypothesis HW : (1 <= W)%nat.
Hypothesis Hscale : (0 < scale)%Q.

Lemma imresize_fits :
  pads_fit H (sym_len_start scale antialiasing) (sym_len_end (Z.of_nat H) scale antialiasing) ->
  pads_fit W (sym_len_start scale antialiasing) (sym_len_end (Z.of_nat W) scale antialiasing) ->
  exists out, imresize uninit img scale antialiasing = Some out.
Proof.
  intros FH FW.
  destruct (cwi_closed_form (Z.of_nat H) scale antialiasing Hscale ltac:(lia))
    as (wH & iH & EH).
  destruct (cwi_closed_form (Z.of_nat W) scale antialiasing Hscale ltac:(lia))
    as (wW & iW & EW).
  destruct (imresize_passes uninit img C H W scale antialiasing wH wW iH iW
              _ _ _ _ Hshape HC HH HW EH EW FH FW) as (out_1 & out_2 & E & _).
  eauto.
Qed.

Lemma imresize_needs_fit (out : tensor3) :
  1 <= sym_len_start scale antialiasing ->
  1 <= sym_len_end (Z.of_nat H) scale antialiasing ->
  1 <= sym_len_end (Z.of_nat W) scale antialiasing ->
  imresize uninit img scale antialiasing = Some out ->
  pads_fit H (sym_len_start scale antialiasing) (sym_len_end (Z.of_nat H) scale antialiasing) /\
  pads_fit W (sym_len_start scale antialiasing) (sym_len_end (Z.of_nat W) scale antialiasing).
Proof.
  intros Hs HeH HeW Hout.
  destruct (cwi_closed_form (Z.of_nat H) scale antialiasing Hscale ltac:(lia))
    as (wH & iH & EH).
  destruct (cwi_closed_form (Z.of_nat W) scale antialiasing Hscale ltac:(lia))
    as (wW & iW & EW).
  destruct (sizes_of_shape img C H W Hshape ltac:(lia) HH) as (E0 & E1 & E2).
  unfold imresize in Hout. rewrite E0, E1, E2, EH, EW in Hout.
  set (ss := sym_len_start scale antialiasing) in *.
  set (eH := sym_len_end (Z.of_nat H) scale antialiasing) in *.
  set (eW := sym_len_end (Z.of_nat W) scale antialiasing) in *.
  set (out_H := Qceiling (inject_Z (Z.of_nat H) * scale)) in *.
  set (out_W := Qceiling (inject_Z (Z.of_nat W) * scale)) in *.
  assert (FH : pads_fit H ss eH).
  { unfold pads_fit. repeat split; try assumption.
    - destruct (Z_lt_dec (Z.of_nat H) ss) as [Hlong|]; [|left; lia].
      destruct (Nat.eq_dec H 1) as [|H1]; [right; assumption|exfalso].
      rewrite (resize_H_none uninit img C H W out_H wH iH ss eH Hshape) in Hout;
        [discriminate|lia|lia|left; exact Hlong].
    - destruct (Z_lt_dec (Z.of_nat H) eH) as [Hlong|]; [|left; lia].
      destruct (Nat.eq_dec H 1) as [|H1]; [right; assumption|exfalso].
      rewrite (resize_H_none uninit img C H W out_H wH iH ss eH Hshape) in Hout;
        [discriminate|lia|lia|right; exact Hlong]. }
  split; [exact FH|].
  destruct FH as (Hs1 & He1 & Hns1 & Hne1).
  pose proof (out_length_positive (Z.of_nat H) scale antialiasing Hscale ltac:(lia)) as HoH.
  fold out_H in HoH.
  destruct (cwi_weights_shape _ _ _ _ _ _ _ _ _ EH) as [LwH KwH].
  destruct (cwi_indices _ _ _ _ _ _ _ _ _ EH) as [_ WinH].
  destruct (resize_H_spec uninit img C H W out_H wH iH ss eH
              Hshape HC Hs1 He1 Hns1 Hne1 ltac:(lia) LwH WinH KwH) as [out_1 [R1 [S1 _]]].
  rewrite R1 in Hout.
  rewrite <- (Z2Nat.id out_H) in Hout at 1 by lia.
  unfold pads_fit. repeat split; try assumption.
  - destruct (Z_lt_dec (Z.of_nat W) ss) as [Hlong|]; [|left; lia].
    destruct (Nat.eq_dec W 1) as [|W1]; [right; assumption|exfalso].
    rewrite (resize_W_none uninit out_1 C (Z.to_nat out_H) W out_W wW iW ss eW S1) in Hout;
      [discriminate|lia|lia|lia|left; exact Hlong].
  - destruct (Z_lt_dec (Z.of_nat W) eW) as [Hlong|]; [|left; lia].
    destruct (Nat.eq_dec W 1) as [|W1]; [right; assumption|exfalso].
    rewrite (resize_W_none uninit out_1 C (Z.to_nat out_H) W out_W wW iW ss eW S1) in Hout;
      [discriminate|lia|lia|lia|right; exact Hlong].
Qed.

End Returns.

End PaddingLengths.

Module ImresizeFacts.
Import Lists CubicKernel RowReading Extrema IndexWindows RowSums KernelPartition TapCounting Totality Buffers SymmetricPadding HeightPass WidthPass UpscalePadding TwoPasses IdentityScale PaddingLengths.
Import Resample Rows Resize Notions.
Local Open Scope Z_scope.

(** ** The shape of the output of [imresize] *)

(** C2: for an image of shape (C, H, W), whenever [imresize] returns, the
    result has C channels and ceil(H * scale) by ceil(W * scale) entries in
    each.  For an image with at least three channels and a positive scale,
    upscaling or downscaling, it returns whenever the two symmetric paddings
    of each axis are positive and no longer than the axis (or the axis has a
    single entry); with antialiasing, or for a scale of at least 1, the
    paddings are always positive and it returns in no other case; for a
    scale of at least 1 the paddings always fit. *)
Theorem imresize_output_shape (uninit : Q) (img : tensor3) (C H W : nat) (scale : Q)
    (antialiasing : bool) :
  has_shape img C H W -> (1 <= C)%nat -> (1 <= H)%nat ->
  (forall out, imresize uninit img scale antialiasing = Some out ->
     has_shape out C (Z.to_nat (Qceiling (inject_Z (Z.of_nat H) * scale)))
                     (Z.to_nat (Qceiling (inject_Z (Z.of_nat W) * scale)))) /\
  ((3 <= C)%nat -> (1 <= W)%nat -> (0 < scale)%Q ->
   let fits :=
     pads_fit H (sym_len_start scale antialiasing)
       (sym_len_end (Z.of_nat H) scale antialiasing) /\
     pads_fit W (sym_len_start scale antialiasing)
       (sym_len_end (Z.of_nat W) scale antialiasing) in
   (fits -> exists out, imresize uninit img scale antialiasing = Some out) /\
   (antialiasing = true \/ (1 <= scale)%Q ->
    (exists out, imresize uninit img scale antialiasing = Some out) -> fits) /\
   ((1 <= scale)%Q -> fits)).
Proof.
  intros Hshape HC HH. split.
  - intros out Hout. apply imresize_shape in Hout.
    destruct (sizes_of_shape img C H W Hshape HC HH) as (_ & E1 & E2).
    rewrite E1, E2 in Hout. destruct Hshape as [<- _]. exact Hout.
  - intros HC3 HW Hscale fits. subst fits. split; [|split].
    + intros [FH FW].
      exact (imresize_fits uninit img C H W scale antialiasing Hshape HC3 HH HW Hscale FH FW).
    + intros Hcase [out Hout].
      destruct (paddings_positive (Z.of_nat H) scale antialiasing Hscale ltac:(lia) Hcase)
        as [Hs HeH].
      destruct (paddings_positive (Z.of_nat W) scale antialiasing Hscale ltac:(lia) Hcase)
        as [_ HeW].
      exact (imresize_needs_fit uninit img C H W scale antialiasing Hshape HC3 HH HW Hscale
               out Hs HeH HeW Hout).
    + intros Hup.
      destruct (upscale_closed_form (Z.of_nat H) scale antialiasing Hup ltac:(lia))
        as [HsH HeH].
      destruct (upscale_closed_form (Z.of_nat W) scale antialiasing Hup ltac:(lia))
        as [HsW HeW].
      unfold pads_fit. rewrite HeH, HeW. change (Z.to_nat 2) with 2%nat. repeat split; lia.
Qed.

Lemma imresize_output_shape_witness :
  exists out, imresize 0 rgb_4x4 (1 # 2) true = Some out /\ has_shape out 3 2 2.
Proof.
  destruct (imresize_output_shape 0 rgb_4x4 3 4 4 (1 # 2) true) as [Hshape Hreturns];
    [split; [reflexivity|repeat constructor]|lia|lia|].
  destruct Hreturns as [Hfits _]; [lia|lia|reflexivity|].
  destruct Hfits as [out E].
  { assert (Es : sym_len_start (1 # 2) true = 3) by (vm_compute; reflexivity).
    assert (Ee : sym_len_end (Z.of_nat 4) (1 # 2) true = 3) by (vm_compute; reflexivity).
    unfold pads_fit. rewrite Es, Ee. lia. }
  exists out. split; [exact E|exact (Hshape out E)].
Defined.

(** A one-channel image at scale 1, and an RGB image of 2 by 2 pixels at
    scale 1/2 with antialiasing, whose paddings of 3 entries are longer than
    its axes: both output sizes are positive and [imresize] raises. *)
Lemma imresize_raises :
  imresize 0 gray_1x1 1 true = None /\
  0 < Qceiling (inject_Z (size1 gray_1x1) * 1) /\
  imresize 0 rgb_2x2 (1 # 2) true = None /\
  0 < Qceiling (inject_Z (size1 rgb_2x2) * (1 # 2)) /\
  0 < Qceiling (inject_Z (size2 rgb_2x2) * (1 # 2)) /\
  sym_len_start (1 # 2) true = 3 /\ sym_len_end 2 (1 # 2) true = 3.
Proof. vm_compute. repeat split; reflexivity. Qed.

(** ** Scale 1 *)

Lemma imresize_scale_one_witness :
  exists out, imresize 0 rgb_2x2 1 true = Some out /\ tensor_eq out rgb_2x2.
Proof.
  apply (imresize_scale_one 0 rgb_2x2 2 2 true); [|lia|lia].
  split; [reflexivity|]. repeat constructor.
Defined.

(** At scale 1 a one-channel image raises, and the fourth channel of a
    four-channel image comes back as the content of the fresh buffer. *)
Lemma imresize_scale_one_other_channels :
  imresize 0 gray_1x1 1 true = None /\
  (exists out, imresize 0 rgba_1x1 1 true = Some out /\
     entry_at out 3 0 0 = Some 0%Q /\ entry_at rgba_1x1 3 0 0 = Some 4%Q).
Proof.
  split; [vm_compute; reflexivity|].
  eexists. split; [vm_compute; reflexivity|]. split; reflexivity.
Qed.

End ImresizeFacts.

Module WeightRange.
Import FFL.
Local Open Scope Z_scope.

(** ** The range check of the spectrum weight matrix *)

Lemma in_unit_iff (a : xreal) :
  in_unit a <-> xle (Fin 0) a = true /\ xle a (Fin 1) = true.
Proof.
  destruct a as [q| | |]; cbn; rewrite ?Qle_bool_iff; intuition discriminate.
Qed.

Lemma xle_nan_r (a : xreal) : xle a NaN = false.
Proof. destruct a; reflexivity. Qed.

Lemma xmin_lower (c : Q) (a b : xreal) :
  xle (Fin c) (xmin a b) = true <-> xle (Fin c) a = true /\ xle (Fin c) b = true.
Proof.
  unfold xmin. destruct a as [p| | |], b as [q| | |]; cbn;
    try (intuition discriminate).
  - destruct (Qle_bool p q) eqn:E; cbn; rewrite ?Qle_bool_iff.
    + apply Qle_bool_iff in E. split; [intros H; split; [exact H|lra]|tauto].
    + assert (~ (p <= q)%Q) by (intros H; apply Qle_bool_iff in H; congruence).
      split; [intros H0; split; [lra|exact H0]|tauto].
Qed.

Lemma xmax_upper (c : Q) (a b : xreal) :
  xle (xmax a b) (Fin c) = true <-> xle a (Fin c) = true /\ xle b (Fin c) = true.
Proof.
  unfold xmax. destruct a as [p| | |], b as [q| | |]; cbn;
    try (intuition discriminate).
  - destruct (Qle_bool p q) eqn:E; cbn; rewrite ?Qle_bool_iff.
    + apply Qle_bool_iff in E. split; [intros H; split; [lra|exact H]|tauto].
    + assert (~ (p <= q)%Q) by (intros H; apply Qle_bool_iff in H; congruence).
      split; [intros H0; split; [exact H0|lra]|tauto].
Qed.

Lemma fold_xmin_lower (c : Q) (r : list xreal) (a : xreal) :
  xle (Fin c) (fold_left xmin r a) = true <->
  Forall (fun v => xle (Fin c) v = true) (a :: r).
Proof.
  revert a. induction r as [|b r IH]; intros a; cbn [fold_left].
  - split; [intros H; constructor; [exact H|constructor]|intros H; now inversion H].
  - rewrite IH. rewrite !Forall_cons_iff, xmin_lower. tauto.
Qed.

Lemma fold_xmax_upper (c : Q) (r : list xreal) (a : xreal) :
  xle (fold_left xmax r a) (Fin c) = true <->
  Forall (fun v => xle v (Fin c) = true) (a :: r).
Proof.
  revert a. induction r as [|b r IH]; intros a; cbn [fold_left].
  - split; [intros H; constructor; [exact H|constructor]|intros H; now inversion H].
  - rewrite IH. rewrite !Forall_cons_iff, xmax_upper. tauto.
Qed.

(** The assertion of [loss_formulation] passes exactly when every entry of
    the weight matrix lies in [0, 1]. *)
Lemma range_check (l : list xreal) (mn mx : xreal) :
  min_list l = Some mn -> max_list l = Some mx ->
  (xle (Fin 0) mn && xle mx (Fin 1) = true <-> Forall in_unit l).
Proof.
  destruct l as [|a r]; [discriminate|]. unfold min_list, max_list. intros [= <-] [= <-].
  rewrite andb_true_iff, fold_xmin_lower, fold_xmax_upper.
  rewrite !Forall_forall. split.
  - intros [H1 H2] v Hv. apply in_unit_iff. auto.
  - intros H. split; intros v Hv; specialize (H v Hv); apply in_unit_iff in H; tauto.
Qed.

Lemma min_max_some (l : list xreal) :
  l <> [] -> exists mn mx, min_list l = Some mn /\ max_list l = Some mx.
Proof. destruct l as [|a r]; [congruence|]. cbn. eauto. Qed.

Section LossErrors.
Variables (xsqrt : xreal -> xreal) (xpow : xreal -> Q -> xreal) (xlog : xreal -> xreal).
Variable cfg : config.

Lemma online_matrix_errors (R T : freq_tensor) (e : error) :
  online_matrix xsqrt xpow xlog cfg R T = inl e -> e = RuntimeError.
Proof.
  unfold online_matrix.
  destruct (batch_matrix cfg).
  - destruct (max_list _); [discriminate|]. now intros [= <-].
  - destruct (forallb _ _); [discriminate|]. now intros [= <-].
Qed.

Lemma loss_formulation_errors (R T : freq_tensor) (matrix : option tensor5) (e : error) :
  loss_formulation xsqrt xpow xlog cfg R T matrix = inl e ->
  e = RuntimeError \/ exists mn mx, e = WeightRangeError mn mx.
Proof.
  unfold loss_formulation.
  destruct (match matrix with Some m => inr m | None => _ end) as [e0|W] eqn:EW.
  - intros [= <-]. left. destruct matrix; [discriminate|].
    exact (online_matrix_errors _ _ _ EW).
  - destruct (min_list _) as [mn|]; [|intros [= <-]; now left].
    destruct (max_list _) as [mx|]; [|intros [= <-]; now left].
    destruct (_ && _).
    + destruct (same_shape _ _); [discriminate|]. intros [= <-]. now left.
    + intros [= <-]. right. eauto.
Qed.

(** C8: with an externally supplied weight matrix, [loss_formulation] fails
    with the range error carrying the observed minimum and maximum whenever
    some entry of the matrix is outside [0, 1]; when all entries are in
    [0, 1] it never raises that error, and it returns a loss when the matrix
    is non-empty and has the shape of the spectra. *)
Theorem supplied_matrix_range_check (R T : freq_tensor) (matrix : tensor5) :
  (Exists (fun v => ~ in_unit v) (flatten5 matrix) ->
   exists mn mx,
     min_list (flatten5 matrix) = Some mn /\ max_list (flatten5 matrix) = Some mx /\
     loss_formulation xsqrt xpow xlog cfg R T (Some matrix)
       = inl (WeightRangeError mn mx)) /\
  (Forall in_unit (flatten5 matrix) ->
   (forall mn mx, loss_formulation xsqrt xpow xlog cfg R T (Some matrix)
                    <> inl (WeightRangeError mn mx)) /\
   (flatten5 matrix <> [] -> same_shape matrix (freq_distance R T) = true ->
    exists l, loss_formulation xsqrt xpow xlog cfg R T (Some matrix) = inr l)).
Proof.
  split.
  - intros Hex.
    assert (Hne : flatten5 matrix <> []).
    { apply Exists_exists in Hex. destruct Hex as [v [Hv _]].
      intros E. rewrite E in Hv. destruct Hv. }
    destruct (min_max_some _ Hne) as (mn & mx & Emn & Emx).
    exists mn, mx. split; [exact Emn|]. split; [exact Emx|].
    unfold loss_formulation. rewrite Emn, Emx.
    destruct (xle (Fin 0) mn && xle mx (Fin 1)) eqn:Ec; [|reflexivity].
    apply (range_check _ _ _ Emn Emx) in Ec.
    apply Exists_exists in Hex. destruct Hex as [v [Hv Hn]].
    rewrite Forall_forall in Ec. exfalso. exact (Hn (Ec v Hv)).
  - intros Hall. split.
    + intros mn mx. unfold loss_formulation.
      destruct (min_list _) as [mn'|] eqn:Emn; [|discriminate].
      destruct (max_list _) as [mx'|] eqn:Emx; [|discriminate].
      apply (range_check _ _ _ Emn Emx) in Hall. rewrite Hall.
      destruct (same_shape _ _); discriminate.
    + intros Hne Hsh. destruct (min_max_some _ Hne) as (mn & mx & Emn & Emx).
      unfold loss_formulation. rewrite Emn, Emx.
      apply (range_check _ _ _ Emn Emx) in Hall. rewrite Hall, Hsh. eauto.
Qed.

End LossErrors.

Lemma supplied_matrix_range_check_witness :
  loss_formulation (fun a => a) (fun a _ => a) (fun a => a) default_config
    spectrum1 spectrum1 (Some weights_15)
    = inl (WeightRangeError (Fin (3#2)) (Fin (3#2))) /\
  exists l, loss_formulation (fun a => a) (fun a _ => a) (fun a => a) default_config
              spectrum1 spectrum1 (Some weights_05) = inr l.
Proof.
  split.
  - destruct (proj1 (supplied_matrix_range_check (fun a => a) (fun a _ => a) (fun a => a)
                       default_config spectrum1 spectrum1 weights_15))
      as (mn & mx & Emn & Emx & E).
    { constructor. cbn. intros [_ H]. unfold Qle in H. cbn in H. lia. }
    cbn in Emn, Emx. injection Emn as <-. injection Emx as <-. exact E.
  - apply (proj2 (supplied_matrix_range_check (fun a => a) (fun a _ => a) (fun a => a)
                    default_config spectrum1 spectrum1 weights_05)).
    + repeat constructor; unfold Qle; cbn; lia.
    + discriminate.
    + reflexivity.
Defined.

End WeightRange.

Module PatchFactorCheck.
Import Lists WeightRange.
Import FFL.
Local Open Scope Z_scope.

(** ** The patch factor check *)

Lemma shape4_sizes (x : tensor4) (n c h w : nat) :
  has_shape4 x n c h w -> (1 <= n)%nat -> (1 <= c)%nat -> (1 <= h)%nat ->
  length (hd [] (hd [] x)) = h /\ length (hd [] (hd [] (hd [] x))) = w.
Proof.
  intros [Hn Hx] Hn1 Hc1 Hh1.
  destruct x as [|image x]; [cbn in Hn; lia|].
  apply Forall_inv in Hx. destruct Hx as [Hc Hi]. cbn [hd].
  destruct image as [|channel image]; [cbn in Hc; lia|].
  apply Forall_inv in Hi. destruct Hi as [Hh Hch]. cbn [hd].
  destruct channel as [|row channel]; [cbn in Hh; lia|].
  apply Forall_inv in Hch. cbn [hd]. auto.
Qed.

Lemma patch_list_nonempty (pf : Z) :
  0 < pf ->
  flat_map (fun i => map (fun j => (i, j)) (range pf)) (range pf) <> [].
Proof.
  intros Hpf E.
  assert (Hin : In (0, 0) (flat_map (fun i => map (fun j => (i, j)) (range pf)) (range pf))).
  { apply in_flat_map. exists 0. split; [apply in_range; lia|].
    apply in_map. apply in_range. lia. }
  rewrite E in Hin. destruct Hin.
Qed.

Section PatchFactor.
Variables (xsqrt : xreal -> xreal) (xpow : xreal -> Q -> xreal) (xlog : xreal -> xreal).
Variable fft2 : list (list xreal) -> spectrum.
Variable cfg : config.

Lemma tensor2freq_cases (x : tensor4) (n c h w : nat) :
  has_shape4 x n c h w -> (1 <= n)%nat -> (1 <= c)%nat -> (1 <= h)%nat ->
  0 < patch_factor cfg ->
  (Z.of_nat h mod patch_factor cfg = 0 /\ Z.of_nat w mod patch_factor cfg = 0 ->
   exists F, tensor2freq fft2 cfg x = inr F) /\
  (~ (Z.of_nat h mod patch_factor cfg = 0 /\ Z.of_nat w mod patch_factor cfg = 0) ->
   tensor2freq fft2 cfg x = inl PatchFactorError).
Proof.
  intros Hx Hn Hc Hh Hpf.
  destruct (shape4_sizes x n c h w Hx Hn Hc Hh) as [Eh Ew].
  unfold tensor2freq. rewrite Eh, Ew.
  destruct (Z.eqb_spec (patch_factor cfg) 0) as [E0|_]; [lia|].
  destruct (Z.eqb_spec (Z.of_nat h mod patch_factor cfg) 0) as [E1|E1];
    destruct (Z.eqb_spec (Z.of_nat w mod patch_factor cfg) 0) as [E2|E2]; cbn [andb negb].
  - split; [|intros H; exfalso; apply H; auto].
    intros _. pose proof (patch_list_nonempty (patch_factor cfg) Hpf) as Hne.
    destruct (flat_map _ _); [congruence|]. eauto.
  - split; [intros [_ H]; contradiction|reflexivity].
  - split; [intros [H _]; contradiction|reflexivity].
  - split; [intros [H _]; contradiction|reflexivity].
Qed.

(** C7: for a prediction and a target of shape (N, C, H, W), [forward] fails
    with the patch factor error exactly when the patch factor does not divide
    both H and W, and the failure is that of [tensor2freq] on the prediction,
    before the loss is formed. *)
Theorem forward_patch_factor_check (pred target : tensor4) (matrix : option tensor5)
    (n c h w : nat) :
  has_shape4 pred n c h w -> has_shape4 target n c h w ->
  (1 <= n)%nat -> (1 <= c)%nat -> (1 <= h)%nat ->
  0 < patch_factor cfg ->
  (forward xsqrt xpow xlog fft2 cfg pred target matrix = inl PatchFactorError <->
   ~ (Z.of_nat h mod patch_factor cfg = 0 /\ Z.of_nat w mod patch_factor cfg = 0)) /\
  (~ (Z.of_nat h mod patch_factor cfg = 0 /\ Z.of_nat w mod patch_factor cfg = 0) ->
   tensor2freq fft2 cfg pred = inl PatchFactorError).
Proof.
  intros Hp Ht Hn Hc Hh Hpf.
  destruct (tensor2freq_cases pred n c h w Hp Hn Hc Hh Hpf) as [Pok Pbad].
  destruct (tensor2freq_cases target n c h w Ht Hn Hc Hh Hpf) as [Tok _].
  split; [|exact Pbad]. split.
  - intros Hf Hdiv.
    destruct (Pok Hdiv) as [F EF]. destruct (Tok Hdiv) as [G EG].
    unfold forward in Hf. rewrite EF, EG in Hf.
    destruct (loss_formulation _ _ _ _ _ _ _) as [e|l] eqn:El; [|discriminate].
    injection Hf as ->.
    apply loss_formulation_errors in El. destruct El as [El|[mn [mx El]]]; discriminate.
  - intros Hbad. unfold forward. rewrite (Pbad Hbad). reflexivity.
Qed.

End PatchFactor.

Lemma forward_patch_factor_check_witness :
  forward (fun a => a) (fun a _ => a) (fun a => a) dft2_small config_patch_factor_2
    image7 image7 None = inl PatchFactorError /\
  tensor2freq dft2_small config_patch_factor_2 image7 = inl PatchFactorError.
Proof.
  destruct (forward_patch_factor_check (fun a => a) (fun a _ => a) (fun a => a) dft2_small
              config_patch_factor_2 image7 image7 None 1 1 7 7) as [Hiff Hfreq];
    [split; [reflexivity|repeat constructor]|split; [reflexivity|repeat constructor]
    |lia|lia|lia|cbn; lia|].
  assert (Hnot : ~ (Z.of_nat 7 mod 2 = 0 /\ Z.of_nat 7 mod 2 = 0)).
  { cbn. intros [E _]. discriminate E. }
  split; [apply Hiff; exact Hnot|apply Hfreq; exact Hnot].
Defined.

End PatchFactorCheck.

Module FiniteEntries.
Import Lists WeightRange PatchFactorCheck.
Import FFL.
Local Open Scope Z_scope.

(** ** Non-empty lists *)

Lemma ne_all_map_in {A B : Type} (P : B -> Prop) (f : A -> B) (l : list A) :
  l <> [] -> (forall a, In a l -> P (f a)) -> ne_all P (map f l).
Proof.
  intros Hne H. split.
  - destruct l; [congruence|discriminate].
  - apply Forall_forall. intros b Hb. apply in_map_iff in Hb.
    destruct Hb as [a [<- Ha]]. auto.
Qed.

Lemma ne_all_map {A B : Type} (P : A -> Prop) (Q : B -> Prop) (f : A -> B) (l : list A) :
  (forall a, P a -> Q (f a)) -> ne_all P l -> ne_all Q (map f l).
Proof.
  intros H [Hne Hall]. apply ne_all_map_in; [exact Hne|].
  rewrite Forall_forall in Hall. auto.
Qed.

Lemma ne_all_zip {A B C : Type} (P : A -> Prop) (Q : B -> Prop) (R : C -> Prop)
    (f : A -> B -> C) (a : list A) (b : list B) :
  (forall x y, P x -> Q y -> R (f x y)) -> ne_all P a -> ne_all Q b -> ne_all R (zip f a b).
Proof.
  intros H [Ha Pa] [Hb Qb]. unfold zip. apply ne_all_map_in.
  - destruct a; [congruence|]. destruct b; [congruence|]. discriminate.
  - intros [x y] Hin. rewrite Forall_forall in Pa, Qb. cbn [fst snd].
    apply H; [apply Pa; exact (in_combine_l _ _ _ _ Hin)|apply Qb; exact (in_combine_r _ _ _ _ Hin)].
Qed.

Lemma zip_same {A C : Type} (f : A -> A -> C) (l : list A) :
  zip f l l = map (fun a => f a a) l.
Proof.
  unfold zip. induction l as [|a l IH]; [reflexivity|]. cbn. now rewrite IH.
Qed.

Lemma ne_all_zip_same {A C : Type} (P : A -> Prop) (R : C -> Prop) (f : A -> A -> C)
    (l : list A) :
  (forall x, P x -> R (f x x)) -> ne_all P l -> ne_all R (zip f l l).
Proof. intros H Hl. rewrite zip_same. exact (ne_all_map P R _ l H Hl). Qed.

Lemma ne_all_concat {A : Type} (P : A -> Prop) (l : list (list A)) :
  ne_all (ne_all P) l -> ne_all P (concat l).
Proof.
  intros [Hne Hall]. split.
  - destruct l as [|a l]; [congruence|]. apply Forall_inv in Hall.
    destruct Hall as [Ha _]. destruct a; [congruence|discriminate].
  - apply Forall_concat. eapply Forall_impl; [|exact Hall]. now intros a [_ Ha].
Qed.

Lemma ne_all_cut {A : Type} (P : A -> Prop) (start len : nat) (l : list A) :
  Forall P l -> (1 <= len)%nat -> (start + len <= length l)%nat ->
  ne_all P (firstn len (skipn start l)).
Proof.
  intros Hall Hlen Hfit. split.
  - intros E. apply (f_equal (@length A)) in E.
    rewrite length_firstn, length_skipn in E. cbn in E. lia.
  - rewrite Forall_forall in *. intros a Ha.
    apply Hall. exact (in_skipn_inv _ _ _ (in_firstn_inv _ _ _ Ha)).
Qed.

Lemma ne5_flatten (P : xreal -> Prop) (t : tensor5) : ne5 P t -> ne_all P (flatten5 t).
Proof.
  intros H. unfold flatten5. repeat apply ne_all_concat. exact H.
Qed.

Lemma ne5_map5 (P Q : xreal -> Prop) (f : xreal -> xreal) (t : tensor5) :
  (forall a, P a -> Q (f a)) -> ne5 P t -> ne5 Q (map5 f t).
Proof.
  intros H. unfold ne5, map5. repeat (apply ne_all_map; intros ?). apply H.
Qed.

Lemma shape5_map5 (f : xreal -> xreal) (t : tensor5) : shape5 (map5 f t) = shape5 t.
Proof.
  unfold shape5, map5. rewrite map_map. apply map_ext. intros a.
  rewrite map_map. apply map_ext. intros b.
  rewrite map_map. apply map_ext. intros c.
  rewrite map_map. apply map_ext. intros d. apply length_map.
Qed.

Lemma same_shape_of_eq (a b : tensor5) : shape5 a = shape5 b -> same_shape a b = true.
Proof. intros E. unfold same_shape. destruct (list_eq_dec _ _ _); congruence. Qed.

(** ** Arithmetic on finite entries *)

Lemma Qeq_bool_count (n : nat) :
  (1 <= n)%nat -> Qeq_bool (inject_Z (Z.of_nat n)) 0 = false.
Proof.
  intros Hn. destruct (Qeq_bool _ _) eqn:E; [|reflexivity].
  apply Qeq_bool_eq in E. unfold Qeq in E. cbn in E. lia.
Qed.

Lemma xdiv_finite (a : xreal) (q : Q) :
  finite a -> Qeq_bool q 0 = false -> finite (xdiv a (Fin q)).
Proof. destruct a; cbn; try tauto. intros _ ->. exact I. Qed.

Lemma xadd_finite (a b : xreal) : finite a -> finite b -> finite (xadd a b).
Proof. destruct a, b; cbn; tauto. Qed.

Lemma distance_same (p : xreal * xreal) : fin_pair p -> is_zero (distance p p).
Proof.
  destruct p as [a b]. intros [Ha Hb]. cbn [fst snd] in *. unfold distance. cbn [fst snd].
  destruct a as [p| | |], b as [q| | |]; cbn in Ha, Hb; try tauto.
  cbn. ring.
Qed.

Lemma in_unit_clamp (a : xreal) : in_unit (clamp01 (nan_to_zero a)).
Proof.
  destruct a as [q| | |]; cbn; try lra.
  destruct (Qle_bool q 0) eqn:E0; cbn; [lra|].
  destruct (Qle_bool 1 q) eqn:E1; cbn; [lra|].
  assert (N0 : ~ (q <= 0)%Q) by (intros L; apply Qle_bool_iff in L; congruence).
  assert (N1 : ~ (1 <= q)%Q) by (intros L; apply Qle_bool_iff in L; congruence).
  lra.
Qed.

Lemma xmul_zero (w z : xreal) : in_unit w -> is_zero z -> is_zero (xmul w z).
Proof.
  destruct w as [p| | |], z as [q| | |]; cbn; try tauto.
  intros _ ->. ring.
Qed.

Lemma xsum_zero (l : list xreal) : Forall is_zero l -> is_zero (xsum l).
Proof.
  induction 1 as [|a l Ha _ IH]; cbn; [reflexivity|].
  unfold xsum in IH. destruct a as [p| | |]; cbn in Ha; try tauto.
  destruct (fold_right xadd (Fin 0) l) as [q| | |]; cbn in IH; try tauto.
  cbn. rewrite Ha, IH. reflexivity.
Qed.

Lemma xmean_zero (l : list xreal) : ne_all is_zero l -> is_zero (xmean l).
Proof.
  intros [Hne Hall]. pose proof (xsum_zero l Hall) as Hs.
  destruct l as [|a l]; [congruence|]. unfold xmean.
  destruct (xsum (a :: l)) as [q| | |]; cbn in Hs; try tauto.
  unfold xdiv. rewrite Qeq_bool_count by (cbn; lia).
  cbn [is_zero]. rewrite Hs. unfold Qdiv. ring.
Qed.

(** ** Cropping patches *)

Lemma crop_finite (patch_h patch_w i j : Z) (m : list (list xreal)) (h w : nat) :
  length m = h -> Forall (fun row => length row = w) m -> Forall (Forall finite) m ->
  1 <= patch_h -> 1 <= patch_w -> 0 <= i -> 0 <= j ->
  (i + 1) * patch_h <= Z.of_nat h -> (j + 1) * patch_w <= Z.of_nat w ->
  ne_all (ne_all finite) (crop patch_h patch_w i j m).
Proof.
  intros Hh Hw Hfin Hph Hpw Hi Hj Hih Hjw. unfold crop.
  apply ne_all_map with (P := fun row => length row = w /\ Forall finite row).
  - intros row [Hl Hr]. apply ne_all_cut; [exact Hr|lia|]. rewrite Hl. nia.
  - apply ne_all_cut; [|lia|rewrite Hh; nia].
    rewrite Forall_forall in *. auto.
Qed.

End FiniteEntries.

Module FiniteSpectra.
Import Lists WeightRange PatchFactorCheck FiniteEntries.
Import FFL.
Local Open Scope Z_scope.

(** ** The loss of equal inputs *)

Lemma in_patch_list (pf : Z) (ij : Z * Z) :
  In ij (flat_map (fun i => map (fun j => (i, j)) (range pf)) (range pf)) ->
  0 <= fst ij < pf /\ 0 <= snd ij < pf.
Proof.
  intros Hin. apply in_flat_map in Hin. destruct Hin as [i [Hi Hin]].
  apply in_map_iff in Hin. destruct Hin as [j [<- Hj]].
  apply in_range in Hi. apply in_range in Hj. cbn. lia.
Qed.

Lemma exact_division (h pf : Z) :
  1 <= h -> 0 < pf -> h mod pf = 0 -> 1 <= h / pf /\ pf * (h / pf) = h.
Proof.
  intros Hh Hpf Hm. pose proof (Z.div_mod h pf ltac:(lia)) as E.
  rewrite Hm in E. split; [|lia]. nia.
Qed.

Lemma batch_mean_fold (r : freq_tensor) (f : list (list spectrum)) :
  ne_all (ne_all (ne_all (ne_all fin_pair))) f ->
  Forall (ne_all (ne_all (ne_all (ne_all fin_pair)))) r ->
  ne_all (ne_all (ne_all (ne_all fin_pair))) (fold_left (zip (zip (zip (zip pair_add)))) r f).
Proof.
  intros Hf Hr. revert f Hf. induction Hr as [|g r Hg _ IH]; intros f Hf; cbn [fold_left].
  - exact Hf.
  - apply IH. revert Hf Hg. repeat (apply ne_all_zip; intros ? ?).
    intros [A1 A2] [B1 B2]. split; cbn [pair_add fst snd]; now apply xadd_finite.
Qed.

Lemma batch_mean_finite (F : freq_tensor) : ne5 fin_pair F -> ne5 fin_pair (batch_mean F).
Proof.
  intros [Hne Hall]. destruct F as [|f r]; [exfalso; apply Hne; reflexivity|].
  apply Forall_cons_iff in Hall. destruct Hall as [Hf Hr].
  unfold batch_mean. split; [discriminate|]. constructor; [|constructor].
  pose proof (batch_mean_fold r f Hf Hr) as Hs. revert Hs.
  repeat (apply ne_all_map; intros ?).
  intros [A1 A2]. split; cbn [fst snd]; apply xdiv_finite; try assumption;
    apply Qeq_bool_count; cbn [length]; lia.
Qed.

Section EqualInputs.
Variables (xsqrt : xreal -> xreal) (xpow : xreal -> Q -> xreal) (xlog : xreal -> xreal).
Variable fft2 : list (list xreal) -> spectrum.
Variable cfg : config.

Hypothesis fft2_finite :
  forall m, ne_all (ne_all finite) m -> ne_all (ne_all fin_pair) (fft2 m).

Lemma tensor2freq_finite (x : tensor4) (n c h w : nat) :
  has_shape4 x n c h w ->
  (1 <= n)%nat -> (1 <= c)%nat -> (1 <= h)%nat -> (1 <= w)%nat ->
  Forall (Forall (Forall (Forall finite))) x ->
  0 < patch_factor cfg ->
  Z.of_nat h mod patch_factor cfg = 0 -> Z.of_nat w mod patch_factor cfg = 0 ->
  exists F, tensor2freq fft2 cfg x = inr F /\ ne5 fin_pair F.
Proof.
  intros Hx Hn Hc Hh Hw Hfin Hpf Dh Dw.
  destruct (shape4_sizes x n c h w Hx Hn Hc Hh) as [Eh Ew].
  destruct (exact_division (Z.of_nat h) _ ltac:(lia) Hpf Dh) as [Ph Qh].
  destruct (exact_division (Z.of_nat w) _ ltac:(lia) Hpf Dw) as [Pw Qw].
  unfold tensor2freq. rewrite Eh, Ew. cbv zeta.
  destruct (Z.eqb_spec (patch_factor cfg) 0) as [E0|_]; [lia|].
  rewrite Dh, Dw. cbn [Z.eqb andb negb].
  pose proof (patch_list_nonempty (patch_factor cfg) Hpf) as Hne.
  pose proof (in_patch_list (patch_factor cfg)) as Hin.
  set (pl := flat_map _ _) in *. clearbody pl.
  destruct pl as [|p pl]; [congruence|]. eexists. split; [reflexivity|].
  destruct Hx as [Ex Hx]. unfold ne5.
  rewrite map_map. apply ne_all_map_in.
  { destruct x; [cbn in Ex; lia|discriminate]. }
  intros image Himage.
  rewrite Forall_forall in Hx, Hfin.
  destruct (Hx image Himage) as [Ec Hch]. specialize (Hfin image Himage).
  rewrite map_map. apply ne_all_map_in; [discriminate|].
  intros ij Hij. destruct (Hin ij Hij) as [Hi Hj].
  rewrite map_map. apply ne_all_map_in.
  { destruct image; [cbn in Ec; lia|discriminate]. }
  intros channel Hchannel.
  rewrite Forall_forall in Hch, Hfin.
  destruct (Hch channel Hchannel) as [El Hrows]. specialize (Hfin channel Hchannel).
  apply fft2_finite.
  apply (crop_finite _ _ _ _ channel h w); try assumption; try lia; nia.
Qed.

Lemma online_matrix_in_unit (G : freq_tensor) :
  ne5 fin_pair G ->
  exists M, online_matrix xsqrt xpow xlog cfg G G = inr M /\
    ne5 in_unit M /\ shape5 M = shape5 (freq_distance G G).
Proof.
  intros HG.
  assert (HD : ne5 is_zero (freq_distance G G)).
  { revert HG. unfold ne5, freq_distance. repeat (apply ne_all_zip_same; intros ?).
    apply distance_same. }
  unfold online_matrix. set (D := freq_distance G G) in *. clearbody D.
  set (M1 := map5 (fun d => xpow (xsqrt d) (alpha cfg)) D).
  assert (H1 : ne5 (fun _ => True) M1 /\ shape5 M1 = shape5 D).
  { split; [|apply shape5_map5]. revert HD. apply ne5_map5. auto. }
  clearbody M1.
  set (M2 := if log_matrix cfg then map5 (fun m => xlog (xadd m (Fin 1))) M1 else M1).
  assert (H2 : ne5 (fun _ => True) M2 /\ shape5 M2 = shape5 D).
  { subst M2. destruct (log_matrix cfg); [|exact H1]. destruct H1 as [A B].
    split; [|rewrite shape5_map5; exact B]. revert A. apply ne5_map5. auto. }
  clearbody M2. clear H1 HD. destruct H2 as [A B].
  assert (H3 : exists M3,
    (if batch_matrix cfg
     then match max_list (flatten5 M2) with
          | None => inl RuntimeError
          | Some mx => inr (map5 (fun m => xdiv m mx) M2)
          end
     else if forallb (forallb (forallb (fun m =>
               match max_list (concat m) with Some _ => true | None => false end))) M2
          then inr (map (map (map (fun m =>
                 match max_list (concat m) with
                 | Some mx => map (map (fun v => xdiv v mx)) m
                 | None => m
                 end))) M2)
          else inl RuntimeError) = inr M3 /\
     ne5 (fun _ => True) M3 /\ shape5 M3 = shape5 D).
  { destruct (batch_matrix cfg).
    - destruct (ne5_flatten _ _ A) as [Hne _].
      destruct (min_max_some _ Hne) as (mn & mx & _ & ->).
      eexists. split; [reflexivity|]. split; [|rewrite shape5_map5; exact B].
      revert A. apply ne5_map5. auto.
    - assert (Eall : forallb (forallb (forallb (fun m : list (list xreal) =>
               match max_list (concat m) with Some _ => true | None => false end))) M2
               = true).
      { destruct A as [_ A]. apply forallb_forall. intros a Ha.
        rewrite Forall_forall in A. destruct (A a Ha) as [_ A1].
        apply forallb_forall. intros b Hb.
        rewrite Forall_forall in A1. destruct (A1 b Hb) as [_ A2].
        apply forallb_forall. intros m Hm.
        rewrite Forall_forall in A2. specialize (A2 m Hm).
        destruct (ne_all_concat _ _ A2) as [Hne _].
        destruct (min_max_some _ Hne) as (mn & mx & _ & ->). reflexivity. }
      rewrite Eall. eexists. split; [reflexivity|]. split.
      + revert A. unfold ne5. repeat (apply ne_all_map; intros ?).
        intros Hm. destruct (max_list _); [|exact Hm].
        revert Hm. repeat (apply ne_all_map; intros ?). auto.
      + rewrite <- B. unfold shape5. rewrite map_map. apply map_ext. intros a.
        rewrite map_map. apply map_ext. intros b.
        rewrite map_map. apply map_ext. intros m.
        destruct (max_list _); [|reflexivity].
        rewrite map_map. apply map_ext. intros row. apply length_map. }
  destruct H3 as (M3 & -> & A3 & B3).
  eexists. split; [reflexivity|]. split.
  - apply ne5_map5 with (P := fun b => exists a, b = nan_to_zero a).
    + intros b [a ->]. apply in_unit_clamp.
    + revert A3. apply ne5_map5. intros a _. now exists a.
  - rewrite !shape5_map5. exact B3.
Qed.

End EqualInputs.

End FiniteSpectra.

Module LossOfEqualInputs.
Import Lists WeightRange PatchFactorCheck FiniteEntries FiniteSpectra.
Import FFL.
Local Open Scope Z_scope.

Lemma ne5_zip5 (P Q R : xreal -> Prop) (f : xreal -> xreal -> xreal) (a b : tensor5) :
  (forall x y, P x -> Q y -> R (f x y)) -> ne5 P a -> ne5 Q b ->
  ne5 R (zip (zip (zip (zip (zip f)))) a b).
Proof.
  intros H. unfold ne5. repeat (apply ne_all_zip; intros ? ?). apply H.
Qed.

Section ZeroLoss.
Variables (xsqrt : xreal -> xreal) (xpow : xreal -> Q -> xreal) (xlog : xreal -> xreal).
Variable fft2 : list (list xreal) -> spectrum.
Variable cfg : config.

Lemma loss_formulation_same (G : freq_tensor) :
  ne5 fin_pair G ->
  exists l, loss_formulation xsqrt xpow xlog cfg G G None = inr l /\ is_zero l.
Proof.
  intros HG.
  assert (HD : ne5 is_zero (freq_distance G G)).
  { revert HG. unfold ne5, freq_distance. repeat (apply ne_all_zip_same; intros ?).
    apply distance_same. }
  destruct (online_matrix_in_unit xsqrt xpow xlog cfg G HG) as (M & EM & HM & Hsh).
  unfold loss_formulation. rewrite EM.
  destruct (ne5_flatten _ _ HM) as [Hne Hall].
  destruct (min_max_some _ Hne) as (mn & mx & Emn & Emx). rewrite Emn, Emx.
  apply (range_check _ _ _ Emn Emx) in Hall. rewrite Hall.
  rewrite (same_shape_of_eq _ _ Hsh).
  eexists. split; [reflexivity|].
  apply xmean_zero. apply ne5_flatten.
  apply (ne5_zip5 in_unit is_zero); [apply xmul_zero|exact HM|exact HD].
Qed.

(** C6: for a batch [x] of shape (N, C, H, W) with finite entries whose
    spectra are finite, and a patch factor dividing H and W, [forward x x]
    with no supplied weight matrix returns the number zero, whatever the
    flags and exponent of the configuration: every entry of the weight
    matrix, NaN included, is brought into [0, 1] before it multiplies the
    zero frequency distance. *)
Theorem forward_equal_inputs (x : tensor4) (n c h w : nat) :
  (forall m, ne_all (ne_all finite) m -> ne_all (ne_all fin_pair) (fft2 m)) ->
  has_shape4 x n c h w ->
  (1 <= n)%nat -> (1 <= c)%nat -> (1 <= h)%nat -> (1 <= w)%nat ->
  Forall (Forall (Forall (Forall finite))) x ->
  0 < patch_factor cfg ->
  Z.of_nat h mod patch_factor cfg = 0 -> Z.of_nat w mod patch_factor cfg = 0 ->
  exists q, forward xsqrt xpow xlog fft2 cfg x x None = inr (Fin q) /\ (q == 0)%Q.
Proof.
  intros Hfft Hx Hn Hc Hh Hw Hfin Hpf Dh Dw.
  destruct (tensor2freq_finite fft2 cfg Hfft x n c h w Hx Hn Hc Hh Hw Hfin Hpf Dh Dw)
    as (F & EF & HF).
  unfold forward. rewrite EF.
  set (G := if ave_spectrum cfg then batch_mean F else F).
  assert (HG : ne5 fin_pair G).
  { subst G. destruct (ave_spectrum cfg); [apply batch_mean_finite|]; exact HF. }
  destruct (loss_formulation_same G HG) as (l & -> & Hl).
  destruct l as [q| | |]; cbn in Hl; try tauto.
  exists (q * loss_weight cfg)%Q. split; [reflexivity|]. rewrite Hl. ring.
Qed.

End ZeroLoss.

Lemma dft2_small_finite (m : list (list xreal)) :
  ne_all (ne_all finite) m -> ne_all (ne_all fin_pair) (dft2_small m).
Proof.
  intros H.
  assert (Hmap : ne_all (ne_all fin_pair) (map (map (fun v => (v, Fin 0))) m)).
  { revert H. repeat (apply ne_all_map; intros ?). intros Hf. split; [exact Hf|exact I]. }
  unfold dft2_small.
  repeat match goal with
         | |- context [match ?l with _ => _ end] => is_var l; destruct l
         end; try exact Hmap.
  clear Hmap. destruct H as [_ H].
  repeat match goal with
         | H : Forall _ (_ :: _) |- _ => apply Forall_cons_iff in H; destruct H as [? H]
         | H : ne_all _ _ |- _ => destruct H as [_ H]
         end.
  repeat match goal with
         | x : xreal |- _ => destruct x; cbn in *; try tauto
         end.
  repeat first [discriminate | exact I | split | constructor].
Qed.

Lemma forward_equal_inputs_witness :
  exists q, forward (fun a => a) (fun a _ => a) (fun a => a) dft2_small default_config
              image2 image2 None = inr (Fin q) /\ (q == 0)%Q.
Proof.
  apply (forward_equal_inputs (fun a => a) (fun a _ => a) (fun a => a) dft2_small
           default_config image2 1 1 2 2 dft2_small_finite);
    try (cbn; lia); try reflexivity.
  - split; [reflexivity|]. repeat constructor.
  - repeat constructor.
Defined.

End LossOfEqualInputs.

Module SADFacts.
Import Lists.
Import Reals Lra.
Import SAD SADBound.
Local Open Scope R_scope.

Lemma entry_mzip {T : Type} (f : T -> T -> T) (a b : list (list T)) (i j : nat) :
  entry (mzip T f a b) i j =
  match entry a i j, entry b i j with
  | Some x, Some y => Some (f x y)
  | _, _ => None
  end.
Proof.
  unfold entry, mzip. rewrite nth_error_map, nth_error_combine.
  destruct (nth_error a i) as [ra|]; [|reflexivity].
  destruct (nth_error b i) as [rb|]; cbn [option_map fst snd].
  - rewrite nth_error_map, nth_error_combine.
    destruct (nth_error ra j), (nth_error rb j); reflexivity.
  - now destruct (nth_error ra j).
Qed.

Lemma entry_map {T : Type} (g : T -> T) (m : list (list T)) (i j : nat) :
  entry (map (map g) m) i j = option_map g (entry m i j).
Proof.
  unfold entry. rewrite nth_error_map.
  destruct (nth_error m i) as [row|]; cbn [option_map]; [|reflexivity].
  apply nth_error_map.
Qed.

Lemma entry_nil {T : Type} (i j : nat) : entry (@nil (list T)) i j = None.
Proof. unfold entry. now destruct i. Qed.

Lemma Forall_entries {T : Type} (P : T -> Prop) (m : list (list T)) :
  (forall i j v, entry m i j = Some v -> P v) -> Forall (Forall P) m.
Proof.
  intros H. apply Forall_forall. intros row Hrow. apply Forall_forall. intros v Hv.
  apply In_nth_error in Hrow. destruct Hrow as [i Hi].
  apply In_nth_error in Hv. destruct Hv as [j Hj].
  apply (H i j). unfold entry. now rewrite Hi.
Qed.

(** ** The Cauchy-Schwarz inequality along the channel sum *)

Lemma square_le (x y : R) : 0 <= x -> y * y <= x * x -> y <= x.
Proof. intros Hx H. nra. Qed.

Lemma cauchy_step (v p q x y : R) :
  v * v <= p * q -> 0 <= p -> 0 <= q ->
  (v + x * y) * (v + x * y) <= (p + x * x) * (q + y * y).
Proof.
  intros Hv Hp Hq.
  assert (H2 : 2 * (x * y * v) <= x * x * q + y * y * p).
  { replace (2 * (x * y * v)) with (2 * (x * y) * v) by ring.
    apply square_le.
    { pose proof (Rle_0_sqr x) as Sx. pose proof (Rle_0_sqr y) as Sy. unfold Rsqr in Sx, Sy.
      pose proof (Rmult_le_pos _ _ Sx Hq). pose proof (Rmult_le_pos _ _ Sy Hp). lra. }
    assert (E : (x * x * q + y * y * p) * (x * x * q + y * y * p)
                - 2 * (x * y) * v * (2 * (x * y) * v)
                = (x * x * q - y * y * p) * (x * x * q - y * y * p)
                  + 4 * ((x * y) * (x * y)) * (p * q - v * v)) by ring.
    assert (0 <= 4 * ((x * y) * (x * y)) * (p * q - v * v)).
    { apply Rmult_le_pos; [|lra].
      pose proof (Rle_0_sqr (x * y)) as HS. unfold Rsqr in HS. lra. }
    pose proof (Rle_0_sqr (x * x * q - y * y * p)) as HS. unfold Rsqr in HS.
    lra. }
  lra.
Qed.

Lemma bounded_nil (A B : list (list R)) : bounded [] A B.
Proof. intros i j v p q Hv. rewrite entry_nil in Hv. discriminate. Qed.

Lemma bounded_init (ca cb : list (list R)) :
  bounded (mzip R Rmult ca cb) (mzip R Rmult ca ca) (mzip R Rmult cb cb).
Proof.
  intros i j v p q. rewrite !entry_mzip.
  destruct (entry ca i j) as [x|]; [|discriminate].
  destruct (entry cb i j) as [y|]; [|discriminate].
  intros [= <-] [= <-] [= <-].
  pose proof (Rle_0_sqr x) as Sx. pose proof (Rle_0_sqr y) as Sy. unfold Rsqr in Sx, Sy.
  split; [|tauto]. apply Req_le. ring.
Qed.

Lemma bounded_step (w A B ca cb : list (list R)) :
  bounded w A B ->
  bounded (mzip R Rplus w (mzip R Rmult ca cb))
          (mzip R Rplus A (mzip R Rmult ca ca))
          (mzip R Rplus B (mzip R Rmult cb cb)).
Proof.
  intros H i j v' p' q'. rewrite !entry_mzip. specialize (H i j).
  destruct (entry w i j) as [v|]; [|discriminate].
  destruct (entry ca i j) as [x|]; [|discriminate].
  destruct (entry cb i j) as [y|]; [|discriminate].
  destruct (entry A i j) as [p|]; [|discriminate].
  destruct (entry B i j) as [q|]; [|discriminate].
  intros [= <-] [= <-] [= <-].
  destruct (H v p q eq_refl eq_refl eq_refl) as (Hv & Hp & Hq).
  pose proof (Rle_0_sqr x) as Sx. pose proof (Rle_0_sqr y) as Sy. unfold Rsqr in Sx, Sy.
  split; [apply cauchy_step; assumption|lra].
Qed.

Lemma bounded_step_left (w A B c : list (list R)) :
  bounded w A B -> bounded w (mzip R Rplus A (mzip R Rmult c c)) B.
Proof.
  intros H i j v p' q Hv. rewrite !entry_mzip. specialize (H i j).
  destruct (entry A i j) as [p|]; [|discriminate].
  destruct (entry c i j) as [x|]; [|discriminate].
  intros [= <-] Hq.
  destruct (H v p q Hv eq_refl Hq) as (Hb & Hp & Hq0).
  pose proof (Rle_0_sqr x) as Sx. unfold Rsqr in Sx.
  pose proof (Rmult_le_pos _ _ Sx Hq0).
  split; [|lra]. lra.
Qed.

Lemma bounded_step_right (w A B c : list (list R)) :
  bounded w A B -> bounded w A (mzip R Rplus B (mzip R Rmult c c)).
Proof.
  intros H i j v p q' Hv Hp. rewrite !entry_mzip. specialize (H i j).
  destruct (entry B i j) as [q|]; [|discriminate].
  destruct (entry c i j) as [y|]; [|discriminate].
  intros [= <-].
  destruct (H v p q Hv Hp eq_refl) as (Hb & Hp0 & Hq).
  pose proof (Rle_0_sqr y) as Sy. unfold Rsqr in Sy.
  pose proof (Rmult_le_pos _ _ Hp0 Sy).
  split; [|lra]. lra.
Qed.

Lemma bounded_fold_left (a : list (list (list R))) (w A B : list (list R)) :
  bounded w A B ->
  bounded w (fold_left (mzip R Rplus) (map (fun c => mzip R Rmult c c) a) A) B.
Proof.
  revert A. induction a as [|c a IH]; intros A H; cbn [map fold_left]; [exact H|].
  apply IH. now apply bounded_step_left.
Qed.

Lemma bounded_fold_right (b : list (list (list R))) (w A B : list (list R)) :
  bounded w A B ->
  bounded w A (fold_left (mzip R Rplus) (map (fun c => mzip R Rmult c c) b) B).
Proof.
  revert B. induction b as [|c b IH]; intros B H; cbn [map fold_left]; [exact H|].
  apply IH. now apply bounded_step_right.
Qed.

Lemma bounded_fold (a b : list (list (list R))) (w A B : list (list R)) :
  bounded w A B ->
  bounded
    (fold_left (mzip R Rplus) (map (fun q => mzip R Rmult (fst q) (snd q)) (combine a b)) w)
    (fold_left (mzip R Rplus) (map (fun c => mzip R Rmult c c) a) A)
    (fold_left (mzip R Rplus) (map (fun c => mzip R Rmult c c) b) B).
Proof.
  revert b w A B. induction a as [|ca a IH]; intros b w A B H.
  - cbn [combine map fold_left]. now apply bounded_fold_right.
  - destruct b as [|cb b].
    + cbn [combine map fold_left]. apply (bounded_fold_left (ca :: a)). exact H.
    + cbn [combine map fold_left fst snd]. apply IH. now apply bounded_step.
Qed.

Lemma bounded_msum (a b : list (list (list R))) :
  bounded
    (msum R Rplus (map (fun q => mzip R Rmult (fst q) (snd q)) (combine a b)))
    (msum R Rplus (map (fun c => mzip R Rmult c c) a))
    (msum R Rplus (map (fun c => mzip R Rmult c c) b)).
Proof.
  destruct a as [|ca a]; [apply bounded_nil|].
  destruct b as [|cb b]; [apply bounded_nil|].
  cbn [combine map msum fst snd]. apply bounded_fold. apply bounded_init.
Qed.

(** ** The normalized channels *)

Lemma epsR_positive : 0 < epsR.
Proof. unfold epsR. apply Rinv_0_lt_compat. lra. Qed.

Lemma fold_entry_some (r : list (list (list R))) (m : list (list R)) (i j : nat) :
  entry (fold_left (mzip R Rplus) r m) i j <> None <->
  entry m i j <> None /\ Forall (fun c => entry c i j <> None) r.
Proof.
  revert m. induction r as [|c r IH]; intros m; cbn [fold_left].
  - split; [intros H; split; [exact H|constructor]|tauto].
  - rewrite IH, entry_mzip, Forall_cons_iff.
    destruct (entry m i j), (entry c i j); intuition congruence.
Qed.

Lemma msum_entry_some (l : list (list (list R))) (i j : nat) :
  entry (msum R Rplus l) i j <> None <->
  l <> [] /\ Forall (fun c => entry c i j <> None) l.
Proof.
  destruct l as [|m r]; cbn [msum].
  - rewrite entry_nil. split; [congruence|intros [H _]; congruence].
  - rewrite fold_entry_some, Forall_cons_iff. split; intros H; [split; [discriminate|]|]; tauto.
Qed.

Lemma norm_entry (a : tensor3 R) (i j : nat) :
  entry (norm R Rplus Rmult sqrt (fun v => Rmax v epsR) a) i j =
  option_map (fun p => Rmax (sqrt p) epsR)
    (entry (msum R Rplus (map (fun c => mzip R Rmult c c) a)) i j).
Proof.
  unfold norm. rewrite !entry_map.
  now destruct (entry (msum R Rplus _) i j).
Qed.

(** The sum of the squares of channels that are divided by a matrix [M] is
    the sum of the squares divided by the square of the entry of [M]. *)
Lemma scaled_fold (M : list (list R)) (i j : nat) (m : R) (r : list (list (list R)))
    (A' A : list (list R)) :
  entry M i j = Some m ->
  (forall p' p, entry A' i j = Some p' -> entry A i j = Some p -> p' = p / (m * m)) ->
  forall p' p,
    entry (fold_left (mzip R Rplus)
             (map (fun c => mzip R Rmult c c) (map (fun c => mzip R Rdiv c M) r)) A') i j
      = Some p' ->
    entry (fold_left (mzip R Rplus) (map (fun c => mzip R Rmult c c) r) A) i j = Some p ->
    p' = p / (m * m).
Proof.
  intros Hm. revert A' A. induction r as [|c r IH]; intros A' A H; cbn [map fold_left].
  - exact H.
  - apply IH. intros p' p. rewrite !entry_mzip, Hm.
    destruct (entry A' i j) as [s'|]; [|discriminate].
    destruct (entry c i j) as [x|]; [|destruct (entry A i j); discriminate].
    destruct (entry A i j) as [s|]; [|discriminate].
    intros [= <-] [= <-]. rewrite (H s' s eq_refl eq_refl).
    unfold Rdiv. rewrite Rinv_mult. ring.
Qed.

Lemma normalized_squares (a : tensor3 R) (M : list (list R)) (i j : nat) (m p' p : R) :
  entry M i j = Some m ->
  entry (msum R Rplus (map (fun c => mzip R Rmult c c) (map (fun c => mzip R Rdiv c M) a)))
    i j = Some p' ->
  entry (msum R Rplus (map (fun c => mzip R Rmult c c) a)) i j = Some p ->
  p' = p / (m * m).
Proof.
  intros Hm. destruct a as [|c a]; cbn [map msum].
  - rewrite entry_nil. discriminate.
  - apply (scaled_fold M i j m a _ _ Hm). intros s' s. rewrite !entry_mzip, Hm.
    destruct (entry c i j) as [x|]; [|discriminate].
    intros [= <-] [= <-]. unfold Rdiv. rewrite Rinv_mult. ring.
Qed.

(** Where the sum of the squares of an image has an entry, so has the sum
    of the squares of the normalized image, and it is the former divided by
    the square of the clamped norm. *)
Lemma normalize_squares (a : tensor3 R) (i j : nat) (p : R) :
  entry (msum R Rplus (map (fun c => mzip R Rmult c c) a)) i j = Some p ->
  entry (msum R Rplus (map (fun c => mzip R Rmult c c)
           (normalize R Rplus Rmult Rdiv sqrt (fun v => Rmax v epsR) a))) i j
  = Some (p / (Rmax (sqrt p) epsR * Rmax (sqrt p) epsR)).
Proof.
  intros Hp. unfold normalize.
  set (M := norm R Rplus Rmult sqrt (fun v => Rmax v epsR) a).
  assert (HM : entry M i j = Some (Rmax (sqrt p) epsR)).
  { subst M. now rewrite norm_entry, Hp. }
  assert (Hex : entry (msum R Rplus (map (fun c => mzip R Rmult c c)
                         (map (fun c => mzip R Rdiv c M) a))) i j <> None).
  { assert (Hs : entry (msum R Rplus (map (fun c => mzip R Rmult c c) a)) i j <> None)
      by congruence.
    apply msum_entry_some in Hs. destruct Hs as [Hne Hall].
    apply msum_entry_some. split.
    - destruct a; [exfalso; apply Hne; reflexivity|discriminate].
    - rewrite !Forall_map in *. eapply Forall_impl; [|exact Hall].
      intros c. cbv beta. rewrite !entry_mzip, HM.
      destruct (entry c i j); [discriminate|congruence]. }
  destruct (entry (msum R Rplus (map (fun c => mzip R Rmult c c)
                      (map (fun c => mzip R Rdiv c M) a))) i j) as [p'|] eqn:Ep';
    [|congruence].
  f_equal. exact (normalized_squares a M i j _ p' p HM Ep' Hp).
Qed.

(** An entry of the sum of the products of the normalized channels rests on
    an entry of each of the two sums of squares. *)
Lemma product_entry (a b : tensor3 R) (i j : nat) (v : R) :
  entry (msum R Rplus (map (fun q => mzip R Rmult (fst q) (snd q))
           (combine (normalize R Rplus Rmult Rdiv sqrt (fun v => Rmax v epsR) a)
                    (normalize R Rplus Rmult Rdiv sqrt (fun v => Rmax v epsR) b)))) i j
    = Some v ->
  exists p q,
    entry (msum R Rplus (map (fun c => mzip R Rmult c c) a)) i j = Some p /\
    entry (msum R Rplus (map (fun c => mzip R Rmult c c) b)) i j = Some q.
Proof.
  intros Hv.
  assert (Hs : entry (msum R Rplus (map (fun q => mzip R Rmult (fst q) (snd q))
           (combine (normalize R Rplus Rmult Rdiv sqrt (fun v => Rmax v epsR) a)
                    (normalize R Rplus Rmult Rdiv sqrt (fun v => Rmax v epsR) b)))) i j
           <> None) by congruence.
  apply msum_entry_some in Hs. destruct Hs as [Hne Hall].
  unfold normalize in Hne, Hall.
  destruct a as [|ca a]; [exfalso; apply Hne; reflexivity|].
  destruct b as [|cb b]; [exfalso; apply Hne; reflexivity|].
  cbn [map combine] in Hall. apply Forall_inv in Hall. cbn [fst snd] in Hall.
  rewrite !entry_mzip, !norm_entry in Hall.
  destruct (entry (msum R Rplus (map (fun c => mzip R Rmult c c) (ca :: a))) i j) as [p|].
  - destruct (entry (msum R Rplus (map (fun c => mzip R Rmult c c) (cb :: b))) i j) as [q|].
    + exists p, q. split; reflexivity.
    + exfalso. apply Hall. cbn [option_map].
      destruct (entry ca i j); [destruct (entry cb i j)|]; reflexivity.
  - exfalso. apply Hall. cbn [option_map]. destruct (entry ca i j); reflexivity.
Qed.

Lemma unit_quotient (p : R) :
  0 <= p ->
  0 <= p / (Rmax (sqrt p) epsR * Rmax (sqrt p) epsR) <= 1.
Proof.
  intros Hp. pose proof epsR_positive as He.
  pose proof (sqrt_pos p) as Sp. pose proof (sqrt_sqrt p Hp) as Ep.
  pose proof (Rmax_l (sqrt p) epsR) as M1. pose proof (Rmax_r (sqrt p) epsR) as M2.
  set (m := Rmax (sqrt p) epsR) in *. set (s := sqrt p) in *.
  assert (Hmm : 0 < m * m) by (apply Rmult_lt_0_compat; lra).
  assert (Hpm : p <= m * m).
  { rewrite <- Ep. apply Rmult_le_compat; lra. }
  split.
  - apply Rmult_le_reg_r with (m * m); [exact Hmm|].
    unfold Rdiv. rewrite Rmult_assoc, Rinv_l by lra. lra.
  - apply Rmult_le_reg_r with (m * m); [exact Hmm|].
    unfold Rdiv. rewrite Rmult_assoc, Rinv_l by lra. lra.
Qed.

(** The cosine similarity at one pixel against the two squared norms. *)
Lemma cosine_pixel (a b : tensor3 R) (i j : nat) (v : R) :
  entry (msum R Rplus (map (fun q => mzip R Rmult (fst q) (snd q))
           (combine (normalize R Rplus Rmult Rdiv sqrt (fun v => Rmax v epsR) a)
                    (normalize R Rplus Rmult Rdiv sqrt (fun v => Rmax v epsR) b)))) i j
    = Some v ->
  exists p q,
    entry (msum R Rplus (map (fun c => mzip R Rmult c c) a)) i j = Some p /\
    entry (msum R Rplus (map (fun c => mzip R Rmult c c) b)) i j = Some q /\
    0 <= p /\ 0 <= q /\
    v * v <= p / (Rmax (sqrt p) epsR * Rmax (sqrt p) epsR)
             * (q / (Rmax (sqrt q) epsR * Rmax (sqrt q) epsR)).
Proof.
  intros Hv. destruct (product_entry a b i j v Hv) as (p & q & Ep & Eq).
  exists p, q. split; [exact Ep|]. split; [exact Eq|].
  pose proof (normalize_squares a i j p Ep) as Ep'.
  pose proof (normalize_squares b i j q Eq) as Eq'.
  destruct (bounded_msum _ _ i j v _ _ Hv Ep' Eq') as (Hb & _ & _).
  assert (Hnn : forall (c : tensor3 R) (s : R),
            entry (msum R Rplus (map (fun c => mzip R Rmult c c) c)) i j = Some s -> 0 <= s).
  { intros c s Es.
    assert (Ec : entry (msum R Rplus (map (fun q => mzip R Rmult (fst q) (snd q))
                          (combine c c))) i j = Some s).
    { rewrite <- Es. f_equal. f_equal. clear. induction c as [|x c IH]; cbn; [reflexivity|].
      now rewrite IH. }
    destruct (bounded_msum c c i j s s s Ec Es Es) as (_ & H & _). exact H. }
  split; [exact (Hnn a p Ep)|]. split; [exact (Hnn b q Eq)|]. exact Hb.
Qed.

(** C1: [forward] applies [torch.acos] to the cosine similarities as they
    are, without a clamp.  In exact arithmetic every one of them lies in
    [-1, 1], for input tensors of any shape. *)
Theorem acos_arguments_exact (x y : tensor4 R) :
  Forall in_acos_domain (acos_arguments R cosine_similarityR x y).
Proof.
  unfold acos_arguments, flatten3. apply Forall_concat. apply Forall_concat.
  unfold cosine_similarityR, cosine_similarity.
  apply Forall_forall. intros m Hm. apply in_map_iff in Hm.
  destruct Hm as [[a b] [<- _]]. cbn [fst snd].
  apply Forall_entries. intros i j v Hv.
  destruct (cosine_pixel a b i j v Hv) as (p & q & _ & _ & Hp & Hq & Hb).
  destruct (unit_quotient p Hp) as [P0 P1]. destruct (unit_quotient q Hq) as [Q0 Q1].
  set (p' := p / _) in *. set (q' := q / _) in *.
  assert (Hpq : p' * q' <= 1).
  { replace 1 with (1 * 1) by ring. apply Rmult_le_compat; assumption. }
  unfold in_acos_domain. split.
  - apply Ropp_le_cancel. apply square_le; [lra|].
    replace (- v * - v) with (v * v) by ring. lra.
  - apply square_le; [lra|]. lra.
Qed.

(** In binary64 the cosine similarity of the pixel (0.2, 0.7) with itself
    lies above 1: an argument of [torch.acos] outside its domain. *)
Lemma acos_argument_overshoot :
  forallb in_acos_domain64 (acos_arguments float cosine_similarity64 x27 x27) = false /\
  existsb (PrimFloat.ltb 1%float) (acos_arguments float cosine_similarity64 x27 x27) = true.
Proof. split; vm_compute; reflexivity. Qed.

End SADFacts.

Module CubicInterpolation.
Import Lists CubicKernel RowReading Extrema IndexWindows RowSums KernelPartition.
Import Resample Rows Notions.
Local Open Scope Q_scope.

(** ** The cubic kernel as an interpolation kernel *)

Lemma Qabs_inject_Z (k : Z) : Qabs (inject_Z k) == inject_Z (Z.abs k).
Proof.
  destruct (Z.le_gt_cases 0 k) as [Hk|Hk].
  - rewrite Z.abs_eq by exact Hk. apply Qabs_pos.
    change 0 with (inject_Z 0). rewrite <- Zle_Qle. exact Hk.
  - rewrite Z.abs_neq by lia. rewrite inject_Z_opp. apply Qabs_neg.
    change 0 with (inject_Z 0). rewrite <- Zle_Qle. lia.
Qed.

(** X1: [cubic] is an even function. *)
Theorem cubic_even (x : Q) : cubic (- x) == cubic x.
Proof.
  pose proof (Qabs_opp x) as Ho.
  destruct (Qlt_le_dec 1 (Qabs x)) as [H1|H1].
  - destruct (Qlt_le_dec 2 (Qabs x)) as [H2|H2].
    + rewrite (cubic_far x), (cubic_far (- x)) by (try rewrite Ho; lra). reflexivity.
    + rewrite (cubic_outer x), (cubic_outer (- x)) by (try rewrite Ho; lra).
      rewrite Ho. reflexivity.
  - rewrite (cubic_inner x), (cubic_inner (- x)) by (try rewrite Ho; lra).
    rewrite Ho. reflexivity.
Qed.

(** X2: [cubic] is 1 at 0 and 0 at every other integer, so the kernel
    reproduces the samples it interpolates. *)
Theorem cubic_at_integers (k : Z) :
  cubic (inject_Z k) == if (k =? 0)%Z then 1 else 0.
Proof.
  pose proof (Qabs_inject_Z k) as Ha.
  destruct (Z.eqb_spec k 0) as [E0|Hk].
  - subst k. assert (Hi : Qabs (inject_Z 0) <= 1) by (cbn; lra).
    pose proof (cubic_inner (inject_Z 0) Hi) as E. rewrite E. cbn. reflexivity.
  - destruct (Z.eq_dec (Z.abs k) 1) as [E1|E1].
    + assert (Hi : Qabs (inject_Z k) <= 1) by (rewrite Ha, E1; change (inject_Z 1) with 1; lra).
      pose proof (cubic_inner (inject_Z k) Hi) as E. rewrite E, Ha, E1. reflexivity.
    + apply cubic_far. rewrite Ha. assert (H2 : (2 <= Z.abs k)%Z) by lia.
      rewrite Zle_Qle in H2. exact H2.
Qed.

(** X3: the values of [cubic] lie between -2/27 and 1, and [cubic] vanishes
    outside the open interval (-2, 2). *)
Theorem cubic_range (x : Q) :
  - (2#27) <= cubic x /\ cubic x <= 1 /\ (2 <= Qabs x -> cubic x == 0).
Proof.
  split; [apply cubic_lobe|]. split; [|apply cubic_far].
  pose proof (Qabs_nonneg x) as H0.
  destruct (Qlt_le_dec 1 (Qabs x)) as [H1|H1].
  - destruct (Qlt_le_dec 2 (Qabs x)) as [H2|H2].
    + rewrite (cubic_far x) by lra. lra.
    + rewrite (cubic_outer x) by lra. set (a := Qabs x) in *. clearbody a.
      assert (E : -(1#2) * a ^ 3 + (5#2) * a ^ 2 - 4 * a + 2
                  == -(1#2) * ((a - 1) * ((2 - a) * (2 - a)))) by ring.
      rewrite E.
      assert (0 <= (a - 1) * ((2 - a) * (2 - a))).
      { apply Qmult_le_0_compat; [lra|]. apply Qmult_le_0_compat; lra. }
      lra.
  - rewrite (cubic_inner x) by lra. set (a := Qabs x) in *. clearbody a.
    assert (E : (3#2) * a ^ 3 - (5#2) * a ^ 2 + 1
                == 1 - a * (a * ((5#2) - (3#2) * a))) by ring.
    rewrite E.
    assert (0 <= a * (a * ((5#2) - (3#2) * a))).
    { apply Qmult_le_0_compat; [lra|]. apply Qmult_le_0_compat; lra. }
    lra.
Qed.

Lemma cubic_range_witness : cubic 3 == 0.
Proof. apply (cubic_range 3). cbn. lra. Defined.

(** X4: the integer translates of [cubic] sum to 1 at every point: for
    [n = floor x] only the four translates by [n - 1 .. n + 2] can be
    non-zero, and their values add up to 1. *)
Theorem cubic_partition_of_unity (x : Q) :
  let n := Qfloor x in
  cubic (x - inject_Z (n - 1)) + cubic (x - inject_Z n) +
  cubic (x - inject_Z (n + 1)) + cubic (x - inject_Z (n + 2)) == 1.
Proof.
  intros n. pose proof (Qfloor_le x) as Hl. pose proof (Qlt_floor x) as Hu. fold n in Hl, Hu.
  rewrite inject_Z_plus in Hu. change (inject_Z 1) with 1 in Hu.
  set (D := x - inject_Z n + 2).
  pose proof (cubic_partition D ltac:(unfold D; lra) ltac:(unfold D; lra)) as HP.
  rewrite (cubic_far (D - 0)) in HP by (rewrite Qabs_pos; unfold D; lra).
  rewrite (cubic_far (D - 5)) in HP by (rewrite Qabs_neg; unfold D; lra).
  assert (E1 : x - inject_Z (n - 1) == D - 1).
  { unfold D, Z.sub. rewrite inject_Z_plus, inject_Z_opp. change (inject_Z 1) with 1. ring. }
  assert (E2 : x - inject_Z n == D - 2) by (unfold D; ring).
  assert (E3 : x - inject_Z (n + 1) == D - 3).
  { unfold D. rewrite inject_Z_plus. change (inject_Z 1) with 1. ring. }
  assert (E4 : x - inject_Z (n + 2) == D - 4).
  { unfold D. rewrite inject_Z_plus. change (inject_Z 2) with 2. ring. }
  rewrite E1, E2, E3, E4. lra.
Qed.

End CubicInterpolation.

Module WeightsShape.
Import Lists CubicKernel RowReading Extrema IndexWindows RowSums KernelPartition TapCounting Totality Buffers SymmetricPadding HeightPass WidthPass UpscalePadding TwoPasses IdentityScale.
Import Resample Rows Resize Notions.
Local Open Scope Z_scope.

(** ** The two matrices of [calculate_weights_indices] *)

Lemma nth_map_in {A B : Type} (f : A -> B) (l : list A) (k : nat) (d : B) (d' : A) :
  (k < length l)%nat -> nth k (map f l) d = f (nth k l d').
Proof.
  revert k. induction l as [|a l IH]; intros [|k] Hk; cbn in *; try lia; try reflexivity.
  apply IH. lia.
Qed.

Section Matrices.
Variables (in_length out_length : Z) (scale kernel_width0 : Q) (antialiasing : bool).

Let scaled := Qltb scale 1 && antialiasing.
Let kernel_width := if scaled then (kernel_width0 / scale)%Q else kernel_width0.
Let P := (Qceiling kernel_width + 2)%Z.
Let xs := linspace1 out_length.

Lemma cwi_row_counts (w : list (list Q)) (idx : list (list Z)) (ss se : Z) :
  calculate_weights_indices in_length out_length scale Cubic kernel_width0 antialiasing
    = Some (w, idx, ss, se) ->
  length w = Z.to_nat out_length /\ length idx = Z.to_nat out_length.
Proof.
  intros Hres. apply cwi_inv in Hres.
  destruct Hres as (_ & _ & _ & _ & start & len & _ & -> & mn & mx & _ & _ & _ & _ & ->).
  rewrite !length_map, linspace1_length. split; reflexivity.
Qed.

(** X5: the weights and the indices returned by [calculate_weights_indices]
    have [out_length] rows each, and all rows of both have one width, which
    is [P = ceil(kernel_width) + 2] or [P - 2]: the pruning removes two
    columns at most, also when both outer columns hold a zero. *)
Theorem weights_indices_shape (w : list (list Q)) (idx : list (list Z)) (ss se : Z) :
  calculate_weights_indices in_length out_length scale Cubic kernel_width0 antialiasing
    = Some (w, idx, ss, se) ->
  length w = Z.to_nat out_length /\ length idx = Z.to_nat out_length /\
  exists width : nat,
    (width = Z.to_nat P \/ width = Z.to_nat (P - 2)) /\
    Forall (fun r => length r = width) w /\ Forall (fun r => length r = width) idx.
Proof.
  intros Hres. apply cwi_inv in Hres.
  fold scaled kernel_width P xs in Hres.
  destruct Hres as (Hscale & Hout & HP & Hsum & start & len & Hp & -> & mn & mx &
                    Hmn & Hmx & Hss & Hse & ->).
  pose proof (pruning_fits _ _ _ _ start len HP Hp) as Hfit.
  fold scaled kernel_width P in Hfit.
  rewrite !length_map. unfold xs. rewrite linspace1_length.
  split; [reflexivity|]. split; [reflexivity|].
  exists len. split.
  - destruct Hp as [H|[H|H]]; fold scaled kernel_width P in H; tauto.
  - split; apply Forall_forall; intros r Hr; apply in_map_iff in Hr;
      destruct Hr as [x [<- _]].
    + apply cut_length. rewrite wnorm_length. lia.
    + rewrite length_map. apply cut_length. rewrite irow_length. lia.
Qed.

(** X6: every row of the index matrix is a run of consecutive integers, so
    the first index of a row and its width give the whole window. *)
Theorem indices_rows_consecutive (w : list (list Q)) (idx : list (list Z)) (ss se : Z) :
  calculate_weights_indices in_length out_length scale Cubic kernel_width0 antialiasing
    = Some (w, idx, ss, se) ->
  Forall (fun row => forall k, (k < length row)%nat ->
                     nth k row 0 = hd 0 row + Z.of_nat k) idx.
Proof.
  intros Hres. apply cwi_inv in Hres.
  fold scaled kernel_width P xs in Hres.
  destruct Hres as (Hscale & Hout & HP & Hsum & start & len & Hp & -> & mn & mx &
                    Hmn & Hmx & Hss & Hse & ->).
  pose proof (pruning_fits _ _ _ _ start len HP Hp) as Hfit.
  fold scaled kernel_width P in Hfit.
  apply Forall_forall. intros row Hrow. apply in_map_iff in Hrow.
  destruct Hrow as [x [<- _]].
  rewrite cut_irow by exact Hfit. rewrite map_map, length_map, length_seq.
  intros k Hk.
  rewrite (nth_map_in _ _ k 0 0%nat) by (rewrite length_seq; exact Hk).
  rewrite seq_nth by exact Hk.
  destruct len as [|len']; [lia|]. cbn [seq map hd]. lia.
Qed.

End Matrices.

Lemma weights_indices_shape_witness :
  exists w idx ss se,
    calculate_weights_indices 4 2 (1#2) Cubic 4 true = Some (w, idx, ss, se) /\
    length w = 2%nat /\ length idx = 2%nat /\
    exists width : nat,
      (width = 10%nat \/ width = 8%nat) /\
      Forall (fun r => length r = width) w /\ Forall (fun r => length r = width) idx.
Proof.
  destruct (calculate_weights_indices 4 2 (1#2) Cubic 4 true)
    as [[[[w idx] ss] se]|] eqn:E; [|vm_compute in E; discriminate E].
  exists w, idx, ss, se. split; [reflexivity|].
  exact (weights_indices_shape 4 2 (1#2) 4 true w idx ss se E).
Defined.

Lemma indices_rows_consecutive_witness :
  exists w idx ss se,
    calculate_weights_indices 4 2 (1#2) Cubic 4 true = Some (w, idx, ss, se) /\
    Forall (fun row => forall k, (k < length row)%nat ->
                       nth k row 0 = hd 0 row + Z.of_nat k) idx.
Proof.
  destruct (calculate_weights_indices 4 2 (1#2) Cubic 4 true)
    as [[[[w idx] ss] se]|] eqn:E; [|vm_compute in E; discriminate E].
  exists w, idx, ss, se. split; [reflexivity|].
  exact (indices_rows_consecutive 4 2 (1#2) 4 true w idx ss se E).
Defined.

(** ** Upscaling *)

(** X7: when upscaling ([scale >= 1], [out_length = ceil(in_length * scale)])
    [calculate_weights_indices] returns; every output pixel has four weights,
    and the input is padded by 1 or 2 positions at its start and by 2 at its
    end. *)
Theorem upscale_four_taps (in_length : Z) (scale : Q) (antialiasing : bool) :
  1 <= in_length -> (1 <= scale)%Q ->
  exists w idx ss,
    calculate_weights_indices in_length (Qceiling (inject_Z in_length * scale)) scale
      Cubic 4 antialiasing = Some (w, idx, ss, 2) /\
    1 <= ss <= 2 /\
    Forall (fun r => length r = 4%nat) w /\ Forall (fun r => length r = 4%nat) idx.
Proof.
  intros Hin Hscale.
  set (out_length := Qceiling (inject_Z in_length * scale)).
  assert (Hout : 1 <= out_length) by (apply out_positive; assumption).
  destruct (cwi_total in_length out_length scale antialiasing ltac:(lra) Hout)
    as [[[[w idx] ss] se] Hres].
  destruct (upscale_pads in_length scale antialiasing Hscale Hin w idx ss se Hres)
    as [Hss ->].
  exists w, idx, ss. split; [exact Hres|]. split; [exact Hss|].
  destruct (cwi_inv_upscale in_length out_length scale antialiasing Hscale w idx ss 2 Hres)
    as (-> & mn & mx & _ & _ & _ & _ & ->).
  split; apply Forall_forall; intros r Hr; apply in_map_iff in Hr;
    destruct Hr as [x [<- _]].
  - apply cut_length. rewrite wnorm_length. cbn. lia.
  - rewrite length_map. apply cut_length. rewrite irow_length. cbn. lia.
Qed.

Lemma upscale_four_taps_witness :
  exists w idx ss,
    calculate_weights_indices 3 (Qceiling (inject_Z 3 * 2)) 2 Cubic 4 true
      = Some (w, idx, ss, 2) /\
    1 <= ss <= 2 /\
    Forall (fun r => length r = 4%nat) w /\ Forall (fun r => length r = 4%nat) idx.
Proof. apply (upscale_four_taps 3 2 true); [lia|unfold Qle; cbn; lia]. Defined.

(** X8: at scale 1 every row of weights is (0, 1, 0, 0) and row [i] of the
    index matrix starts at [i]: with the start padding of 1, output pixel [i]
    is input pixel [i]. *)
Theorem scale_one_weights (n : Z) (antialiasing : bool) :
  1 <= n ->
  exists w idx,
    calculate_weights_indices n n 1 Cubic 4 antialiasing = Some (w, idx, 1, 2) /\
    Forall (fun wr => Forall2 Qeq wr [0; 1; 0; 0]%Q) w /\
    (forall i row, nth_error idx i = Some row -> hd_error row = Some (Z.of_nat i)).
Proof.
  intros Hn.
  destruct (cwi_total n n 1 antialiasing ltac:(lra) Hn) as [[[[w idx] ss] se] Hres].
  destruct (cwi_scale_one n antialiasing w idx ss se Hn Hres) as (-> & -> & Hrows).
  destruct (cwi_row_counts n n 1 4 antialiasing w idx 1 2 Hres) as (Lw & Li).
  exists w, idx. split; [exact Hres|]. split.
  - apply Forall_forall. intros wr Hwr. apply In_nth_error in Hwr.
    destruct Hwr as [i Hi].
    assert (Hlt : (i < Z.to_nat n)%nat) by (rewrite <- Lw; apply nth_error_Some; congruence).
    destruct (Hrows i Hlt) as [[wr' [E Hw]] _]. congruence.
  - intros i row Hi.
    assert (Hlt : (i < Z.to_nat n)%nat) by (rewrite <- Li; apply nth_error_Some; congruence).
    destruct (Hrows i Hlt) as [_ [row' [E Hh]]]. congruence.
Qed.

Lemma scale_one_weights_witness :
  exists w idx,
    calculate_weights_indices 3 3 1 Cubic 4 true = Some (w, idx, 1, 2) /\
    Forall (fun wr => Forall2 Qeq wr [0; 1; 0; 0]%Q) w /\
    (forall i row, nth_error idx i = Some row -> hd_error row = Some (Z.of_nat i)).
Proof. apply (scale_one_weights 3 true). lia. Defined.

(** ** The antialiasing flag *)

Lemma cwi_antialiasing_upscale (in_length out_length : Z) (scale kernel_width : Q) :
  (1 <= scale)%Q ->
  calculate_weights_indices in_length out_length scale Cubic kernel_width true =
  calculate_weights_indices in_length out_length scale Cubic kernel_width false.
Proof.
  intros Hscale. unfold calculate_weights_indices.
  rewrite (unscaled scale true Hscale), (unscaled scale false Hscale). reflexivity.
Qed.

(** X9: the antialiasing flag has no effect on [imresize] for a scale of at
    least 1. *)
Theorem imresize_antialiasing_upscale (uninit : Q) (img : tensor3) (scale : Q) :
  (1 <= scale)%Q -> imresize uninit img scale true = imresize uninit img scale false.
Proof.
  intros Hscale. unfold imresize.
  rewrite !(cwi_antialiasing_upscale _ _ scale 4 Hscale). reflexivity.
Qed.

Lemma imresize_antialiasing_upscale_witness :
  imresize 0 rgb_2x2 2 true = imresize 0 rgb_2x2 2 false.
Proof. apply (imresize_antialiasing_upscale 0 rgb_2x2 2). unfold Qle; cbn; lia. Defined.

End WeightsShape.

Module ImresizeChannels.
Import Lists CubicKernel RowReading Extrema IndexWindows RowSums KernelPartition TapCounting Totality Buffers SymmetricPadding HeightPass WidthPass UpscalePadding TwoPasses IdentityScale.
Import Resample Rows Resize Notions Samples.
Local Open Scope Z_scope.

(** ** The channels of [imresize] *)

Lemma FloatTensor_length (uninit : Q) (c h w : Z) (t : tensor3) :
  FloatTensor uninit c h w = Some t -> length t = Z.to_nat c.
Proof.
  unfold FloatTensor. destruct (_ || _); [discriminate|].
  intros [= <-]. apply repeat_length.
Qed.

Lemma copy_rows_length (size : Z) (dst : tensor3) (start length0 : Z) (src d : tensor3) :
  copy_rows size dst start length0 src = Some d -> (length d <= length src)%nat.
Proof.
  unfold copy_rows. destruct (narrow_range _ _ _); [|discriminate].
  destruct (forallb _ _); [|discriminate].
  intros [= <-]. rewrite length_map, length_combine. lia.
Qed.

Lemma for_range_first_none (n : Z) (body : tensor3 -> Z -> option tensor3) (init : tensor3) :
  0 < n -> body init 0 = None -> for_range n body init = None.
Proof.
  intros Hn Hb. unfold for_range, range.
  destruct (Z.to_nat n) as [|k] eqn:Ek; [lia|].
  cbn [seq map fold_left]. change (Z.of_nat 0) with 0. rewrite Hb.
  apply fold_option_none.
Qed.

Lemma resize_row_needs_three (img_aug : tensor3) (weights : list (list Q))
    (indices : list (list Z)) (kw W : nat) (out_1 : tensor3) (i : Z) :
  (length img_aug < 3)%nat -> resize_row img_aug weights indices kw W out_1 i = None.
Proof.
  intros Hlen. unfold resize_row.
  destruct (nth_error indices _) as [irow|]; [|reflexivity].
  destruct (hd_error irow) as [idx|]; [|reflexivity].
  destruct (nth_error weights _) as [w|]; [|reflexivity].
  destruct (nth_error img_aug 0) as [c0|]; [|reflexivity].
  destruct (mv_columns _ _ _) as [v0|]; [|reflexivity].
  destruct (set_row out_1 0 _ v0) as [o1|]; [|reflexivity].
  destruct (nth_error img_aug 1) as [c1|]; [|reflexivity].
  destruct (mv_columns _ _ _) as [v1|]; [|reflexivity].
  destruct (set_row o1 1 _ v1) as [o2|]; [|reflexivity].
  assert (E : nth_error img_aug 2 = None) by (apply nth_error_None; lia).
  rewrite E. reflexivity.
Qed.

(** X10: [imresize] raises for an image with fewer than three channels, as
    soon as there is an output row to compute: the loop reads and writes the
    channels 0, 1 and 2 by index. *)
Theorem imresize_needs_three_channels (uninit : Q) (img : tensor3) (scale : Q)
    (antialiasing : bool) :
  (length img < 3)%nat -> 0 < Qceiling (inject_Z (size1 img) * scale) ->
  imresize uninit img scale antialiasing = None.
Proof.
  intros Hlen Hout. unfold imresize.
  destruct (calculate_weights_indices (size1 img) _ _ _ _ _) as [[[[wH iH] sHs] sHe]|];
    [|reflexivity].
  destruct (calculate_weights_indices (size2 img) _ _ _ _ _) as [[[[wW iW] sWs] sWe]|];
    [|reflexivity].
  assert (E : resize_H uninit img (size0 img) (size1 img) (size2 img)
                (Qceiling (inject_Z (size1 img) * scale)) wH iH sHs sHe = None);
    [|rewrite E; reflexivity].
  unfold resize_H.
  destruct (FloatTensor uninit (size0 img) _ _) as [a0|]; [|reflexivity].
  destruct (copy_rows _ a0 _ _ _) as [a1|]; [|reflexivity].
  destruct (copy_rows _ a1 _ _ _) as [a2|]; [|reflexivity].
  destruct (copy_rows _ a2 _ _ _) as [a3|] eqn:E3; [|reflexivity].
  destruct (FloatTensor uninit (size0 img) _ _) as [o|]; [|reflexivity].
  apply for_range_first_none; [exact Hout|].
  apply resize_row_needs_three.
  apply copy_rows_length in E3. rewrite !length_map in E3. lia.
Qed.

Lemma imresize_needs_three_channels_witness : imresize 0 gray_1x1 2 true = None.
Proof. apply (imresize_needs_three_channels 0 gray_1x1 2 true); [cbn; lia|reflexivity]. Defined.

(** *** Channels beyond the third *)

Lemma set_col_other (out t : tensor3) (c i : nat) (v : list Q) (c' : nat) :
  set_col out c i v = Some t -> c' <> c -> nth_error t c' = nth_error out c'.
Proof.
  unfold set_col. destruct (nth_error out c) as [ch|] eqn:Ec; [|discriminate].
  destruct (_ && _); [|discriminate]. intros [= <-] Hne.
  apply set_nth_other; [|exact Hne]. apply nth_error_Some. congruence.
Qed.

Lemma resize_col_other (aug : tensor3) (weights : list (list Q)) (indices : list (list Z))
    (kw : nat) (t t' : tensor3) (i : Z) (c' : nat) :
  resize_col aug weights indices kw t i = Some t' -> (3 <= c')%nat ->
  nth_error t' c' = nth_error t c'.
Proof.
  unfold resize_col.
  destruct (nth_error indices _) as [irow|]; [|discriminate].
  destruct (hd_error irow) as [idx|]; [|discriminate].
  destruct (nth_error weights _) as [w|]; [|discriminate].
  destruct (nth_error aug 0) as [c0|]; [|discriminate].
  destruct (mv_rows _ _ c0 _) as [v0|]; [|discriminate].
  destruct (set_col t 0 _ v0) as [o1|] eqn:E1; [|discriminate].
  destruct (nth_error aug 1) as [c1|]; [|discriminate].
  destruct (mv_rows _ _ c1 _) as [v1|]; [|discriminate].
  destruct (set_col o1 1 _ v1) as [o2|] eqn:E2; [|discriminate].
  destruct (nth_error aug 2) as [c2|]; [|discriminate].
  destruct (mv_rows _ _ c2 _) as [v2|]; [|discriminate].
  intros E3 Hc.
  rewrite (set_col_other _ _ _ _ _ c' E3) by lia.
  rewrite (set_col_other _ _ _ _ _ c' E2) by lia.
  apply (set_col_other _ _ _ _ _ c' E1). lia.
Qed.

(** X11: [imresize] never writes a channel beyond the third: in the result,
    every channel of index 3 or more is the fresh output buffer, whatever the
    input holds there. *)
Theorem imresize_other_channels_unwritten (uninit : Q) (img out : tensor3) (scale : Q)
    (antialiasing : bool) (c : nat) (ch : list (list Q)) :
  imresize uninit img scale antialiasing = Some out ->
  (3 <= c)%nat -> nth_error out c = Some ch ->
  ch = repeat (repeat uninit (Z.to_nat (Qceiling (inject_Z (size2 img) * scale))))
         (Z.to_nat (Qceiling (inject_Z (size1 img) * scale))).
Proof.
  unfold imresize.
  destruct (calculate_weights_indices (size1 img) _ _ _ _ _) as [[[[wH iH] sHs] sHe]|];
    [|discriminate].
  destruct (calculate_weights_indices (size2 img) _ _ _ _ _) as [[[[wW iW] sWs] sWe]|];
    [|discriminate].
  destruct (resize_H _ _ _ _ _ _ _ _ _ _) as [out_1|]; [|discriminate].
  unfold resize_W.
  destruct (FloatTensor uninit (size0 img) _ _) as [a0|]; [|discriminate].
  destruct (copy_cols _ a0 _ _ _) as [a1|]; [|discriminate].
  destruct (copy_cols _ a1 _ _ _) as [a2|]; [|discriminate].
  destruct (copy_cols _ a2 _ _ _) as [a3|]; [|discriminate].
  destruct (FloatTensor uninit (size0 img) _ _) as [out_2|] eqn:EF; [|discriminate].
  intros Hloop Hc Hch.
  assert (Hinv : nth_error out c = nth_error out_2 c).
  { revert Hloop. apply (for_range_invariant (fun t => nth_error t c = nth_error out_2 c)).
    - intros t i t' IH Hstep. cbv beta in *. rewrite <- IH.
      exact (resize_col_other _ _ _ _ _ _ _ _ Hstep Hc).
    - reflexivity. }
  rewrite Hinv in Hch. apply nth_error_In in Hch.
  unfold FloatTensor in EF. destruct (_ || _); [discriminate|].
  injection EF as <-. exact (repeat_spec _ _ _ Hch).
Qed.

Lemma imresize_other_channels_unwritten_witness :
  exists out ch,
    imresize 0 rgba_1x1 1 true = Some out /\ nth_error out 3 = Some ch /\
    ch = repeat (repeat 0%Q (Z.to_nat (Qceiling (inject_Z (size2 rgba_1x1) * 1))))
           (Z.to_nat (Qceiling (inject_Z (size1 rgba_1x1) * 1))).
Proof.
  destruct (imresize 0 rgba_1x1 1 true) as [out|] eqn:E; [|vm_compute in E; discriminate E].
  destruct (nth_error out 3) as [ch|] eqn:Ec.
  - exists out, ch. split; [reflexivity|]. split; [exact Ec|].
    exact (imresize_other_channels_unwritten 0 rgba_1x1 out 1 true 3 ch E (le_n 3) Ec).
  - exfalso. vm_compute in E. injection E as <-. discriminate Ec.
Defined.

(** ** Constant images *)

Lemma padded_full {A : Type} (s e : Z) (fill l a : list A) :
  1 <= s -> 1 <= e ->
  (Z.to_nat s <= length l \/ length l = 1)%nat ->
  (Z.to_nat e <= length l \/ length l = 1)%nat ->
  length fill = Z.to_nat (Z.of_nat (length l) + s + e) ->
  padded s e fill l = Some a -> forall x, In x a -> In x l.
Proof.
  intros Hs He Hsl Hel Hfill. unfold padded.
  assert (E1 : broadcast (Z.of_nat (length l)) l = Some l).
  { unfold broadcast. now rewrite Z.eqb_refl. }
  rewrite E1.
  destruct (broadcast s (rev (slice_to s l))) as [b2|] eqn:E2; [|discriminate].
  destruct (broadcast e (rev (slice_from (- e) l))) as [b3|] eqn:E3; [|discriminate].
  assert (L2 : length b2 = Z.to_nat s) by (eapply (broadcast_length s); [lia|exact E2]).
  assert (L3 : length b3 = Z.to_nat e) by (eapply (broadcast_length e); [lia|exact E3]).
  set (a1 := splice (Z.to_nat s) l fill).
  set (a2 := splice (Z.to_nat 0) b2 a1).
  assert (La1 : length a1 = length fill) by (apply splice_length; lia).
  assert (La2 : length a2 = length fill)
    by (unfold a2; rewrite splice_length; [exact La1|change (Z.to_nat 0) with 0%nat; lia]).
  intros [= <-] x Hx.
  assert (I2 : forall y, In y b2 -> In y l).
  { intros y Hy. apply (broadcast_In _ _ _ _ E2) in Hy. apply in_rev in Hy.
    exact (slice_to_In _ _ _ Hy). }
  assert (I3 : forall y, In y b3 -> In y l).
  { intros y Hy. apply (broadcast_In _ _ _ _ E3) in Hy. apply in_rev in Hy.
    exact (slice_from_In _ _ _ Hy). }
  apply In_nth_error in Hx. destruct Hx as [k Hk].
  assert (Hlt : (k < length fill)%nat).
  { rewrite <- La2, <- (splice_length (Z.to_nat (s + Z.of_nat (length l))) b3 a2) by lia.
    apply nth_error_Some. congruence. }
  destruct (Nat.lt_ge_cases k (Z.to_nat s + length l)) as [Hk1|Hk1].
  - rewrite splice_outside in Hk by lia.
    destruct (Nat.lt_ge_cases k (Z.to_nat s)) as [Hk2|Hk2].
    + unfold a2 in Hk. change (Z.to_nat 0) with 0%nat in Hk.
      change k with (0 + k)%nat in Hk. rewrite (splice_inside 0 b2 a1 k) in Hk by lia.
      apply I2. exact (nth_error_In _ _ Hk).
    + unfold a2 in Hk. rewrite splice_outside in Hk by (change (Z.to_nat 0) with 0%nat; lia).
      unfold a1 in Hk. replace k with (Z.to_nat s + (k - Z.to_nat s))%nat in Hk by lia.
      rewrite splice_inside in Hk by lia. exact (nth_error_In _ _ Hk).
  - replace k with (Z.to_nat (s + Z.of_nat (length l)) + (k - Z.to_nat (s + Z.of_nat (length l))))%nat
      in Hk by lia.
    rewrite splice_inside in Hk by lia.
    apply I3. exact (nth_error_In _ _ Hk).
Qed.

Lemma dot_constant (xs w : list Q) (k : Q) :
  Forall (fun q => q == k)%Q xs -> length xs = length w ->
  (dot xs w == k * Qsum w)%Q.
Proof.
  intros Hx. revert w. induction Hx as [|x xs Hxk _ IH]; intros [|y w] Hl;
    try discriminate; unfold dot; cbn [combine map Qsum fold_right fst snd].
  - ring.
  - injection Hl as Hl. specialize (IH w Hl). unfold dot, Qsum in IH.
    rewrite IH, Hxk. unfold Qsum. ring.
Qed.

Lemma mv_columns_constant (W : nat) (rows : list (list Q)) (w v : list Q) (k : Q) :
  mv_columns W rows w = Some v ->
  Forall (fun r => length r = W /\ Forall (fun q => q == k)%Q r) rows ->
  (Qsum w == 1)%Q -> Forall (fun q => q == k)%Q v.
Proof.
  unfold mv_columns. destruct (Nat.eqb_spec (length rows) (length w)) as [El|]; [|discriminate].
  intros [= <-] Hrows Hsum. apply Forall_forall. intros q Hq.
  apply in_map_iff in Hq. destruct Hq as [j [<- Hj]]. apply in_seq in Hj.
  rewrite dot_constant with (k := k).
  - rewrite Hsum. ring.
  - apply Forall_forall. intros y Hy. apply in_map_iff in Hy. destruct Hy as [r [<- Hr]].
    rewrite Forall_forall in Hrows. destruct (Hrows r Hr) as [Lr Cr].
    rewrite Forall_forall in Cr. apply Cr. apply nth_In. lia.
  - rewrite length_map. exact El.
Qed.

Lemma mv_rows_constant (idx kw : nat) (m : list (list Q)) (w v : list Q) (k : Q) :
  mv_rows idx kw m w = Some v ->
  Forall (Forall (fun q => q == k)%Q) m ->
  (Qsum w == 1)%Q -> Forall (fun q => q == k)%Q v.
Proof.
  unfold mv_rows. destruct (forallb _ m) eqn:Ef; [|discriminate].
  intros [= <-] Hm Hsum. apply Forall_forall. intros q Hq.
  apply in_map_iff in Hq. destruct Hq as [r [<- Hr]].
  rewrite forallb_forall in Ef. specialize (Ef r Hr). apply Nat.eqb_eq in Ef.
  rewrite dot_constant with (k := k).
  - rewrite Hsum. ring.
  - rewrite Forall_forall in Hm. specialize (Hm r Hr). rewrite Forall_forall in Hm |- *.
    intros y Hy. apply Hm. exact (in_skipn_inv _ _ _ (in_firstn_inv _ _ _ Hy)).
  - exact Ef.
Qed.

Lemma row_value_constant (uninit : Q) (img : tensor3) (C H W : nat)
    (weights : list (list Q)) (indices : list (list Z)) (s e : Z) (c i : nat)
    (v : list Q) (k : Q) :
  has_shape img C H W -> pads_fit H s e ->
  Forall (Forall (Forall (fun q => q == k)%Q)) img ->
  Forall (fun w => Qsum w == 1)%Q weights ->
  row_value uninit img H W weights indices s e c i = Some v ->
  Forall (fun q => q == k)%Q v.
Proof.
  intros Hshape (Hs & He & Hns & Hne) Hconst Hsums. unfold row_value. cbv zeta.
  destruct (nth_error indices i) as [irow|]; [|discriminate].
  destruct (hd_error irow) as [idx|]; [|discriminate].
  destruct (nth_error weights i) as [w|] eqn:Ew; [|discriminate].
  unfold sym_copy. rewrite nth_error_map.
  destruct (nth_error img c) as [ch|] eqn:Ech; [|discriminate]. cbn [option_map].
  intros Hv.
  destruct (has_shape_channel _ _ _ _ _ _ Hshape Ech) as [Lch Wch].
  assert (Hfill : length (repeat (repeat uninit W) (Z.to_nat (Z.of_nat H + s + e)))
                  = Z.to_nat (Z.of_nat (length ch) + s + e))
    by (rewrite repeat_length, Lch; reflexivity).
  destruct (padded_spec s e _ ch Hs He ltac:(lia) ltac:(lia) Hfill) as (a & Ea & _).
  rewrite Ea in Hv.
  pose proof (padded_full s e _ ch a Hs He ltac:(lia) ltac:(lia) Hfill Ea) as Hin.
  rewrite Forall_forall in Hsums. rewrite Forall_forall in Hconst.
  pose proof (Hconst ch (nth_error_In _ _ Ech)) as Hch. rewrite Forall_forall in Hch, Wch.
  apply (mv_columns_constant _ _ _ _ k Hv); [|exact (Hsums w (nth_error_In _ _ Ew))].
  apply Forall_forall. intros r Hr.
  assert (Hr' : In r ch) by (apply Hin; exact (in_skipn_inv _ _ _ (in_firstn_inv _ _ _ Hr))).
  split; [exact (Wch r Hr')|exact (Hch r Hr')].
Qed.

Lemma col_value_constant (uninit : Q) (out_1 : tensor3) (C H W : nat)
    (weights : list (list Q)) (indices : list (list Z)) (s e : Z) (c i : nat)
    (v : list Q) (k : Q) :
  has_shape out_1 C H W -> pads_fit W s e ->
  Forall (Forall (Forall (fun q => q == k)%Q)) out_1 ->
  Forall (fun w => Qsum w == 1)%Q weights ->
  col_value uninit out_1 W weights indices s e c i = Some v ->
  Forall (fun q => q == k)%Q v.
Proof.
  intros Hshape (Hs & He & Hns & Hne) Hconst Hsums. unfold col_value. cbv zeta.
  destruct (nth_error indices i) as [irow|]; [|discriminate].
  destruct (hd_error irow) as [idx|]; [|discriminate].
  destruct (nth_error weights i) as [w|] eqn:Ew; [|discriminate].
  rewrite nth_error_map.
  destruct (nth_error out_1 c) as [ch|] eqn:Ech; [|discriminate]. cbn [option_map].
  intros Hv.
  destruct (has_shape_channel _ _ _ _ _ _ Hshape Ech) as [Lch Wch].
  rewrite Forall_forall in Hsums. rewrite Forall_forall in Hconst.
  pose proof (Hconst ch (nth_error_In _ _ Ech)) as Hch. rewrite Forall_forall in Hch, Wch.
  apply (mv_rows_constant _ _ _ _ _ k Hv); [|exact (Hsums w (nth_error_In _ _ Ew))].
  apply Forall_forall. intros a Ha. unfold sym_copy in Ha.
  apply in_map_iff in Ha. destruct Ha as [r [<- Hr]].
  assert (Hfill : length (repeat uninit (Z.to_nat (Z.of_nat W + s + e)))
                  = Z.to_nat (Z.of_nat (length r) + s + e))
    by (rewrite repeat_length, (Wch r Hr); reflexivity).
  pose proof (Wch r Hr) as Lr.
  destruct (padded_spec s e _ r Hs He ltac:(lia) ltac:(lia) Hfill) as (a & Ea & _).
  rewrite Ea.
  pose proof (padded_full s e _ r a Hs He ltac:(lia) ltac:(lia) Hfill Ea) as Hin.
  pose proof (Hch r Hr) as Hrk. rewrite Forall_forall in Hrk |- *.
  intros q Hq. apply Hrk. apply Hin. exact Hq.
Qed.

Lemma Forall3_of_entries (P : Q -> Prop) (t : tensor3) :
  (forall c i j q, entry_at t c i j = Some q -> P q) -> Forall (Forall (Forall P)) t.
Proof.
  intros H. apply Forall_forall. intros ch Hch. apply In_nth_error in Hch.
  destruct Hch as [c Ec].
  apply Forall_forall. intros r Hr. apply In_nth_error in Hr. destruct Hr as [i Ei].
  apply Forall_forall. intros q Hq. apply In_nth_error in Hq. destruct Hq as [j Ej].
  apply (H c i j). unfold entry_at, row_at. now rewrite Ec, Ei.
Qed.

(** X12: resizing a constant image of three channels by a scale of at least
    1 gives the constant image of the new size: every entry of the result is
    the constant (the weights of every output pixel sum to 1 and the padding
    only repeats pixels of the image). *)
Theorem imresize_constant (uninit : Q) (img : tensor3) (H W : nat) (scale : Q)
    (antialiasing : bool) (k : Q) :
  has_shape img 3 H W -> (1 <= H)%nat -> (1 <= W)%nat -> (1 <= scale)%Q ->
  Forall (Forall (Forall (fun q => q == k)%Q)) img ->
  exists out, imresize uninit img scale antialiasing = Some out /\
    has_shape out 3 (Z.to_nat (Qceiling (inject_Z (Z.of_nat H) * scale)))
                    (Z.to_nat (Qceiling (inject_Z (Z.of_nat W) * scale))) /\
    Forall (Forall (Forall (fun q => q == k)%Q)) out.
Proof.
  intros Hshape HH HW Hscale Hconst.
  assert (Hfit : forall n : nat, (1 <= n)%nat ->
    exists w idx ss se,
      calculate_weights_indices (Z.of_nat n) (Qceiling (inject_Z (Z.of_nat n) * scale))
        scale Cubic 4 antialiasing = Some (w, idx, ss, se) /\
      pads_fit n ss se /\ Forall (fun r => Qsum r == 1)%Q w).
  { intros n Hn.
    destruct (cwi_total (Z.of_nat n) (Qceiling (inject_Z (Z.of_nat n) * scale)) scale
                antialiasing) as [[[[w idx] ss] se] Hr].
    - lra.
    - apply out_positive; [exact Hscale|lia].
    - exists w, idx, ss, se. split; [exact Hr|].
      destruct (upscale_pads (Z.of_nat n) scale antialiasing Hscale ltac:(lia) _ _ _ _ Hr)
        as [Hss ->].
      split; [unfold pads_fit; lia|]. exact (cwi_row_sums _ _ _ _ w idx ss 2 Hr). }
  destruct (Hfit H HH) as (wH & iH & sHs & sHe & EH & FH & SH).
  destruct (Hfit W HW) as (wW & iW & sWs & sWe & EW & FW & SW).
  destruct (imresize_passes uninit img 3 H W scale antialiasing wH wW iH iW sHs sHe sWs sWe
              Hshape ltac:(lia) HH HW EH EW FH FW)
    as (out_1 & out_2 & E & S1 & V1 & S2 & V2).
  exists out_2. split; [exact E|]. split; [exact S2|].
  assert (C1 : Forall (Forall (Forall (fun q => q == k)%Q)) out_1).
  { apply Forall_forall. intros ch Hch. apply In_nth_error in Hch. destruct Hch as [c Ec].
    apply Forall_forall. intros r Hr. apply In_nth_error in Hr. destruct Hr as [i Ei].
    destruct (has_shape_channel _ _ _ _ _ _ S1 Ec) as [Lch _].
    assert (Hc : (c < 3)%nat).
    { destruct S1 as [<- _]. apply nth_error_Some. congruence. }
    assert (Hi : (i < Z.to_nat (Qceiling (inject_Z (Z.of_nat H) * scale)))%nat).
    { rewrite <- Lch. apply nth_error_Some. congruence. }
    pose proof (V1 c i Hc Hi) as Hv. unfold row_at in Hv. rewrite Ec, Ei in Hv.
    symmetry in Hv.
    exact (row_value_constant uninit img 3 H W wH iH sHs sHe c i r k Hshape FH Hconst SH Hv). }
  apply Forall3_of_entries. intros c j i q Hq.
  assert (Hc : (c < 3)%nat).
  { unfold entry_at, row_at in Hq. destruct (nth_error out_2 c) eqn:Ec; [|discriminate].
    destruct S2 as [<- _]. apply nth_error_Some. congruence. }
  assert (Hji : (j < Z.to_nat (Qceiling (inject_Z (Z.of_nat H) * scale)))%nat /\
                (i < Z.to_nat (Qceiling (inject_Z (Z.of_nat W) * scale)))%nat).
  { unfold entry_at, row_at in Hq. destruct (nth_error out_2 c) as [ch|] eqn:Ec; [|discriminate].
    destruct (nth_error ch j) as [r|] eqn:Er; [|discriminate].
    destruct (has_shape_channel _ _ _ _ _ _ S2 Ec) as [Lh Lw].
    rewrite Forall_forall in Lw. rewrite <- Lh, <- (Lw r (nth_error_In _ _ Er)).
    split; apply nth_error_Some; congruence. }
  destruct Hji as [Hj Hi].
  rewrite (V2 c j i Hc Hj Hi) in Hq.
  destruct (col_value uninit out_1 W wW iW sWs sWe c i) as [v|] eqn:Ev; [|discriminate].
  pose proof (col_value_constant uninit out_1 3 _ W wW iW sWs sWe c i v k S1 FW C1 SW Ev) as Hv.
  rewrite Forall_forall in Hv. apply Hv. exact (nth_error_In _ _ Hq).
Qed.

Lemma imresize_constant_witness :
  exists out, imresize 0 gray_rgb_2x2 2 true = Some out /\
    has_shape out 3 (Z.to_nat (Qceiling (inject_Z (Z.of_nat 2) * 2)))
                    (Z.to_nat (Qceiling (inject_Z (Z.of_nat 2) * 2))) /\
    Forall (Forall (Forall (fun q => q == 1#2)%Q)) out.
Proof.
  apply (imresize_constant 0 gray_rgb_2x2 2 2 2 true (1#2)); try lia.
  - split; [reflexivity|]. repeat constructor.
  - unfold Qle; cbn; lia.
  - repeat constructor.
Defined.

End ImresizeChannels.

Module PatchGridCoverage.
Import Lists.
Import PatchGrid PatchGridFacts.

(** ** The tiles cover the image *)

(** The part of tile [i] that is kept along one axis: the patch without its
    two paddings. *)
Lemma axis_cover (len ps p y : Z) :
  0 <= p -> 2 * p < ps -> ps < len -> 0 <= y < len ->
  let n := ceil_div (len - p * 2) (ps - p * 2) in
  exists i, 0 <= i < n /\
    offset len ps p n i + start_padding p i <= y /\
    y < offset len ps p n i + ps - end_padding p n i.
Proof.
  intros Hp Hps Hlen Hy n.
  assert (Hst : 0 < ps - p * 2) by lia.
  pose proof (ceil_div_lower (len - p * 2) (ps - p * 2) Hst) as Hlow.
  pose proof (ceil_div_upper (len - p * 2) (ps - p * 2) Hst) as Hupp.
  fold n in Hlow, Hupp.
  assert (Hn : 2 <= n) by nia.
  destruct (Z.lt_ge_cases y (ps - p)) as [Hfirst|Hfirst].
  - exists 0. unfold offset, start_padding, end_padding. cbn [Z.eqb]. lia.
  - destruct (Z.le_gt_cases ((n - 1) * (ps - p * 2) + p) y) as [Hlast|Hlast].
    + exists (n - 1). unfold offset, start_padding, end_padding.
      destruct (Z.eqb_spec (n - 1) 0); [lia|]. rewrite Z.eqb_refl. nia.
    + set (i := (y - p) / (ps - p * 2)).
      pose proof (Z.mul_div_le (y - p) (ps - p * 2) Hst) as D1.
      pose proof (Z.mul_succ_div_gt (y - p) (ps - p * 2) Hst) as D2.
      fold i in D1, D2.
      assert (Hi : 1 <= i <= n - 2) by nia.
      exists i. unfold offset, start_padding, end_padding.
      destruct (Z.eqb_spec i 0); [lia|]. destruct (Z.eqb_spec i (n - 1)); [lia|]. nia.
Qed.

(** X13: when the patch is smaller than the image along both axes (and
    larger than twice the padding), every pixel of the image lies in the
    kept part of some yielded tile: at or after the tile's offset plus its
    start padding, and before the tile's end minus its end padding.  The
    image sizes are below 2^53, the range in which the block counts that the
    code takes from a binary64 quotient are the exact ceilings. *)
Theorem next_patch_covers_image (h w ps p y x : Z) :
  h < 2 ^ 53 -> w < 2 ^ 53 ->
  0 <= p -> 2 * p < ps -> ps < h -> ps < w -> 0 <= y < h -> 0 <= x < w ->
  exists l d, next_patch (init h w (Some ps) p) = Some l /\ In d l /\
    p_h d + top_padding d <= y < p_h d + ps - bottom_padding d /\
    p_w d + left_padding d <= x < p_w d + ps - right_padding d.
Proof.
  intros _ _ Hp Hps Hh Hw Hy Hx. unfold next_patch, init.
  cbn [H W padding patch_size _calc_patch_size].
  destruct (Z.eqb_spec (ps - p * 2) 0) as [E|_]; [lia|].
  destruct (axis_cover h ps p y Hp Hps Hh Hy) as (i & Hi & Hi1 & Hi2).
  destruct (axis_cover w ps p x Hp Hps Hw Hx) as (j & Hj & Hj1 & Hj2).
  eexists. eexists. split; [reflexivity|]. split.
  - apply in_flat_map. exists i. split; [apply in_range; exact Hi|].
    apply in_map_iff. exists j. split; [reflexivity|apply in_range; exact Hj].
  - cbn [p_h p_w top_padding bottom_padding left_padding right_padding]. lia.
Qed.

Lemma next_patch_covers_image_witness :
  exists l d, next_patch (init 64 64 (Some 48) 16) = Some l /\ In d l /\
    p_h d + top_padding d <= 40 < p_h d + 48 - bottom_padding d /\
    p_w d + left_padding d <= 5 < p_w d + 48 - right_padding d.
Proof.
  apply (next_patch_covers_image 64 64 48 16 40 5); try lia; reflexivity.
Defined.

(** ** The default patch size *)

(** X14: with the default patch size [H // 2 + padding], a square image of
    even side [2 * m] (with [padding < m]) is cut into four tiles, one per
    corner, each with the padding on its two inner sides only. *)
Theorem next_patch_default_four_tiles (m p : Z) :
  p < m ->
  next_patch (init (2 * m) (2 * m) None p) =
  Some [mkPatch 0 0 0 0 p p; mkPatch 0 (m - p) 0 p p 0;
        mkPatch (m - p) 0 p 0 0 p; mkPatch (m - p) (m - p) p p 0 0].
Proof.
  intros Hp. unfold next_patch, init.
  cbn [H W padding patch_size _calc_patch_size].
  assert (Eh : 2 * m / 2 = m) by (rewrite Z.mul_comm; apply Z.div_mul; lia).
  rewrite Eh.
  destruct (Z.eqb_spec (m + p - p * 2) 0) as [E|_]; [lia|].
  assert (En : ceil_div (2 * m - p * 2) (m + p - p * 2) = 2).
  { unfold ceil_div. replace (- (2 * m - p * 2)) with (-2 * (m + p - p * 2)) by lia.
    rewrite Z.div_mul by lia. reflexivity. }
  rewrite En. change (range 2) with [0; 1]. cbn [flat_map map app].
  unfold offset, start_padding, end_padding.
  change (2 - 1) with 1. cbn [Z.eqb Pos.eqb].
  replace (2 * m - (m + p)) with (m - p) by lia. reflexivity.
Qed.

Lemma next_patch_default_four_tiles_witness :
  next_patch (init (2 * 32) (2 * 32) None 16) =
  Some [mkPatch 0 0 0 0 16 16; mkPatch 0 (32 - 16) 0 16 16 0;
        mkPatch (32 - 16) 0 16 0 0 16; mkPatch (32 - 16) (32 - 16) 16 16 0 0].
Proof. apply (next_patch_default_four_tiles 32 16). lia. Defined.

(** ** Images that are too small *)

Lemma ceil_div_nonpositive (a b : Z) : 0 < b -> a <= 0 -> ceil_div a b <= 0.
Proof.
  intros Hb Ha. unfold ceil_div.
  assert (0 <= - a / b) by (apply Z.div_pos; lia). lia.
Qed.

Lemma range_nonpositive (n : Z) : n <= 0 -> range n = [].
Proof. intros Hn. unfold range. replace (Z.to_nat n) with 0%nat by lia. reflexivity. Qed.

Lemma flat_map_nil {A B : Type} (f : A -> list B) (l : list A) :
  (forall a, f a = []) -> flat_map f l = [].
Proof. intros Hf. induction l as [|a l IH]; cbn; [reflexivity|]. now rewrite Hf, IH. Qed.

(** X15: when the image is not larger than twice the padding along one of
    its axes, [next_patch] yields no tile at all (and raises nothing). *)
Theorem next_patch_small_image (h w ps p : Z) :
  2 * p < ps -> h <= 2 * p \/ w <= 2 * p ->
  next_patch (init h w (Some ps) p) = Some [].
Proof.
  intros Hps Hsmall. unfold next_patch, init.
  cbn [H W padding patch_size _calc_patch_size].
  destruct (Z.eqb_spec (ps - p * 2) 0) as [E|_]; [lia|]. f_equal.
  destruct Hsmall as [Hh|Hw].
  - rewrite (range_nonpositive (ceil_div (h - p * 2) (ps - p * 2)))
      by (apply ceil_div_nonpositive; lia).
    reflexivity.
  - apply flat_map_nil. intros i.
    rewrite (range_nonpositive (ceil_div (w - p * 2) (ps - p * 2)))
      by (apply ceil_div_nonpositive; lia).
    reflexivity.
Qed.

Lemma next_patch_small_image_witness : next_patch (init 32 100 (Some 48) 16) = Some [].
Proof. apply (next_patch_small_image 32 100 48 16); lia. Defined.

End PatchGridCoverage.

Module LossRange.
Import Lists WeightRange PatchFactorCheck FiniteEntries FiniteSpectra LossOfEqualInputs.
Import FFL Spectra.
Local Open Scope Z_scope.

(** ** The weight matrix calculated online *)

Lemma flatten5_map5 (f : xreal -> xreal) (t : tensor5) :
  flatten5 (map5 f t) = map f (flatten5 t).
Proof. unfold flatten5, map5. now rewrite <- !concat_map. Qed.

Section Online.
Variables (xsqrt : xreal -> xreal) (xpow : xreal -> Q -> xreal) (xlog : xreal -> xreal).
Variable fft2 : list (list xreal) -> spectrum.
Variable cfg : config.

Lemma online_matrix_entries (R T : freq_tensor) (M : tensor5) :
  online_matrix xsqrt xpow xlog cfg R T = inr M -> Forall in_unit (flatten5 M).
Proof.
  unfold online_matrix.
  destruct (if batch_matrix cfg then _ else _) as [e|M3]; [discriminate|].
  intros [= <-]. rewrite !flatten5_map5, map_map.
  apply Forall_forall. intros v Hv. apply in_map_iff in Hv.
  destruct Hv as [a [<- _]]. apply in_unit_clamp.
Qed.

(** X16: without a supplied weight matrix, [forward] never fails with the
    range error of the weight matrix, whatever the inputs hold (NaN and
    infinities included): the matrix calculated online always passes the
    assertion. *)
Theorem forward_online_never_range_error (pred target : tensor4) (mn mx : xreal) :
  forward xsqrt xpow xlog fft2 cfg pred target None <> inl (WeightRangeError mn mx).
Proof.
  unfold forward.
  destruct (tensor2freq fft2 cfg pred) as [e|F] eqn:EF.
  { unfold tensor2freq in EF. destruct (_ =? 0); [injection EF as <-; discriminate|].
    destruct (negb _); [injection EF as <-; discriminate|].
    destruct (flat_map _ _); [injection EF as <-; discriminate|discriminate]. }
  destruct (tensor2freq fft2 cfg target) as [e|G] eqn:EG.
  { unfold tensor2freq in EG. destruct (_ =? 0); [injection EG as <-; discriminate|].
    destruct (negb _); [injection EG as <-; discriminate|].
    destruct (flat_map _ _); [injection EG as <-; discriminate|discriminate]. }
  set (F' := if ave_spectrum cfg then batch_mean F else F).
  set (G' := if ave_spectrum cfg then batch_mean G else G).
  destruct (loss_formulation xsqrt xpow xlog cfg F' G' None) as [e|l] eqn:El; [|discriminate].
  intros Heq. injection Heq as He. subst e.
  unfold loss_formulation in El.
  destruct (online_matrix xsqrt xpow xlog cfg F' G') as [e|M] eqn:EM.
  { injection El as He. subst e. apply online_matrix_errors in EM. discriminate. }
  pose proof (online_matrix_entries _ _ _ EM) as Hunit.
  destruct (min_list (flatten5 M)) as [mn'|] eqn:Emn; [|discriminate].
  destruct (max_list (flatten5 M)) as [mx'|] eqn:Emx; [|discriminate].
  apply (range_check _ _ _ Emn Emx) in Hunit. rewrite Hunit in El.
  destruct (same_shape _ _); discriminate.
Qed.

End Online.

(** ** Patches *)

(** X17: the entry at row [a] and column [b] of the patch [(i, j)] that
    [tensor2freq] crops is the entry of the image at row [i * patch_h + a]
    and column [j * patch_w + b]. *)
Theorem crop_pixel (patch_h patch_w i j : Z) (m : list (list xreal)) (a b : nat) :
  (a < Z.to_nat patch_h)%nat -> (b < Z.to_nat patch_w)%nat ->
  pixel (crop patch_h patch_w i j m) a b =
  pixel m (Z.to_nat (i * patch_h) + a) (Z.to_nat (j * patch_w) + b).
Proof.
  intros Ha Hb. unfold pixel, crop.
  rewrite nth_error_map, nth_error_firstn.
  destruct (Nat.ltb_spec a (Z.to_nat patch_h)) as [_|]; [|lia].
  rewrite nth_error_skipn.
  destruct (nth_error m (Z.to_nat (i * patch_h) + a)) as [row|]; cbn [option_map];
    [|reflexivity].
  rewrite nth_error_firstn.
  destruct (Nat.ltb_spec b (Z.to_nat patch_w)) as [_|]; [|lia].
  apply nth_error_skipn.
Qed.

Lemma crop_pixel_witness :
  pixel (crop 1 1 1 0 [[Fin 1; Fin 2]; [Fin 3; Fin 4]]) 0 0 =
  pixel [[Fin 1; Fin 2]; [Fin 3; Fin 4]] (Z.to_nat (1 * 1) + 0) (Z.to_nat (0 * 1) + 0).
Proof. apply (crop_pixel 1 1 1 0 [[Fin 1; Fin 2]; [Fin 3; Fin 4]] 0 0); cbn; lia. Defined.

Lemma length_flat_map_const {A B : Type} (f : A -> list B) (l : list A) (n : nat) :
  (forall a, length (f a) = n) -> length (flat_map f l) = (length l * n)%nat.
Proof.
  intros Hf. induction l as [|a l IH]; cbn [flat_map length]; [reflexivity|].
  rewrite length_app, Hf, IH. lia.
Qed.

Lemma Forall2_map_right {A B : Type} (R : A -> B -> Prop) (f : A -> B) (l : list A) :
  (forall a, R a (f a)) -> Forall2 R l (map f l).
Proof. intros H. induction l as [|a l IH]; cbn; constructor; auto. Qed.

(** X18: the frequency tensor of a batch has one entry per image, each with
    [patch_factor * patch_factor] patches, each with as many spectra as the
    image has channels. *)
Theorem tensor2freq_shape (fft2 : list (list xreal) -> spectrum) (cfg : config)
    (x : tensor4) (F : freq_tensor) :
  tensor2freq fft2 cfg x = inr F ->
  Forall2 (fun image patches =>
             length patches = Z.to_nat (patch_factor cfg * patch_factor cfg) /\
             Forall (fun channels => length channels = length image) patches) x F.
Proof.
  unfold tensor2freq.
  destruct (Z.eqb_spec (patch_factor cfg) 0) as [|Hpf]; [discriminate|].
  destruct (negb _); [discriminate|]. cbv zeta.
  set (ph := Z.of_nat (length (hd [] (hd [] x))) / patch_factor cfg).
  set (pw := Z.of_nat (length (hd [] (hd [] (hd [] x)))) / patch_factor cfg).
  assert (Lpl : length (flat_map (fun i => map (fun j => (i, j)) (range (patch_factor cfg)))
                          (range (patch_factor cfg)))
                = (Z.to_nat (patch_factor cfg) * Z.to_nat (patch_factor cfg))%nat).
  { rewrite length_flat_map_const with (n := Z.to_nat (patch_factor cfg)).
    - unfold range. now rewrite length_map, length_seq.
    - intros i. unfold range. now rewrite !length_map, length_seq. }
  set (pl := flat_map _ _) in *. clearbody pl. clearbody ph pw.
  intros Hres.
  assert (HF : F = map (map (map fft2))
                 (map (fun image => map (fun ij =>
                    map (crop ph pw (fst ij) (snd ij)) image) pl) x) /\ pl <> []).
  { destruct pl; [discriminate|]. injection Hres as <-. split; [reflexivity|discriminate]. }
  destruct HF as [-> Hne]. clear Hres.
  assert (Hpos : 0 < patch_factor cfg).
  { destruct (Z.lt_ge_cases 0 (patch_factor cfg)) as [|Hneg]; [assumption|].
    replace (Z.to_nat (patch_factor cfg)) with 0%nat in Lpl by lia.
    destruct pl; [congruence|discriminate Lpl]. }
  rewrite map_map. apply Forall2_map_right. intros image. split.
  - rewrite Z2Nat.inj_mul by lia. rewrite <- Lpl. now rewrite !length_map.
  - apply Forall_forall. intros chans Hc. apply in_map_iff in Hc.
    destruct Hc as [y [<- Hy]]. apply in_map_iff in Hy. destruct Hy as [ij [<- _]].
    now rewrite !length_map.
Qed.

Lemma tensor2freq_shape_witness :
  exists F, tensor2freq dft2_small default_config image2 = inr F /\
    Forall2 (fun image patches =>
               length patches = Z.to_nat (patch_factor default_config * patch_factor default_config) /\
               Forall (fun channels => length channels = length image) patches) image2 F.
Proof.
  destruct (tensor2freq dft2_small default_config image2) as [e|F] eqn:E;
    [vm_compute in E; discriminate E|].
  exists F. split; [reflexivity|].
  exact (tensor2freq_shape dft2_small default_config image2 F E).
Defined.

(** ** The loss is never negative *)

Lemma Qsquare_nonneg (x : Q) : (0 <= x * x)%Q.
Proof.
  destruct (Qlt_le_dec x 0) as [Hx|Hx].
  - assert (E : (x * x == (- x) * (- x))%Q) by ring. rewrite E.
    apply Qmult_le_0_compat; lra.
  - apply Qmult_le_0_compat; assumption.
Qed.

Lemma xsquare_not_negative (d : xreal) : not_negative (xmul d d).
Proof. destruct d as [q| | |]; cbn; try exact I. apply Qsquare_nonneg. Qed.

Lemma xadd_not_negative (a b : xreal) :
  not_negative a -> not_negative b -> not_negative (xadd a b).
Proof. destruct a as [p| | |], b as [q| | |]; cbn; try tauto. intros; lra. Qed.

Lemma distance_not_negative (p q : xreal * xreal) : not_negative (distance p q).
Proof. unfold distance. apply xadd_not_negative; apply xsquare_not_negative. Qed.

Lemma inf_of_sign_not_negative (s : Z) : 0 <= s -> not_negative (inf_of_sign s).
Proof.
  intros Hs. unfold inf_of_sign. destruct (Z.eqb_spec s 0); [exact I|].
  destruct (Z.ltb_spec 0 s); [exact I|lia].
Qed.

Lemma Qsign_nonneg (q : Q) : (0 <= q)%Q -> 0 <= Qsign q.
Proof.
  intros H. unfold Qsign. unfold Qle in H. cbn in H. rewrite Z.mul_1_r in H.
  apply Z.sgn_nonneg. exact H.
Qed.

Lemma xmul_not_negative (w d : xreal) :
  match w with Fin p => (0 <= p)%Q | _ => False end ->
  not_negative d -> not_negative (xmul w d).
Proof.
  destruct w as [p| | |]; try tauto. intros Hp.
  destruct d as [q| | |]; cbn [not_negative]; try tauto; intros Hq;
    [cbn; apply Qmult_le_0_compat; assumption|].
  cbn [xmul xsign]. rewrite Z.mul_1_r. apply inf_of_sign_not_negative, Qsign_nonneg, Hp.
Qed.

Lemma xmul_unit_not_negative (w d : xreal) :
  in_unit w -> not_negative d -> not_negative (xmul w d).
Proof.
  intros Hw. apply xmul_not_negative. destruct w; cbn in Hw; tauto.
Qed.

Lemma xsum_not_negative (l : list xreal) : Forall not_negative l -> not_negative (xsum l).
Proof.
  induction 1 as [|a l Ha _ IH]; cbn; [lra|].
  apply xadd_not_negative; assumption.
Qed.

Lemma xmean_not_negative (l : list xreal) : Forall not_negative l -> not_negative (xmean l).
Proof.
  intros Hall. pose proof (xsum_not_negative l Hall) as Hs.
  destruct l as [|a l]; [exact I|]. unfold xmean.
  destruct (xsum (a :: l)) as [q| | |]; cbn [not_negative] in Hs; try tauto.
  unfold xdiv. rewrite Qeq_bool_count by (cbn; lia).
    cbn [not_negative]. apply Qle_shift_div_l; [|lra].
    change 0%Q with (inject_Z 0). rewrite <- Zlt_Qlt. cbn [length]. lia.
Qed.

Lemma Forall_True {A : Type} (l : list A) : Forall (fun _ => True) l.
Proof. apply Forall_forall. intros; exact I. Qed.

Lemma crop_nonempty (patch_h patch_w i j : Z) (m : list (list xreal)) (h w : nat) :
  length m = h -> Forall (fun row => length row = w) m ->
  1 <= patch_h -> 1 <= patch_w -> 0 <= i -> 0 <= j ->
  (i + 1) * patch_h <= Z.of_nat h -> (j + 1) * patch_w <= Z.of_nat w ->
  nonempty2 (crop patch_h patch_w i j m).
Proof.
  intros Hh Hw Hph Hpw Hi Hj Hih Hjw. unfold nonempty2, crop.
  apply ne_all_map with (P := fun row : list xreal => length row = w).
  - intros row Hl. apply ne_all_cut; [apply Forall_True|lia|]. rewrite Hl. nia.
  - apply ne_all_cut; [exact Hw|lia|rewrite Hh; nia].
Qed.

Lemma batch_mean_nonempty (F : freq_tensor) :
  ne5 (fun _ => True) F -> ne5 (fun _ => True) (batch_mean F).
Proof.
  intros [Hne Hall]. destruct F as [|f r]; [exfalso; apply Hne; reflexivity|].
  apply Forall_cons_iff in Hall. destruct Hall as [Hf Hr].
  unfold batch_mean. split; [discriminate|]. constructor; [|constructor].
  assert (Hs : ne_all (ne_all (ne_all (ne_all (fun _ : xreal * xreal => True))))
                 (fold_left (zip (zip (zip (zip pair_add)))) r f)).
  { clear Hne. revert f Hf. induction Hr as [|g r Hg _ IH]; intros f Hf; cbn [fold_left].
    - exact Hf.
    - apply IH. revert Hf Hg. repeat (apply ne_all_zip; intros ? ?). auto. }
  revert Hs. repeat (apply ne_all_map; intros ?). auto.
Qed.

Section AnyInputs.
Variables (xsqrt : xreal -> xreal) (xpow : xreal -> Q -> xreal) (xlog : xreal -> xreal).
Variable fft2 : list (list xreal) -> spectrum.
Variable cfg : config.

Lemma online_matrix_of_distance (P : xreal -> Prop) (F G : freq_tensor) :
  ne5 P (freq_distance F G) ->
  exists M, online_matrix xsqrt xpow xlog cfg F G = inr M /\
    ne5 in_unit M /\ shape5 M = shape5 (freq_distance F G).
Proof.
  intros HD.
  unfold online_matrix. set (D := freq_distance F G) in *. clearbody D.
  set (M1 := map5 (fun d => xpow (xsqrt d) (alpha cfg)) D).
  assert (H1 : ne5 (fun _ => True) M1 /\ shape5 M1 = shape5 D).
  { split; [|apply shape5_map5]. revert HD. apply ne5_map5. auto. }
  clearbody M1.
  set (M2 := if log_matrix cfg then map5 (fun m => xlog (xadd m (Fin 1))) M1 else M1).
  assert (H2 : ne5 (fun _ => True) M2 /\ shape5 M2 = shape5 D).
  { subst M2. destruct (log_matrix cfg); [|exact H1]. destruct H1 as [A B].
    split; [|rewrite shape5_map5; exact B]. revert A. apply ne5_map5. auto. }
  clearbody M2. clear H1 HD. destruct H2 as [A B].
  assert (H3 : exists M3,
    (if batch_matrix cfg
     then match max_list (flatten5 M2) with
          | None => inl RuntimeError
          | Some mx => inr (map5 (fun m => xdiv m mx) M2)
          end
     else if forallb (forallb (forallb (fun m =>
               match max_list (concat m) with Some _ => true | None => false end))) M2
          then inr (map (map (map (fun m =>
                 match max_list (concat m) with
                 | Some mx => map (map (fun v => xdiv v mx)) m
                 | None => m
                 end))) M2)
          else inl RuntimeError) = inr M3 /\
     ne5 (fun _ => True) M3 /\ shape5 M3 = shape5 D).
  { destruct (batch_matrix cfg).
    - destruct (ne5_flatten _ _ A) as [Hne _].
      destruct (min_max_some _ Hne) as (mn & mx & _ & ->).
      eexists. split; [reflexivity|]. split; [|rewrite shape5_map5; exact B].
      revert A. apply ne5_map5. auto.
    - assert (Eall : forallb (forallb (forallb (fun m : list (list xreal) =>
               match max_list (concat m) with Some _ => true | None => false end))) M2
               = true).
      { destruct A as [_ A]. apply forallb_forall. intros a Ha.
        rewrite Forall_forall in A. destruct (A a Ha) as [_ A1].
        apply forallb_forall. intros b Hb.
        rewrite Forall_forall in A1. destruct (A1 b Hb) as [_ A2].
        apply forallb_forall. intros m Hm.
        rewrite Forall_forall in A2. specialize (A2 m Hm).
        destruct (ne_all_concat _ _ A2) as [Hne _].
        destruct (min_max_some _ Hne) as (mn & mx & _ & ->). reflexivity. }
      rewrite Eall. eexists. split; [reflexivity|]. split.
      + revert A. unfold ne5. repeat (apply ne_all_map; intros ?).
        intros Hm. destruct (max_list _); [|exact Hm].
        revert Hm. repeat (apply ne_all_map; intros ?). auto.
      + rewrite <- B. unfold shape5. rewrite map_map. apply map_ext. intros a.
        rewrite map_map. apply map_ext. intros b.
        rewrite map_map. apply map_ext. intros m.
        destruct (max_list _); [|reflexivity].
        rewrite map_map. apply map_ext. intros row. apply length_map. }
  destruct H3 as (M3 & -> & A3 & B3).
  eexists. split; [reflexivity|]. split.
  - apply ne5_map5 with (P := fun b => exists a, b = nan_to_zero a).
    + intros b [a ->]. apply in_unit_clamp.
    + revert A3. apply ne5_map5. intros a _. now exists a.
  - rewrite !shape5_map5. exact B3.
Qed.

Lemma tensor2freq_nonempty (x : tensor4) (n c h w : nat) :
  (forall m, nonempty2 m -> nonempty2 (fft2 m)) ->
  has_shape4 x n c h w ->
  (1 <= n)%nat -> (1 <= c)%nat -> (1 <= h)%nat -> (1 <= w)%nat ->
  0 < patch_factor cfg ->
  Z.of_nat h mod patch_factor cfg = 0 -> Z.of_nat w mod patch_factor cfg = 0 ->
  exists F, tensor2freq fft2 cfg x = inr F /\ ne5 (fun _ => True) F.
Proof.
  intros Hfft Hx Hn Hc Hh Hw Hpf Dh Dw.
  destruct (shape4_sizes x n c h w Hx Hn Hc Hh) as [Eh Ew].
  destruct (exact_division (Z.of_nat h) _ ltac:(lia) Hpf Dh) as [Ph Qh].
  destruct (exact_division (Z.of_nat w) _ ltac:(lia) Hpf Dw) as [Pw Qw].
  unfold tensor2freq. rewrite Eh, Ew. cbv zeta.
  destruct (Z.eqb_spec (patch_factor cfg) 0) as [E0|_]; [lia|].
  rewrite Dh, Dw. cbn [Z.eqb andb negb].
  pose proof (patch_list_nonempty (patch_factor cfg) Hpf) as Hne.
  pose proof (in_patch_list (patch_factor cfg)) as Hin.
  set (pl := flat_map _ _) in *. clearbody pl.
  destruct pl as [|p pl]; [congruence|]. eexists. split; [reflexivity|].
  destruct Hx as [Ex Hx]. unfold ne5.
  rewrite map_map. apply ne_all_map_in.
  { destruct x; [cbn in Ex; lia|discriminate]. }
  intros image Himage.
  rewrite Forall_forall in Hx.
  destruct (Hx image Himage) as [Ec Hch].
  rewrite map_map. apply ne_all_map_in; [discriminate|].
  intros ij Hij. destruct (Hin ij Hij) as [Hi Hj].
  rewrite map_map. apply ne_all_map_in.
  { destruct image; [cbn in Ec; lia|discriminate]. }
  intros channel Hchannel.
  rewrite Forall_forall in Hch.
  destruct (Hch channel Hchannel) as [El Hrows].
  apply Hfft.
  apply (crop_nonempty _ _ _ _ channel h w); try assumption; try lia; nia.
Qed.

Lemma loss_formulation_not_negative (F G : freq_tensor) :
  ne5 (fun _ => True) F -> ne5 (fun _ => True) G ->
  exists l, loss_formulation xsqrt xpow xlog cfg F G None = inr l /\ not_negative l.
Proof.
  intros HF HG.
  assert (HD : ne5 not_negative (freq_distance F G)).
  { revert HF HG. unfold ne5, freq_distance. repeat (apply ne_all_zip; intros ? ?).
    intros _ _. apply distance_not_negative. }
  destruct (online_matrix_of_distance not_negative F G HD) as (M & EM & HM & Hsh).
  unfold loss_formulation. rewrite EM.
  destruct (ne5_flatten _ _ HM) as [Hne Hall].
  destruct (min_max_some _ Hne) as (mn & mx & Emn & Emx). rewrite Emn, Emx.
  apply (range_check _ _ _ Emn Emx) in Hall. rewrite Hall.
  rewrite (same_shape_of_eq _ _ Hsh).
  eexists. split; [reflexivity|].
  apply xmean_not_negative. apply ne5_flatten.
  apply (ne5_zip5 in_unit not_negative); [apply xmul_unit_not_negative|exact HM|exact HD].
Qed.

(** X19: for a prediction and a target of one shape (N, C, H, W), whatever
    their entries are (NaN and infinities included), a patch factor dividing
    H and W and a loss weight that is not negative, [forward] raises nothing
    and never returns a negative number: the loss is NaN, the positive
    infinity or a number that is not negative, whatever the flags and the
    exponent of the configuration.  The Fourier transform is only assumed
    to return a spectrum for every patch. *)
Theorem forward_never_negative (pred target : tensor4) (n c h w : nat) :
  (forall m, nonempty2 m -> nonempty2 (fft2 m)) ->
  has_shape4 pred n c h w -> has_shape4 target n c h w ->
  (1 <= n)%nat -> (1 <= c)%nat -> (1 <= h)%nat -> (1 <= w)%nat ->
  0 < patch_factor cfg ->
  Z.of_nat h mod patch_factor cfg = 0 -> Z.of_nat w mod patch_factor cfg = 0 ->
  (0 <= loss_weight cfg)%Q ->
  exists v, forward xsqrt xpow xlog fft2 cfg pred target None = inr v /\ not_negative v.
Proof.
  intros Hfft Hp Ht Hn Hc Hh Hw Hpf Dh Dw Hlw.
  destruct (tensor2freq_nonempty pred n c h w Hfft Hp Hn Hc Hh Hw Hpf Dh Dw)
    as (F & EF & HF).
  destruct (tensor2freq_nonempty target n c h w Hfft Ht Hn Hc Hh Hw Hpf Dh Dw)
    as (G & EG & HG).
  unfold forward. rewrite EF, EG.
  set (F' := if ave_spectrum cfg then batch_mean F else F).
  set (G' := if ave_spectrum cfg then batch_mean G else G).
  assert (HF' : ne5 (fun _ => True) F').
  { subst F'. destruct (ave_spectrum cfg); [apply batch_mean_nonempty|]; exact HF. }
  assert (HG' : ne5 (fun _ => True) G').
  { subst G'. destruct (ave_spectrum cfg); [apply batch_mean_nonempty|]; exact HG. }
  destruct (loss_formulation_not_negative F' G' HF' HG') as (l & -> & Hl).
  eexists. split; [reflexivity|].
  destruct l as [q| | |]; cbn [not_negative] in Hl; try tauto.
  - cbn. apply Qmult_le_0_compat; assumption.
  - cbn [xmul xsign]. rewrite Z.mul_1_l. apply inf_of_sign_not_negative, Qsign_nonneg, Hlw.
Qed.

End AnyInputs.

Lemma dft2_small_nonempty (m : list (list xreal)) : nonempty2 m -> nonempty2 (dft2_small m).
Proof.
  intros H.
  assert (Hmap : nonempty2 (map (map (fun v => (v, Fin 0))) m)).
  { revert H. unfold nonempty2. repeat (apply ne_all_map; intros ?). auto. }
  unfold dft2_small.
  repeat match goal with
         | |- context [match ?l with _ => _ end] => is_var l; destruct l
         end; try exact Hmap.
  unfold nonempty2, ne_all. repeat first [discriminate | exact I | split | constructor].
Qed.

(** A batch with an infinite entry and a batch with a NaN entry. *)
Lemma forward_never_negative_witness :
  exists v, forward (fun a => a) (fun a _ => a) (fun a => a) dft2_small default_config
              [[[[Fin 1; PInf]; [Fin 3; Fin 4]]]] [[[[Fin 4; Fin 3]; [NaN; Fin 1]]]] None
            = inr v /\ not_negative v.
Proof.
  apply (forward_never_negative (fun a => a) (fun a _ => a) (fun a => a) dft2_small
           default_config _ _ 1 1 2 2 dft2_small_nonempty);
    try (cbn; lia); try reflexivity.
  - split; [reflexivity|]. repeat constructor.
  - split; [reflexivity|]. repeat constructor.
  - unfold Qle; cbn; lia.
Defined.

End LossRange.

Module SADSymmetry.
Import Lists.
Import Reals Lra.
Import SAD SADBound SADFacts SADNotions.
Local Open Scope R_scope.

(** ** The loss is symmetric *)

Lemma map_combine_swap {A B C : Type} (g : A -> B -> C) (a : list A) (b : list B) :
  map (fun p => g (fst p) (snd p)) (combine a b) =
  map (fun p => g (snd p) (fst p)) (combine b a).
Proof.
  revert b. induction a as [|x a IH]; intros [|y b]; cbn; try reflexivity.
  now rewrite IH.
Qed.

Lemma mzip_comm (f : R -> R -> R) (a b : list (list R)) :
  (forall u v, f u v = f v u) -> mzip R f a b = mzip R f b a.
Proof.
  intros Hf. unfold mzip.
  rewrite (map_combine_swap
             (fun r1 r2 => map (fun q => f (fst q) (snd q)) (combine r1 r2)) a b).
  apply map_ext. intros [r2 r1]. cbn [fst snd].
  rewrite (map_combine_swap f r1 r2). apply map_ext. intros [u v]. apply Hf.
Qed.

Lemma map_combine_swap_ext {A B C : Type} (F : A * B -> C) (G : B * A -> C)
    (a : list A) (b : list B) :
  (forall u v, F (u, v) = G (v, u)) -> map F (combine a b) = map G (combine b a).
Proof.
  intros H. revert b. induction a as [|x a IH]; intros [|y b]; cbn; try reflexivity.
  now rewrite H, IH.
Qed.

Lemma cosine_similarityR_comm (x y : tensor4 R) :
  cosine_similarityR x y = cosine_similarityR y x.
Proof.
  unfold cosine_similarityR, cosine_similarity.
  apply map_combine_swap_ext. intros a b. cbn [fst snd].
  f_equal. apply map_combine_swap_ext. intros u v. cbn [fst snd].
  apply mzip_comm. apply Rmult_comm.
Qed.

(** X20: in exact arithmetic the spectral-angle loss is symmetric:
    [forward x y] and [forward y x] are the same number, for inputs of any
    shapes. *)
Theorem forward_symmetric (acos : R -> R) (mean : list R -> R) (x y : tensor4 R) :
  forward R cosine_similarityR acos mean x y = forward R cosine_similarityR acos mean y x.
Proof. unfold forward, acos_arguments. now rewrite cosine_similarityR_comm. Qed.

(** ** Pixels against themselves, and zero pixels *)

Lemma combine_same {A : Type} (a : list A) : combine a a = map (fun c => (c, c)) a.
Proof. induction a as [|c a IH]; cbn; [reflexivity|now rewrite IH]. Qed.

Lemma cosine_image (x y : tensor4 R) (k : nat) (a b : tensor3 R) (m : list (list R)) :
  nth_error x k = Some a -> nth_error y k = Some b ->
  nth_error (cosine_similarityR x y) k = Some m ->
  m = msum R Rplus (map (fun q => mzip R Rmult (fst q) (snd q))
        (combine (normalize R Rplus Rmult Rdiv sqrt (fun v => Rmax v epsR) a)
                 (normalize R Rplus Rmult Rdiv sqrt (fun v => Rmax v epsR) b))).
Proof.
  intros Ea Eb. unfold cosine_similarityR, cosine_similarity.
  unfold tensor4, tensor3 in *.
  rewrite nth_error_map, nth_error_combine, Ea, Eb. cbn [option_map fst snd].
  now intros [= <-].
Qed.

(** X21: in exact arithmetic the cosine similarity of an image with itself
    is exactly 1 at every pixel whose norm is at least [eps = 1e-8]. *)
Theorem cosine_similarity_self (x : tensor4 R) (k i j : nat) (a : tensor3 R)
    (m : list (list R)) (v p : R) :
  nth_error x k = Some a ->
  nth_error (cosine_similarityR x x) k = Some m -> entry m i j = Some v ->
  entry (squared_norms a) i j = Some p -> epsR <= sqrt p ->
  v = 1.
Proof.
  intros Ea Em Ev Ep Hp.
  pose proof (cosine_image x x k a a m Ea Ea Em) as ->.
  rewrite combine_same, map_map in Ev. cbn [fst snd] in Ev.
  unfold squared_norms in Ep.
  rewrite (normalize_squares a i j p Ep) in Ev. injection Ev as <-.
  pose proof epsR_positive as He.
  assert (Hpos : 0 < p).
  { destruct (Rlt_le_dec 0 p) as [|Hle]; [assumption|].
    rewrite (sqrt_neg_0 p Hle) in Hp. lra. }
  rewrite Rmax_left by exact Hp.
  rewrite sqrt_sqrt by lra. unfold Rdiv. apply Rinv_r. lra.
Qed.

Lemma cosine_similarity_self_witness :
  exists m v,
    nth_error (cosine_similarityR pixel_34 pixel_34) 0 = Some m /\
    entry m 0 0 = Some v /\ v = 1.
Proof.
  eexists. eexists. split; [reflexivity|]. split; [reflexivity|].
  eapply (cosine_similarity_self pixel_34 0 0 0 [[[3]]; [[4]]]).
  - reflexivity.
  - reflexivity.
  - reflexivity.
  - reflexivity.
  - change (epsR <= sqrt (3 * 3 + 4 * 4)).
    replace (3 * 3 + 4 * 4) with (5 * 5) by lra.
    rewrite sqrt_square by lra. pose proof epsR_positive. unfold epsR in *.
    assert (/ 100000000 <= 1); [|lra].
    rewrite <- Rinv_1. apply Rinv_le_contravar; lra.
Defined.

(** X22: in exact arithmetic the cosine similarity is 0 at every pixel where
    the first image is the zero vector, whatever the second image holds. *)
Theorem cosine_similarity_zero_pixel (x y : tensor4 R) (k i j : nat) (a b : tensor3 R)
    (m : list (list R)) (v : R) :
  nth_error x k = Some a -> nth_error y k = Some b ->
  nth_error (cosine_similarityR x y) k = Some m -> entry m i j = Some v ->
  entry (squared_norms a) i j = Some 0 ->
  v = 0.
Proof.
  intros Ea Eb Em Ev Ep.
  pose proof (cosine_image x y k a b m Ea Eb Em) as ->.
  destruct (cosine_pixel a b i j v Ev) as (p & q & Ep' & _ & _ & _ & Hb).
  unfold squared_norms in Ep. assert (p = 0) by congruence. subst p.
  unfold Rdiv in Hb at 1. rewrite Rmult_0_l, Rmult_0_l in Hb. nra.
Qed.

Lemma cosine_similarity_zero_pixel_witness :
  exists m v,
    nth_error (cosine_similarityR pixel_00 pixel_34) 0 = Some m /\
    entry m 0 0 = Some v /\ v = 0.
Proof.
  eexists. eexists. split; [reflexivity|]. split; [reflexivity|].
  eapply (cosine_similarity_zero_pixel pixel_00 pixel_34 0 0 0
            [[[0]]; [[0]]] [[[3]]; [[4]]]).
  - reflexivity.
  - reflexivity.
  - reflexivity.
  - reflexivity.
  - change (Some (0 * 0 + 0 * 0) = Some 0). f_equal. lra.
Defined.

End SADSymmetry.

Module TrainingFacts.
Import Lists.
Import String Ascii.
Import Training.

(** *** Strings *)

Lemma append_inv_head (s a b : string) : (s ++ a = s ++ b)%string -> a = b.
Proof.
  induction s as [|c s IH]; cbn; intros H.
  - exact H.
  - injection H as H. exact (IH H).
Qed.

Lemma list_ascii_of_append (a b : string) :
  list_ascii_of_string (a ++ b) = (list_ascii_of_string a ++ list_ascii_of_string b)%list.
Proof.
  induction a as [|c a IH]; cbn.
  - reflexivity.
  - now rewrite IH.
Qed.

Lemma append_inv_tail (a b t : string) : (a ++ t = b ++ t)%string -> a = b.
Proof.
  intros H. apply (f_equal list_ascii_of_string) in H.
  rewrite !list_ascii_of_append in H. apply app_inv_tail in H.
  rewrite <- (string_of_list_ascii_of_string a), <- (string_of_list_ascii_of_string b).
  now rewrite H.
Qed.

Lemma format_d_inj (a b : Z) : format_d a = format_d b -> a = b.
Proof.
  unfold format_d. intros H.
  assert (N : forall z, DecimalString.NilZero.int_of_string
                (DecimalString.NilZero.string_of_int (Z.to_int z)) = Some (Z.to_int z)).
  { intros z. apply DecimalString.NilZero.isi.
    - destruct z as [|p|p]; cbn; try discriminate.
      intros E. injection E as E. now apply (DecimalPos.Unsigned.to_uint_nonnil p).
    - destruct z as [|p|p]; cbn; try discriminate.
      intros E. injection E as E. now apply (DecimalPos.Unsigned.to_uint_nonnil p). }
  pose proof (N a) as Na. rewrite H, N in Na. injection Na as Na.
  rewrite <- (DecimalZ.of_to a), <- (DecimalZ.of_to b). now rewrite Na.
Qed.

Lemma append_assoc' (a b c : string) : (a ++ (b ++ c) = (a ++ b) ++ c)%string.
Proof. induction a as [|x a IH]; cbn; [reflexivity | now rewrite IH]. Qed.

Lemma join_relative (a b : string) :
  prefix "/" b = false ->
  exists s, join a b = (s ++ b)%string /\ forall b', prefix "/" b' = false -> join a b' = (s ++ b')%string.
Proof.
  intros Hb. unfold join. rewrite Hb.
  destruct (String.eqb a "" || ends_with_sep a).
  - exists a. split; [reflexivity|]. intros b' ->. reflexivity.
  - exists (a ++ "/")%string. split.
    + now rewrite <- append_assoc'.
    + intros b' ->. now rewrite <- append_assoc'.
Qed.

Lemma in_calls (epochs len e it : Z) :
  In (e, it) (calls epochs len) <->
  exists epoch i, 0 <= epoch < epochs /\ 0 <= i < len /\
                  e = epoch + 1 /\ it = epoch * len + i + 1.
Proof.
  unfold calls. rewrite in_flat_map. split.
  - intros (epoch & He & Hin). apply in_map_iff in Hin. destruct Hin as (i & Heq & Hi).
    apply in_range in He. apply in_range in Hi. injection Heq as <- <-.
    exists epoch, i. repeat split; lia.
  - intros (epoch & i & He & Hi & -> & ->). exists epoch. split.
    + now apply in_range.
    + apply in_map_iff. exists i. split; [reflexivity | now apply in_range].
Qed.

(** In the loop, the iteration count is a multiple of the length of the
    loader exactly at the last batch of an epoch. *)
Lemma last_batch (epochs len e it : Z) :
  In (e, it) (calls epochs len) ->
  0 < len /\ 1 <= e <= epochs /\ (it mod len = 0 <-> it = e * len).
Proof.
  intros H. apply in_calls in H. destruct H as (epoch & i & He & Hi & -> & ->).
  split; [lia|]. split; [lia|]. split.
  - intros Hm.
    replace (epoch * len + i + 1) with ((i + 1) + epoch * len) in Hm by lia.
    rewrite Z.mod_add in Hm by lia.
    destruct (Z.eq_dec (i + 1) len) as [E|E]; [nia|].
    rewrite Z.mod_small in Hm by lia. lia.
  - intros E. replace (epoch * len + i + 1) with (0 + (epoch + 1) * len) by lia.
    rewrite Z.mod_add by lia. apply Zmod_0_l.
Qed.

Lemma epoch_name_relative (e b : Z) :
  prefix "/" ("G_epoch" ++ format_d e ++ "_bs" ++ format_d b ++ ".pth") = false.
Proof. reflexivity. Qed.

Lemma iter_name_relative (e b : Z) :
  prefix "/" ("G_iter" ++ format_d e ++ "_bs" ++ format_d b ++ ".pth") = false.
Proof. reflexivity. Qed.

Lemma save_model_epoch_mode (opt : options) (e it len : Z) (m : bool) :
  save_mode opt = "epoch"%string ->
  save_model opt e it len m =
    match modulo e (save_by_epoch opt) with
    | None => Raises ZeroDivisionError
    | Some r =>
      if r =? 0
      then match modulo it len with
           | None => Raises ZeroDivisionError
           | Some r' =>
             if r' =? 0
             then if m then Saves (join (save_path opt)
                    ("G_epoch" ++ format_d e ++ "_bs" ++ format_d (batch_size opt) ++ ".pth"))
                  else Raises AttributeError
             else Nothing
           end
      else Nothing
    end.
Proof.
  intros Hm. unfold save_model. rewrite Hm. cbn [String.eqb Ascii.eqb Bool.eqb].
  change (String.eqb "epoch" "epoch") with true.
  change (String.eqb "epoch" "iter") with false. cbv iota.
  destruct (modulo e (save_by_epoch opt)) as [r|]; [|reflexivity].
  destruct (r =? 0); [|reflexivity].
  destruct (modulo it len) as [r'|]; [|reflexivity].
  destruct (r' =? 0); [|reflexivity].
  destruct m; reflexivity.
Qed.

Lemma save_model_iter_mode (opt : options) (e it len : Z) (m : bool) :
  save_mode opt = "iter"%string ->
  save_model opt e it len m =
    match modulo it (save_by_iter opt) with
    | None => Raises ZeroDivisionError
    | Some r =>
      if r =? 0
      then if m then Saves (join (save_path opt)
             ("G_iter" ++ format_d it ++ "_bs" ++ format_d (batch_size opt) ++ ".pth"))
           else Raises AttributeError
      else Nothing
    end.
Proof.
  intros Hm. unfold save_model. rewrite Hm.
  change (String.eqb "iter" "epoch") with false.
  change (String.eqb "iter" "iter") with true. cbv iota.
  destruct (modulo it (save_by_iter opt)) as [r|]; [|reflexivity].
  destruct (r =? 0); [|reflexivity].
  destruct m; reflexivity.
Qed.

Lemma save_model_other_mode (opt : options) (e it len : Z) (m : bool) :
  save_mode opt <> "epoch"%string -> save_mode opt <> "iter"%string ->
  save_model opt e it len m = Raises UnboundLocalError.
Proof.
  intros H1 H2. unfold save_model.
  apply String.eqb_neq in H1. apply String.eqb_neq in H2. now rewrite H1, H2.
Qed.

(** X23: in the training loop with [save_mode = 'epoch'] and a positive
    [save_by_epoch], a checkpoint is written at the last batch of every epoch
    whose number (counted from one) is a multiple of [save_by_epoch], under
    the name [G_epoch<e>_bs<batch_size>.pth] in [save_path], and at no other
    step of the loop. *)
Theorem save_model_epoch_schedule (opt : options) (epochs len e it : Z) :
  save_mode opt = "epoch"%string ->
  0 < save_by_epoch opt ->
  In (e, it) (calls epochs len) ->
  save_model opt e it len true =
    if (e mod save_by_epoch opt =? 0) && (it =? e * len)
    then Saves (join (save_path opt)
           ("G_epoch" ++ format_d e ++ "_bs" ++ format_d (batch_size opt) ++ ".pth"))
    else Nothing.
Proof.
  intros Hm Hk Hin. rewrite (save_model_epoch_mode _ _ _ _ _ Hm).
  destruct (last_batch _ _ _ _ Hin) as (Hlen & He & Hlast).
  unfold modulo.
  destruct (Z.eqb_spec (save_by_epoch opt) 0) as [E|_]; [lia|].
  destruct (Z.eqb_spec len 0) as [E|_]; [lia|].
  destruct (Z.eqb_spec (e mod save_by_epoch opt) 0) as [E1|E1]; cbn [andb]; [|reflexivity].
  destruct (Z.eqb_spec (it mod len) 0) as [E2|E2], (Z.eqb_spec it (e * len)) as [E3|E3];
    try reflexivity.
  - exfalso. apply E3, Hlast, E2.
  - exfalso. apply E2, Hlast, E3.
Qed.

Lemma save_model_epoch_schedule_witness :
  save_model sample_options 5 500 100 true = Saves "models/G_epoch5_bs8.pth".
Proof.
  rewrite (save_model_epoch_schedule sample_options 10 100 5 500).
  - reflexivity.
  - reflexivity.
  - reflexivity.
  - apply in_calls. exists 4, 99. repeat split; lia || reflexivity.
Defined.

(** X24: a generator without the attribute [module] (a network that is not
    wrapped in [DataParallel]) is never saved: every call of [save_model] that
    would write a checkpoint raises [AttributeError] instead, and the calls
    that write nothing or raise another exception behave the same. *)
Theorem save_model_without_module (opt : options) (e it len : Z) :
  save_model opt e it len false =
    match save_model opt e it len true with
    | Saves _ => Raises AttributeError
    | r => r
    end.
Proof.
  destruct (string_dec (save_mode opt) "epoch") as [E1|E1];
    [|destruct (string_dec (save_mode opt) "iter") as [E2|E2]].
  - rewrite !(save_model_epoch_mode _ _ _ _ _ E1).
    destruct (modulo e (save_by_epoch opt)) as [r|]; [|reflexivity].
    destruct (r =? 0); [|reflexivity].
    destruct (modulo it len) as [r'|]; [|reflexivity].
    destruct (r' =? 0); reflexivity.
  - rewrite !(save_model_iter_mode _ _ _ _ _ E2).
    destruct (modulo it (save_by_iter opt)) as [r|]; [|reflexivity].
    destruct (r =? 0); reflexivity.
  - rewrite !(save_model_other_mode _ _ _ _ _ E1 E2). reflexivity.
Qed.

Lemma join_name_inj (a n1 n2 : string) :
  prefix "/" n1 = false -> prefix "/" n2 = false -> join a n1 = join a n2 -> n1 = n2.
Proof.
  intros H1 H2 H. destruct (join_relative a n1 H1) as (s & E1 & E2).
  rewrite E1, (E2 n2 H2) in H. exact (append_inv_head _ _ _ H).
Qed.

Lemma name_inj (p : string) (a b bs : Z) :
  (p ++ format_d a ++ "_bs" ++ format_d bs ++ ".pth" =
   p ++ format_d b ++ "_bs" ++ format_d bs ++ ".pth")%string -> a = b.
Proof.
  intros H. apply append_inv_head in H. apply append_inv_tail in H.
  exact (format_d_inj _ _ H).
Qed.

(** X25: two calls of [save_model] that write to the same path were made for
    the same epoch (with [save_mode = 'epoch']) or for the same iteration
    (with [save_mode = 'iter']): no checkpoint of another epoch or iteration
    is ever overwritten. *)
Theorem save_model_paths_distinct (opt : options) (e1 it1 len1 e2 it2 len2 : Z)
    (m1 m2 : bool) (path : string) :
  save_model opt e1 it1 len1 m1 = Saves path ->
  save_model opt e2 it2 len2 m2 = Saves path ->
  (save_mode opt = "epoch"%string -> e1 = e2) /\
  (save_mode opt = "iter"%string -> it1 = it2).
Proof.
  intros H1 H2. split; intros Hm.
  - rewrite (save_model_epoch_mode _ _ _ _ _ Hm) in H1.
    rewrite (save_model_epoch_mode _ _ _ _ _ Hm) in H2.
    destruct (modulo e1 (save_by_epoch opt)) as [r1|]; [|discriminate].
    destruct (r1 =? 0); [|discriminate].
    destruct (modulo it1 len1) as [r1'|]; [|discriminate].
    destruct (r1' =? 0); [|discriminate].
    destruct m1; [|discriminate].
    destruct (modulo e2 (save_by_epoch opt)) as [r2|]; [|discriminate].
    destruct (r2 =? 0); [|discriminate].
    destruct (modulo it2 len2) as [r2'|]; [|discriminate].
    destruct (r2' =? 0); [|discriminate].
    destruct m2; [|discriminate].
    injection H1 as H1. injection H2 as H2. rewrite <- H2 in H1.
    apply join_name_inj in H1; try apply epoch_name_relative.
    exact (name_inj "G_epoch" _ _ _ H1).
  - rewrite (save_model_iter_mode _ _ _ _ _ Hm) in H1.
    rewrite (save_model_iter_mode _ _ _ _ _ Hm) in H2.
    destruct (modulo it1 (save_by_iter opt)) as [r1|]; [|discriminate].
    destruct (r1 =? 0); [|discriminate].
    destruct m1; [|discriminate].
    destruct (modulo it2 (save_by_iter opt)) as [r2|]; [|discriminate].
    destruct (r2 =? 0); [|discriminate].
    destruct m2; [|discriminate].
    injection H1 as H1. injection H2 as H2. rewrite <- H2 in H1.
    apply join_name_inj in H1; try apply iter_name_relative.
    exact (name_inj "G_iter" _ _ _ H1).
Qed.

Lemma save_model_paths_distinct_witness :
  (save_mode sample_options = "epoch"%string -> 5 = 5) /\
  (save_mode sample_options = "iter"%string -> 500 = 500).
Proof.
  apply (save_model_paths_distinct sample_options 5 500 100 5 500 50 true true
           "models/G_epoch5_bs8.pth"); reflexivity.
Defined.

(** *** The learning rate *)

Lemma Qmult_le_left (a b c : Q) : (0 <= a)%Q -> (b <= c)%Q -> (a * b <= a * c)%Q.
Proof.
  intros Ha Hbc. rewrite (Qmult_comm a b), (Qmult_comm a c).
  now apply Qmult_le_compat_r.
Qed.

Lemma power_le_one (f : Q) (n : Z) :
  (0 <= f)%Q -> (f <= 1)%Q -> 0 <= n -> (0 <= Qpower f n /\ Qpower f n <= 1)%Q.
Proof.
  intros H0 H1 Hn. split; [now apply Qpower.Qpower_0_le|].
  revert n Hn. apply natlike_ind.
  - cbn. lra.
  - intros n Hn IH. unfold Z.succ. rewrite Qpower.Qpower_plus' by lia.
    change (Qpower f 1) with f.
    pose proof (Qpower.Qpower_0_le f n H0) as Hp.
    assert (Qpower f n * f <= Qpower f n * 1)%Q as Hm.
    { apply Qmult_le_left; assumption. }
    lra.
Qed.

Lemma power_antitone (f : Q) (n m : Z) :
  (0 <= f)%Q -> (f <= 1)%Q -> 0 <= n <= m -> (Qpower f m <= Qpower f n)%Q.
Proof.
  intros H0 H1 Hnm. destruct (Z.eq_dec n m) as [->|Hne]; [lra|].
  replace m with (n + (m - n)) by lia. rewrite Qpower.Qpower_plus' by lia.
  pose proof (Qpower.Qpower_0_le f n H0) as Hp.
  destruct (power_le_one f (m - n) H0 H1 ltac:(lia)) as [_ Hq].
  assert (Qpower f n * Qpower f (m - n) <= Qpower f n * 1)%Q as Hm.
  { apply Qmult_le_left; assumption. }
  lra.
Qed.

Section Decay.
Variable others : Type.

(** X26: with [lr_decrease_mode = 'epoch'], a positive [lr_decrease_epoch], a
    learning rate that is not negative and a factor between 0 and 1,
    [adjust_learning_rate] never raises for an epoch number that is not
    negative, gives every parameter group the same learning rate and changes
    nothing else in a group; in exact arithmetic the rate set for a later
    epoch is at most the rate set for an earlier one, and at most [opt.lr]. *)
Theorem adjust_learning_rate_decays (opt : options) (e1 e2 it1 it2 : Z)
    (param_groups : list (param_group others)) :
  lr_decrease_mode opt = "epoch"%string ->
  0 < lr_decrease_epoch opt ->
  (0 <= lr opt)%Q ->
  (0 <= lr_decrease_factor opt)%Q -> (lr_decrease_factor opt <= 1)%Q ->
  0 <= e1 <= e2 ->
  exists lr1 lr2 : Q,
    adjust_learning_rate others opt e1 it1 param_groups
      = Some (set_lr others lr1 param_groups) /\
    adjust_learning_rate others opt e2 it2 param_groups
      = Some (set_lr others lr2 param_groups) /\
    (lr2 <= lr1)%Q /\ (lr1 <= lr opt)%Q.
Proof.
  intros Hm Hk Hlr Hf0 Hf1 He.
  set (n1 := e1 / lr_decrease_epoch opt). set (n2 := e2 / lr_decrease_epoch opt).
  assert (Hn : 0 <= n1 <= n2).
  { split; [apply Z.div_pos; lia | apply Z.div_le_mono; lia]. }
  assert (Hcall : forall e it, 0 <= e ->
    adjust_learning_rate others opt e it param_groups =
      Some (set_lr others (lr opt * Qpower (lr_decrease_factor opt) (e / lr_decrease_epoch opt))%Q
              param_groups)).
  { intros e it Hpos. unfold adjust_learning_rate. rewrite Hm.
    change (String.eqb "epoch" "epoch") with true.
    change (String.eqb "epoch" "iter") with false. cbv iota.
    unfold floordiv. destruct (Z.eqb_spec (lr_decrease_epoch opt) 0) as [E|_]; [lia|].
    unfold power.
    destruct (Z.ltb_spec (e / lr_decrease_epoch opt) 0) as [E|_].
    - exfalso. assert (0 <= e / lr_decrease_epoch opt) by (apply Z.div_pos; lia). lia.
    - reflexivity. }
  exists (lr opt * Qpower (lr_decrease_factor opt) n1)%Q,
         (lr opt * Qpower (lr_decrease_factor opt) n2)%Q.
  split; [apply Hcall; lia|]. split; [apply Hcall; lia|].
  pose proof (power_antitone _ n1 n2 Hf0 Hf1 Hn) as Ha.
  destruct (power_le_one _ n1 Hf0 Hf1 (proj1 Hn)) as [_ Hb].
  split.
  - apply Qmult_le_left; assumption.
  - assert (lr opt * Qpower (lr_decrease_factor opt) n1 <= lr opt * 1)%Q as Hc.
    { apply Qmult_le_left; assumption. }
    lra.
Qed.

End Decay.

Lemma adjust_learning_rate_decays_witness :
  exists lr1 lr2 : Q,
    adjust_learning_rate unit sample_options 10 1000 [mkGroup unit 1 tt]
      = Some (set_lr unit lr1 [mkGroup unit 1 tt]) /\
    adjust_learning_rate unit sample_options 25 2500 [mkGroup unit 1 tt]
      = Some (set_lr unit lr2 [mkGroup unit 1 tt]) /\
    (lr2 <= lr1)%Q /\ (lr1 <= lr sample_options)%Q.
Proof.
  apply (adjust_learning_rate_decays unit sample_options 10 25 1000 2500 [mkGroup unit 1 tt]).
  - reflexivity.
  - reflexivity.
  - discriminate.
  - discriminate.
  - discriminate.
  - lia.
Defined.

End TrainingFacts.

Module TextFiles.
Import Lists.
Import String Ascii.
Import TextIO.

Lemma string_app_assoc (a b c : string) : ((a ++ b) ++ c = a ++ (b ++ c))%string.
Proof. induction a as [|x a IH]; cbn; [reflexivity | now rewrite IH]. Qed.

Lemma string_app_nil_r (a : string) : (a ++ "")%string = a.
Proof. induction a as [|x a IH]; cbn; [reflexivity | now rewrite IH]. Qed.

Lemma has_char_append (c : ascii) (a b : string) :
  has_char c (a ++ b) = has_char c a || has_char c b.
Proof.
  induction a as [|x a IH]; cbn; [reflexivity|]. now rewrite IH, orb_assoc.
Qed.

Lemma lines_text_cons (x : string) (content : list string) :
  lines_text (x :: content) = (x ++ String LF (lines_text content))%string.
Proof.
  unfold lines_text. cbn [map]. destruct content as [|y content].
  - cbn. reflexivity.
  - cbn [map String.concat]. rewrite string_app_assoc. cbn. 
    rewrite string_app_assoc. reflexivity.
Qed.

Lemma written_text (content : list string) (start : string) :
  fold_left (fun file line => (file ++ (line ++ String LF ""))%string) content start
  = (start ++ lines_text content)%string.
Proof.
  revert start. induction content as [|x content IH]; intros start.
  - cbn. now rewrite string_app_nil_r.
  - cbn [fold_left]. rewrite IH, lines_text_cons, !string_app_assoc. reflexivity.
Qed.

Lemma translate_line (x rest : string) :
  has_char CR x = false ->
  translate (x ++ String LF rest) = (x ++ String LF (translate rest))%string.
Proof.
  induction x as [|c x IH]; intros H.
  - reflexivity.
  - cbn in H. apply orb_false_elim in H. destruct H as [Hc Hx].
    cbn [append translate]. rewrite Hc, (IH Hx). reflexivity.
Qed.

Lemma translate_one_line (x : string) : has_char CR x = false -> translate x = x.
Proof.
  induction x as [|c x IH]; intros H; [reflexivity|].
  cbn in H. apply orb_false_elim in H. destruct H as [Hc Hx].
  cbn [translate]. now rewrite Hc, (IH Hx).
Qed.

Lemma readlines_line (x rest : string) :
  has_char LF x = false ->
  readlines (x ++ String LF rest) = (x ++ String LF "")%string :: readlines rest.
Proof.
  induction x as [|c x IH]; intros H.
  - reflexivity.
  - cbn in H. apply orb_false_elim in H. destruct H as [Hc Hx].
    cbn [append readlines]. rewrite Hc, (IH Hx). reflexivity.
Qed.

Lemma readlines_last (x : string) (c : ascii) :
  has_char LF (x ++ String c "") = false ->
  readlines (x ++ String c "") = [(x ++ String c "")%string].
Proof.
  induction x as [|d x IH]; intros H.
  - cbn in H. rewrite orb_false_r in H. cbn. now rewrite H.
  - cbn in H. apply orb_false_elim in H. destruct H as [Hd Hx].
    cbn [append readlines]. rewrite Hd, (IH Hx). reflexivity.
Qed.

Lemma drop_last_snoc (x : string) (c : ascii) : drop_last (x ++ String c "") = x.
Proof.
  unfold drop_last. induction x as [|d x IH]; [reflexivity|].
  cbn [append String.length]. rewrite Nat.sub_succ, Nat.sub_0_r.
  assert (L : forall y : string, String.length (y ++ String c "") = S (String.length y)).
  { induction y as [|e y IHy]; cbn; [reflexivity | now rewrite IHy]. }
  rewrite L. cbn [substring]. f_equal.
  rewrite L, Nat.sub_succ, Nat.sub_0_r in IH. exact IH.
Qed.

(** The lines read from a text that starts with whole lines. *)
Lemma read_whole_lines (content : list string) (rest : string) :
  Forall one_line content ->
  map drop_last (readlines (translate (lines_text content ++ rest)))
  = (content ++ map drop_last (readlines (translate rest)))%list.
Proof.
  induction 1 as [|x content [Hlf Hcr] _ IH].
  - reflexivity.
  - rewrite lines_text_cons, string_app_assoc. cbn [append].
    rewrite (translate_line _ _ Hcr), (readlines_line _ _ Hlf).
    cbn [map List.app]. rewrite drop_last_snoc, IH. reflexivity.
Qed.

Lemma read_after_write (fs : files) (filename text : string) :
  text_readlines (write_file fs filename text) filename
  = map drop_last (readlines (translate text)).
Proof. unfold text_readlines, write_file. now rewrite String.eqb_refl. Qed.

(** X27: the lines written by [text_save] to a new or truncated file are
    the lines that [text_readlines] returns for it, when no line holds a line
    break. *)
Theorem text_save_readlines (fs : files) (content : list string) (filename : string)
    (m : mode) :
  Forall one_line content ->
  (m = Append -> fs filename = None) ->
  text_readlines (text_save fs content filename m) filename = content.
Proof.
  intros Hc Hm. unfold text_save. rewrite read_after_write, written_text.
  assert (E : open_write fs filename m = ""%string).
  { destruct m; [|reflexivity]. cbn. now rewrite Hm. }
  rewrite E. cbn [append].
  rewrite <- (string_app_nil_r (lines_text content)), (read_whole_lines _ _ Hc).
  cbn. apply app_nil_r.
Qed.

Lemma text_save_readlines_witness :
  text_readlines (text_save no_files ["a.mat"; ""; "b c"]%string "list.txt" Append) "list.txt"
  = ["a.mat"; ""; "b c"]%string.
Proof.
  apply text_save_readlines.
  - repeat constructor.
  - reflexivity.
Defined.

(** X28: in the default mode ['a'], [text_save] adds to the file: after a
    second save to a file that a first save created, [text_readlines] returns
    the lines of both, in order. *)
Theorem text_save_appends (fs : files) (first second : list string) (filename : string)
    (m : mode) :
  Forall one_line first -> Forall one_line second ->
  (m = Append -> fs filename = None) ->
  text_readlines (text_save (text_save fs first filename m) second filename Append) filename
  = (first ++ second)%list.
Proof.
  intros H1 H2 Hm. unfold text_save at 1. rewrite read_after_write, written_text.
  assert (E : open_write (text_save fs first filename m) filename Append
              = lines_text first).
  { unfold open_write, text_save, write_file. rewrite String.eqb_refl, written_text.
    destruct m; cbn; [now rewrite Hm|reflexivity]. }
  rewrite E, (read_whole_lines _ _ H1).
  rewrite <- (string_app_nil_r (lines_text second)), (read_whole_lines _ _ H2).
  cbn. now rewrite app_nil_r.
Qed.

Lemma text_save_appends_witness :
  text_readlines
    (text_save (text_save no_files ["a"]%string "list.txt" Append) ["b"; "c"]%string
       "list.txt" Append) "list.txt"
  = ["a"; "b"; "c"]%string.
Proof.
  apply (text_save_appends no_files ["a"]%string ["b"; "c"]%string "list.txt" Append).
  - repeat constructor.
  - repeat constructor.
  - reflexivity.
Defined.

(** X29: [text_readlines] removes the last character of every line, also
    of a last line that does not end with ['\n']: for a file whose text ends
    with the characters [last] and one more character [c] that is no line
    break, the last entry of the result is [last], without [c]. *)
Theorem text_readlines_unterminated (fs : files) (filename : string)
    (content : list string) (last : string) (c : ascii) :
  fs filename = Some (lines_text content ++ (last ++ String c ""))%string ->
  Forall one_line content ->
  one_line (last ++ String c "") ->
  text_readlines fs filename = (content ++ [last])%list.
Proof.
  intros Hf Hc [Hlf Hcr]. unfold text_readlines. rewrite Hf.
  rewrite (read_whole_lines _ _ Hc), (translate_one_line _ Hcr), (readlines_last _ _ Hlf).
  cbn [map]. now rewrite drop_last_snoc.
Qed.

Lemma text_readlines_unterminated_witness :
  text_readlines (write_file no_files "list.txt" (String "a" (String LF "bcd"))) "list.txt"
  = ["a"; "bc"]%string.
Proof.
  apply (text_readlines_unterminated _ "list.txt" ["a"%string] "bc" "d").
  - reflexivity.
  - repeat constructor.
  - split; reflexivity.
Defined.

End TextFiles.

Module DatasetFacts.
Import Lists.
Import String.
Import Datasets.

(** X30: [create_dataset_val] raises [UnboundLocalError] for the data type
    ['apple'], which [create_dataset] supports whatever the process type is;
    for every other data type the two factories pick the same dataset module
    and fail on the same options. *)
Theorem create_dataset_val_agrees (data_type process_type : string) :
  create_dataset "apple" process_type = Some apple_set /\
  create_dataset_val data_type process_type =
    if String.eqb data_type "apple" then None
    else create_dataset data_type process_type.
Proof.
  split; [reflexivity|].
  unfold create_dataset_val, create_dataset.
  destruct (String.eqb_spec data_type "apple") as [->|Hne]; reflexivity.
Qed.

End DatasetFacts.
